(** * GenAgent: the agent runtime's core, embedded in Rocq

    A shallow embedding of the TypeScript sources of the agent runtime:
    - tool-policy.ts         (glob policy over tool names)
    - command-queue.ts       (lane scheduler)
    - context/pruning.ts     (three-layer context pruner)
    - context/compaction.ts  (summarisation with fallback)
    - session-tool-result-guard.ts (tool_use / tool_result pairing guard)
    - agent-loop.ts, agent.ts (turn loop and run controller)

    Conventions.  A JavaScript string is a [string]: a sequence of code
    units, of which the embedding covers the range 0..255 (Latin-1).  An
    integer-valued JavaScript number is a [Z]; a ratio such as
    [softTrimRatio] is a [Q] and is compared exactly.  Asynchronous code is
    written in explicit state-passing style; whatever the environment
    decides (the model's stream, tool outcomes, steering input, the clock,
    cancellation) is read from an oracle indexed by the number of
    environment interactions made so far. *)

From Stdlib Require Import List String Ascii Bool Arith ZArith NArith QArith Qround Lia Lra.
Import ListNotations.

Close Scope Q_scope.
Open Scope string_scope.
Open Scope list_scope.
Open Scope nat_scope.

(** String concatenation, written apart from list concatenation. *)
Notation "a +++ b" := (String.append a b) (at level 60, right associativity).

(* ================================================================== *)
(** ** JavaScript string primitives *)
(* ================================================================== *)

Module JsString.

Definition code (c : ascii) : nat := nat_of_ascii c.

(** [String.prototype.toLowerCase] on the code units 0..255: A-Z and the
    Latin-1 capitals U+00C0..U+00DE (U+00D7 excepted) move up by 32. *)
Definition lower_char (c : ascii) : ascii :=
  let n := code c in
  if ((65 <=? n) && (n <=? 90)) || ((192 <=? n) && (n <=? 222) && negb (n =? 215))
  then ascii_of_nat (n + 32) else c.

Fixpoint toLowerCase (s : string) : string :=
  match s with
  | EmptyString => EmptyString
  | String c r => String (lower_char c) (toLowerCase r)
  end.

(** White space and line terminators stripped by [trim]:
    TAB, LF, VT, FF, CR, SP and NBSP. *)
Definition is_space (c : ascii) : bool :=
  let n := code c in
  ((9 <=? n) && (n <=? 13)) || (n =? 32) || (n =? 160).

(** The characters a RegExp dot refuses (no [s] flag): LF and CR. *)
Definition is_line_terminator (c : ascii) : bool :=
  let n := code c in (n =? 10) || (n =? 13).

Fixpoint trimStart (s : string) : string :=
  match s with
  | EmptyString => EmptyString
  | String c r => if is_space c then trimStart r else s
  end.

Fixpoint trimEnd (s : string) : string :=
  match s with
  | EmptyString => EmptyString
  | String c r =>
      let r' := trimEnd r in
      if is_space c && (r' =? EmptyString)%string then EmptyString else String c r'
  end.

Definition trim (s : string) : string := trimEnd (trimStart s).

(** [s.startsWith(p)] *)
Fixpoint startsWith (s p : string) : bool :=
  match p with
  | EmptyString => true
  | String a p' =>
      match s with
      | EmptyString => false
      | String b s' => (a =? b)%char && startsWith s' p'
      end
  end.

(** [hay.includes(needle)] *)
Fixpoint includes (hay needle : string) : bool :=
  startsWith hay needle ||
  match hay with
  | EmptyString => false
  | String _ r => includes r needle
  end.

(** [s.slice(0, n)] and [s.slice(n)] for [0 <= n]. *)
Fixpoint take (n : nat) (s : string) : string :=
  match n, s with
  | S k, String c r => String c (take k r)
  | _, _ => EmptyString
  end.

Fixpoint drop (n : nat) (s : string) : string :=
  match n, s with
  | S k, String _ r => drop k r
  | _, _ => s
  end.

Definition len (s : string) : Z := Z.of_nat (String.length s).

(** [s.repeat(n)] *)
Fixpoint repeat (s : string) (n : nat) : string :=
  match n with
  | O => EmptyString
  | S k => s +++ repeat s k
  end.

(** [parts.join(sep)] *)
Fixpoint join (sep : string) (parts : list string) : string :=
  match parts with
  | [] => EmptyString
  | [p] => p
  | p :: rest => p +++ sep +++ join sep rest
  end.

(** Decimal rendering of a non-negative integer, as template literals
    and [String(n)] produce it.  The fuel is the binary logarithm of the
    number, which is never less than its number of decimal digits less
    one. *)
Definition digit (n : N) : ascii := ascii_of_N (48 + n).

Fixpoint digits_acc (fuel : nat) (n : N) (acc : string) : string :=
  let acc' := String (digit (n mod 10)) acc in
  match fuel with
  | O => acc'
  | S f => if (n <? 10)%N then acc' else digits_acc f (n / 10) acc'
  end.

Definition string_of_N (n : N) : string :=
  digits_acc (N.to_nat (N.log2 n)) n EmptyString.

Definition string_of_Z (z : Z) : string :=
  match z with
  | Zneg p => "-" +++ string_of_N (Npos p)
  | _ => string_of_N (Z.to_N z)
  end.

Definition string_of_nat (n : nat) : string := string_of_N (N.of_nat n).

End JsString.

(* ================================================================== *)
(** ** The transcript data model (session.ts) *)
(* ================================================================== *)

Module Session.

Inductive Role : Type := user | assistant.

(** The arguments object of a tool call: its keys in insertion order,
    each value as its JSON text. *)
Definition Input : Type := list (string * string).

(** Content blocks, by their [type] tag. *)
Inductive ContentBlock : Type :=
| text (text : string)
| tool_use (id : string) (name : string) (input : Input)
| tool_result (tool_use_id : string) (name : option string) (content : string).

(** [Message.content]: a raw string or a sequence of blocks. *)
Inductive Content : Type :=
| Str (s : string)
| Blocks (blocks : list ContentBlock).

Record Message : Type := {
  role : Role;
  content : Content;
  timestamp : Z
}.

Definition role_name (r : Role) : string :=
  match r with user => "user" | assistant => "assistant" end.

Definition is_assistant (m : Message) : bool :=
  match role m with assistant => true | user => false end.

Definition is_user (m : Message) : bool :=
  match role m with user => true | assistant => false end.

End Session.

(* ================================================================== *)
(** ** A reference size estimator (context/tokens.ts) *)
(* ================================================================== *)

Module TokensModel.
Import Session.

Definition CHARS_PER_TOKEN_ESTIMATE : Z := 4.

Definition blockChars (b : ContentBlock) : Z :=
  match b with
  | text t => JsString.len t
  | tool_use _ name input =>
      JsString.len name +
      fold_right (fun kv acc => JsString.len (fst kv) + JsString.len (snd kv) + acc) 0 input
  | tool_result _ _ c => JsString.len c
  end%Z.

(** Modelled from the spec: context/tokens.ts is not among the sources.
    The specification only fixes four characters per token; this
    estimator counts the characters a message carries.  The theorems
    below hold for any estimator (with stated hypotheses where they need
    some); this one instantiates them on concrete inputs. *)
Definition estimateMessageChars (m : Message) : Z :=
  match content m with
  | Str s => JsString.len s
  | Blocks bs => fold_right (fun b acc => blockChars b + acc) 0 bs
  end%Z.

Definition estimateMessageTokens (m : Message) : Z :=
  ((estimateMessageChars m + CHARS_PER_TOKEN_ESTIMATE - 1) / CHARS_PER_TOKEN_ESTIMATE)%Z.

End TokensModel.

(* ================================================================== *)
(** ** The fragment of RegExp the sources build *)
(* ================================================================== *)

Module Regex.

(** The characters both sources escape: the class [[.*+?^${}()|[\]\\]]. *)
Definition is_syntax_char (c : ascii) : bool :=
  existsb (Ascii.eqb c)
    ["."; "*"; "+"; "?"; "^"; "$"; "{"; "}"; "("; ")"; "|"; "["; "]"; "\"]%char.

(** A compiled pattern: a literal character, or [.*]. *)
Inductive tok : Type :=
| Lit (c : ascii)
| AnyStar.

(** [new RegExp(src)] for sources of the shape [^ body $], where the body
    is made of escaped syntax characters, [.*] and plain characters.
    [parse] reads what follows the leading anchor; any other source is
    outside the fragment and yields [None]. *)
Fixpoint parse (s : string) : option (list tok) :=
  match s with
  | EmptyString => None
  | String c r =>
      if (c =? "$")%char then
        match r with EmptyString => Some [] | _ => None end
      else if (c =? "\")%char then
        match r with
        | String d r' =>
            if is_syntax_char d then option_map (cons (Lit d)) (parse r') else None
        | EmptyString => None
        end
      else if (c =? ".")%char then
        match r with
        | String d r' =>
            if (d =? "*")%char then option_map (cons AnyStar) (parse r') else None
        | EmptyString => None
        end
      else if is_syntax_char c then None
      else option_map (cons (Lit c)) (parse r)
  end.

Definition compile (src : string) : option (list tok) :=
  match src with
  | String c r => if (c =? "^")%char then parse r else None
  | EmptyString => None
  end.

(** [.*] followed by the continuation [k]: greedy or not, the match
    exists iff some run of non-line-terminators can be skipped. *)
Fixpoint star (k : string -> bool) (s : string) : bool :=
  k s ||
  match s with
  | String d s' => negb (JsString.is_line_terminator d) && star k s'
  | EmptyString => false
  end.

(** Whole-input match of an anchored pattern. *)
Fixpoint matches (r : list tok) : string -> bool :=
  match r with
  | [] => fun s => match s with EmptyString => true | _ => false end
  | Lit c :: r' =>
      fun s => match s with
               | String d s' => (c =? d)%char && matches r' s'
               | EmptyString => false
               end
  | AnyStar :: r' => star (matches r')
  end.

(** [re.test(s)]; a source outside the fragment tests nothing. *)
Definition test (re : option (list tok)) (s : string) : bool :=
  match re with
  | Some r => matches r s
  | None => false
  end.

End Regex.

(* ================================================================== *)
(** ** tool-policy.ts *)
(* ================================================================== *)

Module ToolPolicy.

Record ToolPolicy : Type := {
  allow : option (list string);
  deny : option (list string)
}.

Inductive CompiledPattern : Type :=
| KindAll
| KindExact (value : string)
| KindRegex (value : option (list Regex.tok)).

Definition normalizeToolName (name : string) : string :=
  let trimmed := JsString.toLowerCase (JsString.trim name) in
  if (trimmed =? "apply-patch")%string then "apply_patch"
  else if (trimmed =? "bash")%string then "exec"
  else trimmed.

(** [normalized.replace(/[.*+?^${}()|[\]\\]/g, "\\$&")] *)
Fixpoint escapeSyntax (s : string) : string :=
  match s with
  | EmptyString => EmptyString
  | String c r =>
      if Regex.is_syntax_char c then String "\" (String c (escapeSyntax r))
      else String c (escapeSyntax r)
  end.

(** [escaped.replaceAll("\\*", ".*")]: leftmost, non-overlapping. *)
Fixpoint replaceEscapedStar (s : string) : string :=
  match s with
  | EmptyString => EmptyString
  | String a r =>
      match r with
      | String b r' =>
          if (a =? "\")%char && (b =? "*")%char
          then String "." (String "*" (replaceEscapedStar r'))
          else String a (replaceEscapedStar r)
      | EmptyString => String a EmptyString
      end
  end.

Definition regexSource (normalized : string) : string :=
  "^" +++ replaceEscapedStar (escapeSyntax normalized) +++ "$".

Definition compilePattern (pattern : string) : CompiledPattern :=
  let normalized := normalizeToolName pattern in
  if (normalized =? EmptyString)%string then KindExact EmptyString
  else if (normalized =? "*")%string then KindAll
  else if negb (JsString.includes normalized "*") then KindExact normalized
  else KindRegex (Regex.compile (regexSource normalized)).

Definition compilePatterns (patterns : list string) : list CompiledPattern :=
  map compilePattern patterns.

Definition patternMatches (name : string) (pattern : CompiledPattern) : bool :=
  match pattern with
  | KindAll => true
  | KindExact value => (name =? value)%string
  | KindRegex value => Regex.test value name
  end.

Definition matchesAny (name : string) (patterns : list CompiledPattern) : bool :=
  existsb (patternMatches name) patterns.

Definition orEmpty (l : option (list string)) : list string :=
  match l with Some x => x | None => [] end.

Definition isToolAllowed (name : string) (policy : option ToolPolicy) : bool :=
  match policy with
  | None => true
  | Some policy =>
      let normalized := normalizeToolName name in
      let deny' := compilePatterns (orEmpty (deny policy)) in
      let allow' := compilePatterns (orEmpty (allow policy)) in
      if matchesAny normalized deny' then false
      else if (List.length allow' =? 0)%nat then true
      else if matchesAny normalized allow' then true
      else if (normalized =? "apply_patch")%string && matchesAny "exec" allow' then true
      else false
  end.

End ToolPolicy.

(** The glob of the specification, against which the policy is checked. *)
Module GlobSpec.

(** The glob of the specification: [*] stands for any run of characters
    accepted by [ok], every other character for itself. *)
Inductive glob (ok : ascii -> bool) : string -> string -> Prop :=
| glob_nil : glob ok EmptyString EmptyString
| glob_char c p s : c <> "*"%char -> glob ok p s -> glob ok (String c p) (String c s)
| glob_star_skip p s : glob ok p s -> glob ok (String "*" p) s
| glob_star_eat c p s : ok c = true -> glob ok (String "*" p) s -> glob ok (String "*" p) (String c s).

Definition any_char (_ : ascii) : bool := true.
Definition not_line_terminator (c : ascii) : bool := negb (JsString.is_line_terminator c).

Fixpoint forall_chars (f : ascii -> bool) (s : string) : bool :=
  match s with
  | EmptyString => true
  | String c r => f c && forall_chars f r
  end.

Fixpoint globTokens (p : string) : list Regex.tok :=
  match p with
  | EmptyString => []
  | String c r => (if (c =? "*")%char then Regex.AnyStar else Regex.Lit c) :: globTokens r
  end.

End GlobSpec.

(* ================================================================== *)
(** ** command-queue.ts *)
(* ================================================================== *)

Module CommandQueue.

(** A task is a closure; the embedding names it by a number chosen by the
    caller of [enqueueInLane]. *)
Definition TaskId : Type := nat.

Record QueueEntry : Type := {
  task : TaskId;
  enqueuedAt : Z;
  hasOnWait : bool;
  warnAfterMs : Z
}.

Record LaneState : Type := {
  lane : string;
  active : Z;
  queue : list QueueEntry;
  maxConcurrent : Z
}.

Record EnqueueOpts : Type := {
  opt_warnAfterMs : option Z;
  opt_onWait : bool
}.

(** The module-level [lanes] map together with what the JavaScript
    runtime holds for it: the started tasks that have not settled yet.
    The three logs are ghost state: they record the order of the calls. *)
Record Sched : Type := {
  lanes : list LaneState;
  inflight : list (string * TaskId);
  enqueueLog : list (string * TaskId);
  startLog : list (string * TaskId);
  waitLog : list (TaskId * Z * Z)
}.

Definition emptySched : Sched :=
  {| lanes := []; inflight := []; enqueueLog := []; startLog := []; waitLog := [] |}.

Definition created (name : string) : LaneState :=
  {| lane := name; active := 0; queue := []; maxConcurrent := 1 |}.

(** [getLaneState]: the registered state, or a fresh one. *)
Definition getLaneState (ls : list LaneState) (name : string) : LaneState :=
  match find (fun l => (lane l =? name)%string) ls with
  | Some l => l
  | None => created name
  end.

(** Writing a lane state back: the state objects are mutated in place,
    and a state made by [getLaneState] is registered under its name. *)
Fixpoint setLane (ls : list LaneState) (st : LaneState) : list LaneState :=
  match ls with
  | [] => [st]
  | l :: r => if (lane l =? lane st)%string then st :: r else l :: setLane r st
  end.

(** The loop of [drainLane]: pops while [active < maxConcurrent].
    Returns the counter, what stays queued, the entries started (in
    order) and the [onWait] calls made. *)
Fixpoint drainQueue (act maxc now : Z) (q : list QueueEntry)
  : Z * list QueueEntry * list QueueEntry * list (TaskId * Z * Z) :=
  match q with
  | [] => (act, [], [], [])
  | entry :: rest =>
      if (act <? maxc)%Z then
        let waitMs := (now - enqueuedAt entry)%Z in
        let warn :=
          if (waitMs >? warnAfterMs entry)%Z && hasOnWait entry
          then [(task entry, waitMs, Z.of_nat (List.length rest))] else [] in
        let '(act', q', started, waits) := drainQueue (act + 1)%Z maxc now rest in
        (act', q', entry :: started, warn ++ waits)
      else (act, q, [], [])
  end.

Definition drainState (s : Sched) (st : LaneState) (now : Z) : Sched :=
  let '(act', q', started, waits) := drainQueue (active st) (maxConcurrent st) now (queue st) in
  let st' := {| lane := lane st; active := act'; queue := q'; maxConcurrent := maxConcurrent st |} in
  let tagged := map (fun e => (lane st, task e)) started in
  {| lanes := setLane (lanes s) st';
     inflight := inflight s ++ tagged;
     enqueueLog := enqueueLog s;
     startLog := startLog s ++ tagged;
     waitLog := waitLog s ++ waits |}.

Definition drainLane (s : Sched) (name : string) (now : Z) : Sched :=
  drainState s (getLaneState (lanes s) name) now.

(** [setLaneConcurrency(lane, maxConcurrent)] *)
Definition setLaneConcurrency (s : Sched) (name : string) (maxc : Q) (now : Z) : Sched :=
  let st := getLaneState (lanes s) name in
  drainState s
    {| lane := lane st; active := active st; queue := queue st;
       maxConcurrent := Z.max 1 (Qfloor maxc) |} now.

(** [enqueueInLane(lane, task, opts)] *)
Definition enqueueInLane (s : Sched) (name : string) (t : TaskId) (opts : option EnqueueOpts)
    (now : Z) : Sched :=
  let st := getLaneState (lanes s) name in
  let entry :=
    {| task := t; enqueuedAt := now;
       hasOnWait := match opts with Some o => opt_onWait o | None => false end;
       warnAfterMs := match opts with
                      | Some {| opt_warnAfterMs := Some w |} => w
                      | _ => 2000%Z
                      end |} in
  let s' := {| lanes := lanes s; inflight := inflight s;
               enqueueLog := enqueueLog s ++ [(lane st, t)];
               startLog := startLog s; waitLog := waitLog s |} in
  drainState s'
    {| lane := lane st; active := active st; queue := queue st ++ [entry];
       maxConcurrent := maxConcurrent st |} now.

Fixpoint removeFirst (x : string * TaskId) (l : list (string * TaskId)) : list (string * TaskId) :=
  match l with
  | [] => []
  | y :: r =>
      if ((fst x =? fst y)%string && (snd x =? snd y)%nat)%bool then r else y :: removeFirst x r
  end.

(** A started task settles (its promise resolves or rejects): both
    branches of the try/catch decrement the counter and drain again. *)
Definition settle (s : Sched) (name : string) (t : TaskId) (now : Z) : Sched :=
  let st := getLaneState (lanes s) name in
  let s' := {| lanes := lanes s; inflight := removeFirst (name, t) (inflight s);
               enqueueLog := enqueueLog s; startLog := startLog s; waitLog := waitLog s |} in
  drainState s'
    {| lane := lane st; active := (active st - 1)%Z; queue := queue st;
       maxConcurrent := maxConcurrent st |} now.

Definition resolveSessionLane (sessionKey : string) : string :=
  let cleaned := if (JsString.trim sessionKey =? EmptyString)%string
                 then "main" else JsString.trim sessionKey in
  if JsString.startsWith cleaned "session:" then cleaned else "session:" +++ cleaned.

Definition resolveGlobalLane (name : option string) : string :=
  match name with
  | Some l => if (JsString.trim l =? EmptyString)%string then "main" else JsString.trim l
  | None => "main"
  end.

(** [deleteLane]: refused while the lane is busy. *)
Definition deleteLane (s : Sched) (name : string) : Sched * bool :=
  match find (fun l => (lane l =? name)%string) (lanes s) with
  | None => (s, false)
  | Some st =>
      if (active st >? 0)%Z || negb (List.length (queue st) =? 0)%nat then (s, false)
      else ({| lanes := filter (fun l => negb (lane l =? name)%string) (lanes s);
               inflight := inflight s; enqueueLog := enqueueLog s;
               startLog := startLog s; waitLog := waitLog s |}, true)
  end.

(** The configuration phase: the calls of [setLaneConcurrency] made
    before any task is enqueued (one per constructed agent). *)
Fixpoint configure (cfg : list (string * Q)) (s : Sched) : Sched :=
  match cfg with
  | [] => s
  | (name, maxc) :: rest => configure rest (setLaneConcurrency s name maxc 0)
  end.

(** What happens afterwards: tasks are enqueued, started tasks settle. *)
Inductive step : Sched -> Sched -> Prop :=
| step_enqueue s name t opts now :
    step s (enqueueInLane s name t opts now)
| step_settle s name t now :
    In (name, t) (inflight s) ->
    step s (settle s name t now).

Inductive reachable (s0 : Sched) : Sched -> Prop :=
| reach_init : reachable s0 s0
| reach_step s s' : reachable s0 s -> step s s' -> reachable s0 s'.

(** Views of a lane: the tasks running, started, queued, enqueued. *)
Definition onLane (name : string) (l : list (string * TaskId)) : list TaskId :=
  map snd (filter (fun p => (fst p =? name)%string) l).

Definition running (s : Sched) (name : string) : list TaskId := onLane name (inflight s).
Definition started (s : Sched) (name : string) : list TaskId := onLane name (startLog s).
Definition enqueued (s : Sched) (name : string) : list TaskId := onLane name (enqueueLog s).
Definition queued (s : Sched) (name : string) : list TaskId :=
  map task (queue (getLaneState (lanes s) name)).

End CommandQueue.

(* ================================================================== *)
(** ** Session keys (session-key.ts) *)
(* ================================================================== *)

Module SessionKey.

Definition DEFAULT_AGENT_ID : string := "main".
Definition DEFAULT_MAIN_KEY : string := "main".

(** The class [[a-z0-9_-]]. *)
Definition isIdChar (c : ascii) : bool :=
  let n := JsString.code c in
  ((97 <=? n) && (n <=? 122)) || ((48 <=? n) && (n <=? 57)) || (n =? 95) || (n =? 45).

(** The class [[a-z0-9]] under the [i] flag: on the code units 0..255
    the flag adds A-Z and nothing else. *)
Definition isAlnumI (c : ascii) : bool :=
  let n := JsString.code c in
  ((97 <=? n) && (n <=? 122)) || ((65 <=? n) && (n <=? 90)) || ((48 <=? n) && (n <=? 57)).

Definition isIdCharI (c : ascii) : bool :=
  isAlnumI c || (JsString.code c =? 95) || (JsString.code c =? 45).

Fixpoint allChars (p : ascii -> bool) (s : string) : bool :=
  match s with
  | EmptyString => true
  | String c r => p c && allChars p r
  end.

(** [VALID_ID_RE.test(s)], for [/^[a-z0-9][a-z0-9_-]{0,63}$/i]. *)
Definition VALID_ID_RE (s : string) : bool :=
  match s with
  | EmptyString => false
  | String c r => isAlnumI c && (String.length r <=? 63) && allChars isIdCharI r
  end.

(** [s.replace(/[^a-z0-9_-]+/g, "-")]: every maximal run of other
    characters becomes one dash; [inRun] says the previous character
    belonged to such a run. *)
Fixpoint replaceInvalid (inRun : bool) (s : string) : string :=
  match s with
  | EmptyString => EmptyString
  | String c r =>
      if isIdChar c then String c (replaceInvalid false r)
      else if inRun then replaceInvalid true r
      else String "-" (replaceInvalid true r)
  end.

Definition isDash (c : ascii) : bool := (JsString.code c =? 45).

(** [s.replace(/^-+/, "")] *)
Fixpoint stripLeadingDashes (s : string) : string :=
  match s with
  | EmptyString => EmptyString
  | String c r => if isDash c then stripLeadingDashes r else s
  end.

(** [s.replace(/-+$/, "")] *)
Fixpoint stripTrailingDashes (s : string) : string :=
  match s with
  | EmptyString => EmptyString
  | String c r =>
      let r' := stripTrailingDashes r in
      if isDash c && (r' =? EmptyString)%string then EmptyString else String c r'
  end.

(** [value ?? ""] on an optional string. *)
Definition orEmpty (value : option string) : string :=
  match value with Some v => v | None => EmptyString end.

Definition truthy (s : string) : bool :=
  match s with EmptyString => false | _ => true end.

Definition normalizeToken (value : option string) : string :=
  JsString.toLowerCase (JsString.trim (orEmpty value)).

Definition normalizeAgentId (value : option string) : string :=
  let trimmed := JsString.trim (orEmpty value) in
  if negb (truthy trimmed) then DEFAULT_AGENT_ID
  else if VALID_ID_RE trimmed then JsString.toLowerCase trimmed
  else
    let cleaned :=
      JsString.take 64
        (stripTrailingDashes
           (stripLeadingDashes (replaceInvalid false (JsString.toLowerCase trimmed)))) in
    if truthy cleaned then cleaned else DEFAULT_AGENT_ID.

Definition normalizeMainKey (value : option string) : string :=
  let trimmed := JsString.trim (orEmpty value) in
  if truthy trimmed then JsString.toLowerCase trimmed else DEFAULT_MAIN_KEY.

Definition buildAgentMainSessionKey (agentId : string) (mainKey : option string) : string :=
  "agent:" +++ normalizeAgentId (Some agentId) +++ ":" +++ normalizeMainKey mainKey.

(** [s.split(":")] ; [cur] is the piece being read. *)
Fixpoint splitColonFrom (cur : string) (s : string) : list string :=
  match s with
  | EmptyString => [cur]
  | String c r =>
      if (JsString.code c =? 58) then cur :: splitColonFrom EmptyString r
      else splitColonFrom (cur +++ String c EmptyString) r
  end.

Definition splitColon (s : string) : list string := splitColonFrom EmptyString s.

(** [None] is [null]. *)
Definition parseAgentSessionKey (sessionKey : option string) : option (string * string) :=
  let raw := JsString.trim (orEmpty sessionKey) in
  if negb (truthy raw) then None
  else
    match filter truthy (splitColon raw) with
    | p0 :: p1 :: p2 :: more =>
        if negb (JsString.toLowerCase p0 =? "agent")%string then None
        else
          let agentId := normalizeAgentId (Some p1) in
          let rest := JsString.trim (JsString.join ":" (p2 :: more)) in
          if negb (truthy rest) then None else Some (agentId, rest)
    | _ => None
    end.

Definition isSubagentSessionKey (sessionKey : option string) : bool :=
  match parseAgentSessionKey sessionKey with
  | Some (_, rest) =>
      if negb (truthy rest) then false
      else JsString.startsWith (JsString.toLowerCase (JsString.trim rest)) "subagent:"
  | None => false
  end.

Definition resolveAgentIdFromSessionKey (sessionKey : option string) : string :=
  match parseAgentSessionKey sessionKey with
  | Some (agentId, _) => normalizeAgentId (Some agentId)
  | None => normalizeAgentId (Some DEFAULT_AGENT_ID)
  end.

Definition toAgentStoreSessionKey (agentId : string) (requestKey : option string)
    (mainKey : option string) : string :=
  let raw := JsString.trim (orEmpty requestKey) in
  if negb (truthy raw) || (normalizeToken (Some raw) =? DEFAULT_MAIN_KEY)%string
  then buildAgentMainSessionKey agentId mainKey
  else
    let lowered := JsString.toLowerCase raw in
    if JsString.startsWith lowered "agent:" then lowered
    else "agent:" +++ normalizeAgentId (Some agentId) +++ ":" +++ lowered.

(** [resolveSessionKey({ agentId, sessionId, sessionKey })] *)
Definition resolveSessionKey (agentId sessionId sessionKey : option string) : string :=
  let agentId' :=
    normalizeAgentId (Some (match agentId with Some a => a | None => DEFAULT_AGENT_ID end)) in
  let explicit := match sessionKey with Some k => JsString.trim k | None => EmptyString end in
  if truthy explicit then toAgentStoreSessionKey agentId' (Some explicit) None
  else
    let sessionId' := match sessionId with Some k => JsString.trim k | None => EmptyString end in
    if truthy sessionId' then toAgentStoreSessionKey agentId' (Some sessionId') None
    else buildAgentMainSessionKey agentId' (Some DEFAULT_MAIN_KEY).

(** [buildSubagentSessionKey] of agent.ts, for the random [id] drawn. *)
Definition buildSubagentSessionKey (agentId : string) (id : string) : string :=
  "agent:" +++ normalizeAgentId (Some agentId) +++ ":subagent:" +++ id.

End SessionKey.

(* ================================================================== *)
(** ** XML escaping of the skills prompt (skill-primitives.ts) *)
(* ================================================================== *)

Module SkillPrimitives.

(** [XML_ESCAPE[ch] ?? ch] on one character, by code unit: ampersand
    (38), less-than (60), greater-than (62), double quote (34) and
    apostrophe (39) have an entity. *)
Definition XML_ESCAPE (ch : ascii) : string :=
  let n := JsString.code ch in
  if n =? 38 then "&amp;"
  else if n =? 60 then "&lt;"
  else if n =? 62 then "&gt;"
  else if n =? 34 then "&quot;"
  else if n =? 39 then "&apos;"
  else String ch EmptyString.

(** [str.replace] with the global pattern of the five characters and
    the lookup in [XML_ESCAPE] as the replacer. *)
Fixpoint escapeXml (str : string) : string :=
  match str with
  | EmptyString => EmptyString
  | String ch rest => XML_ESCAPE ch +++ escapeXml rest
  end.

End SkillPrimitives.

(* ================================================================== *)
(** ** context/pruning.ts: the three-layer pruner *)
(* ================================================================== *)

Module Pruning.
Import Session.

Definition nl : string := String (ascii_of_nat 10) EmptyString.

Record ContextPruningToolMatch : Type := {
  allow : option (list string);
  deny : option (list string)
}.

Record SoftTrimSettings : Type := {
  maxChars : Z;
  headChars : Z;
  tailChars : Z
}.

Record HardClearSettings : Type := {
  enabled : bool;
  placeholder : string
}.

Record ContextPruningSettings : Type := {
  maxHistoryShare : Q;
  keepLastAssistants : Z;
  softTrimRatio : Q;
  hardClearRatio : Q;
  minPrunableToolChars : Z;
  softTrim : SoftTrimSettings;
  hardClear : HardClearSettings;
  tools : ContextPruningToolMatch
}.

Definition DEFAULT_CONTEXT_PRUNING_SETTINGS : ContextPruningSettings :=
  {| maxHistoryShare := 1 # 2;
     keepLastAssistants := 3;
     softTrimRatio := 3 # 10;
     hardClearRatio := 1 # 2;
     minPrunableToolChars := 50000;
     softTrim := {| maxChars := 4000; headChars := 1500; tailChars := 1500 |};
     hardClear := {| enabled := true; placeholder := "[Old tool result content cleared]" |};
     tools := {| allow := None; deny := None |} |}.

(** [Partial<ContextPruningSettings>]: every field may be absent. *)
Record PartialSettings : Type := {
  raw_maxHistoryShare : option Q;
  raw_keepLastAssistants : option Q;
  raw_softTrimRatio : option Q;
  raw_hardClearRatio : option Q;
  raw_minPrunableToolChars : option Q;
  raw_softTrim_maxChars : option Q;
  raw_softTrim_headChars : option Q;
  raw_softTrim_tailChars : option Q;
  raw_hardClear_enabled : option bool;
  raw_hardClear_placeholder : option string;
  raw_tools : option ContextPruningToolMatch
}.

Definition noSettings : PartialSettings :=
  {| raw_maxHistoryShare := None; raw_keepLastAssistants := None; raw_softTrimRatio := None;
     raw_hardClearRatio := None; raw_minPrunableToolChars := None;
     raw_softTrim_maxChars := None; raw_softTrim_headChars := None;
     raw_softTrim_tailChars := None; raw_hardClear_enabled := None;
     raw_hardClear_placeholder := None; raw_tools := None |}.

Definition Qmin (a b : Q) : Q := if Qle_bool a b then a else b.
Definition Qmax (a b : Q) : Q := if Qle_bool a b then b else a.

(** [clampShare] and [clampPositiveInt] on finite numbers. *)
Definition clampShare (value : Q) : Q := Qmin 1 (Qmax 0 value).

Definition clampPositiveInt (value : option Q) (fallback : Z) : Z :=
  match value with
  | None => fallback
  | Some v => Z.max 0 (Qfloor v)
  end.

Definition orElse {A : Type} (o : option A) (d : A) : A :=
  match o with Some x => x | None => d end.

Definition resolvePruningSettings (raw : option PartialSettings) : ContextPruningSettings :=
  match raw with
  | None => DEFAULT_CONTEXT_PRUNING_SETTINGS
  | Some raw =>
      let d := DEFAULT_CONTEXT_PRUNING_SETTINGS in
      {| maxHistoryShare := clampShare (orElse (raw_maxHistoryShare raw) (maxHistoryShare d));
         keepLastAssistants := clampPositiveInt (raw_keepLastAssistants raw) (keepLastAssistants d);
         softTrimRatio := clampShare (orElse (raw_softTrimRatio raw) (softTrimRatio d));
         hardClearRatio := clampShare (orElse (raw_hardClearRatio raw) (hardClearRatio d));
         minPrunableToolChars :=
           clampPositiveInt (raw_minPrunableToolChars raw) (minPrunableToolChars d);
         softTrim :=
           {| maxChars := clampPositiveInt (raw_softTrim_maxChars raw) (maxChars (softTrim d));
              headChars := clampPositiveInt (raw_softTrim_headChars raw) (headChars (softTrim d));
              tailChars := clampPositiveInt (raw_softTrim_tailChars raw) (tailChars (softTrim d)) |};
         hardClear :=
           {| enabled := orElse (raw_hardClear_enabled raw) (enabled (hardClear d));
              placeholder := orElse (raw_hardClear_placeholder raw) (placeholder (hardClear d)) |};
         tools := orElse (raw_tools raw) (tools d) |}
  end.

(** [pattern.replace(/[.*+?^${}()|[\]\\]/g, ch => ch === "*" ? ".*" : "\\" + ch)] *)
Fixpoint globBody (pattern : string) : string :=
  match pattern with
  | EmptyString => EmptyString
  | String c r =>
      if (c =? "*")%char then String "." (String "*" (globBody r))
      else if Regex.is_syntax_char c then String "\" (String c (globBody r))
      else String c (globBody r)
  end.

Definition matchGlob (value pattern : string) : bool :=
  if (pattern =? "*")%string then true
  else if negb (JsString.includes pattern "*") then (value =? pattern)%string
  else Regex.test (Regex.compile ("^" +++ globBody pattern +++ "$")) value.

Definition orNil (l : option (list string)) : list string :=
  match l with Some x => x | None => [] end.

Definition makeToolPrunablePredicate (m : option ContextPruningToolMatch) (toolName : string) : bool :=
  match m with
  | None => true
  | Some m =>
      let normalized := JsString.toLowerCase (JsString.trim toolName) in
      if existsb (fun pattern => matchGlob normalized (JsString.toLowerCase pattern)) (orNil (deny m))
      then false
      else if (List.length (orNil (allow m)) =? 0)%nat then true
      else existsb (fun pattern => matchGlob normalized (JsString.toLowerCase pattern)) (orNil (allow m))
  end.

Definition cloneMessage (message : Message) (c : Content) : Message :=
  {| role := role message; content := c; timestamp := timestamp message |}.

(** Reserved for image blocks; no block is protected today. *)
Definition isToolResultProtected (_ : ContentBlock) : bool := false.

Definition trimmedText (raw : string) (headC tailC : Z) : string :=
  let rawLen := JsString.len raw in
  let head := JsString.take (Z.to_nat headC) raw in
  let tail := JsString.drop (Z.to_nat (rawLen - tailC)) raw in
  head +++ nl +++ "..." +++ nl +++ tail +++ nl +++ nl
  +++ "[Tool result trimmed: kept first " +++ JsString.string_of_Z headC
  +++ " chars and last " +++ JsString.string_of_Z tailC
  +++ " chars of " +++ JsString.string_of_Z rawLen +++ " chars.]".

Definition softTrimToolResultBlock (block : ContentBlock) (settings : SoftTrimSettings)
    (isPrunable : string -> bool) : ContentBlock * bool :=
  match block with
  | tool_result tool_use_id name raw =>
      if isToolResultProtected block then (block, false)
      else if negb (tool_use_id =? EmptyString)%string && negb (isPrunable tool_use_id)
      then (block, false)
      else
        let rawLen := JsString.len raw in
        if (rawLen <=? maxChars settings)%Z then (block, false)
        else
          let headC := Z.max 0 (headChars settings) in
          let tailC := Z.max 0 (tailChars settings) in
          if (headC + tailC >=? rawLen)%Z then (block, false)
          else (tool_result tool_use_id name (trimmedText raw headC tailC), true)
  | _ => (block, false)
  end.

Definition boolCount (b : bool) : Z := if b then 1%Z else 0%Z.

(** The block loop and the message loop of [applySoftTrim]: the output
    arrays are filled in order, the counter adds up. *)
Fixpoint softTrimBlocks (bs : list ContentBlock) (settings : SoftTrimSettings)
    (isPrunable : string -> bool) : list ContentBlock * Z :=
  match bs with
  | [] => ([], 0%Z)
  | block :: rest =>
      let r := softTrimToolResultBlock block settings isPrunable in
      let rs := softTrimBlocks rest settings isPrunable in
      (fst r :: fst rs, (boolCount (snd r) + snd rs)%Z)
  end.

Definition softTrimMessage (msg : Message) (settings : SoftTrimSettings)
    (isPrunable : string -> bool) : Message * Z :=
  match content msg with
  | Str _ => (msg, 0%Z)
  | Blocks bs =>
      let r := softTrimBlocks bs settings isPrunable in
      (if (0 <? snd r)%Z then cloneMessage msg (Blocks (fst r)) else msg, snd r)
  end.

Fixpoint applySoftTrim (msgs : list Message) (settings : ContextPruningSettings)
    (isPrunable : string -> bool) : list Message * Z :=
  match msgs with
  | [] => ([], 0%Z)
  | msg :: rest =>
      let r := softTrimMessage msg (softTrim settings) isPrunable in
      let rs := applySoftTrim rest settings isPrunable in
      (fst r :: fst rs, (snd r + snd rs)%Z)
  end.

Definition prunableBlockChars (isPrunable : string -> bool) (block : ContentBlock) : Z :=
  match block with
  | tool_result tool_use_id _ c =>
      if isToolResultProtected block then 0%Z
      else if negb (tool_use_id =? EmptyString)%string && negb (isPrunable tool_use_id) then 0%Z
      else JsString.len c
  | _ => 0%Z
  end.

Definition prunableMessageChars (isPrunable : string -> bool) (msg : Message) : Z :=
  match content msg with
  | Str _ => 0%Z
  | Blocks bs => fold_right (fun b t => (prunableBlockChars isPrunable b + t)%Z) 0%Z bs
  end.

Definition countPrunableToolChars (msgs : list Message) (isPrunable : string -> bool) : Z :=
  fold_right (fun msg total => (prunableMessageChars isPrunable msg + total)%Z) 0%Z msgs.

(** [a / b > r] and [a / b < r] on numbers, [b] being positive. *)
Definition ratio (a b : Z) : Q := (inject_Z a / inject_Z b)%Q.
Definition Qgtb (x y : Q) : bool := negb (Qle_bool x y).
Definition Qltb (x y : Q) : bool := negb (Qle_bool y x).


Record PruneResult : Type := {
  messages : list Message;
  droppedMessages : list Message;
  trimmedToolResults : Z;
  hardClearedToolResults : Z;
  totalChars : Z;
  keptChars : Z;
  droppedChars : Z;
  budgetChars : Z
}.

(** A message object of the array under pruning: the message, and the
    position it holds in the array, which stands for its identity (the
    array holds pairwise distinct objects at every call site). *)
Definition Obj : Type := (nat * Message)%type.

Definition tagged (msgs : list Message) : list Obj := combine (seq 0 (List.length msgs)) msgs.

(** [new Set(kept).has(msg)] *)
Definition setHas (kept : list Obj) (o : Obj) : bool :=
  existsb (fun k => (fst k =? fst o)%nat) kept.

Section WithEstimator.

(** context/tokens.ts is not among the sources: the per-message size
    estimate is a parameter. *)
Variable estimateMessageChars : Message -> Z.

(** Modelled from the spec: [estimateMessagesChars] of tokens.ts, taken
    as the sum of the per-message estimates. *)
Definition estimateMessagesChars (msgs : list Message) : Z :=
  fold_right (fun m total => (estimateMessageChars m + total)%Z) 0%Z msgs.

(** One block of the hard-clear loop; [total] is the running
    [totalChars].  Returns the block pushed, the new total, and whether
    the block was cleared. *)
Definition hardClearBlock (settings : ContextPruningSettings) (isPrunable : string -> bool)
    (charWindow : Z) (block : ContentBlock) (total : Z) : ContentBlock * Z * bool :=
  match block with
  | tool_result tool_use_id name c =>
      if negb (isToolResultProtected block) && (0 <? JsString.len c)%Z then
        let canPrune := (tool_use_id =? EmptyString)%string || isPrunable tool_use_id in
        if canPrune then
          if Qltb (ratio total charWindow) (hardClearRatio settings) then (block, total, false)
          else
            let beforeLen := JsString.len c in
            (tool_result tool_use_id name (placeholder (hardClear settings)),
             (total - (beforeLen - JsString.len (placeholder (hardClear settings))))%Z,
             true)
        else (block, total, false)
      else (block, total, false)
  | _ => (block, total, false)
  end.

Fixpoint hardClearBlocks (settings : ContextPruningSettings) (isPrunable : string -> bool)
    (charWindow : Z) (bs : list ContentBlock) (total : Z) : list ContentBlock * Z * Z :=
  match bs with
  | [] => ([], total, 0%Z)
  | block :: rest =>
      let '(b', total1, cleared) := hardClearBlock settings isPrunable charWindow block total in
      let '(rest', total2, n) := hardClearBlocks settings isPrunable charWindow rest total1 in
      (b' :: rest', total2, (boolCount cleared + n)%Z)
  end.

Definition hardClearMessage (settings : ContextPruningSettings) (isPrunable : string -> bool)
    (charWindow : Z) (msg : Message) (total : Z) : Message * Z * Z :=
  match content msg with
  | Str _ => (msg, total, 0%Z)
  | Blocks bs =>
      let '(bs', total', n) := hardClearBlocks settings isPrunable charWindow bs total in
      (if (0 <? n)%Z then cloneMessage msg (Blocks bs') else msg, total', n)
  end.

Fixpoint hardClearMessages (settings : ContextPruningSettings) (isPrunable : string -> bool)
    (charWindow : Z) (msgs : list Message) (total : Z) : list Message * Z * Z :=
  match msgs with
  | [] => ([], total, 0%Z)
  | msg :: rest =>
      let '(m', total1, n1) := hardClearMessage settings isPrunable charWindow msg total in
      let '(rest', total2, n2) := hardClearMessages settings isPrunable charWindow rest total1 in
      (m' :: rest', total2, (n1 + n2)%Z)
  end.

Definition applyHardClear (msgs : list Message) (settings : ContextPruningSettings)
    (isPrunable : string -> bool) (charWindow : Z) : list Message * Z :=
  if negb (enabled (hardClear settings)) then (msgs, 0%Z)
  else
    let total := estimateMessagesChars msgs in
    if Qltb (ratio total charWindow) (hardClearRatio settings) then (msgs, 0%Z)
    else if (countPrunableToolChars msgs isPrunable <? minPrunableToolChars settings)%Z
    then (msgs, 0%Z)
    else
      let '(out, _, n) := hardClearMessages settings isPrunable charWindow msgs total in
      (out, n).

(** The backward scan of [findAssistantCutoffIndex]: [revMsgs] holds
    the messages at the indices below [i], last first. *)
Fixpoint scanAssistants (revMsgs : list Obj) (i : nat) (remaining : Z) : option nat :=
  match revMsgs with
  | [] => None
  | o :: rest =>
      if is_assistant (snd o) then
        if (remaining - 1 =? 0)%Z then Some (i - 1)%nat
        else scanAssistants rest (i - 1)%nat (remaining - 1)%Z
      else scanAssistants rest (i - 1)%nat remaining
  end.

Definition findAssistantCutoffIndex (msgs : list Obj) (keepLast : Z) : option nat :=
  if (keepLast <=? 0)%Z then Some (List.length msgs)
  else scanAssistants (rev msgs) (List.length msgs) keepLast.

(** The loop of [sliceWithinBudget]; [kept] is in push order. *)
Fixpoint sliceLoop (revMsgs : list Obj) (budget used : Z) (kept : list Obj) : list Obj :=
  match revMsgs with
  | [] => kept
  | o :: rest =>
      let chars := estimateMessageChars (snd o) in
      if (used + chars >? budget)%Z && negb (List.length kept =? 0)%nat then kept
      else sliceLoop rest budget (used + chars)%Z (kept ++ [o])
  end.

Definition sliceWithinBudget (msgs : list Obj) (budget : Z) : list Obj :=
  rev (sliceLoop (rev msgs) budget 0%Z []).

(** The backward fill from the protected suffix: [revPrefix] holds the
    messages before the suffix, last first; [kept.unshift] is a cons. *)
Fixpoint fillBackward (revPrefix : list Obj) (remaining : Z) (kept : list Obj) : list Obj :=
  match revPrefix with
  | [] => kept
  | o :: rest =>
      let msgChars := estimateMessageChars (snd o) in
      if (msgChars >? remaining)%Z then kept
      else fillBackward rest (remaining - msgChars)%Z (o :: kept)
  end.

(** Layer 3 on the array [current]. *)
Definition dropMessages (current : list Obj) (settings : ContextPruningSettings) (budget : Z)
  : list Obj * list Obj :=
  let cutoffIndex := findAssistantCutoffIndex current (keepLastAssistants settings) in
  let protectedIndex := match cutoffIndex with Some i => i | None => 0%nat end in
  let protectedMessages := skipn protectedIndex current in
  let protectedChars := estimateMessagesChars (map snd protectedMessages) in
  let kept :=
    if (protectedChars >? budget)%Z then sliceWithinBudget current budget
    else fillBackward (rev (firstn protectedIndex current)) (budget - protectedChars)%Z
           protectedMessages in
  (kept, filter (fun o => negb (setHas kept o)) current).

(** [pruneContextMessages]; [contextWindowTokens] is taken integral
    (the agent floors it before the call).  Numbers are the rationals
    they denote and the arithmetic on them is exact: [budget] is the
    floor of the exact product of [charWindow] and the share.  The
    source multiplies doubles, and its product is the exact one
    rounded to the nearest double; where the exact product lies
    within that rounding of an integer, the two floors differ by
    one. *)
Definition pruneContextMessages (msgs : list Message) (contextWindowTokens : Z)
    (raw : option PartialSettings) : PruneResult :=
  let settings := resolvePruningSettings raw in
  let contextTokens := Z.max 1 contextWindowTokens in
  let charWindow := (contextTokens * 4)%Z in
  let budget := Z.max 1 (Qfloor (inject_Z charWindow * maxHistoryShare settings)) in
  let isPrunable := makeToolPrunablePredicate (Some (tools settings)) in
  let total := estimateMessagesChars msgs in
  let soft :=
    if Qgtb (ratio total charWindow) (softTrimRatio settings)
    then applySoftTrim msgs settings isPrunable else (msgs, 0%Z) in
  let afterSoftTrimChars := estimateMessagesChars (fst soft) in
  let hard :=
    if Qgtb (ratio afterSoftTrimChars charWindow) (hardClearRatio settings)
    then applyHardClear (fst soft) settings isPrunable charWindow else (fst soft, 0%Z) in
  let current := fst hard in
  let afterClearChars := estimateMessagesChars current in
  if (afterClearChars <=? budget)%Z then
    {| messages := current; droppedMessages := [];
       trimmedToolResults := snd soft; hardClearedToolResults := snd hard;
       totalChars := afterClearChars; keptChars := afterClearChars;
       droppedChars := 0; budgetChars := budget |}
  else
    let '(kept, dropped) := dropMessages (tagged current) settings budget in
    let keptC := estimateMessagesChars (map snd kept) in
    {| messages := map snd kept; droppedMessages := map snd dropped;
       trimmedToolResults := snd soft; hardClearedToolResults := snd hard;
       totalChars := afterClearChars; keptChars := keptC;
       droppedChars := Z.max 0 (afterClearChars - keptC); budgetChars := budget |}.

(** The array after layer 1, as [pruneContextMessages] computes it. *)
Definition afterLayer1 (msgs : list Message) (contextWindowTokens : Z)
    (raw : option PartialSettings) : list Message :=
  let settings := resolvePruningSettings raw in
  let charWindow := (Z.max 1 contextWindowTokens * 4)%Z in
  let isPrunable := makeToolPrunablePredicate (Some (tools settings)) in
  fst (if Qgtb (ratio (estimateMessagesChars msgs) charWindow) (softTrimRatio settings)
       then applySoftTrim msgs settings isPrunable else (msgs, 0%Z)).

(** The array after layers 1 and 2, as [pruneContextMessages] computes it. *)
Definition afterLayers12 (msgs : list Message) (contextWindowTokens : Z)
    (raw : option PartialSettings) : list Message :=
  let settings := resolvePruningSettings raw in
  let charWindow := (Z.max 1 contextWindowTokens * 4)%Z in
  let isPrunable := makeToolPrunablePredicate (Some (tools settings)) in
  let soft :=
    if Qgtb (ratio (estimateMessagesChars msgs) charWindow) (softTrimRatio settings)
    then applySoftTrim msgs settings isPrunable else (msgs, 0%Z) in
  let hard :=
    if Qgtb (ratio (estimateMessagesChars (fst soft)) charWindow) (hardClearRatio settings)
    then applyHardClear (fst soft) settings isPrunable charWindow else (fst soft, 0%Z) in
  fst hard.

(** [budgetChars], as [pruneContextMessages] computes it: the floor of
    the exact product, at least 1. *)
Definition budgetOf (contextWindowTokens : Z) (raw : option PartialSettings) : Z :=
  Z.max 1 (Qfloor (inject_Z (Z.max 1 contextWindowTokens * 4) *
                   maxHistoryShare (resolvePruningSettings raw))).

End WithEstimator.

End Pruning.

(* ================================================================== *)
(** ** context/compaction.ts: summarisation with fallback *)
(* ================================================================== *)

Module Compaction.
Import Session.

Definition nl : string := String (ascii_of_nat 10) EmptyString.

(** [SAFETY_MARGIN = 1.2] *)
Definition SAFETY_MARGIN : Q := 12 # 10.
Definition DEFAULT_SUMMARY_FALLBACK : string := "No prior history.".

Record SummarizeParams : Type := {
  system : string;
  userPrompt : string;
  maxTokens : Z
}.

Record SummaryParams : Type := {
  messages : list Message;
  sp_maxTokens : Z;
  maxChunkTokens : Z;
  contextWindow : Z;
  customInstructions : option string;
  previousSummary : option string
}.

Definition withMessages (p : SummaryParams) (ms : list Message) : SummaryParams :=
  {| messages := ms; sp_maxTokens := sp_maxTokens p; maxChunkTokens := maxChunkTokens p;
     contextWindow := contextWindow p; customInstructions := customInstructions p;
     previousSummary := previousSummary p |}.

(** JavaScript truthiness of an optional string. *)
Definition truthy (s : option string) : bool :=
  match s with
  | Some x => negb (x =? EmptyString)%string
  | None => false
  end.

Definition extractUserText (c : Content) : string :=
  match c with
  | Str s => s
  | Blocks bs =>
      JsString.join EmptyString
        (flat_map (fun b => match b with text t => [t] | _ => [] end) bs)
  end.

Definition nonEmpty (s : string) : bool := negb (s =? EmptyString)%string.

Definition serializeMessage (msg : Message) : list string :=
  match role msg with
  | user =>
      let t := extractUserText (content msg) in
      (if nonEmpty t then ["[User]: " +++ t] else []) ++
      match content msg with
      | Blocks bs =>
          map (fun r => "[Tool result]: " +++ r)
            (filter nonEmpty
               (flat_map (fun b => match b with tool_result _ _ c => [c] | _ => [] end) bs))
      | Str _ => []
      end
  | assistant =>
      let textParts :=
        match content msg with
        | Str s => [s]
        | Blocks bs =>
            flat_map (fun b => match b with
                               | text t => if nonEmpty t then [t] else []
                               | _ => []
                               end) bs
        end in
      let toolCalls :=
        match content msg with
        | Str _ => []
        | Blocks bs =>
            flat_map (fun b => match b with
                               | tool_use _ name args =>
                                   [name +++ "(" +++
                                    JsString.join ", " (map (fun kv => fst kv +++ "=" +++ snd kv) args)
                                    +++ ")"]
                               | _ => []
                               end) bs
        end in
      (match textParts with
       | [] => []
       | _ => ["[Assistant]: " +++ JsString.join nl textParts]
       end) ++
      (match toolCalls with
       | [] => []
       | _ => ["[Assistant tool calls]: " +++ JsString.join "; " toolCalls]
       end)
  end.

Definition serializeConversation (msgs : list Message) : string :=
  JsString.join (nl +++ nl) (flat_map serializeMessage msgs).

Section WithSummarizer.

(** context/tokens.ts is not among the sources: the token estimator is a
    parameter.  The three prompt texts are constants of the module; they
    carry quotation marks and are taken as parameters too. *)
Variable estimateMessageTokens : Message -> Z.
Variables SUMMARIZATION_SYSTEM_PROMPT SUMMARIZATION_PROMPT UPDATE_SUMMARIZATION_PROMPT : string.

(** The caller's [SummarizeFn]: a call either resolves to a string or
    rejects ([None]); [W] is whatever the caller's world remembers
    between calls. *)
Variable W : Type.
Variable summarize : SummarizeParams -> W -> option string * W.

(** The loop of [chunkMessagesByMaxTokens], with its three variables. *)
Fixpoint chunkLoop (maxTok : Z) (msgs : list Message)
    (chunks : list (list Message)) (current : list Message) (currentTokens : Z)
  : list (list Message) :=
  match msgs with
  | [] => match current with [] => chunks | _ => chunks ++ [current] end
  | message :: rest =>
      let messageTokens := estimateMessageTokens message in
      let flush := negb (List.length current =? 0)%nat
                   && (currentTokens + messageTokens >? maxTok)%Z in
      let chunks1 := if flush then chunks ++ [current] else chunks in
      let current1 := (if flush then [] else current) ++ [message] in
      let tokens1 := ((if flush then 0 else currentTokens) + messageTokens)%Z in
      if (messageTokens >? maxTok)%Z
      then chunkLoop maxTok rest (chunks1 ++ [current1]) [] 0%Z
      else chunkLoop maxTok rest chunks1 current1 tokens1
  end.

Definition chunkMessagesByMaxTokens (msgs : list Message) (maxTok : Z) : list (list Message) :=
  match msgs with
  | [] => []
  | _ => chunkLoop maxTok msgs [] [] 0%Z
  end.

Definition isOversizedForSummary (msg : Message) (ctxWindow : Z) : bool :=
  let tokens := (inject_Z (estimateMessageTokens msg) * SAFETY_MARGIN)%Q in
  negb (Qle_bool tokens (inject_Z ctxWindow * (1 # 2))%Q).

Definition generateSummary (chunk : list Message) (maxTok : Z)
    (custom : option string) (previous : option string) (w : W) : option string * W :=
  let basePrompt0 := if truthy previous then UPDATE_SUMMARIZATION_PROMPT else SUMMARIZATION_PROMPT in
  let basePrompt :=
    match custom with
    | Some c => if truthy custom
                then basePrompt0 +++ nl +++ nl +++ "Additional focus: " +++ c
                else basePrompt0
    | None => basePrompt0
    end in
  let conversationText := serializeConversation chunk in
  let prompt0 := "<conversation>" +++ nl +++ conversationText +++ nl +++ "</conversation>" +++ nl +++ nl in
  let prompt1 :=
    match previous with
    | Some p => if truthy previous
                then prompt0 +++ "<previous-summary>" +++ nl +++ p +++ nl
                     +++ "</previous-summary>" +++ nl +++ nl
                else prompt0
    | None => prompt0
    end in
  summarize {| system := SUMMARIZATION_SYSTEM_PROMPT;
               userPrompt := prompt1 +++ basePrompt;
               maxTokens := maxTok |} w.

(** The [for] loop of [summarizeChunks]: a rejection leaves the loop. *)
Fixpoint summarizeChunkLoop (chunks : list (list Message)) (maxTok : Z)
    (custom : option string) (summary : option string) (w : W) : option (option string) * W :=
  match chunks with
  | [] => (Some summary, w)
  | chunk :: rest =>
      match generateSummary chunk maxTok custom summary w with
      | (Some s, w') => summarizeChunkLoop rest maxTok custom (Some s) w'
      | (None, w') => (None, w')
      end
  end.

Definition orFallback (s : option string) : string :=
  match s with Some x => x | None => DEFAULT_SUMMARY_FALLBACK end.

Definition summarizeChunks (p : SummaryParams) (w : W) : option string * W :=
  match messages p with
  | [] => (Some (orFallback (previousSummary p)), w)
  | _ =>
      let chunks := chunkMessagesByMaxTokens (messages p) (maxChunkTokens p) in
      match summarizeChunkLoop chunks (sp_maxTokens p) (customInstructions p)
              (previousSummary p) w with
      | (Some s, w') => (Some (orFallback s), w')
      | (None, w') => (None, w')
      end
  end.

(** [Math.round(tokens / 1000)] on an integer. *)
Definition roundThousands (tokens : Z) : Z := ((tokens + 500) / 1000)%Z.

Definition oversizedNote (msg : Message) : string :=
  "[Large " +++ role_name (role msg) +++ " (~"
  +++ JsString.string_of_Z (roundThousands (estimateMessageTokens msg)) +++ "K tokens) omitted]".

(** The partition loop of [summarizeWithFallback]. *)
Fixpoint partitionOversized (msgs : list Message) (ctxWindow : Z)
    (smallMessages : list Message) (oversizedNotes : list string)
  : list Message * list string :=
  match msgs with
  | [] => (smallMessages, oversizedNotes)
  | msg :: rest =>
      if isOversizedForSummary msg ctxWindow
      then partitionOversized rest ctxWindow smallMessages (oversizedNotes ++ [oversizedNote msg])
      else partitionOversized rest ctxWindow (smallMessages ++ [msg]) oversizedNotes
  end.

Definition sizeLimitsMessage (n : nat) : string :=
  "Context contained " +++ JsString.string_of_nat n
  +++ " messages. Summary unavailable due to size limits.".

Definition summarizeWithFallback (p : SummaryParams) (w : W) : string * W :=
  match messages p with
  | [] => (orFallback (previousSummary p), w)
  | _ =>
      match summarizeChunks p w with
      | (Some s, w1) => (s, w1)
      | (None, w1) =>
          let '(smallMessages, oversizedNotes) :=
            partitionOversized (messages p) (contextWindow p) [] [] in
          let unavailable := sizeLimitsMessage (List.length (messages p)) in
          match smallMessages with
          | [] => (unavailable, w1)
          | _ =>
              match summarizeChunks (withMessages p smallMessages) w1 with
              | (Some partial, w2) =>
                  let notes := match oversizedNotes with
                               | [] => EmptyString
                               | _ => nl +++ nl +++ JsString.join nl oversizedNotes
                               end in
                  (partial +++ notes, w2)
              | (None, w2) => (unavailable, w2)
              end
          end
      end
  end.

End WithSummarizer.

End Compaction.

(* ================================================================== *)
(** ** Splitting by token share and file lists (compaction.ts) *)
(* ================================================================== *)

Module CompactionParts.
Import Session.

(** A JS [number]: a finite value, or one of NaN and the infinities. *)
Inductive JsNumber : Type :=
| Finite (q : Q)
| NotFinite.

Definition DEFAULT_PARTS : JsNumber := Finite 2.

Definition normalizeParts (parts : JsNumber) (messageCount : nat) : Z :=
  match parts with
  | NotFinite => 1%Z
  | Finite q =>
      if Qle_bool q 1 then 1%Z
      else Z.min (Z.max 1 (Qfloor q)) (Z.max 1 (Z.of_nat messageCount))
  end.

Section WithEstimator.

(** context/tokens.ts is not among the sources: both estimators are
    parameters. *)
Variable estimateMessageTokens : Message -> Z.
Variable estimateMessagesTokens : list Message -> Z.

(** The loop of [splitMessagesByTokenShare], with its three variables;
    [targetTokens] is the quotient as a rational. *)
Fixpoint splitLoop (normalizedParts : Z) (targetTokens : Q) (msgs : list Message)
    (chunks : list (list Message)) (current : list Message) (currentTokens : Z)
  : list (list Message) :=
  match msgs with
  | [] => match current with [] => chunks | _ => chunks ++ [current] end
  | message :: rest =>
      let messageTokens := estimateMessageTokens message in
      if (Z.of_nat (List.length chunks) <? normalizedParts - 1)%Z
         && negb (List.length current =? 0)%nat
         && negb (Qle_bool (inject_Z (currentTokens + messageTokens)) targetTokens)
      then splitLoop normalizedParts targetTokens rest (chunks ++ [current])
             [message] messageTokens
      else splitLoop normalizedParts targetTokens rest chunks
             (current ++ [message]) (currentTokens + messageTokens)%Z
  end.

(** [parts] is [None] when the argument is left out. *)
Definition splitMessagesByTokenShare (msgs : list Message) (parts : option JsNumber)
  : list (list Message) :=
  match msgs with
  | [] => []
  | _ =>
      let normalizedParts :=
        normalizeParts (match parts with Some p => p | None => DEFAULT_PARTS end)
                       (List.length msgs) in
      if (normalizedParts <=? 1)%Z then [msgs]
      else
        let totalTokens := estimateMessagesTokens msgs in
        let targetTokens := (inject_Z totalTokens / inject_Z normalizedParts)%Q in
        splitLoop normalizedParts targetTokens msgs [] [] 0%Z
  end.

End WithEstimator.

(** *** File operations *)

(** A [Set<string>] as its elements in insertion order. *)
Definition StringSet : Type := list string.

Definition setHas (s : StringSet) (x : string) : bool := existsb (String.eqb x) s.

Definition setAdd (s : StringSet) (x : string) : StringSet :=
  if setHas s x then s else s ++ [x].

(** [new Set(items)] *)
Definition setOf (items : list string) : StringSet := fold_left setAdd items [].

Record FileOps : Type := {
  read : StringSet;
  written : StringSet;
  edited : StringSet
}.

Definition createFileOps : FileOps := {| read := []; written := []; edited := [] |}.

Section WithPathReader.

(** The arguments of a tool call are kept as JSON text: reading
    [args.path] as a JS string, when it is one, is a parameter. *)
Variable pathOf : Input -> option string.

Definition recordFileOp (fileOps : FileOps) (name path : string) : FileOps :=
  if (name =? "read")%string then
    {| read := setAdd (read fileOps) path; written := written fileOps;
       edited := edited fileOps |}
  else if (name =? "write")%string then
    {| read := read fileOps; written := setAdd (written fileOps) path;
       edited := edited fileOps |}
  else if (name =? "edit")%string then
    {| read := read fileOps; written := written fileOps;
       edited := setAdd (edited fileOps) path |}
  else fileOps.

Definition extractFileOpsFromMessage (fileOps : FileOps) (message : Message) : FileOps :=
  match role message, content message with
  | assistant, Blocks bs =>
      fold_left
        (fun ops block =>
           match block with
           | tool_use _ name args =>
               match pathOf args with
               | Some path =>
                   if (path =? EmptyString)%string then ops else recordFileOp ops name path
               | None => ops
               end
           | _ => ops
           end) bs fileOps
  | _, _ => fileOps
  end.

(** The file operations of a list of messages, as [compactHistoryIfNeeded]
    collects them from the dropped ones. *)
Definition collectFileOps (msgs : list Message) : FileOps :=
  fold_left extractFileOpsFromMessage msgs createFileOps.

End WithPathReader.

(** [Array.prototype.sort()] without a comparator, on strings: ascending
    by code units. *)
Fixpoint insertSorted (x : string) (l : list string) : list string :=
  match l with
  | [] => [x]
  | y :: rest => if String.leb x y then x :: l else y :: insertSorted x rest
  end.

Definition sort (l : list string) : list string := fold_right insertSorted [] l.

Definition computeFileLists (fileOps : FileOps) : list string * list string :=
  let modified := setOf (edited fileOps ++ written fileOps) in
  let readOnly := sort (filter (fun file => negb (setHas modified file)) (read fileOps)) in
  let modifiedFiles := sort modified in
  (readOnly, modifiedFiles).

End CompactionParts.

(* ================================================================== *)
(** ** Provider error classification and retry (errors.ts) *)
(* ================================================================== *)

Module Errors.

Definition RATE_LIMIT_PATTERNS : list string :=
  ["rate_limit"; "too many requests"; "429"; "exceeded quota";
   "resource exhausted"; "quota exceeded"; "resource_exhausted"; "usage limit"].

Definition CONTEXT_OVERFLOW_PATTERNS : list string :=
  ["request_too_large"; "request exceeds the maximum size";
   "context length exceeded"; "maximum context length"; "prompt is too long";
   "exceeds model context window"; "context overflow"].

Definition matchesAny (message : string) (patterns : list string) : bool :=
  let lower := JsString.toLowerCase message in
  existsb (fun p => JsString.includes lower p) patterns.

(** [!message]: the empty string is falsy. *)
Definition falsy (message : string) : bool :=
  match message with EmptyString => true | _ => false end.

Definition isContextOverflowError (message : string) : bool :=
  if falsy message then false
  else if matchesAny message CONTEXT_OVERFLOW_PATTERNS then true
  else
    let lower := JsString.toLowerCase message in
    if JsString.includes lower "413" && JsString.includes lower "too large" then true
    else false.

Definition isRateLimitError (message : string) : bool :=
  negb (falsy message) && matchesAny message RATE_LIMIT_PATTERNS.

End Errors.

(* ================================================================== *)
(** ** The tool-result guard (session-tool-result-guard.ts) *)
(* ================================================================== *)

Module Guard.
Import Session.

Definition ToolCall : Type := (string * option string)%type.

Definition truthy (s : string) : bool :=
  match s with EmptyString => false | _ => true end.

Definition extractToolUsesFromAssistant (msg : Message) : list ToolCall :=
  match role msg, content msg with
  | assistant, Blocks bs =>
      flat_map (fun block =>
                  match block with
                  | tool_use id name _ => if truthy id then [(id, Some name)] else []
                  | _ => []
                  end) bs
  | _, _ => []
  end.

Definition extractToolResultIds (msg : Message) : list string :=
  match role msg, content msg with
  | user, Blocks bs =>
      flat_map (fun block =>
                  match block with
                  | tool_result tool_use_id _ _ =>
                      if truthy tool_use_id then [tool_use_id] else []
                  | _ => []
                  end) bs
  | _, _ => []
  end.

Definition MISSING_TOOL_RESULT : string :=
  "[gen-agent] missing tool result in session history; inserted synthetic error result for transcript repair.".

Definition makeMissingToolResult (toolCallId : string) (toolName : option string)
  : ContentBlock :=
  tool_result toolCallId toolName MISSING_TOOL_RESULT.

(** The pending [Map<string, string | undefined>] of one session, as
    its entries in insertion order. *)
Definition Pending : Type := list (string * option string).

(** [Map.prototype.set]: an existing key keeps its place. *)
Fixpoint pendingSet (id : string) (name : option string) (p : Pending) : Pending :=
  match p with
  | [] => [(id, name)]
  | (k, v) :: rest =>
      if String.eqb k id then (k, name) :: rest else (k, v) :: pendingSet id name rest
  end.

Definition pendingDelete (id : string) (p : Pending) : Pending :=
  filter (fun kv => negb (String.eqb (fst kv) id)) p.

(** Modelled from the spec: session.ts is not among the sources.  The
    log of one session is its append-only sequence of messages, and the
    unpatched [append] adds the message at the end.  [GuardedLog] is the
    slice of the session manager and of [pendingBySession] at one
    session key; appends under other keys do not touch it. *)
Record GuardedLog : Type := {
  transcript : list Message;
  pending : Pending
}.

Definition originalAppend (s : GuardedLog) (message : Message) : GuardedLog :=
  {| transcript := transcript s ++ [message]; pending := pending s |}.

Definition isEmpty {A : Type} (l : list A) : bool :=
  match l with [] => true | _ => false end.

(** [now] is the value of [Date.now()]. *)
Definition flushPendingToolResults (now : Z) (s : GuardedLog) : GuardedLog :=
  if isEmpty (pending s) then s
  else
    let results := map (fun kv => makeMissingToolResult (fst kv) (snd kv)) (pending s) in
    originalAppend {| transcript := transcript s; pending := [] |}
                   {| role := user; content := Blocks results; timestamp := now |}.

(** The patched [sessionManager.append]. *)
Definition append (now : Z) (s : GuardedLog) (message : Message) : GuardedLog :=
  let resultIds := extractToolResultIds message in
  if negb (isEmpty resultIds) then
    originalAppend
      {| transcript := transcript s;
         pending := fold_left (fun p id => pendingDelete id p) resultIds (pending s) |}
      message
  else
    let toolCalls := extractToolUsesFromAssistant message in
    let s1 := if negb (isEmpty (pending s)) && isEmpty toolCalls
              then flushPendingToolResults now s else s in
    let s2 := if negb (isEmpty (pending s1)) && negb (isEmpty toolCalls)
              then flushPendingToolResults now s1 else s1 in
    let s3 := originalAppend s2 message in
    {| transcript := transcript s3;
       pending := fold_left (fun p call => pendingSet (fst call) (snd call) p)
                            toolCalls (pending s3) |}.

Definition getPendingIds (s : GuardedLog) : list string := map fst (pending s).

(** *** Pairing, as a decidable property of a message sequence *)

Definition toolUseIds (m : Message) : list string :=
  match role m, content m with
  | assistant, Blocks bs =>
      flat_map (fun block => match block with tool_use id _ _ => [id] | _ => [] end) bs
  | _, _ => []
  end.

Definition toolResultIds (m : Message) : list string :=
  match role m, content m with
  | user, Blocks bs =>
      flat_map (fun block =>
                  match block with tool_result id _ _ => [id] | _ => [] end) bs
  | _, _ => []
  end.

(** Some message of [later] is a user message with a [tool_result]
    block for [id]. *)
Definition answered (id : string) (later : list Message) : bool :=
  existsb (fun u => existsb (String.eqb id) (toolResultIds u)) later.

(** Every [tool_use] id of an assistant message is answered by a later
    message of the sequence. *)
Fixpoint paired (l : list Message) : bool :=
  match l with
  | [] => true
  | a :: later => forallb (fun id => answered id later) (toolUseIds a) && paired later
  end.

End Guard.

(* ================================================================== *)
(** ** Failover classification and the generic retry (errors.ts) *)
(* ================================================================== *)

Module Failover.
Import Errors.

Inductive FailoverReason : Type :=
| rate_limit | auth | timeout | billing | format | unknown.

Definition TIMEOUT_PATTERNS : list string :=
  ["timeout"; "timed out"; "deadline exceeded"; "context deadline exceeded"].

Definition AUTH_PATTERNS : list string :=
  ["invalid_api_key"; "incorrect api key"; "invalid token"; "authentication";
   "unauthorized"; "forbidden"; "access denied"; "expired"; "401"; "403"].

Definition BILLING_PATTERNS : list string :=
  ["402"; "payment required"; "insufficient credits"; "credit balance"].

Definition FORMAT_PATTERNS : list string :=
  ["string should match pattern"; "invalid request format"].

Definition isTimeoutError (message : string) : bool :=
  negb (falsy message) && matchesAny message TIMEOUT_PATTERNS.

Definition isAuthError (message : string) : bool :=
  negb (falsy message) && matchesAny message AUTH_PATTERNS.

(** [None] is [null]. *)
Definition classifyFailoverReason (message : string) : option FailoverReason :=
  if matchesAny message BILLING_PATTERNS then Some billing
  else if matchesAny message AUTH_PATTERNS then Some auth
  else if matchesAny message RATE_LIMIT_PATTERNS then Some rate_limit
  else if matchesAny message TIMEOUT_PATTERNS then Some timeout
  else if matchesAny message FORMAT_PATTERNS then Some format
  else None.

Definition isFailoverErrorMessage (message : string) : bool :=
  if falsy message then false
  else
    match classifyFailoverReason message with
    | None => false
    | Some timeout => false
    | Some _ => true
    end.

End Failover.

Module Retry.

Section WithTypes.

(** The value [fn] resolves to and the errors it rejects with. *)
Variables T E : Type.

Inductive Outcome : Type :=
| Resolves (value : T)
| Rejects (error : E).

Record RetryOptions : Type := {
  attempts : option Q;
  minDelayMs : option Q;
  maxDelayMs : option Q;
  jitter : option Q;
  shouldRetry : option (E -> Z -> bool)
}.

(** One pause between two attempts: the argument of [onRetry], when the
    caller gave one, and the [delay] slept. *)
Record RetryInfo : Type := {
  attempt : Z;
  delay : Q;
  error : E
}.

(** How [retryAsync] settles: with a value, or by throwing [lastError],
    which is [undefined] ([None]) when [fn] was never called. *)
Inductive Settled : Type :=
| Returned (value : T)
| Thrown (lastError : option E).

Record RetryRun : Type := {
  settled : Settled;
  calls : nat;
  pauses : list RetryInfo
}.

Definition Qmin (a b : Q) : Q := if Qle_bool a b then a else b.
Definition Qmax (a b : Q) : Q := if Qle_bool a b then b else a.

Definition orDefault (o : option Q) (d : Q) : Q :=
  match o with Some v => v | None => d end.

(** [fn k] is the outcome of the call of [fn] after [k] earlier ones;
    [random k] the value of [Math.random()] after [k] earlier ones. *)
Variable fn : nat -> Outcome.
Variable random : nat -> Q.
Variable options : RetryOptions.

Definition backoff (attemptNo : Z) (randoms : nat) : Q :=
  let minDelay := orDefault (minDelayMs options) 300 in
  let maxDelay := orDefault (maxDelayMs options) 30000 in
  let j := orDefault (jitter options) (1 # 10) in
  let delay0 := (minDelay * inject_Z (2 ^ (attemptNo - 1)))%Q in
  let delay1 :=
    if negb (Qle_bool j 0)
    then (delay0 * (1 + (random randoms * 2 - 1) * j))%Q
    else delay0 in
  Qmax (Qmin delay1 maxDelay) minDelay.

(** The [for] loop; [lastError] and the records of the run so far are
    carried along.  [None] when the fuel runs out. *)
Fixpoint retryLoop (fuel : nat) (attemptNo : Z) (lastError : option E)
    (done : nat) (log : list RetryInfo) : option RetryRun :=
  match fuel with
  | O => None
  | S fuel' =>
      let limit := orDefault (attempts options) 3 in
      if negb (Qle_bool (inject_Z attemptNo) limit)
      then Some {| settled := Thrown lastError; calls := done; pauses := log |}
      else
        match fn done with
        | Resolves v => Some {| settled := Returned v; calls := S done; pauses := log |}
        | Rejects err =>
            let stop :=
              Qeq_bool (inject_Z attemptNo) limit
              || match shouldRetry options with
                 | Some f => negb (f err attemptNo)
                 | None => false
                 end in
            if stop
            then Some {| settled := Thrown (Some err); calls := S done; pauses := log |}
            else
              let d := backoff attemptNo (List.length log) in
              retryLoop fuel' (attemptNo + 1)%Z (Some err) (S done)
                (log ++ [{| attempt := attemptNo; delay := d; error := err |}])
        end
  end.

Definition retryAsync : option RetryRun :=
  retryLoop (S (Z.to_nat (Qfloor (orDefault (attempts options) 3)))) 1%Z None O [].

End WithTypes.

Arguments Resolves {T E}.
Arguments Rejects {T E}.
Arguments attempts {E}.
Arguments minDelayMs {E}.
Arguments maxDelayMs {E}.
Arguments jitter {E}.
Arguments shouldRetry {E}.
Arguments attempt {E}.
Arguments delay {E}.
Arguments error {E}.
Arguments Returned {T E}.
Arguments Thrown {T E}.
Arguments settled {T E}.
Arguments calls {T E}.
Arguments pauses {T E}.
Arguments backoff {E}.
Arguments retryLoop {T E}.
Arguments retryAsync {T E}.

End Retry.

(* ================================================================== *)
(** ** The turn loop (agent-loop.ts) *)
(* ================================================================== *)

Module AgentLoop.
Import Session.

(** An entry of [toolCalls]: [{ id, name, input }]. *)
Record ToolCallRequest : Type := {
  tc_id : string;
  tc_name : string;
  tc_input : Input
}.

(** What the provider's event stream yields, by [event.type]. *)
Inductive StreamEvent : Type :=
| text_delta (delta : string)
| text_end (content : string)
| toolcall_start
| toolcall_end (toolCall : ToolCallRequest)
| other_event.

(** How [eventStream.result()] settles; an error is its message
    ([describeError]). *)
Inductive Settled : Type :=
| Resolved
| Rejected (message : string).

Record EventStream : Type := {
  events : list StreamEvent;
  result : Settled
}.

(** The values [undefined] and [null]. *)
Inductive Nullish : Type :=
| js_undefined
| js_null.

(** How the promise of [tool.execute] settles.  [Throws message] is a
    rejection with a value other than [undefined] and [null]:
    [message] is the text the template literal makes of the value's
    [message] property, the message of an [Error], and the text
    [undefined] for a value without the property.  [ThrowsNullish] is a
    rejection with [undefined] or [null], as [throw undefined] or
    [Promise.reject()] produce: reading its [message] is a
    [TypeError]. *)
Inductive ToolOutcome : Type :=
| Returns (output : string)
| Throws (message : string)
| ThrowsNullish (value : Nullish).

(** A JavaScript number, as [maxTurns] can hold one: the loop compares
    the value it is given and checks nothing, and [parseInt] yields
    [NaN] for a text that is no number.  A finite number is the
    rational it denotes. *)
Inductive JsNumber : Type :=
| Finite (q : Q)
| NaN
| Infinity
| NegInfinity.

(** [turns >= maxTurns], for the integer [turns]: a comparison with
    [NaN] is false. *)
Definition reached (turns : Z) (maxTurns : JsNumber) : bool :=
  match maxTurns with
  | Finite q => Qle_bool q (inject_Z turns)
  | NaN => false
  | Infinity => false
  | NegInfinity => true
  end.

(** A tool; [execute] is indexed by the instant of the call. *)
Record Tool : Type := {
  name : string;
  execute : nat -> Input -> ToolOutcome
}.

(** The events the loop pushes on its stream.  The [delay] of a [retry]
    event is drawn from [Math.random] and is left out. *)
Inductive AgentEvent : Type :=
| agent_start
| turn_start (turn : Z)
| message_delta (delta : string)
| retry (attempt : Z) (error : string)
| context_overflow_compact (error : string)
| message_end (message : Message) (turnText : string)
| turn_end (turn : Z)
| tool_execution_start (toolCallId toolName : string) (args : Input)
| tool_execution_end (toolCallId toolName result : string) (isError : bool)
| tool_skipped (toolCallId toolName : string)
| steering (pendingCount : nat)
| agent_end (messages : list Message)
| agent_error (error : string).

(** What [prepareCompaction] resolves to, or the error it rejects with. *)
Inductive CompactionPrep : Type :=
| Prepared (summary : option string) (summaryMessage : option Message)
| PrepareFailed (message : string).

(** [AgentLoopParams].  Everything the loop awaits or reads from outside
    is a function of the instant at which it is consulted: the state of
    the abort signal, the steering queue as [getSteeringMessages] drains
    it, the provider's stream, the clock.  [initialMessages] and
    [initialSummary] are the [currentMessages] and [compactionSummary]
    the caller passes in; [appendMessage] is the guarded append. *)
Record AgentLoopParams : Type := {
  initialMessages : list Message;
  initialSummary : option Message;
  toolsForRun : list Tool;
  maxTurns : JsNumber;
  contextTokens : Z;
  getSteeringMessages : nat -> list Message;
  getFollowUpMessages : option (nat -> list Message);
  prepareCompaction : nat -> list Message -> CompactionPrep;
  streamFn : nat -> list Message -> EventStream;
  aborted : nat -> bool;
  now : nat -> Z
}.

(** The loop's variables, the guarded log, and the events pushed so
    far.  The counters [turns] and [totalToolCalls] are integers; the
    source keeps them in doubles, which count exactly up to 2^53. *)
Record LoopState : Type := {
  instant : nat;
  log : Guard.GuardedLog;
  currentMessages : list Message;
  compactionSummary : option Message;
  turns : Z;
  totalToolCalls : Z;
  finalText : string;
  overflowCompactionAttempted : bool;
  pendingMessages : list Message;
  pushed : list AgentEvent
}.

Definition tick (st : LoopState) : LoopState :=
  {| instant := S (instant st); log := log st; currentMessages := currentMessages st;
     compactionSummary := compactionSummary st; turns := turns st;
     totalToolCalls := totalToolCalls st; finalText := finalText st;
     overflowCompactionAttempted := overflowCompactionAttempted st;
     pendingMessages := pendingMessages st; pushed := pushed st |}.

Definition push (e : AgentEvent) (st : LoopState) : LoopState :=
  {| instant := instant st; log := log st; currentMessages := currentMessages st;
     compactionSummary := compactionSummary st; turns := turns st;
     totalToolCalls := totalToolCalls st; finalText := finalText st;
     overflowCompactionAttempted := overflowCompactionAttempted st;
     pendingMessages := pendingMessages st; pushed := pushed st ++ [e] |}.

Definition setLog (l : Guard.GuardedLog) (st : LoopState) : LoopState :=
  {| instant := instant st; log := l; currentMessages := currentMessages st;
     compactionSummary := compactionSummary st; turns := turns st;
     totalToolCalls := totalToolCalls st; finalText := finalText st;
     overflowCompactionAttempted := overflowCompactionAttempted st;
     pendingMessages := pendingMessages st; pushed := pushed st |}.

Definition setCurrentMessages (l : list Message) (st : LoopState) : LoopState :=
  {| instant := instant st; log := log st; currentMessages := l;
     compactionSummary := compactionSummary st; turns := turns st;
     totalToolCalls := totalToolCalls st; finalText := finalText st;
     overflowCompactionAttempted := overflowCompactionAttempted st;
     pendingMessages := pendingMessages st; pushed := pushed st |}.

Definition setCompactionSummary (m : option Message) (st : LoopState) : LoopState :=
  {| instant := instant st; log := log st; currentMessages := currentMessages st;
     compactionSummary := m; turns := turns st;
     totalToolCalls := totalToolCalls st; finalText := finalText st;
     overflowCompactionAttempted := overflowCompactionAttempted st;
     pendingMessages := pendingMessages st; pushed := pushed st |}.

Definition setTurns (n : Z) (st : LoopState) : LoopState :=
  {| instant := instant st; log := log st; currentMessages := currentMessages st;
     compactionSummary := compactionSummary st; turns := n;
     totalToolCalls := totalToolCalls st; finalText := finalText st;
     overflowCompactionAttempted := overflowCompactionAttempted st;
     pendingMessages := pendingMessages st; pushed := pushed st |}.

Definition setTotalToolCalls (n : Z) (st : LoopState) : LoopState :=
  {| instant := instant st; log := log st; currentMessages := currentMessages st;
     compactionSummary := compactionSummary st; turns := turns st;
     totalToolCalls := n; finalText := finalText st;
     overflowCompactionAttempted := overflowCompactionAttempted st;
     pendingMessages := pendingMessages st; pushed := pushed st |}.

Definition setFinalText (s : string) (st : LoopState) : LoopState :=
  {| instant := instant st; log := log st; currentMessages := currentMessages st;
     compactionSummary := compactionSummary st; turns := turns st;
     totalToolCalls := totalToolCalls st; finalText := s;
     overflowCompactionAttempted := overflowCompactionAttempted st;
     pendingMessages := pendingMessages st; pushed := pushed st |}.

Definition setOverflowCompactionAttempted (b : bool) (st : LoopState) : LoopState :=
  {| instant := instant st; log := log st; currentMessages := currentMessages st;
     compactionSummary := compactionSummary st; turns := turns st;
     totalToolCalls := totalToolCalls st; finalText := finalText st;
     overflowCompactionAttempted := b;
     pendingMessages := pendingMessages st; pushed := pushed st |}.

Definition setPendingMessages (l : list Message) (st : LoopState) : LoopState :=
  {| instant := instant st; log := log st; currentMessages := currentMessages st;
     compactionSummary := compactionSummary st; turns := turns st;
     totalToolCalls := totalToolCalls st; finalText := finalText st;
     overflowCompactionAttempted := overflowCompactionAttempted st;
     pendingMessages := l; pushed := pushed st |}.

Definition skipToolCall (call : ToolCallRequest) : ContentBlock :=
  tool_result (tc_id call) (Some (tc_name call)) "Skipped due to queued user message.".

(** [result.length > 500 ? result.slice(0, 500) + "..." : result] *)
Definition preview (result : string) : string :=
  if (500 <? String.length result)%nat then JsString.take 500 result +++ "..."
  else result.

(** What one attempt of the provider call collects. *)
Record Attempt : Type := {
  assistantContent : list ContentBlock;
  toolCalls : list ToolCallRequest;
  turnTextParts : list string
}.

Definition emptyAttempt : Attempt :=
  {| assistantContent := []; toolCalls := []; turnTextParts := [] |}.

Definition LLM_ATTEMPTS : nat := 3.

(** How one pass through the body of the inner loop ends: at the next
    evaluation of the loop condition, or with an error thrown to the
    outer [catch]. *)
Inductive TurnResult : Type :=
| Continue (hasMoreToolCalls : bool) (st : LoopState)
| Threw (error : string) (st : LoopState).

(** How the body of the [if (tool)] statement ends: with the text
    assigned to [result], or with an error that leaves the [catch]
    block. *)
Inductive Invocation : Type :=
| Completed (output : string)
| Escaped (error : string).

(** How the [for] loop over the tool calls ends: with [toolResults] and
    [steeringMessages], or with an error thrown out of it. *)
Inductive ToolPass : Type :=
| Assembled (toolResults : list ContentBlock) (steeringMessages : option (list Message))
            (st : LoopState)
| ToolThrew (error : string) (st : LoopState).

Inductive InnerResult : Type :=
| InnerDone (st : LoopState)
| BreakOuter (st : LoopState)
| InnerThrew (error : string) (st : LoopState).

Section Loop.

Variable estimateMessageChars : Message -> Z.
Variable P : AgentLoopParams.

Definition isAborted (st : LoopState) : bool * LoopState :=
  (aborted P (instant st), tick st).

Definition steeringNow (st : LoopState) : list Message * LoopState :=
  (getSteeringMessages P (instant st), tick st).

(** [await appendMessage(sessionKey, msg); currentMessages.push(msg)] *)
Definition appendMessage (msg : Message) (st : LoopState) : LoopState :=
  tick (setLog (Guard.append (now P (instant st)) (log st) msg) st).

Definition record (msg : Message) (st : LoopState) : LoopState :=
  setCurrentMessages (currentMessages st ++ [msg]) (appendMessage msg st).

Definition findTool (toolName : string) : option Tool :=
  find (fun t => String.eqb (name t) toolName) (toolsForRun P).

(** The [for await] over the provider's events. *)
Fixpoint consume (evs : list StreamEvent) (a : Attempt) (st : LoopState)
  : Attempt * LoopState :=
  match evs with
  | [] => (a, st)
  | ev :: rest =>
      let '(ab, st) := isAborted st in
      if ab then (a, st)
      else
        match ev with
        | text_delta d => consume rest a (push (message_delta d) st)
        | text_end c =>
            consume rest
              {| assistantContent := assistantContent a ++ [text c];
                 toolCalls := toolCalls a;
                 turnTextParts := turnTextParts a ++ [c] |} st
        | toolcall_end tc =>
            consume rest
              {| assistantContent :=
                   assistantContent a ++ [tool_use (tc_id tc) (tc_name tc) (tc_input tc)];
                 toolCalls := toolCalls a ++ [tc];
                 turnTextParts := turnTextParts a |} st
        | toolcall_start => consume rest a st
        | other_event => consume rest a st
        end
  end.

(** The function handed to [retryAsync]: one provider call. *)
Definition llmAttempt (messagesForModel : list Message) (st : LoopState)
  : Settled * Attempt * LoopState :=
  let eventStream := streamFn P (instant st) messagesForModel in
  let '(a, st) := consume (events eventStream) emptyAttempt (tick st) in
  let '(ab, st) := isAborted st in
  (if ab then Rejected "Operation aborted" else result eventStream, a, st).

(** [retryAsync] with the loop's options; [remaining] is the number of
    attempts left after this one. *)
Fixpoint retryAsync (remaining : nat) (attempt : Z) (messagesForModel : list Message)
  (st : LoopState) : Settled * Attempt * LoopState :=
  let '(r, a, st) := llmAttempt messagesForModel st in
  match r with
  | Resolved => (Resolved, a, st)
  | Rejected err =>
      match remaining with
      | O => (Rejected err, a, st)
      | S k =>
          let '(ab, st) := isAborted st in
          if ab then (Rejected err, a, st)
          else if negb (Errors.isRateLimitError err) then (Rejected err, a, st)
          else retryAsync k (attempt + 1)%Z messagesForModel (push (retry attempt err) st)
      end
  end.

Definition nullishText (value : Nullish) : string :=
  match value with js_undefined => "undefined" | js_null => "null" end.

(** The message of the [TypeError] that [(err as Error).message] throws
    when [err] is [undefined] or [null], in the wording of V8. *)
Definition messageOfNullish (value : Nullish) : string :=
  "Cannot read properties of " +++ nullishText value +++ " (reading 'message')".

(** The [if (tool) { try ... catch ... } else ...] statement for one
    call, at the instant [i] of its execution.  The [catch] block reads
    [(err as Error).message]; on [undefined] and [null] that read
    throws, and nothing encloses it but the [catch] of the whole
    loop. *)
Definition invokeTool (call : ToolCallRequest) (i : nat) : Invocation :=
  match findTool (tc_name call) with
  | Some tool =>
      match execute tool i (tc_input call) with
      | Returns output => Completed output
      | Throws message => Completed ("Execution error: " +++ message)
      | ThrowsNullish value => Escaped (messageOfNullish value)
      end
  | None => Completed ("Unknown tool: " +++ tc_name call)
  end.

Definition isNone {A : Type} (o : option A) : bool :=
  match o with None => true | Some _ => false end.

Fixpoint skipRemaining (remaining : list ToolCallRequest) (toolResults : list ContentBlock)
  (st : LoopState) : list ContentBlock * LoopState :=
  match remaining with
  | [] => (toolResults, st)
  | skipped :: rest =>
      skipRemaining rest (toolResults ++ [skipToolCall skipped])
                    (push (tool_skipped (tc_id skipped) (tc_name skipped)) st)
  end.

(** The [for] loop over [toolCalls]; the second component is
    [steeringMessages]. *)
Fixpoint executeToolCalls (calls : list ToolCallRequest) (toolResults : list ContentBlock)
  (st : LoopState) : ToolPass :=
  match calls with
  | [] => Assembled toolResults None st
  | call :: remaining =>
      let tool := findTool (tc_name call) in
      let st := push (tool_execution_start (tc_id call) (tc_name call) (tc_input call)) st in
      match invokeTool call (instant st) with
      | Escaped error => ToolThrew error (tick st)
      | Completed result =>
          let st := tick st in
          let st := setTotalToolCalls (totalToolCalls st + 1)%Z st in
          let isError := isNone tool in
          let st := push (tool_execution_end (tc_id call) (tc_name call) (preview result)
                                             isError) st in
          let toolResults :=
            toolResults ++ [tool_result (tc_id call) (Some (tc_name call)) result] in
          let '(steer, st) := steeringNow st in
          if negb (Guard.isEmpty steer) then
            let '(toolResults, st) := skipRemaining remaining toolResults st in
            Assembled toolResults (Some steer) (push (steering (List.length steer)) st)
          else executeToolCalls remaining toolResults st
      end
  end.

Definition injectPending (st : LoopState) : LoopState :=
  setPendingMessages []
    (fold_left (fun st msg => record msg st) (pendingMessages st) st).

Definition summaryTruthy (summary : option string) : bool :=
  match summary with Some s => Guard.truthy s | None => false end.

(** The body of the inner loop, from [turns++] on. *)
Definition turn (hasMoreToolCalls : bool) (st : LoopState) : TurnResult :=
  let st := setTurns (turns st + 1)%Z st in
  let st := push (turn_start (turns st)) st in
  let st := injectPending st in
  let pruneResult :=
    Pruning.pruneContextMessages estimateMessageChars (currentMessages st)
                                 (contextTokens P) None in
  let messagesForModel :=
    match compactionSummary st with
    | Some s => s :: Pruning.messages pruneResult
    | None => Pruning.messages pruneResult
    end in
  let '(r, a, st) := retryAsync (LLM_ATTEMPTS - 1) 1%Z messagesForModel st in
  match r with
  | Rejected errorText =>
      if Errors.isContextOverflowError errorText && negb (overflowCompactionAttempted st)
      then
        let st := setOverflowCompactionAttempted true st in
        let st := push (context_overflow_compact errorText) st in
        let overflowPrep := prepareCompaction P (instant st) (currentMessages st) in
        let st := tick st in
        match overflowPrep with
        | PrepareFailed e => Threw e st
        | Prepared summary summaryMessage =>
            match summaryMessage with
            | Some m =>
                if summaryTruthy summary then
                  Continue hasMoreToolCalls
                           (setTurns (turns st - 1)%Z (setCompactionSummary (Some m) st))
                else Threw errorText st
            | None => Threw errorText st
            end
        end
      else Threw errorText st
  | Resolved =>
      let assistantMsg :=
        {| role := assistant; content := Blocks (assistantContent a);
           timestamp := now P (instant st) |} in
      let st := record assistantMsg st in
      let turnText := JsString.join EmptyString (turnTextParts a) in
      let st := if Guard.truthy turnText then push (message_end assistantMsg turnText) st
                else st in
      if Guard.isEmpty (toolCalls a) then
        let st := setFinalText turnText st in
        let st := push (turn_end (turns st)) st in
        let '(steer, st) := steeringNow st in
        Continue false (setPendingMessages steer st)
      else
        match executeToolCalls (toolCalls a) [] st with
        | ToolThrew error st => Threw error st
        | Assembled toolResults steeringMessages st =>
            let resultMsg :=
              {| role := user; content := Blocks toolResults;
                 timestamp := now P (instant st) |} in
            let st := record resultMsg st in
            let st := push (turn_end (turns st)) st in
            match steeringMessages with
            | Some s =>
                if negb (Guard.isEmpty s) then Continue true (setPendingMessages s st)
                else let '(steer, st) := steeringNow st in
                     Continue true (setPendingMessages steer st)
            | None =>
                let '(steer, st) := steeringNow st in
                Continue true (setPendingMessages steer st)
            end
        end
  end.

(** [while (hasMoreToolCalls || pendingMessages.length > 0)].  Nothing
    in the loop bounds its passes when [maxTurns] is [NaN] or
    [Infinity]: [fuel] is the number of passes through the body that are
    followed, and [None] says the loop has not ended within them. *)
Fixpoint innerLoop (fuel : nat) (hasMoreToolCalls : bool) (st : LoopState)
  : option InnerResult :=
  if hasMoreToolCalls || negb (Guard.isEmpty (pendingMessages st)) then
    if reached (turns st) (maxTurns P) then Some (BreakOuter st)
    else
      let '(ab, st) := isAborted st in
      if ab then Some (BreakOuter st)
      else
        match fuel with
        | O => None
        | S fuel' =>
            match turn hasMoreToolCalls st with
            | Continue h st' => innerLoop fuel' h st'
            | Threw e st' => Some (InnerThrew e st')
            end
        end
  else Some (InnerDone st).

(** [outerLoop: while (true)]; the second component is the error the
    outer [catch] receives.  [fuel] bounds the passes of either loop. *)
Fixpoint outerLoop (fuel : nat) (st : LoopState) : option (LoopState * option string) :=
  match innerLoop fuel true st with
  | None => None
  | Some (BreakOuter st) => Some (st, None)
  | Some (InnerThrew e st) => Some (st, Some e)
  | Some (InnerDone st) =>
      match getFollowUpMessages P with
      | Some followUpOf =>
          let followUp := followUpOf (instant st) in
          let st := tick st in
          if negb (Guard.isEmpty followUp) then
            match fuel with
            | O => None
            | S fuel' => outerLoop fuel' (setPendingMessages followUp st)
            end
          else Some (st, None)
      | None => Some (st, None)
      end
  end.

Definition initialState (log0 : Guard.GuardedLog) (start : nat) : LoopState :=
  {| instant := start; log := log0; currentMessages := initialMessages P;
     compactionSummary := initialSummary P; turns := 0; totalToolCalls := 0;
     finalText := EmptyString; overflowCompactionAttempted := false;
     pendingMessages := []; pushed := [] |}.

(** [runAgentLoop], started at instant [start] on the log [log0] and
    followed for [fuel] passes of its loops.  The final state carries
    the events pushed, the log, and the fields of the result
    ([finalText], [turns], [totalToolCalls], [currentMessages]). *)
Definition runAgentLoop (fuel : nat) (log0 : Guard.GuardedLog) (start : nat)
  : option LoopState :=
  let '(steer, st) := steeringNow (initialState log0 start) in
  let st := setPendingMessages steer st in
  match outerLoop fuel st with
  | None => None
  | Some (st, None) => Some (push (agent_end (currentMessages st)) st)
  | Some (st, Some err) => Some (push (agent_error err) st)
  end.

End Loop.

End AgentLoop.

(* ================================================================== *)
(** ** One run of the agent (agent.ts) *)
(* ================================================================== *)

Module Agent.
Import Session AgentLoop.

(** The fields of [RunResult] that come from the loop. *)
Record RunResult : Type := {
  resultText : string;
  resultTurns : Z;
  resultToolCalls : Z
}.

(** How the promise returned by [run] settles. *)
Inductive RunOutcome : Type :=
| Fulfilled (r : RunResult)
| RunRejected (error : string).

(** What one run meets outside the agent: [setupError] is an error
    thrown before the user message is appended (the context-window
    guard, loading the history, matching a skill); [history] is what
    [sessions.load] returns; [processedMessage] is the skill rewrite of
    the user's text; the other fields are indexed by the instant at
    which they are consulted. *)
Record RunEnv : Type := {
  setupError : option string;
  history : list Message;
  processedMessage : string -> string;
  prepareMessagesForRun : nat -> list Message -> CompactionPrep;
  steeringQueue : nat -> list string;
  rawTools : list Tool;
  agentMaxTurns : JsNumber;
  agentContextTokens : Z;
  agentStreamFn : nat -> list Message -> EventStream;
  abortSignal : nat -> bool;
  clock : nat -> Z
}.

Section Run.

Variable estimateMessageChars : Message -> Z.
Variable E : RunEnv.

(** [queue.splice(0)] mapped to user messages. *)
Definition getSteeringMessages (i : nat) : list Message :=
  map (fun t => {| role := user; content := Str t; timestamp := clock E i |})
      (steeringQueue E i).

(** tools/abort.ts: the wrapped tool throws when the run is already
    aborted. *)
Definition wrapToolWithAbortSignal (tool : Tool) : Tool :=
  {| name := name tool;
     execute := fun i input =>
                  if abortSignal E i then Throws "Operation aborted"
                  else execute tool i input |}.

Definition loopParams (currentMessages : list Message) (summary : option Message)
  : AgentLoopParams :=
  {| initialMessages := currentMessages;
     initialSummary := summary;
     toolsForRun := map wrapToolWithAbortSignal (rawTools E);
     maxTurns := agentMaxTurns E;
     contextTokens := agentContextTokens E;
     AgentLoop.getSteeringMessages := getSteeringMessages;
     getFollowUpMessages := None;
     prepareCompaction := prepareMessagesForRun E;
     streamFn := agentStreamFn E;
     aborted := abortSignal E;
     now := clock E |}.

(** The [error] of the last [agent_error] event of the stream. *)
Definition loopError (evs : list AgentEvent) : option string :=
  fold_left (fun acc e => match e with agent_error err => Some err | _ => acc end)
            evs None.

(** The [try] block of [run], its loop followed for [fuel] passes: the
    outcome, the log, the events emitted and the instant reached.  The
    compaction record written by [appendCompaction] is no message of
    the transcript and is left out, as are the system prompt and the
    memory counters. *)
Definition runBody (fuel : nat) (log0 : Guard.GuardedLog) (userMessage : string)
  : option (RunOutcome * Guard.GuardedLog * list AgentEvent * nat) :=
  match setupError E with
  | Some e => Some (RunRejected e, log0, [agent_start], 0)
  | None =>
      let userMsg := {| role := user; content := Str (processedMessage E userMessage);
                        timestamp := clock E 0 |} in
      let log1 := Guard.append (clock E 0) log0 userMsg in
      let currentMessages := history E ++ [userMsg] in
      match prepareMessagesForRun E 1 currentMessages with
      | PrepareFailed e => Some (RunRejected e, log1, [agent_start], 2)
      | Prepared _ summaryMessage =>
          match runAgentLoop estimateMessageChars
                             (loopParams currentMessages summaryMessage) fuel log1 2 with
          | None => None
          | Some st =>
              let outcome :=
                match loopError (pushed st) with
                | Some err =>
                    if Guard.truthy err then RunRejected err
                    else Fulfilled {| resultText := finalText st; resultTurns := turns st;
                                      resultToolCalls := totalToolCalls st |}
                | None => Fulfilled {| resultText := finalText st; resultTurns := turns st;
                                       resultToolCalls := totalToolCalls st |}
                end in
              Some (outcome, log st, agent_start :: pushed st, instant st)
          end
      end
  end.

(** [run], as its lanes start it: the [try] block, the [catch] that
    emits [agent_error], and the [finally] that flushes the guard. *)
Definition run (fuel : nat) (log0 : Guard.GuardedLog) (userMessage : string)
  : option (RunOutcome * Guard.GuardedLog * list AgentEvent) :=
  match runBody fuel log0 userMessage with
  | None => None
  | Some (outcome, log1, evs, i) =>
      let evs := match outcome with
                 | RunRejected e => evs ++ [agent_error e]
                 | Fulfilled _ => evs
                 end in
      Some (outcome, Guard.flushPendingToolResults (clock E i) log1, evs)
  end.

End Run.

End Agent.

(* ================================================================== *)
(** ** The tool set of a run (tool-policy.ts, agent.ts) *)
(* ================================================================== *)

Module AgentTools.
Import ToolPolicy AgentLoop.

(** [filterToolsByPolicy]: the patterns are compiled once, before the
    filter. *)
Definition filterToolsByPolicy (tools : list Tool) (policy : option ToolPolicy) : list Tool :=
  match policy with
  | None => tools
  | Some policy =>
      let deny' := compilePatterns (orEmpty (deny policy)) in
      let allow' := compilePatterns (orEmpty (allow policy)) in
      filter (fun tool =>
                let normalized := normalizeToolName (name tool) in
                if matchesAny normalized deny' then false
                else if (List.length allow' =? 0)%nat then true
                else if matchesAny normalized allow' then true
                else if (normalized =? "apply_patch")%string && matchesAny "exec" allow'
                     then true
                else false) tools
  end.

(** The agent's [sandbox] option. *)
Record Sandbox : Type := {
  sandboxEnabled : bool;
  allowExec : bool;
  allowWrite : bool
}.

Definition buildSandboxToolPolicy (sandbox : option Sandbox) : option ToolPolicy :=
  match sandbox with
  | None => None
  | Some sb =>
      if negb (sandboxEnabled sb) then None
      else
        let deny1 := if negb (allowExec sb) then ["exec"] else [] in
        let deny2 := if negb (allowWrite sb) then deny1 ++ ["write"; "edit"] else deny1 in
        if (0 <? List.length deny2)%nat then Some {| allow := None; deny := Some deny2 |}
        else None
  end.

Definition isMemoryTool (tool : Tool) : bool :=
  (name tool =? "memory_search")%string || (name tool =? "memory_get")%string
  || (name tool =? "memory_save")%string.

(** [resolveToolsForRun]: the agent's tools, its memory switch, its
    tool policy and its sandbox. *)
Definition resolveToolsForRun (tools : list Tool) (enableMemory : bool)
  (toolPolicy : option ToolPolicy) (sandbox : option Sandbox) : list Tool :=
  let tools := if negb enableMemory then filter (fun tool => negb (isMemoryTool tool)) tools
               else tools in
  let sandboxPolicy := buildSandboxToolPolicy sandbox in
  let filtered := filterToolsByPolicy tools toolPolicy in
  filterToolsByPolicy filtered sandboxPolicy.

End AgentTools.

(* ================================================================== *)
(** * Part II: properties *)
(* ================================================================== *)

Example string_of_N_samples :
  JsString.string_of_N 0 = "0" /\ JsString.string_of_N 1500 = "1500" /\
  JsString.string_of_Z 20 = "20" /\ JsString.string_of_nat 1024 = "1024".
Proof. repeat split; reflexivity. Qed.

Example trim_lower_sample :
  JsString.toLowerCase (JsString.trim "  Apply-Patch ") = "apply-patch".
Proof. reflexivity. Qed.

(* ================================================================== *)
(** ** Tool policy: the glob and the allow/deny rules *)
(* ================================================================== *)

Section PolicyProperties.
Import GlobSpec.

Example policy_samples :
  ToolPolicy.isToolAllowed "Bash" (Some {| ToolPolicy.allow := Some ["exec"]; ToolPolicy.deny := None |}) = true /\
  ToolPolicy.isToolAllowed "file_read" (Some {| ToolPolicy.allow := Some ["file_*"]; ToolPolicy.deny := None |}) = true /\
  ToolPolicy.isToolAllowed "a.b" (Some {| ToolPolicy.allow := Some ["a?b*"]; ToolPolicy.deny := None |}) = false /\
  ToolPolicy.isToolAllowed "a?bc" (Some {| ToolPolicy.allow := Some ["a?b*"]; ToolPolicy.deny := None |}) = true /\
  ToolPolicy.isToolAllowed "file_read" (Some {| ToolPolicy.allow := Some ["file_*"]; ToolPolicy.deny := Some ["*read"] |}) = false /\
  ToolPolicy.regexSource "a.b*" = "^a\.b.*$".
Proof. repeat split; reflexivity. Qed.


Lemma escapeSyntax_head_not_star p :
  match ToolPolicy.escapeSyntax p with
  | String c _ => c <> "*"%char
  | EmptyString => True
  end.
Proof.
  destruct p as [|c p]; simpl; [exact I|].
  destruct (Regex.is_syntax_char c) eqn:E; [discriminate|].
  intros ->. discriminate E.
Qed.

Lemma replaceEscapedStar_cons a r :
  (a <> "\"%char \/ match r with String b _ => b <> "*"%char | EmptyString => True end) ->
  ToolPolicy.replaceEscapedStar (String a r) = String a (ToolPolicy.replaceEscapedStar r).
Proof.
  intros H. simpl. destruct r as [|b r']; [reflexivity|].
  destruct (Ascii.eqb_spec a "\"%char), (Ascii.eqb_spec b "*"%char); simpl; try reflexivity.
  destruct H; contradiction.
Qed.

Lemma parse_regexSource_body p :
  Regex.parse (ToolPolicy.replaceEscapedStar (ToolPolicy.escapeSyntax p) +++ "$") = Some (globTokens p).
Proof.
  induction p as [|c p IH]; [reflexivity|].
  cbn [ToolPolicy.escapeSyntax globTokens].
  destruct (Ascii.eqb_spec c "*"%char) as [->|Hc].
  - cbn. cbn in IH. rewrite IH. reflexivity.
  - destruct (Regex.is_syntax_char c) eqn:Es.
    + rewrite replaceEscapedStar_cons.
      2:{ right. exact Hc. }
      rewrite replaceEscapedStar_cons.
      2:{ right. apply escapeSyntax_head_not_star. }
      cbn [String.append Regex.parse]. cbn [Ascii.eqb Bool.eqb].
      rewrite Es, IH. reflexivity.
    + rewrite replaceEscapedStar_cons.
      2:{ left. intros ->. discriminate Es. }
      cbn [String.append Regex.parse].
      destruct (Ascii.eqb_spec c "$"%char) as [->|_]; [discriminate Es|].
      destruct (Ascii.eqb_spec c "\"%char) as [->|_]; [discriminate Es|].
      destruct (Ascii.eqb_spec c "."%char) as [->|_]; [discriminate Es|].
      rewrite Es, IH. reflexivity.
Qed.

Lemma compile_regexSource p :
  Regex.compile (ToolPolicy.regexSource p) = Some (globTokens p).
Proof.
  unfold ToolPolicy.regexSource. cbn. apply parse_regexSource_body.
Qed.

Lemma star_spec k s :
  Regex.star k s = true <->
  exists s1 s2, s = s1 +++ s2 /\ forall_chars not_line_terminator s1 = true /\ k s2 = true.
Proof.
  induction s as [|d s IH]; cbn [Regex.star].
  - rewrite orb_false_r. split.
    + intros H. exists EmptyString, EmptyString. auto.
    + intros (s1 & s2 & E & _ & H). destruct s1; [|discriminate]. cbn in E. subst. exact H.
  - rewrite orb_true_iff, andb_true_iff, IH. split.
    + intros [H|[Hd (s1 & s2 & -> & H1 & H2)]].
      * exists EmptyString, (String d s). auto.
      * exists (String d s1), s2. cbn. unfold not_line_terminator at 1. rewrite Hd. auto.
    + intros (s1 & s2 & E & H1 & H2). destruct s1 as [|c s1].
      * cbn in E. subst. left. exact H2.
      * cbn in E. injection E as <- ->. cbn in H1. apply andb_true_iff in H1 as [Hc H1].
        right. split; [exact Hc|]. exists s1, s2. auto.
Qed.

Lemma glob_star_run ok p s1 s2 :
  forall_chars ok s1 = true -> glob ok (String "*" p) s2 -> glob ok (String "*" p) (s1 +++ s2).
Proof.
  induction s1 as [|c s1 IH]; cbn; intros H G; [exact G|].
  apply andb_true_iff in H as [Hc H]. apply glob_star_eat; auto.
Qed.

Lemma glob_star_inv ok p s :
  glob ok (String "*" p) s ->
  exists s1 s2, s = s1 +++ s2 /\ forall_chars ok s1 = true /\ glob ok p s2.
Proof.
  intros G. remember (String "*" p) as q eqn:Eq.
  induction G as [|c p' s Hc G IH|p' s G IH|c p' s Hc G IH].
  - discriminate.
  - injection Eq as -> ->. contradiction.
  - injection Eq as ->. exists EmptyString, s. auto.
  - destruct (IH Eq) as (s1 & s2 & -> & H1 & H2).
    exists (String c s1), s2. cbn. rewrite Hc. auto.
Qed.

Lemma matches_globTokens p s :
  Regex.matches (globTokens p) s = true <-> glob not_line_terminator p s.
Proof.
  revert s. induction p as [|c p IH]; intros s; cbn [globTokens Regex.matches].
  - destruct s; split; intros H; try constructor; try discriminate; inversion H.
  - destruct (Ascii.eqb_spec c "*"%char) as [->|Hc].
    + rewrite star_spec. split.
      * intros (s1 & s2 & -> & H1 & H2). apply glob_star_run; [exact H1|].
        apply glob_star_skip, IH, H2.
      * intros G. apply glob_star_inv in G as (s1 & s2 & -> & H1 & H2).
        exists s1, s2. rewrite IH. auto.
    + destruct s as [|d s].
      * split; intros H; [discriminate|inversion H; congruence].
      * rewrite andb_true_iff, IH. split.
        -- intros [E G]. apply Ascii.eqb_eq in E. subst d. constructor; assumption.
        -- intros G. inversion G; subst; try congruence. split; [apply Ascii.eqb_refl|assumption].
Qed.

Lemma glob_weaken (ok ok' : ascii -> bool) p s :
  (forall c, ok c = true -> ok' c = true) -> glob ok p s -> glob ok' p s.
Proof.
  intros Hw G. induction G as [|c p s Hc G IH|p s G IH|c p s Hc G IH].
  - constructor.
  - constructor; assumption.
  - apply glob_star_skip; assumption.
  - apply glob_star_eat; auto.
Qed.

Lemma glob_restrict ok p s :
  forall_chars ok s = true -> glob any_char p s -> glob ok p s.
Proof.
  intros Hs G. induction G as [|c p s Hc G IH|p s G IH|c p s Hc G IH].
  - constructor.
  - cbn in Hs. apply andb_true_iff in Hs as [_ Hs]. constructor; auto.
  - constructor; auto.
  - cbn in Hs. apply andb_true_iff in Hs as [H1 Hs]. apply glob_star_eat; auto.
Qed.

Lemma includes_star_false p :
  JsString.includes p "*" = false -> forall_chars (fun c => negb (c =? "*")%char) p = true.
Proof.
  induction p as [|c p IH]; [reflexivity|].
  cbn [JsString.includes JsString.startsWith forall_chars].
  assert (Hs : JsString.startsWith p EmptyString = true) by (destruct p; reflexivity).
  rewrite Hs, andb_true_r. intros H. apply orb_false_iff in H as [Hc H].
  rewrite Ascii.eqb_sym, Hc. cbn [negb andb]. apply IH, H.
Qed.

Lemma glob_no_star ok p s :
  forall_chars (fun c => negb (c =? "*")%char) p = true -> (glob ok p s <-> s = p).
Proof.
  revert s. induction p as [|c p IH]; intros s Hp.
  - split; intros H; [inversion H; reflexivity|subst; constructor].
  - cbn in Hp. apply andb_true_iff in Hp as [Hc Hp]. apply negb_true_iff, Ascii.eqb_neq in Hc.
    split.
    + intros G. inversion G; subst; try congruence. f_equal. apply IH; assumption.
    + intros ->. constructor; [exact Hc|]. apply IH; auto.
Qed.

Lemma glob_lone_star s : glob any_char "*" s.
Proof.
  induction s; [apply glob_star_skip; constructor|apply glob_star_eat; auto].
Qed.

(** One compiled pattern decides the glob on names without line terminators. *)
Lemma patternMatches_glob name p :
  forall_chars not_line_terminator name = true ->
  (ToolPolicy.patternMatches name (ToolPolicy.compilePattern p) = true <->
   glob any_char (ToolPolicy.normalizeToolName p) name).
Proof.
  intros Hn. unfold ToolPolicy.compilePattern.
  set (q := ToolPolicy.normalizeToolName p).
  destruct (String.eqb_spec q EmptyString) as [->|Hne].
  - cbn. rewrite String.eqb_eq. rewrite glob_no_star by reflexivity. reflexivity.
  - destruct (String.eqb_spec q "*") as [->|Hns].
    + cbn. split; intros _; [apply glob_lone_star|reflexivity].
    + destruct (JsString.includes q "*") eqn:Ei; cbn [negb ToolPolicy.patternMatches].
      * rewrite compile_regexSource. cbn [Regex.test]. rewrite matches_globTokens. split.
        -- apply glob_weaken. reflexivity.
        -- apply glob_restrict. exact Hn.
      * rewrite String.eqb_eq. rewrite glob_no_star by (apply includes_star_false; exact Ei).
        reflexivity.
Qed.

Lemma matchesAny_glob name ps :
  forall_chars not_line_terminator name = true ->
  (ToolPolicy.matchesAny name (ToolPolicy.compilePatterns ps) = true <->
   exists p, In p ps /\ glob any_char (ToolPolicy.normalizeToolName p) name).
Proof.
  intros Hn. unfold ToolPolicy.matchesAny, ToolPolicy.compilePatterns.
  rewrite existsb_exists. split.
  - intros (c & Hin & Hm). apply in_map_iff in Hin as (p & <- & Hin).
    exists p. split; [exact Hin|]. apply patternMatches_glob; assumption.
  - intros (p & Hin & G). exists (ToolPolicy.compilePattern p). split.
    + apply in_map. exact Hin.
    + apply patternMatches_glob; assumption.
Qed.

(** C9 (amended).  For a tool name whose normal form holds no line
    terminator: with the single allow pattern [p], the tool is allowed iff
    its normal form matches the normal form of [p] under the glob, or it
    is [apply_patch] and [exec] matches [p]; a name matching a deny
    pattern is rejected whatever the allow list; and with an empty allow
    list everything not denied is allowed. *)
Theorem isToolAllowed_glob_policy (t : string) :
  forall_chars not_line_terminator (ToolPolicy.normalizeToolName t) = true ->
  (forall p,
      ToolPolicy.isToolAllowed t
        (Some {| ToolPolicy.allow := Some [p]; ToolPolicy.deny := None |}) = true <->
      glob any_char (ToolPolicy.normalizeToolName p) (ToolPolicy.normalizeToolName t) \/
      (ToolPolicy.normalizeToolName t = "apply_patch" /\
       glob any_char (ToolPolicy.normalizeToolName p) "exec")) /\
  (forall pol d,
      In d (ToolPolicy.orEmpty (ToolPolicy.deny pol)) ->
      glob any_char (ToolPolicy.normalizeToolName d) (ToolPolicy.normalizeToolName t) ->
      ToolPolicy.isToolAllowed t (Some pol) = false) /\
  (forall pol,
      ToolPolicy.orEmpty (ToolPolicy.allow pol) = [] ->
      (forall d, In d (ToolPolicy.orEmpty (ToolPolicy.deny pol)) ->
                 ~ glob any_char (ToolPolicy.normalizeToolName d) (ToolPolicy.normalizeToolName t)) ->
      ToolPolicy.isToolAllowed t (Some pol) = true).
Proof.
  intros Hn. repeat split.
  - unfold ToolPolicy.isToolAllowed. cbn [ToolPolicy.deny ToolPolicy.allow ToolPolicy.orEmpty].
    cbn [ToolPolicy.compilePatterns map ToolPolicy.matchesAny existsb List.length Nat.eqb].
    rewrite orb_false_r.
    destruct (ToolPolicy.patternMatches (ToolPolicy.normalizeToolName t) (ToolPolicy.compilePattern p)) eqn:E1.
    + intros _. left. apply patternMatches_glob; assumption.
    + destruct (String.eqb_spec (ToolPolicy.normalizeToolName t) "apply_patch") as [Ea|Ea];
        cbn [andb]; [|discriminate].
      destruct (ToolPolicy.patternMatches "exec" (ToolPolicy.compilePattern p)) eqn:E2; [|discriminate].
      intros _. right. split; [exact Ea|]. apply patternMatches_glob; [reflexivity|exact E2].
  - unfold ToolPolicy.isToolAllowed. cbn [ToolPolicy.deny ToolPolicy.allow ToolPolicy.orEmpty].
    cbn [ToolPolicy.compilePatterns map ToolPolicy.matchesAny existsb List.length Nat.eqb].
    rewrite orb_false_r.
    intros [G|[Ea G]].
    + apply (patternMatches_glob _ p Hn) in G. rewrite G. reflexivity.
    + apply (patternMatches_glob "exec" p) in G; [|reflexivity].
      rewrite G, Ea.
      destruct (ToolPolicy.patternMatches "apply_patch" (ToolPolicy.compilePattern p)); reflexivity.
  - intros pol d Hin G. unfold ToolPolicy.isToolAllowed.
    assert (Hm : ToolPolicy.matchesAny (ToolPolicy.normalizeToolName t)
                   (ToolPolicy.compilePatterns (ToolPolicy.orEmpty (ToolPolicy.deny pol))) = true).
    { apply matchesAny_glob; [exact Hn|]. exists d. auto. }
    rewrite Hm. reflexivity.
  - intros pol Ha Hd. unfold ToolPolicy.isToolAllowed.
    destruct (ToolPolicy.matchesAny (ToolPolicy.normalizeToolName t)
                (ToolPolicy.compilePatterns (ToolPolicy.orEmpty (ToolPolicy.deny pol)))) eqn:Hm.
    + apply matchesAny_glob in Hm as (d & Hin & G); [|exact Hn]. exfalso. exact (Hd d Hin G).
    + rewrite Ha. reflexivity.
Qed.

Lemma isToolAllowed_glob_policy_witness :
  ToolPolicy.isToolAllowed "File_Read"
    (Some {| ToolPolicy.allow := Some ["file_*"]; ToolPolicy.deny := None |}) = true <->
  glob any_char (ToolPolicy.normalizeToolName "file_*") (ToolPolicy.normalizeToolName "File_Read") \/
  (ToolPolicy.normalizeToolName "File_Read" = "apply_patch" /\
   glob any_char (ToolPolicy.normalizeToolName "file_*") "exec").
Proof.
  apply (proj1 (isToolAllowed_glob_policy "File_Read" eq_refl)).
Defined.

(** C9, as stated, fails: [apply_patch] is allowed by the single allow
    pattern [exec], which it does not match under the glob, normalised or
    not. *)
Lemma isToolAllowed_apply_patch_inherits_exec :
  ToolPolicy.isToolAllowed "apply_patch"
    (Some {| ToolPolicy.allow := Some ["exec"]; ToolPolicy.deny := None |}) = true /\
  ToolPolicy.normalizeToolName "apply_patch" = "apply_patch" /\
  ToolPolicy.normalizeToolName "exec" = "exec" /\
  ~ glob any_char "exec" "apply_patch".
Proof.
  repeat split; try reflexivity.
  intros G. apply glob_no_star in G; [discriminate G|reflexivity].
Qed.

(** The dot of the compiled pattern refuses line terminators: a name with
    an inner line feed escapes a pattern whose star should cover it. *)
Example isToolAllowed_line_feed_name :
  let name := "a" +++ String (ascii_of_nat 10) "b" in
  ToolPolicy.isToolAllowed name
    (Some {| ToolPolicy.allow := Some ["a*b"]; ToolPolicy.deny := None |}) = false /\
  ToolPolicy.normalizeToolName name = name /\
  glob any_char "a*b" name.
Proof.
  cbv zeta. repeat split; try reflexivity.
  cbn [String.append]. constructor; [discriminate|].
  apply glob_star_eat; [reflexivity|]. apply glob_star_skip.
  constructor; [discriminate|constructor].
Qed.

End PolicyProperties.

(* ================================================================== *)
(** ** Lane scheduler: the concurrency cap and the start order *)
(* ================================================================== *)

Section QueueProperties.
Import CommandQueue.


Lemma getLaneState_lane ls n : lane (getLaneState ls n) = n.
Proof.
  unfold getLaneState. destruct (find _ ls) as [l|] eqn:E; [|reflexivity].
  apply find_some in E as [_ E]. apply String.eqb_eq in E. exact E.
Qed.

Lemma getLaneState_setLane ls st n :
  getLaneState (setLane ls st) n =
  if (lane st =? n)%string then st else getLaneState ls n.
Proof.
  unfold getLaneState. induction ls as [|l r IH]; cbn [setLane find].
  - destruct (String.eqb_spec (lane st) n); reflexivity.
  - destruct (String.eqb_spec (lane l) (lane st)) as [E|E]; cbn [find].
    + rewrite E. destruct (String.eqb_spec (lane st) n); reflexivity.
    + destruct (String.eqb_spec (lane l) n) as [E'|E'].
      * destruct (String.eqb_spec (lane st) n); [congruence|reflexivity].
      * exact IH.
Qed.

Lemma drainQueue_spec act maxc now q act' q' st w :
  drainQueue act maxc now q = (act', q', st, w) ->
  q = st ++ q' /\ act' = (act + Z.of_nat (List.length st))%Z /\
  ((act <= maxc)%Z -> (act' <= maxc)%Z) /\
  (q' <> [] -> (maxc <= act')%Z).
Proof.
  revert act act' q' st w. induction q as [|e rest IH]; intros act act' q' st w; cbn [drainQueue].
  - intros [= <- <- <- <-]. cbn. repeat split; try lia. congruence.
  - destruct (Z.ltb_spec act maxc) as [Hlt|Hge].
    + destruct (drainQueue (act + 1) maxc now rest) as [[[a1 q1] st1] w1] eqn:E.
      intros [= <- <- <- <-]. apply IH in E as (-> & -> & H3 & H4).
      cbn [List.length app]. repeat split; try lia. exact H4.
    + intros [= <- <- <- <-]. cbn. repeat split; try lia.
Qed.

Lemma onLane_app n l1 l2 : onLane n (l1 ++ l2) = onLane n l1 ++ onLane n l2.
Proof. unfold onLane. rewrite filter_app, map_app. reflexivity. Qed.

Lemma onLane_tagged n m (st : list QueueEntry) :
  onLane n (map (fun e => (m, task e)) st) = if (m =? n)%string then map task st else [].
Proof.
  unfold onLane. induction st as [|e st IH]; cbn [map filter fst].
  - destruct (m =? n)%string; reflexivity.
  - destruct (m =? n)%string eqn:E; cbn [map snd]; [f_equal|]; exact IH.
Qed.

Lemma onLane_removeFirst_other n m t l :
  m <> n -> onLane n (removeFirst (m, t) l) = onLane n l.
Proof.
  intros Hne. unfold onLane. induction l as [|[a b] r IH]; [reflexivity|].
  cbn [removeFirst fst snd]. destruct (String.eqb_spec m a) as [<-|E]; cbn [andb].
  - destruct (Nat.eqb_spec t b) as [<-|E'].
    + cbn [filter fst]. destruct (String.eqb_spec m n); [contradiction|reflexivity].
    + cbn [filter fst]. destruct (String.eqb_spec m n); [contradiction|]. exact IH.
  - cbn [filter fst]. destruct (a =? n)%string; cbn [map]; [f_equal|]; exact IH.
Qed.

Lemma onLane_removeFirst_same m t l :
  In (m, t) l -> S (List.length (onLane m (removeFirst (m, t) l))) = List.length (onLane m l).
Proof.
  unfold onLane. induction l as [|[a b] r IH]; [intros []|].
  intros Hin. cbn [removeFirst fst snd].
  destruct (String.eqb_spec m a) as [<-|E]; cbn [andb].
  - destruct (Nat.eqb_spec t b) as [<-|E'].
    + cbn [filter fst]. rewrite String.eqb_refl. reflexivity.
    + cbn [filter fst]. rewrite String.eqb_refl. cbn [map List.length]. f_equal. apply IH.
      destruct Hin as [Heq|Hin]; [congruence|exact Hin].
  - cbn [filter fst]. destruct (String.eqb_spec a m) as [E1|_]; [congruence|].
    apply IH. destruct Hin as [Heq|Hin]; [congruence|exact Hin].
Qed.

(** The invariant of one lane: the counter counts the running tasks and
    stays within the cap, tasks wait only while the lane is full, and
    the tasks started so far, followed by those queued, are the tasks
    enqueued, in enqueue order. *)
Definition lane_inv (s : Sched) (n : string) : Prop :=
  let l := getLaneState (lanes s) n in
  (1 <= maxConcurrent l)%Z /\
  (0 <= active l <= maxConcurrent l)%Z /\
  active l = Z.of_nat (List.length (running s n)) /\
  (queue l <> [] -> active l = maxConcurrent l) /\
  started s n ++ queued s n = enqueued s n.

(** A lane state about to be drained and written back. *)
Definition drain_ready (s : Sched) (st : LaneState) : Prop :=
  (1 <= maxConcurrent st)%Z /\
  (0 <= active st <= maxConcurrent st)%Z /\
  active st = Z.of_nat (List.length (running s (lane st))) /\
  started s (lane st) ++ map task (queue st) = enqueued s (lane st).

Lemma drainState_inv s st now :
  drain_ready s st ->
  (forall n, n <> lane st -> lane_inv s n) ->
  forall n, lane_inv (drainState s st now) n.
Proof.
  intros (Hmax & Hact & Hrun & Hfifo) Hother n.
  unfold drainState.
  destruct (drainQueue (active st) (maxConcurrent st) now (queue st)) as [[[a' q'] stl] w] eqn:E.
  apply drainQueue_spec in E as (Hq & Ha & Hle & Hfull).
  unfold running, started, enqueued in Hrun, Hfifo.
  unfold lane_inv, running, started, enqueued, queued. cbn [lanes inflight startLog enqueueLog].
  rewrite getLaneState_setLane. cbn [lane]. rewrite !onLane_app, !onLane_tagged.
  destruct (String.eqb_spec (lane st) n) as [<-|Hne].
  - cbn [maxConcurrent active queue]. repeat split; try lia.
    + rewrite length_app, length_map. lia.
    + intros Hne. specialize (Hfull Hne). lia.
    + rewrite <- Hfifo, Hq, map_app, app_assoc. reflexivity.
  - rewrite !app_nil_r. apply Hother. congruence.
Qed.

Lemma enqueueInLane_inv s name t opts now :
  (forall n, lane_inv s n) -> forall n, lane_inv (enqueueInLane s name t opts now) n.
Proof.
  intros Hinv. unfold enqueueInLane. apply drainState_inv.
  - destruct (Hinv name) as (H1 & H2 & H3 & _ & H5).
    unfold drain_ready, running, started, enqueued, queued in *.
    cbn [lane maxConcurrent active queue inflight startLog enqueueLog].
    rewrite getLaneState_lane. repeat split; try lia.
    rewrite onLane_app, map_app, app_assoc, H5. unfold onLane. cbn [filter fst map snd].
    rewrite String.eqb_refl. reflexivity.
  - cbn [lane]. rewrite getLaneState_lane. intros n Hne. specialize (Hinv n).
    unfold lane_inv, running, started, enqueued, queued in *.
    cbn [lanes inflight startLog enqueueLog]. rewrite onLane_app.
    unfold onLane at 4. cbn [filter fst].
    destruct (String.eqb_spec name n); [congruence|]. cbn [map]. rewrite app_nil_r. exact Hinv.
Qed.

Lemma settle_inv s name t now :
  In (name, t) (inflight s) ->
  (forall n, lane_inv s n) -> forall n, lane_inv (settle s name t now) n.
Proof.
  intros Hin Hinv. unfold settle. apply drainState_inv.
  - destruct (Hinv name) as (H1 & H2 & H3 & _ & H5).
    pose proof (onLane_removeFirst_same name t _ Hin) as Hlen.
    unfold drain_ready, running, started, enqueued, queued in *.
    cbn [lane maxConcurrent active queue inflight startLog enqueueLog].
    rewrite getLaneState_lane. repeat split; try lia. exact H5.
  - cbn [lane]. rewrite getLaneState_lane. intros n Hne. specialize (Hinv n).
    unfold lane_inv, running, started, enqueued, queued in *.
    cbn [lanes inflight startLog enqueueLog].
    rewrite onLane_removeFirst_other by congruence. exact Hinv.
Qed.

Lemma step_inv s s' : step s s' -> (forall n, lane_inv s n) -> forall n, lane_inv s' n.
Proof.
  intros [s0 name t opts now|s0 name t now Hin].
  - apply enqueueInLane_inv.
  - apply settle_inv. exact Hin.
Qed.

Lemma drainState_maxConcurrent s st now n :
  maxConcurrent (getLaneState (lanes (drainState s st now)) n) =
  if (lane st =? n)%string then maxConcurrent st else maxConcurrent (getLaneState (lanes s) n).
Proof.
  unfold drainState.
  destruct (drainQueue (active st) (maxConcurrent st) now (queue st)) as [[[a' q'] stl] w].
  cbn [lanes]. rewrite getLaneState_setLane. cbn [lane].
  destruct (lane st =? n)%string; reflexivity.
Qed.

Lemma step_maxConcurrent s s' n :
  step s s' ->
  maxConcurrent (getLaneState (lanes s') n) = maxConcurrent (getLaneState (lanes s) n).
Proof.
  intros [s0 name t opts now|s0 name t now Hin];
    [unfold enqueueInLane|unfold settle]; rewrite drainState_maxConcurrent;
    cbn [lane maxConcurrent lanes]; rewrite getLaneState_lane;
    destruct (String.eqb_spec name n) as [->|]; reflexivity.
Qed.

(** Before any task is enqueued nothing runs and nothing waits. *)
Definition quiescent (s : Sched) : Prop :=
  inflight s = [] /\ enqueueLog s = [] /\ startLog s = [] /\
  forall n, let l := getLaneState (lanes s) n in
            active l = 0%Z /\ queue l = [] /\ (1 <= maxConcurrent l)%Z.

Lemma setLaneConcurrency_quiescent s name maxc now :
  quiescent s -> quiescent (setLaneConcurrency s name maxc now).
Proof.
  intros (Hi & He & Hs & Hl). unfold setLaneConcurrency, drainState.
  destruct (Hl name) as (Ha & Hq & _). rewrite Ha, Hq. cbn [drainQueue active queue maxConcurrent lane map].
  rewrite getLaneState_lane. unfold quiescent. cbn [inflight enqueueLog startLog lanes].
  rewrite !app_nil_r. repeat split; try assumption;
    rewrite getLaneState_setLane; cbn [lane];
    destruct (String.eqb_spec name n); cbn [active queue maxConcurrent]; try reflexivity; try lia;
    apply Hl.
Qed.

Lemma configure_quiescent cfg s : quiescent s -> quiescent (configure cfg s).
Proof.
  revert s. induction cfg as [|[name maxc] rest IH]; intros s H; [exact H|].
  cbn [configure]. apply IH, setLaneConcurrency_quiescent, H.
Qed.

Lemma quiescent_inv s : quiescent s -> forall n, lane_inv s n.
Proof.
  intros (Hi & He & Hs & Hl) n. destruct (Hl n) as (Ha & Hq & Hm).
  unfold lane_inv, running, started, enqueued, queued. rewrite Hi, He, Hs, Ha, Hq.
  cbn. repeat split; try lia. congruence.
Qed.

Lemma emptySched_quiescent : quiescent emptySched.
Proof. unfold quiescent. cbn. repeat split. lia. Qed.

Lemma reachable_inv s0 s :
  quiescent s0 -> reachable s0 s ->
  forall n, lane_inv s n /\
            maxConcurrent (getLaneState (lanes s) n) = maxConcurrent (getLaneState (lanes s0) n).
Proof.
  intros Hq Hr. induction Hr as [|s s' Hr IH Hstep]; intros n.
  - split; [apply quiescent_inv; exact Hq|reflexivity].
  - split.
    + eapply step_inv; [exact Hstep|]. intros m. apply IH.
    + rewrite (step_maxConcurrent _ _ n Hstep). apply IH.
Qed.

(** C7.  In every state reached from the configured scheduler by
    enqueueing tasks and settling started ones, on every lane: the
    in-flight counter is the number of running tasks and never exceeds
    [maxConcurrent], which stays as configured; the tasks started, then
    those still queued, are the tasks enqueued, in enqueue order; and
    when the global lane alone was configured, with [maxConcurrentRuns],
    at most that many runs are in flight on it. *)
Theorem lanes_bounded_and_fifo (cfg : list (string * Q)) (s : Sched) :
  reachable (configure cfg emptySched) s ->
  forall n,
    let l := getLaneState (lanes s) n in
    active l = Z.of_nat (List.length (running s n)) /\
    (active l <= maxConcurrent l)%Z /\
    maxConcurrent l = maxConcurrent (getLaneState (lanes (configure cfg emptySched)) n) /\
    started s n ++ queued s n = enqueued s n /\
    (queued s n <> [] -> active l = maxConcurrent l) /\
    (forall maxConcurrentRuns : Z,
        (1 <= maxConcurrentRuns)%Z ->
        cfg = [(resolveGlobalLane None, inject_Z maxConcurrentRuns)] ->
        n = resolveGlobalLane None ->
        (Z.of_nat (List.length (running s n)) <= maxConcurrentRuns)%Z).
Proof.
  intros Hr n.
  destruct (reachable_inv _ _ (configure_quiescent cfg _ emptySched_quiescent) Hr n)
    as ((H1 & H2 & H3 & H4 & H5) & Hmax).
  cbv zeta. repeat split; try assumption; try lia.
  - intros Hq. apply H4. intros E. apply Hq. unfold queued. rewrite E. reflexivity.
  - intros k Hk -> ->. rewrite <- H3.
    assert (Hm : maxConcurrent (getLaneState (lanes s) (resolveGlobalLane None)) = k).
    { rewrite Hmax. cbn [configure]. unfold setLaneConcurrency. rewrite drainState_maxConcurrent.
      cbn [lane maxConcurrent]. rewrite getLaneState_lane, String.eqb_refl.
      rewrite Qfloor_Z. lia. }
    lia.
Qed.

Lemma lanes_bounded_and_fifo_witness :
  let s := enqueueInLane
             (enqueueInLane
                (enqueueInLane (configure [("main", inject_Z 2)] emptySched) "main" 1 None 10)
                "main" 2 None 11)
             "main" 3 None 12 in
  let l := getLaneState (lanes s) "main" in
  active l = Z.of_nat (List.length (running s "main")) /\
  (active l <= maxConcurrent l)%Z /\
  maxConcurrent l =
    maxConcurrent (getLaneState (lanes (configure [("main", inject_Z 2)] emptySched)) "main") /\
  started s "main" ++ queued s "main" = enqueued s "main" /\
  (queued s "main" <> [] -> active l = maxConcurrent l) /\
  (forall maxConcurrentRuns : Z,
      (1 <= maxConcurrentRuns)%Z ->
      [("main", inject_Z 2)] = [(resolveGlobalLane None, inject_Z maxConcurrentRuns)] ->
      "main" = resolveGlobalLane None ->
      (Z.of_nat (List.length (running s "main")) <= maxConcurrentRuns)%Z).
Proof.
  apply (lanes_bounded_and_fifo [("main", inject_Z 2)]).
  repeat (eapply reach_step; [|apply step_enqueue]). apply reach_init.
Defined.

Example lanes_two_running_one_queued :
  let s := enqueueInLane
             (enqueueInLane
                (enqueueInLane (configure [("main", inject_Z 2)] emptySched) "main" 1 None 10)
                "main" 2 None 11)
             "main" 3 None 12 in
  running s "main" = [1; 2] /\ queued s "main" = [3] /\
  running (settle s "main" 1 20) "main" = [2; 3] /\
  started (settle s "main" 1 20) "main" = [1; 2; 3].
Proof. repeat split; reflexivity. Qed.

End QueueProperties.

(* ================================================================== *)
(** ** Context pruner, layer 1: soft trim *)
(* ================================================================== *)

Section SoftTrimProperties.
Import Session Pruning.






Lemma softTrimBlocks_unchanged st pred bs :
  snd (softTrimBlocks bs st pred) = 0%Z -> fst (softTrimBlocks bs st pred) = bs.
Proof.
  induction bs as [|b bs IH]; cbn [softTrimBlocks fst snd]; [reflexivity|].
  assert (Hnn : forall l, (0 <= snd (softTrimBlocks l st pred))%Z).
  { induction l as [|x l IHl]; cbn [softTrimBlocks snd]; [lia|].
    destruct (snd (softTrimToolResultBlock x st pred)); cbn [boolCount]; lia. }
  intros H. specialize (Hnn bs).
  assert (Hb : snd (softTrimToolResultBlock b st pred) = false).
  { destruct (snd (softTrimToolResultBlock b st pred)); cbn [boolCount] in H; [lia|reflexivity]. }
  rewrite Hb in H. cbn [boolCount] in H. rewrite IH by lia. f_equal.
  unfold softTrimToolResultBlock in *. destruct b as [t|id name input|id name c]; try reflexivity.
  destruct (isToolResultProtected _); [reflexivity|].
  destruct (negb (id =? EmptyString)%string && negb (pred id)); [reflexivity|].
  destruct (JsString.len c <=? maxChars st)%Z; [reflexivity|].
  destruct (Z.max 0 (headChars st) + Z.max 0 (tailChars st) >=? JsString.len c)%Z;
    [reflexivity|discriminate Hb].
Qed.





Definition toolResultMessage (id name : string) (c : string) : Message :=
  {| role := user; content := Blocks [tool_result id (Some name) c]; timestamp := 7 |}.


(** A tool result without a tool name and without [tool_use_id] is
    decided as well: nothing is asked about it, and it is trimmed. *)
Example softTrim_trims_result_without_name :
  afterLayer1 TokensModel.estimateMessageChars
    [{| role := user; content := Blocks [tool_result EmptyString None (JsString.repeat "x" 5000)];
        timestamp := 7 |}] 1 None
  = [{| role := user;
        content := Blocks [tool_result EmptyString None
                             (JsString.repeat "x" 1500 +++ nl +++ "..." +++ nl
                              +++ JsString.repeat "x" 1500 +++ nl +++ nl
                              +++ "[Tool result trimmed: kept first 1500 chars and last 1500 chars of 5000 chars.]")];
        timestamp := 7 |}].
Proof. vm_compute. reflexivity. Qed.



Definition denyExecSettings : option PartialSettings :=
  Some {| raw_maxHistoryShare := None; raw_keepLastAssistants := None;
          raw_softTrimRatio := None; raw_hardClearRatio := None;
          raw_minPrunableToolChars := None;
          raw_softTrim_maxChars := Some (inject_Z 10);
          raw_softTrim_headChars := Some (inject_Z 2);
          raw_softTrim_tailChars := Some (inject_Z 2);
          raw_hardClear_enabled := None; raw_hardClear_placeholder := None;
          raw_tools := Some {| allow := None; deny := Some ["exec"] |} |}.

(** The predicate is asked about the block's [tool_use_id], not about its
    tool name: a result of the denied tool [exec] is trimmed, and a result
    of another tool whose call id reads [exec] is not. *)
Example softTrim_consults_tool_use_id :
  let pred := makeToolPrunablePredicate (Some (tools (resolvePruningSettings denyExecSettings))) in
  let denied := toolResultMessage "call_1" "exec" (JsString.repeat "x" 30) in
  let other := toolResultMessage "exec" "read" (JsString.repeat "x" 30) in
  pred "exec" = false /\ pred "read" = true /\
  afterLayer1 TokensModel.estimateMessageChars [denied] 1 denyExecSettings
  = [toolResultMessage "call_1" "exec"
       ("xx" +++ nl +++ "..." +++ nl +++ "xx" +++ nl +++ nl
        +++ "[Tool result trimmed: kept first 2 chars and last 2 chars of 30 chars.]")] /\
  afterLayer1 TokensModel.estimateMessageChars [other] 1 denyExecSettings = [other].
Proof.
  cbv zeta. repeat split; reflexivity.
Qed.

End SoftTrimProperties.

(* ================================================================== *)
(** ** Context pruner, layer 3: message drop *)
(* ================================================================== *)

Section MessageDropProperties.
Import Session Pruning.

Definition assistants (l : list Message) : Z :=
  Z.of_nat (List.length (filter is_assistant l)).

(** The suffix layer 3 protects: from the [k]-th assistant message,
    counted from the end, onwards; nothing when [k] is not positive; and
    the whole array when it holds fewer than [k] assistant messages. *)
Definition protected_suffix (k : Z) (current prot : list Message) : Prop :=
  ((k <= 0)%Z /\ prot = []) \/
  ((0 < k)%Z /\ (assistants current < k)%Z /\ prot = current) \/
  ((0 < k)%Z /\ exists pre a rest,
      current = pre ++ a :: rest /\ prot = a :: rest /\
      is_assistant a = true /\ assistants prot = k).

Section DropLayer.

Variable est : Message -> Z.

Local Abbreviation chars := (estimateMessagesChars est).

Lemma chars_app l1 l2 : chars (l1 ++ l2) = (chars l1 + chars l2)%Z.
Proof.
  unfold estimateMessagesChars. induction l1 as [|m l1 IH]; cbn [app fold_right]; [reflexivity|].
  rewrite IH. lia.
Qed.

Lemma chars_rev l : chars (rev l) = chars l.
Proof.
  induction l as [|m l IH]; [reflexivity|]. cbn [rev]. rewrite chars_app, IH.
  unfold estimateMessagesChars. cbn [fold_right]. lia.
Qed.

Lemma tagged_snd l : map snd (tagged l) = l.
Proof.
  unfold tagged. generalize 0%nat. induction l as [|m l IH]; intros n; cbn; [reflexivity|].
  f_equal. apply IH.
Qed.

Lemma tagged_fst l : map fst (tagged l) = seq 0 (List.length l).
Proof.
  unfold tagged. generalize 0%nat. induction l as [|m l IH]; intros n; cbn; [reflexivity|].
  f_equal. apply IH.
Qed.

Lemma setHas_spec kept o : setHas kept o = true <-> In (fst o) (map fst kept).
Proof.
  unfold setHas. rewrite existsb_exists, in_map_iff. split.
  - intros (k & Hin & E). apply Nat.eqb_eq in E. exists k. auto.
  - intros (k & E & Hin). exists k. split; [exact Hin|]. apply Nat.eqb_eq. exact E.
Qed.

(** With pairwise distinct objects, the messages outside a kept suffix
    are the prefix before it. *)
Lemma filter_not_kept_suffix (pre suf : list Obj) :
  NoDup (map fst (pre ++ suf)) ->
  filter (fun o => negb (setHas suf o)) (pre ++ suf) = pre.
Proof.
  intros Hnd. rewrite filter_app.
  assert (Hsuf : filter (fun o => negb (setHas suf o)) suf = []).
  { assert (H : forall l, (forall o, In o l -> In o suf) ->
                         filter (fun o => negb (setHas suf o)) l = []).
    { induction l as [|o l IH]; intros Hl; [reflexivity|]. cbn [filter].
      assert (Ho : setHas suf o = true).
      { apply setHas_spec, in_map, Hl. left. reflexivity. }
      rewrite Ho. cbn [negb]. apply IH. intros x Hx. apply Hl. right. exact Hx. }
    apply H. auto. }
  rewrite Hsuf, app_nil_r.
  rewrite map_app in Hnd.
  induction pre as [|o pre IH]; [reflexivity|]. cbn [filter].
  cbn [map app] in Hnd. inversion Hnd as [|x l Hnin Hnd']; subst.
  destruct (setHas suf o) eqn:Ho.
  - exfalso. apply setHas_spec in Ho. apply Hnin, in_or_app. right. exact Ho.
  - cbn [negb]. f_equal. apply IH. exact Hnd'.
Qed.

Lemma chars_cons m l : chars (m :: l) = (est m + chars l)%Z.
Proof. reflexivity. Qed.

Lemma filter_not_kept (objs pre suf : list Obj) :
  objs = pre ++ suf -> NoDup (map fst objs) ->
  filter (fun o => negb (setHas suf o)) objs = pre.
Proof. intros ->. apply filter_not_kept_suffix. Qed.

(** The loop of [sliceWithinBudget] takes a prefix of the reversed array;
    once it holds a message, whatever it adds stays within the budget;
    and it stops only at a message that would overflow. *)
Lemma sliceLoop_spec (revL : list Obj) (budget used : Z) (kept0 : list Obj) :
  exists taken rest,
    revL = taken ++ rest /\
    sliceLoop est revL budget used kept0 = kept0 ++ taken /\
    (kept0 <> [] -> taken = [] \/ (used + chars (map snd taken) <= budget)%Z) /\
    (forall o rest', rest = o :: rest' ->
                     (budget < used + chars (map snd taken) + est (snd o))%Z /\
                     kept0 ++ taken <> []).
Proof.
  revert used kept0. induction revL as [|o revL IH]; intros used kept0.
  - exists [], []. cbn. rewrite app_nil_r.
    refine (conj eq_refl (conj eq_refl (conj _ _))); [auto|congruence].
  - cbn [sliceLoop].
    destruct ((used + est (snd o) >? budget)%Z && negb (List.length kept0 =? 0)%nat) eqn:Estop.
    + exists [], (o :: revL). rewrite app_nil_r. cbn [app map].
      apply andb_true_iff in Estop as [Hover Hne].
      apply Z.gtb_lt in Hover. apply negb_true_iff, Nat.eqb_neq in Hne.
      refine (conj eq_refl (conj eq_refl (conj _ _))); [auto|].
      intros o' r' [= <- <-]. split.
      * unfold estimateMessagesChars. cbn. lia.
      * intros E. subst kept0. cbn in Hne. congruence.
    + destruct (IH (used + est (snd o))%Z (kept0 ++ [o])) as (taken & rest & -> & Hs & Hb & Hm).
      exists (o :: taken), rest. rewrite Hs, <- app_assoc. cbn [app map]. rewrite chars_cons.
      refine (conj eq_refl (conj eq_refl (conj _ _))).
      * intros Hk. right.
        apply andb_false_iff in Estop as [Hfit|Hempty].
        -- rewrite Z.gtb_ltb in Hfit. apply Z.ltb_ge in Hfit.
           specialize (Hb ltac:(destruct kept0; discriminate)).
           destruct Hb as [->|Hb]; [|lia].
           unfold estimateMessagesChars. cbn. lia.
        -- apply negb_false_iff, Nat.eqb_eq in Hempty. destruct kept0; [congruence|discriminate].
      * intros o' r' E. destruct (Hm o' r' E) as [H1 H2]. split; [lia|].
        destruct kept0; discriminate.
Qed.

Lemma sliceWithinBudget_spec (objs : list Obj) (budget : Z) :
  exists dropped kept,
    objs = dropped ++ kept /\
    sliceWithinBudget est objs budget = kept /\
    (objs <> [] -> kept <> []) /\
    ((chars (map snd kept) <= budget)%Z \/ List.length kept = 1%nat \/ kept = []) /\
    (forall d0 d, dropped = d0 ++ [d] -> (budget < est (snd d) + chars (map snd kept))%Z).
Proof.
  unfold sliceWithinBudget.
  destruct (rev objs) as [|o revL] eqn:Erev.
  - exists [], []. cbn. apply (f_equal (@rev Obj)) in Erev. rewrite rev_involutive in Erev.
    cbn in Erev. subst objs. repeat split; auto. intros d0 d E. destruct d0; discriminate.
  - cbn [sliceLoop List.length Nat.eqb negb]. rewrite andb_false_r.
    destruct (sliceLoop_spec revL budget (0 + est (snd o))%Z ([] ++ [o]))
      as (taken & rest & -> & Hs & Hb & Hm).
    rewrite Hs. cbn [app].
    exists (rev rest), (rev (o :: taken)).
    assert (Hobjs : objs = rev rest ++ rev (o :: taken)).
    { apply (f_equal (@rev Obj)) in Erev. rewrite rev_involutive in Erev.
      rewrite Erev. cbn [rev]. rewrite rev_app_distr, app_assoc. reflexivity. }
    refine (conj Hobjs (conj eq_refl (conj _ (conj _ _)))).
    + intros _ E. apply (f_equal (@List.length Obj)) in E. rewrite length_rev in E. discriminate.
    + specialize (Hb ltac:(discriminate)).
      destruct Hb as [->|Hb]; [right; left; reflexivity|].
      left. rewrite map_rev, chars_rev. cbn [map]. rewrite chars_cons.
      unfold estimateMessagesChars, Obj in *. lia.
    + intros d0 d E.
      assert (Er : rest = d :: rev d0).
      { apply (f_equal (@rev Obj)) in E. rewrite rev_involutive, rev_app_distr in E. exact E. }
      destruct (Hm d (rev d0) Er) as [H _].
      rewrite map_rev, chars_rev. cbn [map]. rewrite chars_cons.
      unfold estimateMessagesChars, Obj in *. lia.
Qed.

(** The backward fill prepends a suffix of the prefix, within the
    remaining budget, and stops only at a message that does not fit. *)
Lemma fillBackward_spec (revPre : list Obj) (remaining : Z) (kept0 : list Obj) :
  exists taken rest,
    revPre = taken ++ rest /\
    fillBackward est revPre remaining kept0 = rev taken ++ kept0 /\
    ((0 <= remaining)%Z -> (chars (map snd taken) <= remaining)%Z) /\
    (forall o rest', rest = o :: rest' -> (remaining - chars (map snd taken) < est (snd o))%Z).
Proof.
  revert remaining kept0. induction revPre as [|o revPre IH]; intros remaining kept0.
  - exists [], []. cbn. refine (conj eq_refl (conj eq_refl (conj _ _))); [auto|congruence].
  - cbn [fillBackward]. destruct (Z.gtb_spec (est (snd o)) remaining) as [Hgt|Hle].
    + exists [], (o :: revPre). cbn. refine (conj eq_refl (conj eq_refl (conj _ _))); [auto|].
      intros o' r' [= <- <-]. lia.
    + destruct (IH (remaining - est (snd o))%Z (o :: kept0)) as (taken & rest & -> & Hs & Hb & Hm).
      exists (o :: taken), rest. rewrite Hs. cbn [app rev map]. rewrite <- app_assoc, chars_cons.
      refine (conj eq_refl (conj eq_refl (conj _ _))).
      * intros Hrem. specialize (Hb ltac:(lia)). lia.
      * intros o' r' E. specialize (Hm o' r' E). lia.
Qed.


Lemma assistants_app l1 l2 : assistants (l1 ++ l2) = (assistants l1 + assistants l2)%Z.
Proof. unfold assistants. rewrite filter_app, length_app. lia. Qed.

Lemma assistants_cons m l :
  assistants (m :: l) = ((if is_assistant m then 1 else 0) + assistants l)%Z.
Proof.
  unfold assistants. cbn [filter]. destruct (is_assistant m); cbn [List.length]; lia.
Qed.

Lemma assistants_rev l : assistants (rev l) = assistants l.
Proof.
  induction l as [|m l IH]; [reflexivity|]. cbn [rev]. rewrite assistants_app, IH.
  unfold assistants. cbn [filter]. destruct (is_assistant m); cbn [List.length]; lia.
Qed.

Lemma scanAssistants_spec (revL : list Obj) (n : nat) (rem : Z) :
  (0 < rem)%Z -> n = List.length revL ->
  match scanAssistants revL n rem with
  | Some i => exists front a back,
      revL = front ++ a :: back /\ i = List.length back /\
      is_assistant (snd a) = true /\ assistants (map snd front) = (rem - 1)%Z
  | None => (assistants (map snd revL) < rem)%Z
  end.
Proof.
  revert n rem. induction revL as [|o rest IH]; intros n rem Hrem Hn; cbn [scanAssistants].
  - cbn. exact Hrem.
  - assert (Hn' : (n - 1)%nat = List.length rest) by (cbn in Hn; lia).
    destruct (is_assistant (snd o)) eqn:Ea.
    + destruct (Z.eqb_spec (rem - 1) 0) as [Hz|Hnz].
      * exists [], o, rest. cbn. repeat split; auto; lia.
      * specialize (IH (n - 1)%nat (rem - 1)%Z ltac:(lia) Hn').
        destruct (scanAssistants rest (n - 1) (rem - 1)) as [i|].
        -- destruct IH as (front & a & back & -> & Hi & Ha & Hc).
           exists (o :: front), a, back. cbn [app map]. repeat split; auto.
           unfold assistants in *. cbn [filter]. rewrite Ea. cbn [List.length]. lia.
        -- cbn [map]. unfold assistants in *. cbn [filter]. rewrite Ea. cbn [List.length]. lia.
    + specialize (IH (n - 1)%nat rem Hrem Hn').
      destruct (scanAssistants rest (n - 1) rem) as [i|].
      * destruct IH as (front & a & back & -> & Hi & Ha & Hc).
        exists (o :: front), a, back. cbn [app map]. repeat split; auto.
        unfold assistants in *. cbn [filter]. rewrite Ea. exact Hc.
      * cbn [map]. unfold assistants in *. cbn [filter]. rewrite Ea. exact IH.
Qed.

(** The cut-off index splits the array at the protected suffix. *)
Lemma findAssistantCutoffIndex_spec (objs : list Obj) (k : Z) :
  let i := match findAssistantCutoffIndex objs k with Some i => i | None => 0%nat end in
  protected_suffix k (map snd objs) (map snd (skipn i objs)).
Proof.
  cbv zeta. unfold findAssistantCutoffIndex.
  destruct (Z.leb_spec k 0) as [Hk|Hk].
  - left. rewrite skipn_all. auto.
  - pose proof (scanAssistants_spec (rev objs) (List.length objs) k Hk
                  ltac:(rewrite length_rev; reflexivity)) as H.
    destruct (scanAssistants (rev objs) (List.length objs) k) as [i|].
    + destruct H as (front & a & back & Er & Hi & Ha & Hc).
      assert (Eo : objs = rev back ++ a :: rev front).
      { apply (f_equal (@rev Obj)) in Er. rewrite rev_involutive, rev_app_distr in Er.
        cbn [rev] in Er. rewrite <- app_assoc in Er. exact Er. }
      right. right. split; [exact Hk|].
      assert (Es : skipn i objs = a :: rev front).
      { rewrite Eo, Hi, <- (length_rev back). rewrite skipn_app, skipn_all, Nat.sub_diag.
        reflexivity. }
      rewrite Es. exists (map snd (rev back)), (snd a), (map snd (rev front)).
      rewrite Eo, map_app. cbn [map]. repeat split; auto.
      rewrite assistants_cons, Ha, map_rev, assistants_rev. unfold Obj in *. lia.
    + right. left. cbn [skipn]. rewrite map_rev, assistants_rev in H. auto.
Qed.

Lemma dropMessages_spec (objs : list Obj) (settings : ContextPruningSettings) (budget : Z) :
  NoDup (map fst objs) ->
  let kept := fst (dropMessages est objs settings budget) in
  let dropped := snd (dropMessages est objs settings budget) in
  objs = dropped ++ kept /\
  exists pre prot,
    objs = pre ++ prot /\
    protected_suffix (keepLastAssistants settings) (map snd objs) (map snd prot) /\
    ((chars (map snd prot) <= budget)%Z ->
     (exists ext, kept = ext ++ prot) /\
     (chars (map snd kept) <= budget)%Z /\
     (forall d0 d, dropped = d0 ++ [d] -> (budget - chars (map snd kept) < est (snd d))%Z)) /\
    ((budget < chars (map snd prot))%Z ->
     (objs <> [] -> kept <> []) /\
     ((chars (map snd kept) <= budget)%Z \/ List.length kept = 1%nat \/ kept = []) /\
     (forall d0 d, dropped = d0 ++ [d] -> (budget < est (snd d) + chars (map snd kept))%Z)).
Proof.
  intros Hnd. cbv zeta. unfold dropMessages. cbn [fst snd].
  pose proof (findAssistantCutoffIndex_spec objs (keepLastAssistants settings)) as Hprot.
  cbv zeta in Hprot.
  set (i := match findAssistantCutoffIndex objs (keepLastAssistants settings) with
            | Some i => i | None => 0%nat end) in *.
  destruct (Z.gtb_spec (chars (map snd (skipn i objs))) budget) as [Hover|Hfit].
  - destruct (sliceWithinBudget_spec objs budget) as (dropped & kept & Eo & -> & Hne & Hb & Hm).
    assert (Ed : filter (fun o => negb (setHas kept o)) objs = dropped).
    { apply filter_not_kept; assumption. }
    rewrite Ed. split; [exact Eo|].
    exists (firstn i objs), (skipn i objs). split; [symmetry; apply firstn_skipn|].
    split; [exact Hprot|]. split; [intros H; unfold Obj in *; lia|].
    intros _. auto.
  - destruct (fillBackward_spec (rev (firstn i objs))
                (budget - chars (map snd (skipn i objs)))%Z (skipn i objs))
      as (taken & rest & Er & -> & Hb & Hm).
    assert (Ef : firstn i objs = rev rest ++ rev taken).
    { apply (f_equal (@rev Obj)) in Er. rewrite rev_involutive, rev_app_distr in Er. exact Er. }
    assert (Eo : objs = rev rest ++ (rev taken ++ skipn i objs)).
    { rewrite app_assoc, <- Ef. symmetry. apply firstn_skipn. }
    assert (Ed : filter (fun o => negb (setHas (rev taken ++ skipn i objs) o)) objs = rev rest).
    { apply filter_not_kept; assumption. }
    rewrite Ed. split; [exact Eo|].
    exists (firstn i objs), (skipn i objs). split; [symmetry; apply firstn_skipn|].
    split; [exact Hprot|]. split; [|intros H; unfold Obj in *; lia].
    intros _. specialize (Hb ltac:(unfold Obj in *; lia)).
    assert (Ec : chars (map snd (rev taken ++ skipn i objs))
                 = (chars (map snd taken) + chars (map snd (skipn i objs)))%Z).
    { rewrite map_app, chars_app, map_rev, chars_rev. reflexivity. }
    split; [exists (rev taken); reflexivity|]. split; [unfold Obj in *; lia|].
    intros d0 d E.
    assert (Erest : rest = d :: rev d0).
    { apply (f_equal (@rev Obj)) in E. rewrite rev_involutive, rev_app_distr in E. exact E. }
    specialize (Hm d (rev d0) Erest). unfold Obj in *. lia.
Qed.

End DropLayer.

Lemma pruneContextMessages_lists est msgs ct raw :
  let current := afterLayers12 est msgs ct raw in
  let budget := budgetOf ct raw in
  let d := dropMessages est (tagged current) (resolvePruningSettings raw) budget in
  let r := pruneContextMessages est msgs ct raw in
  messages r = (if (estimateMessagesChars est current <=? budget)%Z then current
                else map snd (fst d)) /\
  droppedMessages r = (if (estimateMessagesChars est current <=? budget)%Z then []
                       else map snd (snd d)).
Proof.
  cbv zeta. unfold pruneContextMessages, afterLayers12, budgetOf.
  set (settings := resolvePruningSettings raw).
  set (cw := (Z.max 1 ct * 4)%Z).
  set (pred := makeToolPrunablePredicate (Some (tools settings))).
  set (soft := if Qgtb (ratio (estimateMessagesChars est msgs) cw) (softTrimRatio settings)
               then applySoftTrim msgs settings pred else (msgs, 0%Z)).
  set (hard := if Qgtb (ratio (estimateMessagesChars est (fst soft)) cw) (hardClearRatio settings)
               then applyHardClear est (fst soft) settings pred cw else (fst soft, 0%Z)).
  set (budget := Z.max 1 (Qfloor (inject_Z cw * maxHistoryShare settings))).
  destruct (estimateMessagesChars est (fst hard) <=? budget)%Z; [split; reflexivity|].
  destruct (dropMessages est (tagged (fst hard)) settings budget) as [kept dropped].
  split; reflexivity.
Qed.

(** C4.  When the estimate after layers 1 and 2 exceeds [budgetChars],
    the dropped messages followed by the kept ones are the array, in
    order.  If the protected suffix (from the [keepLastAssistants]-th
    assistant message from the end onwards) fits the budget, it is kept
    and extended backward by whole messages while they fit what remains;
    if it alone exceeds the budget, the kept messages are a backward fill
    from the end: at least the last message, within the budget as soon
    as they are two, cut before the first message that would overflow. *)
Theorem messageDrop_layer_spec (est : Message -> Z) (msgs : list Message)
    (contextWindowTokens : Z) (raw : option PartialSettings) :
  let current := afterLayers12 est msgs contextWindowTokens raw in
  let budgetChars := budgetOf contextWindowTokens raw in
  let keepLast := keepLastAssistants (resolvePruningSettings raw) in
  let r := pruneContextMessages est msgs contextWindowTokens raw in
  let chars := estimateMessagesChars est in
  (budgetChars < chars current)%Z ->
  current = droppedMessages r ++ messages r /\
  exists pre prot,
    current = pre ++ prot /\
    protected_suffix keepLast current prot /\
    ((chars prot <= budgetChars)%Z ->
     (exists ext, messages r = ext ++ prot) /\
     (chars (messages r) <= budgetChars)%Z /\
     (forall d0 d, droppedMessages r = d0 ++ [d] ->
                   (budgetChars - chars (messages r) < est d)%Z)) /\
    ((budgetChars < chars prot)%Z ->
     messages r <> [] /\
     ((chars (messages r) <= budgetChars)%Z \/ List.length (messages r) = 1%nat) /\
     (forall d0 d, droppedMessages r = d0 ++ [d] ->
                   (budgetChars < est d + chars (messages r))%Z)).
Proof.
  cbv zeta. intros Hover.
  destruct (pruneContextMessages_lists est msgs contextWindowTokens raw) as [Em Ed].
  cbv zeta in Em, Ed.
  set (current := afterLayers12 est msgs contextWindowTokens raw) in *.
  set (budget := budgetOf contextWindowTokens raw) in *.
  destruct (Z.leb_spec (estimateMessagesChars est current) budget) as [Hle|_]; [lia|].
  rewrite Em, Ed.
  assert (Hnd : NoDup (map fst (tagged current))).
  { rewrite tagged_fst. apply seq_NoDup. }
  destruct (dropMessages_spec est (tagged current) (resolvePruningSettings raw) budget Hnd)
    as (Eo & pre & prot & Epp & Hprot & Hfit & Hbig).
  cbv zeta in Eo, Hfit, Hbig.
  set (kept := fst (dropMessages est (tagged current) (resolvePruningSettings raw) budget)) in *.
  set (dropped := snd (dropMessages est (tagged current) (resolvePruningSettings raw) budget)) in *.
  rewrite tagged_snd in Hprot.
  assert (Ecur : current = map snd dropped ++ map snd kept).
  { transitivity (map snd (tagged current)); [symmetry; apply tagged_snd|].
    rewrite Eo. apply map_app. }
  split; [exact Ecur|].
  exists (map snd pre), (map snd prot).
  split.
  { transitivity (map snd (tagged current)); [symmetry; apply tagged_snd|].
    rewrite Epp. apply map_app. }
  split; [exact Hprot|].
  assert (Hlast : forall d0 d, map snd dropped = d0 ++ [d] ->
                               exists o0 o, dropped = o0 ++ [o] /\ snd o = d).
  { intros d0 d E. destruct (exists_last (l := dropped)) as (o0 & o & Eo').
    - intros ->. destruct d0; discriminate.
    - exists o0, o. split; [exact Eo'|]. rewrite Eo', map_app in E. cbn [map] in E.
      apply app_inj_tail in E. apply E. }
  split.
  - intros Hp. destruct (Hfit Hp) as ((ext & Ek) & Hb & Hmax).
    split; [exists (map snd ext); rewrite Ek, map_app; reflexivity|].
    split; [exact Hb|].
    intros d0 d E. destruct (Hlast d0 d E) as (o0 & o & Eo' & <-). eapply Hmax. exact Eo'.
  - intros Hp. destruct (Hbig Hp) as (Hne & Hb & Hmax).
    assert (Hcur : tagged current <> []).
    { intros E. apply (f_equal (map snd)) in E. rewrite tagged_snd in E. cbn in E.
      subst current. rewrite E in Hover. unfold budget, budgetOf in Hover. cbn in Hover. lia. }
    specialize (Hne Hcur).
    split; [intros E; apply Hne; destruct kept; [reflexivity|discriminate]|].
    split.
    + destruct Hb as [Hb|[Hb|Hb]]; [left; exact Hb|right; rewrite length_map; exact Hb|contradiction].
    + intros d0 d E. destruct (Hlast d0 d E) as (o0 & o & Eo' & <-). eapply Hmax. exact Eo'.
Qed.

Definition textMessage (r : Role) (n : nat) (t : Z) : Message :=
  {| role := r; content := Str (JsString.repeat "m" n); timestamp := t |}.

(** Five messages of 3 characters each against a budget of 8 characters
    (4 tokens): the last assistant message and what follows are kept; the
    message before them no longer fits the 2 characters left. *)
Definition dropSample : list Message :=
  [textMessage user 3 1; textMessage assistant 3 2; textMessage user 3 3;
   textMessage assistant 3 4; textMessage user 3 5].

Definition keepOneAssistant : option PartialSettings :=
  Some {| raw_maxHistoryShare := None; raw_keepLastAssistants := Some (inject_Z 1);
          raw_softTrimRatio := None; raw_hardClearRatio := None;
          raw_minPrunableToolChars := None; raw_softTrim_maxChars := None;
          raw_softTrim_headChars := None; raw_softTrim_tailChars := None;
          raw_hardClear_enabled := None; raw_hardClear_placeholder := None;
          raw_tools := None |}.

Lemma messageDrop_layer_spec_witness :
  afterLayers12 TokensModel.estimateMessageChars dropSample 4 keepOneAssistant
  = droppedMessages (pruneContextMessages TokensModel.estimateMessageChars dropSample 4 keepOneAssistant)
    ++ messages (pruneContextMessages TokensModel.estimateMessageChars dropSample 4 keepOneAssistant).
Proof.
  apply (proj1 (messageDrop_layer_spec TokensModel.estimateMessageChars dropSample 4
                  keepOneAssistant eq_refl)).
Defined.

Example messageDrop_sample :
  let r := pruneContextMessages TokensModel.estimateMessageChars dropSample 4 keepOneAssistant in
  budgetChars r = 8%Z /\
  messages r = [textMessage assistant 3 4; textMessage user 3 5] /\
  droppedMessages r = [textMessage user 3 1; textMessage assistant 3 2; textMessage user 3 3].
Proof. cbv zeta. repeat split; reflexivity. Qed.

End MessageDropProperties.

(* ------------------------------------------------------------------ *)
(** ** Pruning: a second pass over the kept messages *)

Section IdempotenceProperties.
Import Session Pruning.

Lemma length_append (a b : string) :
  String.length (a +++ b) = (String.length a + String.length b)%nat.
Proof. induction a as [|c a IH]; cbn; [reflexivity|]. rewrite IH. reflexivity. Qed.

Lemma length_take n s : (String.length (JsString.take n s) <= n)%nat.
Proof.
  revert s. induction n as [|n IH]; intros s; cbn; [lia|].
  destruct s as [|c s]; cbn; [lia|]. specialize (IH s). lia.
Qed.

Lemma length_drop n s : String.length (JsString.drop n s) = (String.length s - n)%nat.
Proof.
  revert s. induction n as [|n IH]; intros s; cbn; [lia|].
  destruct s as [|c s]; cbn; [reflexivity|]. apply IH.
Qed.

Lemma length_digits_acc fuel n acc :
  (String.length (JsString.digits_acc fuel n acc) <= S fuel + String.length acc)%nat.
Proof.
  revert n acc. induction fuel as [|f IH]; intros n acc; cbn [JsString.digits_acc].
  - cbn. lia.
  - destruct (n <? 10)%N; [cbn; lia|].
    specialize (IH (n / 10)%N (String (JsString.digit (n mod 10)) acc)). cbn in IH. lia.
Qed.

(** A length below 2^53 prints in at most 53 digits. *)
Lemma length_string_of_Z (z : Z) :
  (0 <= z < 2 ^ 53)%Z -> (String.length (JsString.string_of_Z z) <= 53)%nat.
Proof.
  intros Hz. unfold JsString.string_of_Z. destruct z as [|p|p]; try lia.
  - cbn. lia.
  - unfold JsString.string_of_N.
    pose proof (length_digits_acc (N.to_nat (N.log2 (Z.to_N (Z.pos p)))) (Z.to_N (Z.pos p)) EmptyString) as H.
    cbn [String.length] in H.
    assert (Hlog : (N.log2 (Z.to_N (Z.pos p)) < 53)%N).
    { apply N.log2_lt_pow2; [cbn; lia|]. cbn [Z.to_N].
      change (2 ^ 53)%N with (Z.to_N (2 ^ 53)). change (N.pos p) with (Z.to_N (Z.pos p)).
      apply Z2N.inj_lt; lia. }
    lia.
Qed.

(** Ratios against a positive window, as integer inequalities. *)
Lemma Qle_bool_ratio (t cw a : Z) (b : positive) :
  (0 < cw)%Z ->
  (Qle_bool (ratio t cw) (a # b) = true <-> (t * Z.pos b <= a * cw)%Z).
Proof.
  intros Hcw. rewrite Qle_bool_iff. unfold ratio, Qle, Qdiv, Qmult, Qinv, inject_Z.
  destruct cw as [|p|p]; try lia. cbn [Qnum Qden]. 
  rewrite Pos.mul_1_l, !Z.mul_1_r. lia.
Qed.

Lemma Qle_bool_ratio_rev (t cw a : Z) (b : positive) :
  (0 < cw)%Z ->
  (Qle_bool (a # b) (ratio t cw) = true <-> (a * cw <= t * Z.pos b)%Z).
Proof.
  intros Hcw. rewrite Qle_bool_iff. unfold ratio, Qle, Qdiv, Qmult, Qinv, inject_Z.
  destruct cw as [|p|p]; try lia. cbn [Qnum Qden].
  rewrite Pos.mul_1_l, !Z.mul_1_r. lia.
Qed.

Lemma Qgtb_ratio (t cw a : Z) (b : positive) :
  (0 < cw)%Z -> (Qgtb (ratio t cw) (a # b) = true <-> (a * cw < t * Z.pos b)%Z).
Proof.
  intros Hcw. unfold Qgtb. rewrite negb_true_iff.
  pose proof (Qle_bool_ratio t cw a b Hcw) as H.
  destruct (Qle_bool (ratio t cw) (a # b)); split; intros; try discriminate; try reflexivity.
  - assert (t * Z.pos b <= a * cw)%Z by (apply H; reflexivity). lia.
  - destruct (Z_le_gt_dec (t * Z.pos b) (a * cw)) as [Hle|Hgt]; [|lia].
    apply H in Hle. discriminate.
Qed.

Lemma Qltb_ratio (t cw a : Z) (b : positive) :
  (0 < cw)%Z -> (Qltb (ratio t cw) (a # b) = true <-> (t * Z.pos b < a * cw)%Z).
Proof.
  intros Hcw. unfold Qltb. rewrite negb_true_iff.
  pose proof (Qle_bool_ratio_rev t cw a b Hcw) as H.
  destruct (Qle_bool (a # b) (ratio t cw)); split; intros; try discriminate; try reflexivity.
  - assert (a * cw <= t * Z.pos b)%Z by (apply H; reflexivity). lia.
  - destruct (Z_le_gt_dec (a * cw) (t * Z.pos b)) as [Hle|Hgt]; [|lia].
    apply H in Hle. discriminate.
Qed.

Lemma budgetOf_default ct : budgetOf ct None = (2 * Z.max 1 ct)%Z.
Proof.
  unfold budgetOf. cbn [resolvePruningSettings maxHistoryShare DEFAULT_CONTEXT_PRUNING_SETTINGS].
  unfold Qfloor, Qmult, inject_Z. cbn [Qnum Qden]. rewrite Z.mul_1_r, Pos.mul_1_l.
  replace (Z.max 1 ct * 4)%Z with ((2 * Z.max 1 ct) * 2)%Z by lia.
  rewrite Z.div_mul by lia. lia.
Qed.

Definition blockContent (P : string -> Prop) (b : ContentBlock) : Prop :=
  match b with
  | tool_result _ _ c => P c
  | _ => True
  end.

Definition messageContent (P : string -> Prop) (m : Message) : Prop :=
  match content m with
  | Str _ => True
  | Blocks bs => Forall (blockContent P) bs
  end.

(** Every tool result is shorter than 2^53 characters, the longest a
    JavaScript string may be. *)
Definition contents_bounded (msgs : list Message) : Prop :=
  Forall (messageContent (fun c => (JsString.len c < 2 ^ 53)%Z)) msgs.

(** No tool result is longer than the default [softTrim.maxChars]. *)
Definition contents_short (msgs : list Message) : Prop :=
  Forall (messageContent (fun c => (JsString.len c <= 4000)%Z)) msgs.

(** Every tool result is empty or holds the placeholder. *)
Definition contents_cleared (ph : string) (msgs : list Message) : Prop :=
  Forall (messageContent (fun c => c = EmptyString \/ c = ph)) msgs.

Lemma trimmedText_length raw :
  (JsString.len raw < 2 ^ 53)%Z ->
  (JsString.len (trimmedText raw 1500 1500) <= 4000)%Z.
Proof.
  intros Hb. unfold trimmedText, JsString.len in *.
  change (JsString.string_of_Z 1500) with "1500".
  rewrite !length_append.
  pose proof (length_take (Z.to_nat 1500) raw) as Ht.
  pose proof (length_drop (Z.to_nat (Z.of_nat (String.length raw) - 1500)) raw) as Hd.
  pose proof (length_string_of_Z (Z.of_nat (String.length raw)) ltac:(lia)) as Hs.
  change (String.length nl) with 1%nat.
  change (String.length "...") with 3%nat.
  change (String.length "[Tool result trimmed: kept first ") with 33%nat.
  change (String.length "1500") with 4%nat.
  change (String.length " chars and last ") with 16%nat.
  change (String.length " chars of ") with 10%nat.
  change (String.length " chars.]") with 8%nat.
  lia.
Qed.

Section DefaultSettings.

Variable pred : string -> bool.
Hypothesis pred_true : forall t, pred t = true.

Let D := DEFAULT_CONTEXT_PRUNING_SETTINGS.

Lemma softTrimBlock_short b :
  blockContent (fun c => (JsString.len c < 2 ^ 53)%Z) b ->
  blockContent (fun c => (JsString.len c <= 4000)%Z)
    (fst (softTrimToolResultBlock b (softTrim D) pred)).
Proof.
  destruct b as [t|id name input|id name c]; cbn [blockContent]; try (intros; exact I).
  intros Hb. unfold softTrimToolResultBlock, isToolResultProtected.
  rewrite pred_true. cbn [negb]. rewrite andb_false_r.
  destruct (Z.leb_spec (JsString.len c) (maxChars (softTrim D))) as [Hs|Hl]; cbn [fst blockContent].
  - exact Hs.
  - cbn [D DEFAULT_CONTEXT_PRUNING_SETTINGS softTrim maxChars headChars tailChars] in *.
    change (Z.max 0 1500) with 1500%Z.
    destruct (Z.geb_spec (1500 + 1500) (JsString.len c)) as [H|H]; cbn [fst blockContent]; [lia|].
    apply trimmedText_length. exact Hb.
Qed.

Lemma softTrimBlocks_short bs :
  Forall (blockContent (fun c => (JsString.len c < 2 ^ 53)%Z)) bs ->
  Forall (blockContent (fun c => (JsString.len c <= 4000)%Z)) (fst (softTrimBlocks bs (softTrim D) pred)).
Proof.
  induction 1 as [|b bs Hb _ IH]; cbn [softTrimBlocks fst]; constructor.
  - apply softTrimBlock_short. exact Hb.
  - exact IH.
Qed.

Lemma softTrimBlocks_nonneg bs st : (0 <= snd (softTrimBlocks bs st pred))%Z.
Proof.
  induction bs as [|x l IHl]; cbn [softTrimBlocks snd]; [lia|].
  destruct (snd (softTrimToolResultBlock x st pred)); cbn [boolCount]; lia.
Qed.

Lemma applySoftTrim_short msgs :
  contents_bounded msgs -> contents_short (fst (applySoftTrim msgs D pred)).
Proof.
  unfold contents_bounded, contents_short.
  induction 1 as [|m msgs Hm _ IH]; cbn [applySoftTrim fst]; constructor; [|exact IH].
  unfold messageContent, softTrimMessage in *. destruct (content m) as [s|bs] eqn:Ec; cbn [fst].
  - rewrite Ec. exact I.
  - destruct (Z.ltb_spec 0 (snd (softTrimBlocks bs (softTrim D) pred))) as [Hpos|Hz].
    + cbn [cloneMessage content]. apply softTrimBlocks_short. exact Hm.
    + rewrite Ec. pose proof (softTrimBlocks_nonneg bs (softTrim D)) as Hn.
      rewrite <- (softTrimBlocks_unchanged (softTrim D) pred bs) by lia.
      apply softTrimBlocks_short. exact Hm.
Qed.

Lemma softTrimBlock_short_id b :
  blockContent (fun c => (JsString.len c <= 4000)%Z) b ->
  softTrimToolResultBlock b (softTrim D) pred = (b, false).
Proof.
  destruct b as [t|id name input|id name c]; cbn [blockContent]; try reflexivity.
  intros Hs. unfold softTrimToolResultBlock, isToolResultProtected.
  rewrite pred_true. cbn [negb]. rewrite andb_false_r.
  destruct (Z.leb_spec (JsString.len c) (maxChars (softTrim D))) as [_|Hl]; [reflexivity|].
  cbn [D DEFAULT_CONTEXT_PRUNING_SETTINGS softTrim maxChars] in Hl. lia.
Qed.

Lemma softTrimBlocks_short_id bs :
  Forall (blockContent (fun c => (JsString.len c <= 4000)%Z)) bs ->
  softTrimBlocks bs (softTrim D) pred = (bs, 0%Z).
Proof.
  induction 1 as [|b bs Hb _ IH]; cbn [softTrimBlocks]; [reflexivity|].
  rewrite (softTrimBlock_short_id b Hb), IH. reflexivity.
Qed.

Lemma applySoftTrim_short_id msgs :
  contents_short msgs -> applySoftTrim msgs D pred = (msgs, 0%Z).
Proof.
  unfold contents_short.
  induction 1 as [|m msgs Hm _ IH]; cbn [applySoftTrim]; [reflexivity|].
  rewrite IH. cbn [fst snd]. unfold softTrimMessage, messageContent in *.
  destruct (content m) as [s|bs]; [reflexivity|].
  rewrite (softTrimBlocks_short_id bs Hm). reflexivity.
Qed.

End DefaultSettings.

Definition toolLen (b : ContentBlock) : Z :=
  match b with
  | tool_result _ _ c => JsString.len c
  | _ => 0%Z
  end.

Definition toolLens (bs : list ContentBlock) : Z :=
  fold_right (fun b t => (toolLen b + t)%Z) 0%Z bs.

(** Two blocks that differ at most in the content of a tool result. *)
Definition sameShape (b b' : ContentBlock) : Prop :=
  b' = b \/ exists id name c c', b = tool_result id name c /\ b' = tool_result id name c'.

(** The estimator counts the characters of tool results one for one:
    replacing the content of one tool result moves the estimate of the
    message by the difference of the lengths. *)
Definition est_linear (est : Message -> Z) : Prop :=
  forall m pre id name c c' post,
    content m = Blocks (pre ++ tool_result id name c :: post) ->
    est (cloneMessage m (Blocks (pre ++ tool_result id name c' :: post)))
    = (est m - JsString.len c + JsString.len c')%Z.

Lemma cloneMessage_same m : cloneMessage m (content m) = m.
Proof. destruct m; reflexivity. Qed.

Lemma est_linear_blocks est m pre bs bs' :
  est_linear est ->
  content m = Blocks (pre ++ bs) ->
  Forall2 sameShape bs bs' ->
  est (cloneMessage m (Blocks (pre ++ bs'))) = (est m + toolLens bs' - toolLens bs)%Z.
Proof.
  intros Hlin Hc Hf. revert m pre Hc.
  induction Hf as [|b b' bs bs' Hb Hf IH]; intros m pre Hc.
  - rewrite <- Hc, cloneMessage_same. cbn. lia.
  - set (m1 := cloneMessage m (Blocks (pre ++ b' :: bs))).
    assert (E1 : est m1 = (est m + toolLen b' - toolLen b)%Z).
    { unfold m1. destruct Hb as [->|(id & name & c & c' & -> & ->)].
      - rewrite <- Hc, cloneMessage_same. lia.
      - rewrite (Hlin m pre id name c c' bs Hc). cbn [toolLen]. lia. }
    specialize (IH m1 (pre ++ [b'])).
    rewrite <- !app_assoc in IH. cbn [app] in IH.
    specialize (IH eq_refl). unfold m1 at 1 in IH. unfold cloneMessage in IH |- *.
    cbn [role timestamp] in IH. rewrite IH, E1. cbn [toolLens fold_right]. fold (toolLens bs).
    fold (toolLens bs'). lia.
Qed.

Section HardClear.

Variable est : Message -> Z.
Variable st : ContextPruningSettings.
Variable pred : string -> bool.
Variable cw : Z.
Hypothesis pred_true : forall t, pred t = true.
Hypothesis est_lin : est_linear est.

Let ph := placeholder (hardClear st).
Let below (T : Z) : bool := Qltb (ratio T cw) (hardClearRatio st).

(** What the loop makes of a block while the ratio is not below the
    threshold: every non-empty tool result becomes the placeholder. *)
Definition clearBlock (b : ContentBlock) : ContentBlock :=
  match b with
  | tool_result id name c => if (0 <? JsString.len c)%Z then tool_result id name ph else b
  | _ => b
  end.

Lemma hardClearBlock_below b T :
  below T = true -> hardClearBlock st pred cw b T = (b, T, false).
Proof.
  intros Hb. unfold hardClearBlock. destruct b as [t|id name input|id name c]; try reflexivity.
  unfold isToolResultProtected. cbn [negb andb]. rewrite pred_true, orb_true_r.
  fold (below T). rewrite Hb. destruct (0 <? JsString.len c)%Z; reflexivity.
Qed.

Lemma hardClearBlock_above b T :
  below T = false ->
  hardClearBlock st pred cw b T
  = (clearBlock b, (T + toolLen (clearBlock b) - toolLen b)%Z,
     match b with tool_result _ _ c => (0 <? JsString.len c)%Z | _ => false end).
Proof.
  intros Hb. unfold hardClearBlock, clearBlock.
  destruct b as [t|id name input|id name c]; cbn [toolLen]; try (f_equal; f_equal; lia).
  unfold isToolResultProtected. cbn [negb andb]. rewrite pred_true, orb_true_r.
  fold (below T). rewrite Hb. fold ph.
  destruct (0 <? JsString.len c)%Z; cbn [toolLen]; f_equal; f_equal; lia.
Qed.

Lemma clearBlock_shape b : sameShape b (clearBlock b).
Proof.
  destruct b as [t|id name input|id name c]; cbn [clearBlock]; try (left; reflexivity).
  destruct (0 <? JsString.len c)%Z; [right; eauto 6|left; reflexivity].
Qed.

Lemma hardClearBlocks_below bs T :
  below T = true -> hardClearBlocks st pred cw bs T = (bs, T, 0%Z).
Proof.
  intros Hb. induction bs as [|b bs IH]; cbn [hardClearBlocks]; [reflexivity|].
  rewrite hardClearBlock_below, IH by exact Hb. reflexivity.
Qed.

Lemma clearBlock_cleared b :
  blockContent (fun c => c = EmptyString \/ c = ph) (clearBlock b).
Proof.
  destruct b as [t|id name input|id name c]; cbn [clearBlock blockContent]; try exact I.
  destruct (Z.ltb_spec 0 (JsString.len c)) as [H|H]; cbn [blockContent]; [right; reflexivity|].
  left. destruct c; [reflexivity|]. unfold JsString.len in H. cbn in H. lia.
Qed.

Lemma clearBlock_id b :
  blockContent (fun c => c = EmptyString \/ c = ph) b -> clearBlock b = b.
Proof.
  destruct b as [t|id name input|id name c]; cbn [clearBlock blockContent]; try reflexivity.
  intros [->| ->]; [reflexivity|]. destruct (0 <? JsString.len ph)%Z; reflexivity.
Qed.

Lemma clearBlock_keeps (P : string -> Prop) b :
  P ph -> blockContent P b -> blockContent P (clearBlock b).
Proof.
  intros Hph. destruct b as [t|id name input|id name c]; cbn [clearBlock blockContent]; auto.
  destruct (0 <? JsString.len c)%Z; cbn [blockContent]; auto.
Qed.

Lemma hardClearBlocks_spec bs T :
  let '(bs', T', n) := hardClearBlocks st pred cw bs T in
  (0 <= n)%Z /\ Forall2 sameShape bs bs' /\
  T' = (T + toolLens bs' - toolLens bs)%Z /\
  (n = 0%Z -> bs' = bs) /\
  (below T' = false -> bs' = map clearBlock bs) /\
  (forall P : string -> Prop,
      P ph -> Forall (blockContent P) bs -> Forall (blockContent P) bs').
Proof.
  revert T. induction bs as [|b bs IH]; intros T; cbn [hardClearBlocks].
  - cbn. repeat split; auto; lia.
  - destruct (below T) eqn:Hb.
    + rewrite hardClearBlock_below by exact Hb.
      rewrite hardClearBlocks_below by exact Hb. cbn [boolCount].
      refine (conj _ (conj _ (conj _ (conj _ (conj _ _))))); try lia; auto.
      * constructor; [left; reflexivity|]. clear. induction bs; constructor; [left; reflexivity|assumption].
      * congruence.
    + rewrite hardClearBlock_above by exact Hb.
      specialize (IH (T + toolLen (clearBlock b) - toolLen b)%Z).
      destruct (hardClearBlocks st pred cw bs (T + toolLen (clearBlock b) - toolLen b))
        as [[bs' T'] n]. destruct IH as (Hn & Hsh & HT & Hz & Hab & Hkeep).
      refine (conj _ (conj _ (conj _ (conj _ (conj _ _))))).
      * destruct b as [t|id name input|id name c]; cbn [boolCount]; try lia.
        destruct (0 <? JsString.len c)%Z; cbn [boolCount]; lia.
      * constructor; [apply clearBlock_shape|exact Hsh].
      * cbn [toolLens fold_right]. fold (toolLens bs). fold (toolLens bs'). lia.
      * intros Hz'. assert (Hb0 : match b with tool_result _ _ c => (0 <? JsString.len c)%Z
                                               | _ => false end = false).
        { destruct b as [t|id name input|id name c]; try reflexivity.
          destruct (0 <? JsString.len c)%Z; cbn [boolCount] in Hz'; [lia|reflexivity]. }
        rewrite Hb0 in Hz'. cbn [boolCount] in Hz'. rewrite Hz by lia. f_equal.
        destruct b as [t|id name input|id name c]; try reflexivity.
        cbn [clearBlock]. rewrite Hb0. reflexivity.
      * intros Hab'. cbn [map]. f_equal. apply Hab. exact Hab'.
      * intros P Hph HP. inversion HP as [|x y Hx Hy]; subst.
        constructor; [apply clearBlock_keeps; assumption|apply Hkeep; assumption].
Qed.

(** One message of the hard-clear loop. *)
Lemma hardClearMessage_spec m T :
  let '(m', T', n) := hardClearMessage st pred cw m T in
  (0 <= n)%Z /\
  est m' = (est m + (T' - T))%Z /\
  (below T = true -> m' = m /\ T' = T /\ n = 0%Z) /\
  (below T' = false -> messageContent (fun c => c = EmptyString \/ c = ph) m') /\
  (below T' = false ->
   messageContent (fun c => c = EmptyString \/ c = ph) m -> m' = m /\ T' = T) /\
  (forall P : string -> Prop, P ph -> messageContent P m -> messageContent P m').
Proof.
  unfold hardClearMessage, messageContent. destruct (content m) as [s|bs] eqn:Ec.
  - rewrite Ec. repeat split; auto; lia.
  - pose proof (hardClearBlocks_spec bs T) as Hs.
    pose proof (hardClearBlocks_below bs T) as Hbl.
    destruct (hardClearBlocks st pred cw bs T) as [[bs' T'] n].
    destruct Hs as (Hn & Hsh & HT & Hz & Hab & Hkeep).
    assert (Hm' : (if (0 <? n)%Z then cloneMessage m (Blocks bs') else m)
                  = cloneMessage m (Blocks bs')).
    { destruct (Z.ltb_spec 0 n) as [|Hle]; [reflexivity|].
      rewrite Hz by lia. rewrite <- Ec. symmetry. apply cloneMessage_same. }
    rewrite Hm'.
    refine (conj Hn (conj _ (conj _ (conj _ (conj _ _))))).
    + pose proof (est_linear_blocks est m [] bs bs' est_lin Ec Hsh) as He. cbn [app] in He.
      rewrite He. lia.
    + intros Hb. specialize (Hbl Hb). injection Hbl as -> -> ->.
      rewrite <- Ec. rewrite cloneMessage_same. auto.
    + intros Hb. cbn [cloneMessage content]. rewrite (Hab Hb). clear.
      induction bs; constructor; [apply clearBlock_cleared|assumption].
    + intros Hb Hcl. specialize (Hab Hb).
      assert (Eid : map clearBlock bs = bs).
      { clear -Hcl. induction Hcl as [|b bs Hb _ IH]; cbn [map]; [reflexivity|].
        rewrite (clearBlock_id b Hb), IH. reflexivity. }
      rewrite Eid in Hab. subst bs'. split; [rewrite <- Ec; apply cloneMessage_same|].
      lia.
    + intros P Hph HP. cbn [cloneMessage content]. apply Hkeep; assumption.
Qed.

Lemma hardClearBlocks_cleared bs T :
  Forall (blockContent (fun c => c = EmptyString \/ c = ph)) bs ->
  below T = false ->
  exists n, hardClearBlocks st pred cw bs T = (bs, T, n).
Proof.
  intros Hcl Hb. induction Hcl as [|b bs Hbc _ IH]; cbn [hardClearBlocks]; [eauto|].
  rewrite hardClearBlock_above by exact Hb. rewrite (clearBlock_id b Hbc).
  replace (T + toolLen b - toolLen b)%Z with T by lia.
  destruct IH as [n ->]. eauto.
Qed.

Lemma hardClearMessage_cleared m T :
  messageContent (fun c => c = EmptyString \/ c = ph) m ->
  below T = false ->
  exists n, hardClearMessage st pred cw m T = (m, T, n).
Proof.
  unfold messageContent, hardClearMessage. destruct (content m) as [s|bs] eqn:Ec; [eauto|].
  intros Hcl Hb. destruct (hardClearBlocks_cleared bs T Hcl Hb) as [n ->].
  exists n. rewrite <- Ec, cloneMessage_same. destruct (0 <? n)%Z; reflexivity.
Qed.

Lemma hardClearMessages_below l T :
  below T = true -> hardClearMessages st pred cw l T = (l, T, 0%Z).
Proof.
  intros Hb. induction l as [|m l IH]; cbn [hardClearMessages]; [reflexivity|].
  pose proof (hardClearMessage_spec m T) as Hm.
  destruct (hardClearMessage st pred cw m T) as [[m' T1] n1].
  destruct Hm as (_ & _ & Hbl & _). destruct (Hbl Hb) as (-> & -> & ->).
  rewrite IH. reflexivity.
Qed.

Lemma hardClearMessages_spec l T :
  let '(out, T', n) := hardClearMessages st pred cw l T in
  estimateMessagesChars est out = (estimateMessagesChars est l + (T' - T))%Z /\
  (below T' = false -> Forall (messageContent (fun c => c = EmptyString \/ c = ph)) out) /\
  (forall P : string -> Prop,
      P ph -> Forall (messageContent P) l -> Forall (messageContent P) out).
Proof.
  revert T. induction l as [|m l IH]; intros T; cbn [hardClearMessages].
  - cbn. repeat split; auto; lia.
  - pose proof (hardClearMessage_spec m T) as Hm.
    destruct (hardClearMessage st pred cw m T) as [[m' T1] n1].
    destruct Hm as (_ & He & _ & Hcl & _ & Hkeep).
    specialize (IH T1). pose proof (hardClearMessages_below l T1) as Hbl.
    destruct (hardClearMessages st pred cw l T1) as [[out T'] n2].
    destruct IH as (Hc & Hcl' & Hkeep').
    refine (conj _ (conj _ _)).
    + unfold estimateMessagesChars in *. cbn [fold_right]. lia.
    + intros Hb. assert (Hb1 : below T1 = false).
      { destruct (below T1) eqn:E; [|reflexivity].
        specialize (Hbl eq_refl). injection Hbl as _ HT _. subst T'. congruence. }
      constructor; [apply Hcl; exact Hb1|apply Hcl'; exact Hb].
    + intros P Hph HP. inversion HP as [|x y Hx Hy]; subst.
      constructor; [apply Hkeep; assumption|apply Hkeep'; assumption].
Qed.

Lemma prunableMessageChars_nonneg m : (0 <= prunableMessageChars pred m)%Z.
Proof.
  unfold prunableMessageChars. destruct (content m) as [s|bs]; [lia|].
  induction bs as [|b bs IH]; cbn [fold_right]; [lia|].
  assert (0 <= prunableBlockChars pred b)%Z; [|lia].
  destruct b as [t|id name input|id name c]; cbn; try lia.
  destruct (negb (id =? EmptyString)%string && negb (pred id)); unfold JsString.len; lia.
Qed.

Lemma countPrunable_member m l :
  In m l -> (countPrunableToolChars [m] pred <= countPrunableToolChars l pred)%Z.
Proof.
  unfold countPrunableToolChars. cbn [fold_right].
  induction l as [|x l IH]; [intros []|]. cbn [fold_right].
  pose proof (prunableMessageChars_nonneg x) as Hx.
  assert (Hl : (0 <= fold_right (fun msg total => (prunableMessageChars pred msg + total)%Z) 0%Z l)%Z).
  { clear. induction l as [|y l IH]; cbn [fold_right]; [lia|].
    pose proof (prunableMessageChars_nonneg y). lia. }
  intros [->|Hin]; [lia|]. specialize (IH Hin). lia.
Qed.

(** A message whose tool results are cleared already, or too small to
    count, comes back from the hard clear as it went in. *)
Lemma applyHardClear_single m :
  messageContent (fun c => c = EmptyString \/ c = ph) m \/
  (countPrunableToolChars [m] pred < minPrunableToolChars st)%Z ->
  fst (applyHardClear est [m] st pred cw) = [m].
Proof.
  intros H. unfold applyHardClear.
  destruct (negb (enabled (hardClear st))); [reflexivity|].
  fold (below (estimateMessagesChars est [m])).
  destruct (below (estimateMessagesChars est [m])) eqn:Hb; [reflexivity|].
  destruct (Z.ltb_spec (countPrunableToolChars [m] pred) (minPrunableToolChars st)) as [Hlt|Hge];
    [reflexivity|].
  destruct H as [Hcl|Hsmall]; [|lia].
  cbn [hardClearMessages].
  destruct (hardClearMessage_cleared m _ Hcl Hb) as [n ->]. reflexivity.
Qed.

(** When the estimate after the hard clear is still not below the
    threshold, either nothing was cleared for want of prunable
    characters, or every tool result is cleared. *)
Lemma applyHardClear_result l :
  let out := fst (applyHardClear est l st pred cw) in
  (forall P : string -> Prop, P ph -> Forall (messageContent P) l -> Forall (messageContent P) out) /\
  (below (estimateMessagesChars est out) = false ->
   (out = l /\ (countPrunableToolChars l pred < minPrunableToolChars st)%Z) \/
   (out = l /\ enabled (hardClear st) = false) \/
   Forall (messageContent (fun c => c = EmptyString \/ c = ph)) out).
Proof.
  cbv zeta. unfold applyHardClear.
  destruct (enabled (hardClear st)) eqn:Een; cbn [negb]; [|cbn [fst]; auto].
  fold (below (estimateMessagesChars est l)).
  destruct (below (estimateMessagesChars est l)) eqn:Hb.
  { cbn [fst]. split; [auto|]. intros Hb'. congruence. }
  destruct (Z.ltb_spec (countPrunableToolChars l pred) (minPrunableToolChars st)) as [Hlt|Hge].
  { cbn [fst]. auto. }
  pose proof (hardClearMessages_spec l (estimateMessagesChars est l)) as Hs.
  destruct (hardClearMessages st pred cw l (estimateMessagesChars est l)) as [[out T'] n].
  destruct Hs as (Hc & Hcl & Hkeep). cbn [fst]. split; [exact Hkeep|].
  intros Hb'. right. right. apply Hcl.
  replace T' with (estimateMessagesChars est out) by lia. exact Hb'.
Qed.

End HardClear.

Section Idempotence.

Variable est : Message -> Z.
Variable ct : Z.
Hypothesis est_lin : est_linear est.

Local Abbreviation D := DEFAULT_CONTEXT_PRUNING_SETTINGS.
Local Abbreviation pred := (makeToolPrunablePredicate (Some (tools D))).
Let n := Z.max 1 ct.
Let cw := (n * 4)%Z.
Let budget := (2 * n)%Z.
Let pass (l : list Message) := messages (pruneContextMessages est l ct None).

Local Abbreviation chars := (estimateMessagesChars est).

Lemma pred_default t : pred t = true.
Proof. reflexivity. Qed.

Lemma cw_pos : (0 < cw)%Z.
Proof. unfold cw, n. lia. Qed.

Lemma soft_trigger l :
  Qgtb (ratio (chars l) cw) (softTrimRatio D) = true <-> (3 * cw < chars l * 10)%Z.
Proof. apply (Qgtb_ratio (chars l) cw 3 10 cw_pos). Qed.

Lemma hard_trigger l :
  Qgtb (ratio (chars l) cw) (hardClearRatio D) = true <-> (budget < chars l)%Z.
Proof.
  change (hardClearRatio D) with (1 # 2)%Q.
  rewrite (Qgtb_ratio (chars l) cw 1 2 cw_pos). unfold budget, cw. lia.
Qed.

Lemma below_threshold T :
  Qltb (ratio T cw) (hardClearRatio D) = true <-> (T < budget)%Z.
Proof.
  change (hardClearRatio D) with (1 # 2)%Q.
  rewrite (Qltb_ratio T cw 1 2 cw_pos). unfold budget, cw. lia.
Qed.

Lemma afterLayers12_default l :
  afterLayers12 est l ct None =
  let soft := if Qgtb (ratio (chars l) cw) (softTrimRatio D)
              then fst (applySoftTrim l D pred) else l in
  if Qgtb (ratio (chars soft) cw) (hardClearRatio D)
  then fst (applyHardClear est soft D pred cw) else soft.
Proof.
  unfold afterLayers12. cbn [resolvePruningSettings]. fold n. fold cw.
  cbv zeta. destruct (Qgtb (ratio (chars l) cw) (softTrimRatio D)); cbn [fst];
    destruct (Qgtb _ (hardClearRatio D)); reflexivity.
Qed.

Lemma pass_unfold l :
  pass l = if (chars (afterLayers12 est l ct None) <=? budget)%Z
           then afterLayers12 est l ct None
           else map snd (fst (dropMessages est (tagged (afterLayers12 est l ct None)) D budget)).
Proof.
  unfold pass. destruct (pruneContextMessages_lists est l ct None) as [Em _].
  cbv zeta in Em. rewrite Em, budgetOf_default. reflexivity.
Qed.

(** A short array within the budget is a fixed point of the pruner. *)
Lemma pass_within_budget K :
  contents_short K -> (chars K <= budget)%Z -> pass K = K.
Proof.
  intros Hs Hb.
  assert (Ec : afterLayers12 est K ct None = K).
  { rewrite afterLayers12_default. cbv zeta.
    rewrite (applySoftTrim_short_id pred pred_default K Hs). cbn [fst].
    assert (Hsoft : (if Qgtb (ratio (chars K) cw) (softTrimRatio D) then K else K) = K)
      by (destruct (Qgtb _ _); reflexivity).
    rewrite Hsoft.
    destruct (Qgtb (ratio (chars K) cw) (hardClearRatio D)) eqn:Eh; [|reflexivity].
    apply hard_trigger in Eh. lia. }
  rewrite pass_unfold, Ec. destruct (Z.leb_spec (chars K) budget); [reflexivity|lia].
Qed.

(** So is a single short message over the budget that the hard clear
    leaves alone. *)
Lemma pass_single m :
  contents_short [m] -> (budget < est m)%Z ->
  fst (applyHardClear est [m] D pred cw) = [m] ->
  pass [m] = [m].
Proof.
  intros Hs Hb Hh.
  assert (Hc : chars [m] = est m) by (unfold estimateMessagesChars; cbn; lia).
  assert (Ec : afterLayers12 est [m] ct None = [m]).
  { rewrite afterLayers12_default. cbv zeta.
    rewrite (applySoftTrim_short_id pred pred_default [m] Hs). cbn [fst].
    assert (Hsoft : (if Qgtb (ratio (chars [m]) cw) (softTrimRatio D) then [m] else [m]) = [m])
      by (destruct (Qgtb _ _); reflexivity).
    rewrite Hsoft. destruct (Qgtb (ratio (chars [m]) cw) (hardClearRatio D)); [exact Hh|reflexivity]. }
  rewrite pass_unfold, Ec. destruct (Z.leb_spec (chars [m]) budget) as [Hle|_]; [lia|].
  unfold dropMessages, tagged. cbn [List.length seq combine fst].
  unfold findAssistantCutoffIndex. cbn [D DEFAULT_CONTEXT_PRUNING_SETTINGS keepLastAssistants Z.leb
                                        Z.compare rev app List.length scanAssistants snd].
  assert (Hscan : (if is_assistant m then if (3 - 1 =? 0)%Z then Some (1 - 1)%nat else None
                   else @None nat) = None) by (destruct (is_assistant m); reflexivity).
  rewrite Hscan. cbn [skipn map snd].
  destruct (Z.gtb_spec (chars [m]) budget) as [_|Hle]; [|lia].
  unfold sliceWithinBudget. cbn [rev app sliceLoop List.length Nat.eqb negb].
  rewrite andb_false_r. cbn. reflexivity.
Qed.

(** C6 (amended).  With the default settings, an estimator that counts
    tool-result characters one for one, and tool results shorter than
    2^53 characters, pruning the kept output again returns it unchanged. *)
Theorem prune_idempotent_default_settings (msgs : list Message) :
  contents_bounded msgs ->
  messages (pruneContextMessages est
              (messages (pruneContextMessages est msgs ct None)) ct None)
  = messages (pruneContextMessages est msgs ct None).
Proof.
  intros Hbound. change (pass (pass msgs) = pass msgs).
  destruct (Qgtb (ratio (chars msgs) cw) (softTrimRatio D)) eqn:Esoft.
  2:{ (* layer 1 idle: nothing else fires, the array is returned as it is *)
      assert (Hsmall : (chars msgs * 10 <= 3 * cw)%Z).
      { destruct (Z_le_gt_dec (chars msgs * 10) (3 * cw)) as [H|H]; [exact H|].
        assert (Qgtb (ratio (chars msgs) cw) (softTrimRatio D) = true) by (apply soft_trigger; lia).
        congruence. }
      assert (Ec : afterLayers12 est msgs ct None = msgs).
      { rewrite afterLayers12_default. cbv zeta. rewrite Esoft.
        destruct (Qgtb (ratio (chars msgs) cw) (hardClearRatio D)) eqn:Eh; [|reflexivity].
        apply hard_trigger in Eh. unfold budget, cw in *. lia. }
      assert (Ep : pass msgs = msgs).
      { rewrite pass_unfold, Ec. destruct (Z.leb_spec (chars msgs) budget); [reflexivity|].
        unfold budget, cw in *. lia. }
      rewrite Ep. exact Ep. }
  (* layer 1 ran: every tool result is short from here on *)
  set (c1 := fst (applySoftTrim msgs D pred)).
  assert (Hs1 : contents_short c1) by (apply applySoftTrim_short; [apply pred_default|exact Hbound]).
  set (c2 := afterLayers12 est msgs ct None).
  assert (Ec2 : c2 = if Qgtb (ratio (chars c1) cw) (hardClearRatio D)
                     then fst (applyHardClear est c1 D pred cw) else c1).
  { unfold c2. rewrite afterLayers12_default. cbv zeta. rewrite Esoft. reflexivity. }
  pose proof (applyHardClear_result est D pred cw pred_default est_lin c1) as [Hkeep Hres].
  cbv zeta in Hkeep, Hres.
  assert (Hs2 : contents_short c2).
  { rewrite Ec2. destruct (Qgtb (ratio (chars c1) cw) (hardClearRatio D)); [|exact Hs1].
    apply (Hkeep (fun c => (JsString.len c <= 4000)%Z)); [cbn; lia|exact Hs1]. }
  rewrite (pass_unfold msgs). fold c2.
  destruct (Z.leb_spec (chars c2) budget) as [Hfit|Hover].
  { apply pass_within_budget; assumption. }
  (* layer 3 ran *)
  assert (Hnd : NoDup (map fst (tagged c2))) by (rewrite tagged_fst; apply seq_NoDup).
  destruct (dropMessages_spec est (tagged c2) D budget Hnd)
    as (Eo & pre & prot & Epp & _ & Hfitp & Hbig).
  cbv zeta in Eo, Hfitp, Hbig.
  set (kept := fst (dropMessages est (tagged c2) D budget)) in *.
  set (dropped := snd (dropMessages est (tagged c2) D budget)) in *.
  assert (Ecur : c2 = map snd dropped ++ map snd kept).
  { transitivity (map snd (tagged c2)); [symmetry; apply tagged_snd|].
    rewrite Eo. apply map_app. }
  assert (HsK : contents_short (map snd kept)).
  { unfold contents_short in *. rewrite Ecur in Hs2. apply Forall_app in Hs2. apply Hs2. }
  destruct (Z_le_gt_dec (chars (map snd kept)) budget) as [HK|HK].
  { apply pass_within_budget; assumption. }
  (* the kept messages exceed the budget: a single message is left *)
  assert (Hone : List.length kept = 1%nat).
  { destruct (Z_le_gt_dec (chars (map snd prot)) budget) as [Hp|Hp].
    - destruct (Hfitp Hp) as (_ & Hle & _). unfold Obj in *. lia.
    - destruct (Hbig ltac:(lia)) as (_ & [Hle|[H1|H0]] & _).
      + unfold Obj in *. lia.
      + exact H1.
      + rewrite H0 in HK. unfold estimateMessagesChars in HK. cbn [map fold_right] in HK.
        unfold budget, n in HK. lia. }
  destruct kept as [|o [|o2 kept']] eqn:Ek; try discriminate Hone.
  cbn [map] in *.
  assert (Hin : In (snd o) c2) by (rewrite Ecur; apply in_or_app; right; left; reflexivity).
  assert (Hest : (budget < est (snd o))%Z).
  { unfold estimateMessagesChars in HK. cbn [fold_right] in HK. lia. }
  apply pass_single; [exact HsK|exact Hest|].
  (* layer 2 ran in the first pass *)
  destruct (Qgtb (ratio (chars c1) cw) (hardClearRatio D)) eqn:Eh.
  2:{ exfalso. rewrite Ec2 in Hover.
      destruct (Z_le_gt_dec (chars c1) budget) as [H|H]; [lia|].
      assert (Qgtb (ratio (chars c1) cw) (hardClearRatio D) = true) by (apply hard_trigger; lia).
      congruence. }
  rewrite <- Ec2 in Hres.
  assert (Hnb : Qltb (ratio (chars c2) cw) (hardClearRatio D) = false).
  { destruct (Qltb (ratio (chars c2) cw) (hardClearRatio D)) eqn:E; [|reflexivity].
    apply below_threshold in E. lia. }
  apply (applyHardClear_single est D pred cw pred_default).
  destruct (Hres Hnb) as [[E Hcount]|[[_ Habs]|Hcl]].
  - right. rewrite E in Hin.
    pose proof (countPrunable_member pred (snd o) c1 Hin). lia.
  - discriminate Habs.
  - left. apply (proj1 (Forall_forall _ _) Hcl). exact Hin.
Qed.

End Idempotence.

Lemma tokensModel_blocks_app pre post :
  fold_right (fun b acc => (TokensModel.blockChars b + acc)%Z) 0%Z (pre ++ post)
  = (fold_right (fun b acc => (TokensModel.blockChars b + acc)%Z) 0%Z pre
     + fold_right (fun b acc => (TokensModel.blockChars b + acc)%Z) 0%Z post)%Z.
Proof. induction pre as [|b pre IH]; cbn [app fold_right]; [reflexivity|]. rewrite IH. lia. Qed.

(** The reference estimator counts tool-result characters one for one. *)
Lemma tokensModel_linear : est_linear TokensModel.estimateMessageChars.
Proof.
  intros m pre id name c c' post Hc. unfold TokensModel.estimateMessageChars.
  rewrite Hc. cbn [cloneMessage content]. rewrite !tokensModel_blocks_app.
  cbn [fold_right TokensModel.blockChars]. lia.
Qed.

(** One user message, three tool results of 5000 characters, three
    assistant messages: a window of 1000 tokens trims, then drops. *)
Definition pruneSample : list Message :=
  [textMessage user 100 0;
   toolResultMessage "call_1" "exec" (JsString.repeat "x" 5000);
   toolResultMessage "call_2" "exec" (JsString.repeat "y" 5000);
   toolResultMessage "call_3" "read" (JsString.repeat "z" 5000);
   textMessage assistant 100 11; textMessage assistant 100 12; textMessage assistant 100 13].

Lemma pruneSample_bounded : contents_bounded pruneSample.
Proof.
  unfold contents_bounded, pruneSample.
  repeat (constructor; [try exact I; repeat (constructor; [vm_compute; reflexivity|]); constructor|]).
  constructor.
Qed.

Lemma prune_idempotent_default_settings_witness :
  messages (pruneContextMessages TokensModel.estimateMessageChars
              (messages (pruneContextMessages TokensModel.estimateMessageChars pruneSample 1000 None))
              1000 None)
  = messages (pruneContextMessages TokensModel.estimateMessageChars pruneSample 1000 None).
Proof.
  apply (prune_idempotent_default_settings TokensModel.estimateMessageChars 1000
           tokensModel_linear pruneSample pruneSample_bounded).
Defined.

Example pruneSample_pruned :
  let r := pruneContextMessages TokensModel.estimateMessageChars pruneSample 1000 None in
  trimmedToolResults r = 3%Z /\ hardClearedToolResults r = 0%Z /\ budgetChars r = 2000%Z /\
  messages r = [textMessage assistant 100 11; textMessage assistant 100 12;
                textMessage assistant 100 13] /\
  List.length (droppedMessages r) = 4%nat.
Proof. cbv zeta. repeat split; vm_compute; reflexivity. Qed.

(** Settings under which a trimmed result is still longer than
    [maxChars]. *)
Definition narrowTrimSettings : option PartialSettings :=
  Some {| raw_maxHistoryShare := None; raw_keepLastAssistants := None;
          raw_softTrimRatio := None; raw_hardClearRatio := None;
          raw_minPrunableToolChars := None;
          raw_softTrim_maxChars := Some (inject_Z 10);
          raw_softTrim_headChars := Some (inject_Z 2);
          raw_softTrim_tailChars := Some (inject_Z 2);
          raw_hardClear_enabled := None; raw_hardClear_placeholder := None;
          raw_tools := None |}.

(** C6, as stated, fails: with [softTrim = {maxChars: 10, headChars: 2,
    tailChars: 2}] the trimmed text, note included, is itself longer
    than [maxChars], and the second pass trims it again. *)
Lemma prune_not_idempotent_narrow_trim :
  let prune := fun l => messages (pruneContextMessages TokensModel.estimateMessageChars
                                    l 1 narrowTrimSettings) in
  let once := prune [toolResultMessage "call_1" "exec" (JsString.repeat "x" 30)] in
  once = [toolResultMessage "call_1" "exec"
            ("xx" +++ nl +++ "..." +++ nl +++ "xx" +++ nl +++ nl
             +++ "[Tool result trimmed: kept first 2 chars and last 2 chars of 30 chars.]")] /\
  prune once = [toolResultMessage "call_1" "exec"
            ("xx" +++ nl +++ "..." +++ nl +++ ".]" +++ nl +++ nl
             +++ "[Tool result trimmed: kept first 2 chars and last 2 chars of 82 chars.]")] /\
  prune once <> once.
Proof.
  cbv zeta. split; [vm_compute; reflexivity|]. split; [vm_compute; reflexivity|].
  vm_compute. discriminate.
Qed.

End IdempotenceProperties.

(* ================================================================== *)
(** ** Compactor: the fallback path of the summariser *)
(* ================================================================== *)

Section CompactionProperties.
Import Session Compaction.


Lemma isOversizedForSummary_spec est m win :
  isOversizedForSummary est m win = true <-> (5 * win < 12 * est m)%Z.
Proof.
  unfold isOversizedForSummary, SAFETY_MARGIN. rewrite negb_true_iff.
  destruct (Qle_bool _ _) eqn:E.
  - apply Qle_bool_iff in E. unfold Qle in E. cbn in E. split; [discriminate|lia].
  - split; [intros _|reflexivity].
    destruct (Z_lt_le_dec (5 * win) (12 * est m)) as [H|H]; [exact H|].
    exfalso. assert (E' : Qle_bool (inject_Z (est m) * (12 # 10)) (inject_Z win * (1 # 2)) = true).
    { apply Qle_bool_iff. unfold Qle. cbn. lia. }
    congruence.
Qed.

Lemma partitionOversized_spec est win msgs small notes :
  partitionOversized est msgs win small notes =
  (small ++ filter (fun m => negb (isOversizedForSummary est m win)) msgs,
   notes ++ map (oversizedNote est) (filter (fun m => isOversizedForSummary est m win) msgs)).
Proof.
  revert small notes. induction msgs as [|m rest IH]; intros small notes; cbn [partitionOversized filter map].
  - rewrite !app_nil_r. reflexivity.
  - destruct (isOversizedForSummary est m win); cbn [negb map]; rewrite IH, <- app_assoc; reflexivity.
Qed.

(** C8 (amended).  When the first pass of the summariser over a
    non-empty message list fails, the compactor retries once, on the
    messages whose token estimate, with the 1.2 safety margin, stays
    within half the context window; the others are named by notes
    appended to the retried summary.  When no message stays, or the retry
    fails too, the fixed size-limits sentence comes back. *)
Theorem summarizeWithFallback_retries_once
    (est : Message -> Z) (sysP baseP updP : string) (W : Type)
    (summarize : SummarizeParams -> W -> option string * W)
    (p : SummaryParams) (w w1 : W) :
  messages p <> [] ->
  summarizeChunks est sysP baseP updP W summarize p w = (None, w1) ->
  let oversized := fun m => isOversizedForSummary est m (contextWindow p) in
  let small := filter (fun m => negb (oversized m)) (messages p) in
  let notes := map (oversizedNote est) (filter oversized (messages p)) in
  let unavailable :=
    "Context contained " +++ JsString.string_of_nat (List.length (messages p))
    +++ " messages. Summary unavailable due to size limits." in
  let result := summarizeWithFallback est sysP baseP updP W summarize p w in
  (forall m, oversized m = true <-> (5 * contextWindow p < 12 * est m)%Z) /\
  (forall m, oversizedNote est m =
             "[Large " +++ role_name (role m) +++ " (~"
             +++ JsString.string_of_Z ((est m + 500) / 1000) +++ "K tokens) omitted]") /\
  (small = [] -> result = (unavailable, w1)) /\
  (forall partial w2,
      small <> [] ->
      summarizeChunks est sysP baseP updP W summarize (withMessages p small) w1 = (Some partial, w2) ->
      result = (partial +++ match notes with
                            | [] => EmptyString
                            | _ => nl +++ nl +++ JsString.join nl notes
                            end, w2)) /\
  (forall w2,
      small <> [] ->
      summarizeChunks est sysP baseP updP W summarize (withMessages p small) w1 = (None, w2) ->
      result = (unavailable, w2)).
Proof.
  intros Hne Hfirst. cbv zeta.
  split; [intros m; apply isOversizedForSummary_spec|].
  split; [reflexivity|].
  unfold summarizeWithFallback. destruct (messages p) as [|m0 ms] eqn:Em; [contradiction|].
  rewrite Hfirst, partitionOversized_spec. cbn [app].
  set (small := filter _ (m0 :: ms)). set (notes := map _ (filter _ (m0 :: ms))).
  unfold sizeLimitsMessage.
  repeat split.
  - intros ->. reflexivity.
  - intros partial w2 Hs Hretry. destruct small; [contradiction|]. rewrite Hretry. reflexivity.
  - intros w2 Hs Hretry. destruct small; [contradiction|]. rewrite Hretry. reflexivity.
Qed.

(** A summariser that rejects its first call and answers every later one. *)
Definition flakySummarize (_ : SummarizeParams) (calls : nat) : option string * nat :=
  (if (calls =? 0)%nat then None else Some "SUMMARY", S calls).

Definition msg_short : Message :=
  {| role := user; content := Str "hi there"; timestamp := 1 |}.

(** 180 characters: 45 tokens at four characters per token. *)
Definition msg_medium : Message :=
  {| role := user; content := Str (JsString.repeat "x" 180); timestamp := 2 |}.

Definition fallback_params : SummaryParams :=
  {| messages := [msg_short; msg_medium]; sp_maxTokens := 900; maxChunkTokens := 40;
     contextWindow := 100; customInstructions := None; previousSummary := None |}.

Lemma summarizeWithFallback_retries_once_witness :
  summarizeWithFallback TokensModel.estimateMessageTokens "SYSTEM" "PROMPT" "UPDATE"
    nat flakySummarize fallback_params 0
  = ("SUMMARY" +++ nl +++ nl +++ "[Large user (~0K tokens) omitted]", 2).
Proof.
  refine (proj1 (proj2 (proj2 (proj2
            (summarizeWithFallback_retries_once TokensModel.estimateMessageTokens
               "SYSTEM" "PROMPT" "UPDATE" nat flakySummarize fallback_params 0 1 _ _))))
            "SUMMARY" 2 _ _).
  - discriminate.
  - reflexivity.
  - discriminate.
  - reflexivity.
Defined.

(** C8, as stated, fails: a message estimated at 45 tokens, less than
    half of a window of 100, is left out of the retry and replaced by a
    note (which reads ~0K, with no blank before the K). *)
Lemma summarizeWithFallback_omits_below_half_window :
  TokensModel.estimateMessageTokens msg_medium = 45%Z /\
  (2 * TokensModel.estimateMessageTokens msg_medium <= contextWindow fallback_params)%Z /\
  isOversizedForSummary TokensModel.estimateMessageTokens msg_medium
    (contextWindow fallback_params) = true /\
  fst (summarizeWithFallback TokensModel.estimateMessageTokens "SYSTEM" "PROMPT" "UPDATE"
         nat flakySummarize fallback_params 0)
  = "SUMMARY" +++ nl +++ nl +++ "[Large user (~0K tokens) omitted]".
Proof.
  repeat split; try reflexivity. vm_compute. discriminate.
Qed.

Example summarizeWithFallback_all_oversized :
  summarizeWithFallback TokensModel.estimateMessageTokens "SYSTEM" "PROMPT" "UPDATE"
    nat flakySummarize
    {| messages := [msg_medium; msg_medium; msg_medium]; sp_maxTokens := 900;
       maxChunkTokens := 40; contextWindow := 60; customInstructions := None;
       previousSummary := None |} 0
  = ("Context contained 3 messages. Summary unavailable due to size limits.", 1).
Proof. reflexivity. Qed.

End CompactionProperties.

(* ------------------------------------------------------------------ *)
(** ** The turn loop, the guard and the run *)

Section LoopProperties.
Import Session AgentLoop.
Section ToolExecution.

Variable P : AgentLoopParams.

(** The calls of a list with the instants at which the loop executes
    them: each call takes one instant, the steering check after it one
    more. *)
Fixpoint stamp (i : nat) (calls : list ToolCallRequest) : list (ToolCallRequest * nat) :=
  match calls with
  | [] => []
  | call :: rest => (call, i) :: stamp (S (S i)) rest
  end.

(** The text a call executed at instant [i] leaves in [result]. *)
Definition textOf (r : Invocation) : string :=
  match r with Completed output => output | Escaped error => error end.

Definition resultText (ci : ToolCallRequest * nat) : string :=
  textOf (invokeTool P (fst ci) (snd ci)).

(** The call at instant [i] leaves a result: its tool is missing, or
    it returns, or it rejects with a value that is neither [undefined]
    nor [null]. *)
Definition completes (ci : ToolCallRequest * nat) : Prop :=
  exists output, invokeTool P (fst ci) (snd ci) = Completed output.

(** The block and the two events of a call executed at instant [i]. *)
Definition realResult (ci : ToolCallRequest * nat) : ContentBlock :=
  tool_result (tc_id (fst ci)) (Some (tc_name (fst ci))) (resultText ci).

Definition startEvent (call : ToolCallRequest) : AgentEvent :=
  tool_execution_start (tc_id call) (tc_name call) (tc_input call).

Definition executionEvents (ci : ToolCallRequest * nat) : list AgentEvent :=
  [startEvent (fst ci);
   tool_execution_end (tc_id (fst ci)) (tc_name (fst ci))
                      (preview (resultText ci))
                      (isNone (findTool P (tc_name (fst ci))))].

Definition skipEvent (call : ToolCallRequest) : AgentEvent :=
  tool_skipped (tc_id call) (tc_name call).

Definition steeringEvent (steer : option (list Message)) : list AgentEvent :=
  match steer with Some s => [steering (List.length s)] | None => [] end.

(** No steering message is queued after any of the calls. *)
Definition quiet (ran : list (ToolCallRequest * nat)) : Prop :=
  forall ci, In ci ran -> getSteeringMessages P (S (snd ci)) = [].

(** The fields a tool execution leaves alone. *)
Definition sameSession (st st' : LoopState) : Prop :=
  log st' = log st /\ currentMessages st' = currentMessages st /\
  compactionSummary st' = compactionSummary st /\ turns st' = turns st /\
  finalText st' = finalText st /\
  overflowCompactionAttempted st' = overflowCompactionAttempted st /\
  pendingMessages st' = pendingMessages st.

Lemma skipRemaining_spec remaining : forall toolResults st,
  skipRemaining remaining toolResults st
  = (toolResults ++ map skipToolCall remaining,
     fold_left (fun s c => push (skipEvent c) s) remaining st).
Proof.
  induction remaining as [|c rest IH]; intros toolResults st; cbn [skipRemaining map fold_left].
  - rewrite app_nil_r. reflexivity.
  - rewrite IH, <- app_assoc. reflexivity.
Qed.

Lemma pushAll_spec remaining : forall st,
  let st' := fold_left (fun s c => push (skipEvent c) s) remaining st in
  pushed st' = pushed st ++ map skipEvent remaining /\ instant st' = instant st /\
  totalToolCalls st' = totalToolCalls st /\ sameSession st st'.
Proof.
  induction remaining as [|c rest IH]; intros st; cbn [fold_left map].
  - rewrite app_nil_r. unfold sameSession. repeat split; reflexivity.
  - destruct (IH (push (skipEvent c) st)) as (Hp & Hi & Ht & Hs).
    cbv zeta in *. rewrite Hp, Hi, Ht. cbn [push pushed instant totalToolCalls].
    rewrite <- app_assoc. unfold sameSession in *. cbn [push log currentMessages compactionSummary
      turns finalText overflowCompactionAttempted pendingMessages] in Hs.
    repeat split; try reflexivity; apply Hs.
Qed.

(** What the result of a completed call is, by the three ways the
    source assigns it. *)
Lemma resultText_spec ci :
  completes ci ->
  match findTool P (tc_name (fst ci)) with
  | None => resultText ci = "Unknown tool: " +++ tc_name (fst ci)
  | Some tool =>
      match execute tool (snd ci) (tc_input (fst ci)) with
      | Returns output => resultText ci = output
      | Throws message => resultText ci = "Execution error: " +++ message
      | ThrowsNullish _ => False
      end
  end.
Proof.
  intros [output H]. unfold resultText. revert H. unfold invokeTool.
  destruct (findTool P (tc_name (fst ci))) as [tool|]; [|reflexivity].
  destruct (execute tool (snd ci) (tc_input (fst ci))); try reflexivity. discriminate.
Qed.

Lemma escaped_spec call i error :
  invokeTool P call i = Escaped error ->
  exists tool value,
    findTool P (tc_name call) = Some tool /\
    execute tool i (tc_input call) = ThrowsNullish value /\
    error = messageOfNullish value.
Proof.
  unfold invokeTool. destruct (findTool P (tc_name call)) as [tool|]; [|discriminate].
  destruct (execute tool i (tc_input call)) as [| |value] eqn:He; try discriminate.
  intros [= <-]. exists tool, value. auto.
Qed.

(** The tool loop, characterised.  When it ends with [toolResults], a
    non-empty prefix of the calls was executed in order, each call
    leaving a result; the loop stopped at the first call after which
    steering messages were queued, and skipped the rest.  When an error
    is thrown out of it, the calls before the failing one were executed
    in order with no steering queued after any, the failing call was
    announced by its start event, and its tool rejected with
    [undefined] or [null]. *)
Lemma executeToolCalls_spec calls : forall toolResults st,
  calls <> [] ->
  match executeToolCalls P calls toolResults st with
  | Assembled toolResults' steer st' =>
      exists n,
        (0 < n <= List.length calls)%nat /\
        let ran := stamp (instant st) (firstn n calls) in
        let skipped := skipn n calls in
        toolResults' = toolResults ++ map realResult ran ++ map skipToolCall skipped /\
        pushed st' = pushed st ++ flat_map executionEvents ran ++ map skipEvent skipped
                     ++ steeringEvent steer /\
        instant st' = (instant st + 2 * n)%nat /\
        totalToolCalls st' = (totalToolCalls st + Z.of_nat n)%Z /\
        sameSession st st' /\
        quiet (removelast ran) /\
        Forall completes ran /\
        match steer with
        | Some s => s <> [] /\ s = getSteeringMessages P (instant st + 2 * n - 1)
        | None => n = List.length calls /\ quiet ran
        end
  | ToolThrew error st' =>
      exists k call tool value,
        nth_error calls k = Some call /\
        let ran := stamp (instant st) (firstn k calls) in
        findTool P (tc_name call) = Some tool /\
        execute tool (instant st + 2 * k) (tc_input call) = ThrowsNullish value /\
        error = messageOfNullish value /\
        pushed st' = pushed st ++ flat_map executionEvents ran ++ [startEvent call] /\
        instant st' = (instant st + 2 * k + 1)%nat /\
        totalToolCalls st' = (totalToolCalls st + Z.of_nat k)%Z /\
        sameSession st st' /\
        quiet ran /\
        Forall completes ran
  end.
Proof.
  induction calls as [|call rest IH]; intros toolResults st Hne; [congruence|].
  cbn [executeToolCalls]. cbn [push instant].
  set (i := instant st).
  destruct (invokeTool P call i) as [output|error] eqn:Hinv.
  2: { destruct (escaped_spec call i error Hinv) as (tool & value & Hf & He & Herr).
       exists 0%nat, call, tool, value. cbn [nth_error firstn stamp flat_map app].
       cbn [tick push pushed instant totalToolCalls]. fold i.
       replace (i + 2 * 0)%nat with i by lia.
       refine (conj eq_refl (conj Hf (conj He (conj Herr (conj eq_refl (conj _ (conj _
                 (conj _ (conj _ _))))))))).
       - lia.
       - lia.
       - unfold sameSession. cbn. repeat split.
       - intros ci [].
       - constructor. }
  assert (Hc0 : completes (call, i)) by (exists output; exact Hinv).
  assert (Ht0 : resultText (call, i) = output) by (unfold resultText; cbn [fst snd]; rewrite Hinv; reflexivity).
  unfold steeringNow.
  cbn [tick push setTotalToolCalls instant getSteeringMessages]. fold i.
  destruct (getSteeringMessages P (S i)) as [|m ms] eqn:Hsteer; cbn [Guard.isEmpty negb].
  - destruct rest as [|call2 rest'].
    + exists 1%nat. split; [cbn [List.length]; lia|].
      cbn [executeToolCalls firstn skipn stamp map flat_map app removelast steeringEvent].
      cbn [push pushed instant totalToolCalls tick setTotalToolCalls]. fold i.
      refine (conj _ (conj _ (conj _ (conj _ (conj _ (conj _ (conj _ _))))))).
      * unfold realResult. rewrite Ht0. reflexivity.
      * unfold executionEvents, startEvent. rewrite Ht0. cbn [fst snd app].
        rewrite ?app_nil_r, <- ?app_assoc. reflexivity.
      * lia.
      * lia.
      * unfold sameSession. cbn. repeat split.
      * intros ci [].
      * constructor; [exact Hc0|constructor].
      * split; [reflexivity|]. intros ci [<-|[]]. exact Hsteer.
    + match goal with |- context [executeToolCalls P ?c ?r ?s] =>
        specialize (IH r s ltac:(discriminate)) end.
      match goal with |- context [executeToolCalls P ?c ?r ?s] =>
        destruct (executeToolCalls P c r s) as [res steer st'|error st'] end.
      * destruct IH as (n & Hn & IH). exists (S n). split; [cbn [List.length] in *; lia|].
        cbv zeta in IH |- *.
        destruct IH as (Hres & Hev & Hi & Ht & Hs & Hq & Hcs & Hsteer').
        cbn [instant pushed totalToolCalls tick push setTotalToolCalls]
          in Hi, Hev, Hq, Hsteer', Hres, Ht, Hcs.
        fold i in Hi, Hev, Hq, Hsteer', Hres, Hcs.
        cbn [firstn skipn stamp map flat_map]. fold i.
        refine (conj _ (conj _ (conj _ (conj _ (conj _ (conj _ (conj _ _))))))).
        -- rewrite Hres, <- ?app_assoc. unfold realResult at 2. rewrite Ht0. reflexivity.
        -- rewrite Hev. unfold executionEvents at 2. unfold startEvent. rewrite Ht0.
           cbn [fst snd app]. rewrite <- ?app_assoc. reflexivity.
        -- rewrite Hi. lia.
        -- rewrite Ht. lia.
        -- unfold sameSession in *. cbn in Hs. exact Hs.
        -- destruct n as [|n]; [lia|]. cbn [firstn stamp] in Hq |- *.
           cbn [removelast]. fold i.
           intros ci [<-|Hin]; [exact Hsteer|]. apply Hq. exact Hin.
        -- constructor; [exact Hc0|exact Hcs].
        -- destruct steer as [s|].
           ++ destruct Hsteer' as [Hs1 Hs2]. split; [exact Hs1|]. rewrite Hs2. f_equal. lia.
           ++ destruct Hsteer' as [Hn1 Hq1]. split; [cbn [List.length] in *; lia|].
              intros ci [<-|Hin]; [exact Hsteer|]. apply Hq1. exact Hin.
      * destruct IH as (k & c & tool & value & Hnth & IH). cbv zeta in IH.
        destruct IH as (Hf & He & Herr & Hev & Hi & Ht & Hs & Hq & Hcs).
        cbn [instant pushed totalToolCalls tick push setTotalToolCalls]
          in Hi, Hev, Hq, He, Ht, Hcs.
        fold i in Hi, Hev, Hq, He, Hcs.
        exists (S k), c, tool, value. cbn [nth_error firstn stamp flat_map]. fold i.
        refine (conj Hnth (conj Hf (conj _ (conj Herr (conj _ (conj _ (conj _
                  (conj _ (conj _ _))))))))).
        -- rewrite <- He. f_equal. lia.
        -- rewrite Hev. unfold executionEvents at 2. unfold startEvent at 2. rewrite Ht0.
           cbn [fst snd app]. rewrite <- ?app_assoc. reflexivity.
        -- rewrite Hi. lia.
        -- rewrite Ht. lia.
        -- unfold sameSession in *. cbn in Hs. exact Hs.
        -- intros ci [<-|Hin]; [exact Hsteer|]. apply Hq. exact Hin.
        -- constructor; [exact Hc0|exact Hcs].
  - rewrite skipRemaining_spec. cbv beta iota.
    exists 1%nat. split; [cbn [List.length]; lia|]. cbv zeta.
    match goal with |- context [fold_left ?f rest ?s] =>
      pose proof (pushAll_spec rest s) as Hpa end.
    cbv zeta in Hpa. destruct Hpa as (Hp & Hi & Ht & Hs).
    cbn [firstn skipn stamp map flat_map removelast app steeringEvent].
    cbn [push pushed instant totalToolCalls].
    rewrite Hp, Hi, Ht. cbn [push pushed instant totalToolCalls tick setTotalToolCalls].
    fold i.
    refine (conj _ (conj _ (conj _ (conj _ (conj _ (conj _ (conj _ _))))))).
    * unfold realResult. rewrite Ht0. rewrite <- ?app_assoc. reflexivity.
    * unfold executionEvents, startEvent. rewrite Ht0. cbn [fst snd app].
      rewrite ?app_nil_r, <- ?app_assoc. reflexivity.
    * lia.
    * lia.
    * unfold sameSession in *. cbn in Hs. exact Hs.
    * intros ci [].
    * constructor; [exact Hc0|constructor].
    * split; [discriminate|]. replace (i + 2 * 1 - 1)%nat with (S i) by lia. symmetry. exact Hsteer.
Qed.

End ToolExecution.

Section ProviderCall.

Variable P : AgentLoopParams.

(** The provider call touches only the clock and the event stream. *)
Definition sameVars (st st' : LoopState) : Prop :=
  sameSession st st' /\ totalToolCalls st' = totalToolCalls st.

Lemma sameVars_refl st : sameVars st st.
Proof. unfold sameVars, sameSession. repeat split. Qed.

Lemma sameVars_trans st1 st2 st3 : sameVars st1 st2 -> sameVars st2 st3 -> sameVars st1 st3.
Proof.
  unfold sameVars, sameSession. intros (H1 & H1') (H2 & H2').
  repeat split; (etransitivity; [apply H2 || exact H2'|]); (apply H1 || exact H1').
Qed.

Lemma sameVars_tick st : sameVars st (tick st).
Proof. unfold sameVars, sameSession. repeat split. Qed.

Lemma sameVars_push e st : sameVars st (push e st).
Proof. unfold sameVars, sameSession. repeat split. Qed.

Lemma consume_frame evs : forall a st,
  sameVars st (snd (consume P evs a st)).
Proof.
  induction evs as [|ev rest IH]; intros a st; cbn [consume]; [apply sameVars_refl|].
  unfold isAborted. destruct (aborted P (instant st)); [apply sameVars_tick|].
  destruct ev; (eapply sameVars_trans; [|apply IH]);
    apply sameVars_tick.
Qed.

Lemma llmAttempt_frame msgs st :
  sameVars st (snd (llmAttempt P msgs st)).
Proof.
  unfold llmAttempt.
  pose proof (consume_frame (events (streamFn P (instant st) msgs)) emptyAttempt (tick st)) as H.
  destruct (consume P _ emptyAttempt (tick st)) as [a st1]. cbn [snd] in H.
  unfold isAborted. cbn [snd].
  eapply sameVars_trans; [apply sameVars_tick|].
  eapply sameVars_trans; [exact H|apply sameVars_tick].
Qed.

Lemma retryAsync_frame remaining : forall attempt msgs st,
  sameVars st (snd (retryAsync P remaining attempt msgs st)).
Proof.
  induction remaining as [|k IH]; intros attempt msgs st; cbn [retryAsync];
    pose proof (llmAttempt_frame msgs st) as H;
    destruct (llmAttempt P msgs st) as [[r a] st1]; cbn [snd] in H;
    destruct r as [|err]; cbn [snd]; try exact H.
  unfold isAborted. destruct (aborted P (instant st1)); cbn [snd].
  - eapply sameVars_trans; [exact H|apply sameVars_tick].
  - destruct (negb (Errors.isRateLimitError err)); cbn [snd].
    + eapply sameVars_trans; [exact H|apply sameVars_tick].
    + eapply sameVars_trans; [exact H|].
      eapply sameVars_trans; [apply sameVars_tick|].
      eapply sameVars_trans; [apply sameVars_push|apply IH].
Qed.

(** A rejected call reports the error of its last attempt. *)
Lemma injectPending_vars st :
  let st' := injectPending P st in
  turns st' = turns st /\ totalToolCalls st' = totalToolCalls st /\
  compactionSummary st' = compactionSummary st /\ finalText st' = finalText st /\
  overflowCompactionAttempted st' = overflowCompactionAttempted st /\
  pendingMessages st' = [] /\ pushed st' = pushed st /\
  currentMessages st' = currentMessages st ++ pendingMessages st.
Proof.
  unfold injectPending.
  cbn [setPendingMessages turns totalToolCalls compactionSummary finalText
       overflowCompactionAttempted pendingMessages pushed currentMessages].
  generalize (pendingMessages st) as l. intros l. revert st.
  induction l as [|m l IH]; intros st; cbn [fold_left].
  - rewrite app_nil_r. repeat split.
  - destruct (IH (record P m st)) as (H1 & H2 & H3 & H4 & H5 & _ & H7 & H8).
    rewrite H1, H2, H3, H4, H5, H7, H8.
    cbn. rewrite <- app_assoc. repeat split.
Qed.

End ProviderCall.

Section TurnProperties.

Variable estimateMessageChars : Message -> Z.
Variable P : AgentLoopParams.

(** The state in which a pass through the loop body calls the
    provider, and what it sends. *)
Definition entered (st : LoopState) : LoopState :=
  injectPending P (push (turn_start (turns st + 1)) (setTurns (turns st + 1) st)).

Definition messagesForModel (st : LoopState) : list Message :=
  let pruned := Pruning.messages
                  (Pruning.pruneContextMessages estimateMessageChars (currentMessages st)
                                                (contextTokens P) None) in
  match compactionSummary st with
  | Some s => s :: pruned
  | None => pruned
  end.

Definition llmCall (st : LoopState) : Settled * Attempt * LoopState :=
  retryAsync P (LLM_ATTEMPTS - 1) 1 (messagesForModel (entered st)) (entered st).

Definition assistantMessage (a : Attempt) (st1 : LoopState) : Message :=
  {| role := assistant; content := Blocks (assistantContent a);
     timestamp := now P (instant st1) |}.

Definition turnText (a : Attempt) : string := JsString.join EmptyString (turnTextParts a).

Definition messageEndEvent (a : Attempt) (st1 : LoopState) : list AgentEvent :=
  if Guard.truthy (turnText a) then [message_end (assistantMessage a st1) (turnText a)]
  else [].

Definition resultMessage (toolResults : list ContentBlock) (i : nat) : Message :=
  {| role := user; content := Blocks toolResults; timestamp := now P i |}.

(** The state in which the tool loop of a pass starts: the assistant
    message is recorded and [message_end] pushed. *)
Definition afterAssistant (a : Attempt) (st1 : LoopState) : LoopState :=
  fold_left (fun s e => push e s) (messageEndEvent a st1)
            (record P (assistantMessage a st1) st1).

(** The state of the overflow branch when [prepareCompaction] has
    settled: the flag set and [context_overflow_compact] pushed. *)
Definition flagged (errorText : string) (st1 : LoopState) : LoopState :=
  tick (push (context_overflow_compact errorText) (setOverflowCompactionAttempted true st1)).

Lemma turn_unfold h st :
  turn estimateMessageChars P h st
  = let '(r, a, st1) := llmCall st in
    match r with
    | Rejected errorText =>
        if Errors.isContextOverflowError errorText && negb (overflowCompactionAttempted st1)
        then
          match prepareCompaction P (instant st1) (currentMessages st1) with
          | PrepareFailed e => Threw e (flagged errorText st1)
          | Prepared summary summaryMessage =>
              match summaryMessage with
              | Some m =>
                  if summaryTruthy summary then
                    Continue h
                      (setTurns (turns st1 - 1)
                         (setCompactionSummary (Some m) (flagged errorText st1)))
                  else Threw errorText (flagged errorText st1)
              | None => Threw errorText (flagged errorText st1)
              end
          end
        else Threw errorText st1
    | Resolved =>
        let stB := afterAssistant a st1 in
        if Guard.isEmpty (toolCalls a) then
          Continue false
            (setPendingMessages (getSteeringMessages P (instant stB))
               (tick (push (turn_end (turns stB)) (setFinalText (turnText a) stB))))
        else
          match executeToolCalls P (toolCalls a) [] stB with
          | ToolThrew error stC => Threw error stC
          | Assembled toolResults steeringMessages stC =>
              let stD := push (turn_end (turns stC))
                              (record P (resultMessage toolResults (instant stC)) stC) in
              match steeringMessages with
              | Some s =>
                  if negb (Guard.isEmpty s) then Continue true (setPendingMessages s stD)
                  else Continue true
                         (setPendingMessages (getSteeringMessages P (instant stD)) (tick stD))
              | None =>
                  Continue true
                    (setPendingMessages (getSteeringMessages P (instant stD)) (tick stD))
              end
          end
    end.
Proof.
  unfold turn, llmCall, entered, messagesForModel, afterAssistant, flagged. cbv zeta.
  cbn [turns setTurns].
  match goal with |- context [retryAsync ?p ?n ?k ?m ?s] =>
    destruct (retryAsync p n k m s) as [[r a] st1] end.
  destruct r as [|errorText]; cbv beta iota zeta.
  - unfold messageEndEvent, turnText, assistantMessage, resultMessage, steeringNow.
    destruct (Guard.truthy _); cbn [fold_left]; reflexivity.
  - destruct (Errors.isContextOverflowError errorText && negb (overflowCompactionAttempted st1));
      [|reflexivity].
    cbn [instant currentMessages tick push setOverflowCompactionAttempted turns].
    destruct (prepareCompaction P (instant st1) (currentMessages st1)) as [s [m|]|e]; reflexivity.
Qed.


Lemma llmCall_vars st :
  let st1 := snd (llmCall st) in
  turns st1 = (turns st + 1)%Z /\
  overflowCompactionAttempted st1 = overflowCompactionAttempted st /\
  compactionSummary st1 = compactionSummary st /\
  totalToolCalls st1 = totalToolCalls st /\ finalText st1 = finalText st /\
  pendingMessages st1 = [] /\
  currentMessages st1 = currentMessages st ++ pendingMessages st /\
  log st1 = log (entered st).
Proof.
  cbv zeta. unfold llmCall.
  pose proof (retryAsync_frame P (LLM_ATTEMPTS - 1) 1 (messagesForModel (entered st))
                               (entered st)) as [Hs Ht].
  destruct Hs as (Hl & Hc & Hsum & Htu & Hf & Ho & Hp).
  rewrite Hl, Hc, Hsum, Htu, Hf, Ho, Hp, Ht.
  unfold entered.
  destruct (injectPending_vars P (push (turn_start (turns st + 1))
                                      (setTurns (turns st + 1) st)))
    as (H1 & H2 & H3 & H4 & H5 & H6 & _ & H8).
  rewrite H1, H2, H3, H4, H5, H6, H8. cbn. repeat split.
Qed.

(** C3 (amended).  Take a pass through the loop body, begun by the
    inner loop in state [st0] with [hasMoreToolCalls] true, whose
    provider call fails, retries included, with a context-overflow
    error; [st1] is the state that call leaves, its [currentMessages]
    the messages of [st0] with the pending ones injected.

    If [overflowCompactionAttempted] is false, the flag is set,
    [context_overflow_compact] is the one event pushed, and
    [prepareCompaction] is consulted on the current messages.  Only
    when it resolves to a non-empty summary and a summary message is
    that message installed as [compactionSummary] and the turn counter
    put back to its value before the pass, and the inner loop goes on
    from that state.  When it resolves without a summary, with an empty
    one, or without a summary message, the provider's error leaves the
    inner loop, and when it fails its own error does: in both cases
    nothing is installed and the turn stays counted.

    If the flag is already set, the provider's error leaves the inner
    loop from the very state the call left: no event is pushed and
    [prepareCompaction] is not consulted. *)
Theorem overflow_compacts_then_retries_once
  (fuel : nat) (st0 : LoopState) (errorText : string) (a : Attempt) (st1 : LoopState) :
  reached (turns st0) (maxTurns P) = false ->
  aborted P (instant st0) = false ->
  llmCall (tick st0) = (Rejected errorText, a, st1) ->
  Errors.isContextOverflowError errorText = true ->
  let stF := flagged errorText st1 in
  let prep := prepareCompaction P (instant st1) (currentMessages st1) in
  let leaves := fun (e : string) (st' : LoopState) =>
    turn estimateMessageChars P true (tick st0) = Threw e st' /\
    innerLoop estimateMessageChars P (S fuel) true st0 = Some (InnerThrew e st') in
  currentMessages st1 = currentMessages st0 ++ pendingMessages st0 /\
  turns st1 = (turns st0 + 1)%Z /\
  (overflowCompactionAttempted st0 = false ->
   overflowCompactionAttempted stF = true /\
   pushed stF = pushed st1 ++ [context_overflow_compact errorText] /\
   compactionSummary stF = compactionSummary st0 /\
   turns stF = (turns st0 + 1)%Z /\
   currentMessages stF = currentMessages st1 /\
   (forall s m,
       prep = Prepared (Some s) (Some m) -> s <> EmptyString ->
       exists st',
         turn estimateMessageChars P true (tick st0) = Continue true st' /\
         innerLoop estimateMessageChars P (S fuel) true st0
         = innerLoop estimateMessageChars P fuel true st' /\
         overflowCompactionAttempted st' = true /\
         pushed st' = pushed st1 ++ [context_overflow_compact errorText] /\
         compactionSummary st' = Some m /\
         turns st' = turns st0 /\
         currentMessages st' = currentMessages st0 ++ pendingMessages st0 /\
         pendingMessages st' = []) /\
   (forall s m,
       prep = Prepared s m -> s = None \/ s = Some EmptyString \/ m = None ->
       leaves errorText stF) /\
   (forall e, prep = PrepareFailed e -> leaves e stF)) /\
  (overflowCompactionAttempted st0 = true ->
   leaves errorText st1 /\ overflowCompactionAttempted st1 = true).
Proof.
  intros Hmax Hab Hcall Hover. cbv zeta.
  pose proof (llmCall_vars (tick st0)) as Hv. rewrite Hcall in Hv. cbv zeta in Hv.
  cbn [snd tick turns overflowCompactionAttempted compactionSummary totalToolCalls finalText
       pendingMessages currentMessages] in Hv.
  destruct Hv as (Ht & Ho & Hsum & Htc & Hf & Hp & Hc & Hl).
  assert (Hinner : forall r,
            turn estimateMessageChars P true (tick st0) = r ->
            innerLoop estimateMessageChars P (S fuel) true st0
            = match r with
              | Continue h st' => innerLoop estimateMessageChars P fuel h st'
              | Threw e st' => Some (InnerThrew e st')
              end).
  { intros r <-. cbn [innerLoop orb]. rewrite Hmax. unfold isAborted. rewrite Hab.
    reflexivity. }
  assert (Hleaves : forall e st',
            turn estimateMessageChars P true (tick st0) = Threw e st' ->
            turn estimateMessageChars P true (tick st0) = Threw e st' /\
            innerLoop estimateMessageChars P (S fuel) true st0 = Some (InnerThrew e st')).
  { intros e st' Hturn. split; [exact Hturn|]. rewrite (Hinner _ Hturn). reflexivity. }
  refine (conj Hc (conj Ht (conj _ _))).
  - intros Hflag.
    assert (Hu : turn estimateMessageChars P true (tick st0)
                 = match prepareCompaction P (instant st1) (currentMessages st1) with
                   | PrepareFailed e => Threw e (flagged errorText st1)
                   | Prepared summary summaryMessage =>
                       match summaryMessage with
                       | Some m =>
                           if summaryTruthy summary then
                             Continue true
                               (setTurns (turns st1 - 1)
                                  (setCompactionSummary (Some m) (flagged errorText st1)))
                           else Threw errorText (flagged errorText st1)
                       | None => Threw errorText (flagged errorText st1)
                       end
                   end).
    { rewrite turn_unfold, Hcall, Hover, Ho, Hflag. reflexivity. }
    refine (conj eq_refl (conj eq_refl (conj _ (conj _ (conj eq_refl (conj _ (conj _ _))))))).
    + cbn. exact Hsum.
    + cbn. exact Ht.
    + intros s m Hprep Hs. rewrite Hprep in Hu.
      destruct s as [|c s]; [congruence|]. cbn [summaryTruthy Guard.truthy] in Hu.
      eexists. split; [exact Hu|]. split; [rewrite (Hinner _ Hu); reflexivity|].
      cbn. repeat split; try assumption. lia.
    + intros s m Hprep Hcase. rewrite Hprep in Hu. apply Hleaves. rewrite Hu.
      destruct m as [m|]; [|reflexivity].
      destruct Hcase as [-> | [-> | Hm]]; [reflexivity|reflexivity|discriminate].
    + intros e Hprep. rewrite Hprep in Hu. apply Hleaves. exact Hu.
  - intros Hflag. split; [|rewrite Ho; exact Hflag]. apply Hleaves.
    rewrite turn_unfold, Hcall, Hover, Ho, Hflag. reflexivity.
Qed.


(** A pass whose provider call resolves with tool calls, in full: it
    ends at the next evaluation of the loop condition, the results
    recorded, or it is left by the [TypeError] of a tool that rejected
    with [undefined] or [null], the assistant message recorded and
    nothing after it. *)
Lemma turn_with_tools h st a st1 :
  llmCall st = (Resolved, a, st1) ->
  toolCalls a <> [] ->
  (exists n steer st',
    turn estimateMessageChars P h st = Continue true st' /\
    (0 < n <= List.length (toolCalls a))%nat /\
    let i := S (instant st1) in
    let ran := stamp i (firstn n (toolCalls a)) in
    let skipped := skipn n (toolCalls a) in
    let resultMsg :=
      resultMessage (map (realResult P) ran ++ map skipToolCall skipped) (i + 2 * n) in
    quiet P (removelast ran) /\
    match steer with
    | Some s => s <> [] /\ s = getSteeringMessages P (i + 2 * n - 1) /\
                pendingMessages st' = s
    | None => n = List.length (toolCalls a) /\ quiet P ran /\
              pendingMessages st' = getSteeringMessages P (i + 2 * n + 1)
    end /\
    pushed st' = pushed st1 ++ messageEndEvent a st1 ++ flat_map (executionEvents P) ran
                 ++ map skipEvent skipped ++ steeringEvent steer ++ [turn_end (turns st1)] /\
    currentMessages st' = currentMessages st1 ++ [assistantMessage a st1; resultMsg] /\
    log st' = Guard.append (now P (i + 2 * n))
                (Guard.append (now P (instant st1)) (log st1) (assistantMessage a st1))
                resultMsg /\
    totalToolCalls st' = (totalToolCalls st1 + Z.of_nat n)%Z /\
    turns st' = turns st1 /\
    overflowCompactionAttempted st' = overflowCompactionAttempted st1 /\
    compactionSummary st' = compactionSummary st1 /\
    Forall (completes P) ran) \/
  (exists k call tool value st',
    turn estimateMessageChars P h st = Threw (messageOfNullish value) st' /\
    nth_error (toolCalls a) k = Some call /\
    let i := S (instant st1) in
    let ran := stamp i (firstn k (toolCalls a)) in
    findTool P (tc_name call) = Some tool /\
    execute tool (i + 2 * k) (tc_input call) = ThrowsNullish value /\
    quiet P ran /\
    Forall (completes P) ran /\
    pushed st' = pushed st1 ++ messageEndEvent a st1 ++ flat_map (executionEvents P) ran
                 ++ [startEvent call] /\
    currentMessages st' = currentMessages st1 ++ [assistantMessage a st1] /\
    log st' = Guard.append (now P (instant st1)) (log st1) (assistantMessage a st1) /\
    totalToolCalls st' = (totalToolCalls st1 + Z.of_nat k)%Z /\
    turns st' = turns st1 /\
    overflowCompactionAttempted st' = overflowCompactionAttempted st1 /\
    compactionSummary st' = compactionSummary st1 /\
    pendingMessages st' = pendingMessages st1).
Proof.
  intros Hcall Hne. rewrite turn_unfold, Hcall. cbv zeta.
  destruct (toolCalls a) as [|c0 cs] eqn:Hcalls; [congruence|]. rewrite <- Hcalls in *.
  replace (Guard.isEmpty (toolCalls a)) with false by (rewrite Hcalls; reflexivity).
  set (stB := afterAssistant a st1).
  assert (HB : instant stB = S (instant st1) /\
               pushed stB = pushed st1 ++ messageEndEvent a st1 /\
               log stB = Guard.append (now P (instant st1)) (log st1) (assistantMessage a st1) /\
               currentMessages stB = currentMessages st1 ++ [assistantMessage a st1] /\
               totalToolCalls stB = totalToolCalls st1 /\ turns stB = turns st1 /\
               overflowCompactionAttempted stB = overflowCompactionAttempted st1 /\
               compactionSummary stB = compactionSummary st1 /\
               pendingMessages stB = pendingMessages st1).
  { unfold stB, afterAssistant, messageEndEvent. destruct (Guard.truthy (turnText a)); cbn;
      rewrite ?app_nil_r; repeat split. }
  destruct HB as (HBi & HBp & HBl & HBc & HBt & HBu & HBo & HBs & HBm).
  pose proof (executeToolCalls_spec P (toolCalls a) [] stB Hne) as Hspec.
  destruct (executeToolCalls P (toolCalls a) [] stB) as [toolResults steer stC|error stC].
  2: { right. destruct Hspec as (k & call & tool & value & Hnth & Hspec). cbv zeta in Hspec.
       destruct Hspec as (Hf & He & -> & Hev & Hi & Ht & Hs & Hq & Hcs).
       destruct Hs as (Hl & Hc & Hsum & Htu & Hfin & Ho & Hp).
       rewrite HBi in He, Hev, Hq, Hcs.
       exists k, call, tool, value, stC. split; [reflexivity|]. split; [exact Hnth|].
       cbv zeta.
       refine (conj Hf (conj He (conj Hq (conj Hcs _)))).
       rewrite Hev, Hl, Hc, Htu, Ht, Ho, Hsum, Hp, HBp, HBl, HBc, HBt, HBu, HBo, HBs, HBm,
         <- ?app_assoc.
       repeat split. }
  left. destruct Hspec as (n & Hn & Hspec). cbv zeta in Hspec.
  destruct Hspec as (Hres & Hev & Hi & Ht & Hs & Hq & Hcs & Hsteer).
  destruct Hs as (Hl & Hc & Hsum & Htu & Hf & Ho & Hp).
  rewrite HBi in Hres, Hev, Hi, Hq, Hsteer, Hcs. cbn [app] in Hres.
  exists n, steer.
  assert (Hfin : forall pend st',
            st' = setPendingMessages pend
                    (push (turn_end (turns stC))
                          (record P (resultMessage toolResults (instant stC)) stC))
            \/ st' = setPendingMessages pend
                       (tick (push (turn_end (turns stC))
                                   (record P (resultMessage toolResults (instant stC)) stC))) ->
            pendingMessages st' = pend /\
            pushed st' = pushed st1 ++ messageEndEvent a st1
                         ++ flat_map (executionEvents P) (stamp (S (instant st1))
                                                                (firstn n (toolCalls a)))
                         ++ map skipEvent (skipn n (toolCalls a)) ++ steeringEvent steer
                         ++ [turn_end (turns st1)] /\
            currentMessages st' = currentMessages st1 ++
              [assistantMessage a st1;
               resultMessage (map (realResult P) (stamp (S (instant st1))
                                                        (firstn n (toolCalls a)))
                              ++ map skipToolCall (skipn n (toolCalls a)))
                             (S (instant st1) + 2 * n)] /\
            log st' = Guard.append (now P (S (instant st1) + 2 * n))
                (Guard.append (now P (instant st1)) (log st1) (assistantMessage a st1))
                (resultMessage (map (realResult P) (stamp (S (instant st1))
                                                        (firstn n (toolCalls a)))
                              ++ map skipToolCall (skipn n (toolCalls a)))
                             (S (instant st1) + 2 * n)) /\
            totalToolCalls st' = (totalToolCalls st1 + Z.of_nat n)%Z /\
            turns st' = turns st1 /\
            overflowCompactionAttempted st' = overflowCompactionAttempted st1 /\
            compactionSummary st' = compactionSummary st1).
  { intros pend st' [-> | ->]; cbn;
      rewrite ?Hev, ?Hi, ?Hl, ?Hc, ?Htu, ?Ht, ?Ho, ?Hsum, ?HBp, ?HBl, ?HBc, ?HBt, ?HBu, ?HBo,
              ?HBs, <- ?Hres, <- ?app_assoc; cbn [app]; repeat split. }
  destruct steer as [s|].
  - destruct Hsteer as [Hs1 Hs2].
    destruct s as [|m ms]; [congruence|]. cbn [Guard.isEmpty negb].
    eexists. split; [reflexivity|]. split; [exact Hn|]. cbv zeta.
    edestruct Hfin as (F1 & F2 & F3 & F4 & F5 & F6 & F7 & F8); [left; reflexivity|].
    refine (conj Hq (conj (conj Hs1 (conj Hs2 F1)) _)).
    repeat split; assumption.
  - destruct Hsteer as [Hn1 Hq1].
    eexists. split; [reflexivity|]. split; [exact Hn|]. cbv zeta.
    edestruct Hfin as (F1 & F2 & F3 & F4 & F5 & F6 & F7 & F8); [right; reflexivity|].
    refine (conj Hq (conj (conj Hn1 (conj Hq1 _)) _)).
    + rewrite F1. cbn. rewrite Hi. f_equal. lia.
    + repeat split; assumption.
Qed.


(** A pass whose provider call resolves without tool calls. *)
Lemma turn_without_tools h st a st1 :
  llmCall st = (Resolved, a, st1) ->
  toolCalls a = [] ->
  exists st',
    turn estimateMessageChars P h st = Continue false st' /\
    pushed st' = pushed st1 ++ messageEndEvent a st1 ++ [turn_end (turns st1)] /\
    currentMessages st' = currentMessages st1 ++ [assistantMessage a st1] /\
    log st' = Guard.append (now P (instant st1)) (log st1) (assistantMessage a st1) /\
    pendingMessages st' = getSteeringMessages P (S (instant st1)) /\
    totalToolCalls st' = totalToolCalls st1 /\
    turns st' = turns st1 /\
    overflowCompactionAttempted st' = overflowCompactionAttempted st1 /\
    compactionSummary st' = compactionSummary st1.
Proof.
  intros Hcall Hnone. rewrite turn_unfold, Hcall. cbv zeta. rewrite Hnone.
  cbn [Guard.isEmpty]. eexists. split; [reflexivity|].
  unfold afterAssistant, messageEndEvent. destruct (Guard.truthy (turnText a)); cbn;
    rewrite <- ?app_assoc, ?app_nil_r; repeat split.
Qed.

Definition isToolEnd (e : AgentEvent) : bool :=
  match e with tool_execution_end _ _ _ _ => true | _ => false end.

(** The [tool_execution_end] event of a call executed at instant [i]. *)
Definition endEvent (ci : ToolCallRequest * nat) : AgentEvent :=
  tool_execution_end (tc_id (fst ci)) (tc_name (fst ci))
                     (preview (resultText P ci))
                     (isNone (findTool P (tc_name (fst ci)))).

Lemma toolEnds_executionEvents ran :
  filter isToolEnd (flat_map (executionEvents P) ran) = map endEvent ran.
Proof.
  induction ran as [|ci ran IH]; [reflexivity|].
  cbn [flat_map map]. unfold executionEvents at 1. cbn [app filter isToolEnd].
  rewrite IH. reflexivity.
Qed.

Lemma toolEnds_skipEvents l : filter isToolEnd (map skipEvent l) = [].
Proof. induction l as [|c l IH]; [reflexivity|]. cbn. exact IH. Qed.

Lemma toolEnds_messageEnd a st1 : filter isToolEnd (messageEndEvent a st1) = [].
Proof. unfold messageEndEvent. destruct (Guard.truthy (turnText a)); reflexivity. Qed.

Lemma toolEnds_steering steer : filter isToolEnd (steeringEvent steer) = [].
Proof. destruct steer; reflexivity. Qed.

Lemma findTool_none toolName :
  isNone (findTool P toolName) = true <->
  forall t, In t (toolsForRun P) -> name t <> toolName.
Proof.
  unfold findTool. induction (toolsForRun P) as [|t ts IH]; cbn [find].
  - split; [intros _ t []|reflexivity].
  - destruct (String.eqb_spec (name t) toolName) as [Heq|Hneq]; cbn [isNone].
    + split; [discriminate|]. intros H. exfalso. apply (H t); [left; reflexivity|exact Heq].
    + rewrite IH. split.
      * intros H t' [<-|Hin]; [exact Hneq|apply H; exact Hin].
      * intros H t' Hin. apply H. right. exact Hin.
Qed.


(** The tool loop of a pass whose provider call resolves with a
    non-empty list of tool calls, whichever way it ends.

    Unless a tool rejects with [undefined] or [null]: a non-empty
    prefix of the calls is executed, one after the other in the order
    of the list, and no steering message is queued after any executed
    call but the last.  The result of an executed call is what its
    tool returned, [Execution error: ] followed by the message when
    the tool threw, and [Unknown tool: ] followed by the name when no
    tool has the name.  If steering messages are queued after the last
    executed call, every remaining call gets a [tool_skipped] event and
    a result block with the fixed skip text, one [steering] event
    follows, and the drained messages are the next pass's
    [pendingMessages]; otherwise every call was executed.  All result
    blocks, real ones first, make up the single user message the pass
    appends after the assistant message.

    When the tool of the call at index [k] rejects with [undefined] or
    [null]: the [k] calls before it were executed in order with no
    steering queued after any; the pass is left by a [TypeError], and
    of its messages only the assistant message is recorded: the result
    blocks of the executed calls are in no message. *)
Lemma tool_calls_serial_until_steering
  (h : bool) (st : LoopState) (a : Attempt) (st1 : LoopState) :
  llmCall st = (Resolved, a, st1) ->
  toolCalls a <> [] ->
  let i := S (instant st1) in
  let resultOf := fun ci : ToolCallRequest * nat =>
    match findTool P (tc_name (fst ci)) with
    | None => resultText P ci = "Unknown tool: " +++ tc_name (fst ci)
    | Some tool =>
        match execute tool (snd ci) (tc_input (fst ci)) with
        | Returns output => resultText P ci = output
        | Throws message => resultText P ci = "Execution error: " +++ message
        | ThrowsNullish _ => False
        end
    end in
  (exists n steer st',
    turn estimateMessageChars P h st = Continue true st' /\
    (0 < n <= List.length (toolCalls a))%nat /\
    let ran := stamp i (firstn n (toolCalls a)) in
    let skipped := skipn n (toolCalls a) in
    let resultMsg :=
      {| role := user;
         content := Blocks (map (fun ci => tool_result (tc_id (fst ci)) (Some (tc_name (fst ci)))
                                                       (resultText P ci)) ran
                            ++ map skipToolCall skipped);
         timestamp := now P (i + 2 * n) |} in
    quiet P (removelast ran) /\
    (forall ci, In ci ran -> resultOf ci) /\
    match steer with
    | Some s => s <> [] /\ s = getSteeringMessages P (i + 2 * n - 1) /\
                pendingMessages st' = s
    | None => skipped = [] /\ quiet P ran /\
              pendingMessages st' = getSteeringMessages P (i + 2 * n + 1)
    end /\
    pushed st' = pushed st1 ++ messageEndEvent a st1 ++ flat_map (executionEvents P) ran
                 ++ map skipEvent skipped ++ steeringEvent steer ++ [turn_end (turns st1)] /\
    (forall c, In c skipped ->
               skipToolCall c
               = tool_result (tc_id c) (Some (tc_name c))
                             "Skipped due to queued user message.") /\
    currentMessages st' = currentMessages st1 ++ [assistantMessage a st1; resultMsg] /\
    log st' = Guard.append (now P (i + 2 * n))
                (Guard.append (now P (instant st1)) (log st1) (assistantMessage a st1))
                resultMsg) \/
  (exists k call tool value st',
    turn estimateMessageChars P h st = Threw (messageOfNullish value) st' /\
    nth_error (toolCalls a) k = Some call /\
    findTool P (tc_name call) = Some tool /\
    execute tool (i + 2 * k) (tc_input call) = ThrowsNullish value /\
    let ran := stamp i (firstn k (toolCalls a)) in
    quiet P ran /\
    (forall ci, In ci ran -> resultOf ci) /\
    pushed st' = pushed st1 ++ messageEndEvent a st1 ++ flat_map (executionEvents P) ran
                 ++ [startEvent call] /\
    currentMessages st' = currentMessages st1 ++ [assistantMessage a st1] /\
    log st' = Guard.append (now P (instant st1)) (log st1) (assistantMessage a st1)).
Proof.
  intros Hcall Hne. cbv zeta.
  assert (Hres : forall ran, Forall (completes P) ran ->
            forall ci, In ci ran ->
              match findTool P (tc_name (fst ci)) with
              | None => resultText P ci = "Unknown tool: " +++ tc_name (fst ci)
              | Some tool =>
                  match execute tool (snd ci) (tc_input (fst ci)) with
                  | Returns output => resultText P ci = output
                  | Throws message => resultText P ci = "Execution error: " +++ message
                  | ThrowsNullish _ => False
                  end
              end).
  { intros ran Hall ci Hin. rewrite Forall_forall in Hall.
    apply resultText_spec, Hall, Hin. }
  destruct (turn_with_tools h st a st1 Hcall Hne)
    as [(n & steer & st' & Hturn & Hn & Hq & Hsteer & Hev & Hcur & Hlog & _ & _ & _ & _ & Hcs)
       |(k & call & tool & value & st' & Hturn & Hnth & Hf & He & Hq & Hcs & Hev & Hcur
         & Hlog & _)].
  - left. exists n, steer, st'. cbv zeta in *. unfold resultMessage, realResult in *.
    refine (conj Hturn (conj Hn (conj Hq (conj (Hres _ Hcs)
              (conj _ (conj Hev (conj _ (conj Hcur Hlog)))))))).
    + destruct steer as [s|]; [exact Hsteer|].
      destruct Hsteer as (Hn1 & Hq1 & Hp). subst n. rewrite skipn_all. auto.
    + intros c _. reflexivity.
  - right. exists k, call, tool, value, st'. cbv zeta in *.
    refine (conj Hturn (conj Hnth (conj Hf (conj He (conj Hq (conj (Hres _ Hcs)
              (conj Hev (conj Hcur Hlog)))))))).
Qed.

(** The [tool_execution_end] events of a pass whose provider call
    resolves, whichever way the pass ends: they are those of the
    executed calls, in order.  The event of a call carries
    [isError = true] exactly when no tool of the run has the call's
    name; if the tool is found and its [execute] throws a value with a
    message, the result carries [Execution error: ] followed by the
    message and the event [isError = false].  The pass then ends as any
    other, every result in the user message it records, unless a tool
    rejects with [undefined] or [null]: that call gets no
    [tool_execution_end], and the [TypeError] leaves the loop. *)
Lemma tool_execution_end_isError
  (h : bool) (st : LoopState) (a : Attempt) (st1 : LoopState) :
  llmCall st = (Resolved, a, st1) ->
  exists n,
    let ran := stamp (S (instant st1)) (firstn n (toolCalls a)) in
    let st' := match turn estimateMessageChars P h st with
               | Continue _ st' => st'
               | Threw _ st' => st'
               end in
    filter isToolEnd (pushed st') = filter isToolEnd (pushed st1) ++ map endEvent ran /\
    (forall ci, In ci ran ->
      let call := fst ci in
      exists result isError,
        endEvent ci = tool_execution_end (tc_id call) (tc_name call) (preview result) isError /\
        (isError = true <->
         forall t, In t (toolsForRun P) -> name t <> tc_name call) /\
        forall t message,
          findTool P (tc_name call) = Some t ->
          execute t (snd ci) (tc_input call) = Throws message ->
          result = "Execution error: " +++ message /\ isError = false) /\
    match turn estimateMessageChars P h st with
    | Continue _ st' =>
        forall ci, In ci ran ->
          exists u blocks,
            In u (currentMessages st') /\ role u = user /\ content u = Blocks blocks /\
            In (tool_result (tc_id (fst ci)) (Some (tc_name (fst ci))) (resultText P ci)) blocks
    | Threw error _ =>
        exists call tool value,
          nth_error (toolCalls a) n = Some call /\
          findTool P (tc_name call) = Some tool /\
          execute tool (S (instant st1) + 2 * n) (tc_input call) = ThrowsNullish value /\
          error = messageOfNullish value
    end.
Proof.
  intros Hcall.
  assert (Hend : forall ran ci, In ci ran ->
            exists result isError,
              endEvent ci = tool_execution_end (tc_id (fst ci)) (tc_name (fst ci))
                                               (preview result) isError /\
              (isError = true <->
               forall t, In t (toolsForRun P) -> name t <> tc_name (fst ci)) /\
              forall t message,
                findTool P (tc_name (fst ci)) = Some t ->
                execute t (snd ci) (tc_input (fst ci)) = Throws message ->
                result = "Execution error: " +++ message /\ isError = false).
  { intros ran ci _.
    exists (resultText P ci), (isNone (findTool P (tc_name (fst ci)))).
    split; [reflexivity|]. split; [apply findTool_none|].
    intros t message Hfind Hthrow. unfold resultText, invokeTool. rewrite Hfind, Hthrow.
    split; reflexivity. }
  destruct (toolCalls a) as [|c0 cs] eqn:Hcalls.
  - destruct (turn_without_tools h st a st1 Hcall Hcalls) as (st' & Hturn & Hev & _).
    exists 0%nat. rewrite Hturn. cbv zeta. cbn [firstn stamp map].
    split; [|split; intros ci []].
    rewrite Hev, !filter_app, toolEnds_messageEnd. cbn. reflexivity.
  - assert (Hne : toolCalls a <> []) by (rewrite Hcalls; discriminate).
    rewrite <- Hcalls.
    destruct (turn_with_tools h st a st1 Hcall Hne)
      as [(n & steer & st' & Hturn & Hn & Hq & Hsteer & Hev & Hcur & _)
         |(k & call & tool & value & st' & Hturn & Hnth & Hf & He & Hq & Hcs & Hev & _)].
    + exists n. rewrite Hturn. cbv zeta in *. split; [|split; [apply Hend|]].
      * rewrite Hev, !filter_app, toolEnds_messageEnd, toolEnds_executionEvents,
          toolEnds_skipEvents, toolEnds_steering. cbn. rewrite app_nil_r. reflexivity.
      * intros ci Hin. eexists. eexists.
        split; [rewrite Hcur; apply in_or_app; right; right; left; reflexivity|].
        split; [reflexivity|]. split; [reflexivity|].
        apply in_or_app. left. apply (in_map (realResult P) _ _ Hin).
    + exists k. rewrite Hturn. cbv zeta in *. split; [|split; [apply Hend|]].
      * rewrite Hev, !filter_app, toolEnds_messageEnd, toolEnds_executionEvents.
        cbn. rewrite app_nil_r. reflexivity.
      * exists call, tool, value. auto.
Qed.

End TurnProperties.

Section GuardProperties.

(** A user message with string content: what the agent queues as
    steering. *)
Definition plain (m : Message) : bool :=
  match role m, content m with
  | user, Str _ => true
  | _, _ => false
  end.

Lemma answered_app id l1 l2 :
  Guard.answered id l1 = true -> Guard.answered id (l1 ++ l2) = true.
Proof. unfold Guard.answered. rewrite existsb_app. intros ->. reflexivity. Qed.

Lemma answered_app_r id l1 l2 :
  Guard.answered id l2 = true -> Guard.answered id (l1 ++ l2) = true.
Proof. unfold Guard.answered. rewrite existsb_app. intros ->. apply orb_true_r. Qed.

Lemma paired_app l1 l2 :
  Guard.paired l1 = true -> Guard.paired l2 = true -> Guard.paired (l1 ++ l2) = true.
Proof.
  intros H1 H2. induction l1 as [|a l1 IH]; [exact H2|].
  cbn [app Guard.paired] in *. apply andb_true_iff in H1 as [Ha Hl].
  apply andb_true_iff. split; [|apply IH; exact Hl].
  rewrite forallb_forall in *. intros id Hin. apply answered_app. apply Ha. exact Hin.
Qed.

Lemma plain_toolUseIds m : plain m = true -> Guard.toolUseIds m = [].
Proof. unfold plain, Guard.toolUseIds. destruct (role m), (content m); congruence. Qed.

Lemma paired_plain l : forallb plain l = true -> Guard.paired l = true.
Proof.
  induction l as [|m l IH]; [reflexivity|]. cbn [forallb Guard.paired].
  intros H. apply andb_true_iff in H as [Hm Hl]. rewrite (plain_toolUseIds m Hm).
  cbn [forallb andb]. apply IH. exact Hl.
Qed.

Lemma append_plain t s m :
  Guard.pending s = [] -> plain m = true ->
  Guard.append t s m = {| Guard.transcript := Guard.transcript s ++ [m]; Guard.pending := [] |}.
Proof.
  intros Hp Hm. destruct s as [T p]. cbn [Guard.pending] in Hp. subst p.
  unfold Guard.append, Guard.extractToolResultIds,
    Guard.extractToolUsesFromAssistant, plain in *.
  destruct (role m), (content m); try congruence; reflexivity.
Qed.

(** What the flush appends: nothing when nothing is pending, else one
    user message with one synthetic result per pending id. *)
Lemma flush_spec t s :
  Guard.flushPendingToolResults t s
  = match Guard.pending s with
    | [] => s
    | _ :: _ =>
        {| Guard.transcript :=
             Guard.transcript s ++
             [{| role := user;
                 content := Blocks (map (fun kv => tool_result (fst kv) (snd kv)
                                                               Guard.MISSING_TOOL_RESULT)
                                        (Guard.pending s));
                 timestamp := t |}];
           Guard.pending := [] |}
    end.
Proof. unfold Guard.flushPendingToolResults. destruct (Guard.pending s); reflexivity. Qed.

Lemma existsb_eqb_in id ids : existsb (String.eqb id) ids = true <-> In id ids.
Proof.
  rewrite existsb_exists. split.
  - intros (x & Hin & Heq). apply String.eqb_eq in Heq. subst. exact Hin.
  - intros Hin. exists id. split; [exact Hin|apply String.eqb_refl].
Qed.

Lemma flush_answers t s :
  exists added,
    Guard.transcript (Guard.flushPendingToolResults t s) = Guard.transcript s ++ added /\
    Guard.pending (Guard.flushPendingToolResults t s) = [] /\
    Guard.paired added = true /\
    forall id, In id (Guard.getPendingIds s) -> Guard.answered id added = true.
Proof.
  rewrite flush_spec. unfold Guard.getPendingIds.
  destruct (Guard.pending s) as [|kv p] eqn:Hp.
  - exists []. rewrite app_nil_r. repeat split; auto; intros id [].
  - eexists. split; [reflexivity|]. split; [reflexivity|]. split; [reflexivity|].
    intros id Hin. unfold Guard.answered. cbn [existsb]. rewrite orb_false_r.
    apply existsb_eqb_in. unfold Guard.toolResultIds. cbn [role content].
    generalize dependent (kv :: p). intros l _ Hin. clear -Hin.
    induction l as [|x l IH]; [destruct Hin|].
    cbn [map flat_map app]. destruct Hin as [<-|Hin]; [left; reflexivity|right; apply IH; exact Hin].
Qed.

(** Appending a plain message to any log: the pending ids are flushed
    first. *)
Lemma append_plain_any t s m :
  plain m = true ->
  exists added,
    Guard.transcript (Guard.append t s m) = Guard.transcript s ++ added /\
    Guard.pending (Guard.append t s m) = [] /\
    Guard.paired added = true /\
    forall id, In id (Guard.getPendingIds s) -> Guard.answered id added = true.
Proof.
  intros Hm.
  assert (Hr : Guard.extractToolResultIds m = [])
    by (unfold Guard.extractToolResultIds, plain in *; destruct (role m), (content m); congruence).
  assert (Hu : Guard.extractToolUsesFromAssistant m = [])
    by (unfold Guard.extractToolUsesFromAssistant, plain in *;
        destruct (role m), (content m); congruence).
  unfold Guard.append. rewrite Hr, Hu. cbn [Guard.isEmpty negb andb fold_left].
  rewrite andb_true_r, andb_false_r.
  destruct (flush_answers t s) as (added & Ht & Hp & Hpair & Hans).
  destruct (Guard.pending s) as [|kv p] eqn:Hpend; cbn [Guard.isEmpty negb].
  - exists [m]. cbn. rewrite Hpend. repeat split.
    + cbn. rewrite (plain_toolUseIds m Hm). reflexivity.
    + unfold Guard.getPendingIds. rewrite Hpend. intros id [].
  - exists (added ++ [m]). cbn [Guard.originalAppend Guard.transcript Guard.pending].
    rewrite Ht, Hp, <- app_assoc. repeat split.
    + apply paired_app; [exact Hpair|]. cbn. rewrite (plain_toolUseIds m Hm). reflexivity.
    + intros id Hin. apply answered_app. apply Hans. exact Hin.
Qed.

(** An assistant message whose call gets no result: the flush appends
    the synthetic one. *)
Example flush_synthesizes_missing_result :
  Guard.flushPendingToolResults
    5 (Guard.append 1 {| Guard.transcript := []; Guard.pending := [] |}
         {| role := assistant; content := Blocks [tool_use "t1" "read" []]; timestamp := 1 |})
  = {| Guard.transcript :=
         [{| role := assistant; content := Blocks [tool_use "t1" "read" []]; timestamp := 1 |};
          {| role := user;
             content := Blocks [tool_result "t1" (Some "read") Guard.MISSING_TOOL_RESULT];
             timestamp := 5 |}];
       Guard.pending := [] |}.
Proof. reflexivity. Qed.

End GuardProperties.

Section PairingProperties.

Variable P : AgentLoopParams.

(** The tool calls a sequence of blocks carries. *)
Definition toolUses (bs : list ContentBlock) : list ToolCallRequest :=
  flat_map (fun b => match b with
                     | tool_use id nm input =>
                         [{| tc_id := id; tc_name := nm; tc_input := input |}]
                     | _ => []
                     end) bs.

(** The blocks and the calls of an attempt agree. *)
Definition coherent (a : Attempt) : Prop := toolUses (assistantContent a) = toolCalls a.

Lemma toolUses_app l1 l2 : toolUses (l1 ++ l2) = toolUses l1 ++ toolUses l2.
Proof. unfold toolUses. apply flat_map_app. Qed.

Lemma consume_coherent evs : forall a st,
  coherent a -> coherent (fst (consume P evs a st)).
Proof.
  induction evs as [|ev rest IH]; intros a st Ha; cbn [consume]; [exact Ha|].
  unfold isAborted. destruct (aborted P (instant st)); [exact Ha|].
  destruct ev; apply IH; unfold coherent in *; cbn [assistantContent toolCalls];
    rewrite ?toolUses_app, ?Ha; try reflexivity.
  - cbn. apply app_nil_r.
  - destruct toolCall. reflexivity.
Qed.

Lemma llmAttempt_coherent msgs st : coherent (snd (fst (llmAttempt P msgs st))).
Proof.
  unfold llmAttempt.
  pose proof (consume_coherent (events (streamFn P (instant st) msgs)) emptyAttempt (tick st))
    as H.
  destruct (consume P _ emptyAttempt (tick st)) as [a st1]. cbn [fst snd] in *.
  apply H. reflexivity.
Qed.

Lemma retryAsync_coherent remaining : forall attempt msgs st,
  coherent (snd (fst (retryAsync P remaining attempt msgs st))).
Proof.
  induction remaining as [|k IH]; intros attempt msgs st; cbn [retryAsync];
    pose proof (llmAttempt_coherent msgs st) as H;
    destruct (llmAttempt P msgs st) as [[r a] st1]; cbn [fst snd] in H;
    destruct r as [|err]; cbn [fst snd]; try exact H.
  unfold isAborted. destruct (aborted P (instant st1)); cbn [fst snd]; [exact H|].
  destruct (negb (Errors.isRateLimitError err)); cbn [fst snd]; [exact H|apply IH].
Qed.

Definition resultIds (bs : list ContentBlock) : list string :=
  flat_map (fun b => match b with tool_result id _ _ => [id] | _ => [] end) bs.

Lemma stamp_fst l : forall i, map fst (stamp i l) = l.
Proof. induction l as [|c l IH]; intros i; cbn; [reflexivity|]. rewrite IH. reflexivity. Qed.

Lemma resultIds_blocks ran skipped :
  resultIds (map (realResult P) ran ++ map skipToolCall skipped)
  = map tc_id (map fst ran ++ skipped).
Proof.
  unfold resultIds. rewrite flat_map_app, map_app. f_equal.
  - induction ran as [|ci ran IH]; [reflexivity|]. cbn. rewrite IH. reflexivity.
  - induction skipped as [|c l IH]; [reflexivity|]. cbn. rewrite IH. reflexivity.
Qed.

Lemma extract_assistant bs t :
  map fst (Guard.extractToolUsesFromAssistant
             {| role := assistant; content := Blocks bs; timestamp := t |})
  = filter Guard.truthy (map tc_id (toolUses bs)).
Proof.
  unfold Guard.extractToolUsesFromAssistant. cbn [role content].
  induction bs as [|b bs IH]; [reflexivity|].
  cbn [flat_map]. rewrite map_app, IH. destruct b; try reflexivity.
  cbn [toolUses flat_map app map tc_id filter]. destruct (Guard.truthy id); reflexivity.
Qed.

Lemma extract_results bs t :
  Guard.extractToolResultIds {| role := user; content := Blocks bs; timestamp := t |}
  = filter Guard.truthy (resultIds bs).
Proof.
  unfold Guard.extractToolResultIds, resultIds. cbn [role content].
  induction bs as [|b bs IH]; [reflexivity|].
  cbn [flat_map]. rewrite IH. destruct b; try reflexivity.
  cbn [app filter]. destruct (Guard.truthy tool_use_id); reflexivity.
Qed.

Lemma toolUseIds_assistant bs t :
  Guard.toolUseIds {| role := assistant; content := Blocks bs; timestamp := t |}
  = map tc_id (toolUses bs).
Proof.
  unfold Guard.toolUseIds, toolUses. cbn [role content].
  induction bs as [|b bs IH]; [reflexivity|].
  cbn [flat_map]. rewrite map_app, IH. destruct b; reflexivity.
Qed.

Lemma pendingSet_keys id nm p k :
  In k (map fst (Guard.pendingSet id nm p)) -> k = id \/ In k (map fst p).
Proof.
  induction p as [|[k0 v0] p IH]; cbn [Guard.pendingSet map fst In].
  - intros [<-|[]]. left. reflexivity.
  - destruct (String.eqb_spec k0 id) as [->|Hneq]; cbn [map fst In].
    + intros [<-|Hin]; auto.
    + intros [<-|Hin]; auto. destruct (IH Hin); auto.
Qed.

Lemma fold_set_keys calls : forall p k,
  In k (map fst (fold_left (fun p c => Guard.pendingSet (fst c) (snd c) p) calls p)) ->
  In k (map fst p) \/ In k (map fst calls).
Proof.
  induction calls as [|c calls IH]; intros p k; cbn [fold_left map In]; [auto|].
  intros H. destruct (IH _ _ H) as [H1|H1]; [|auto].
  destruct (pendingSet_keys _ _ _ _ H1) as [->|H2]; auto.
Qed.

Lemma deleteAll ids : forall p,
  (forall k, In k (map fst p) -> In k ids) ->
  fold_left (fun p id => Guard.pendingDelete id p) ids p = [].
Proof.
  induction ids as [|id ids IH]; intros p Hk; cbn [fold_left].
  - destruct p as [|[k v] p]; [reflexivity|]. destruct (Hk k). left. reflexivity.
  - apply IH. intros k Hin. unfold Guard.pendingDelete in Hin.
    rewrite in_map_iff in Hin. destruct Hin as ([k' v'] & <- & Hin).
    apply filter_In in Hin as [Hin Hneq]. cbn [fst] in *.
    destruct (Hk k') as [<-|H]; [apply in_map_iff; exists (k', v'); auto| |exact H].
    rewrite String.eqb_refl in Hneq. discriminate.
Qed.

(** An assistant message appended to a log with nothing pending,
    followed by a user message that answers each of its calls, leaves
    nothing pending. *)
Lemma append_call_and_results t1 t2 s bs results ts1 ts2 :
  Guard.pending s = [] ->
  resultIds results = map tc_id (toolUses bs) ->
  let am := {| role := assistant; content := Blocks bs; timestamp := ts1 |} in
  let rm := {| role := user; content := Blocks results; timestamp := ts2 |} in
  Guard.append t2 (Guard.append t1 s am) rm
  = {| Guard.transcript := Guard.transcript s ++ [am; rm]; Guard.pending := [] |} /\
  Guard.paired [am; rm] = true.
Proof.
  intros Hp Hids am rm. destruct s as [T p]. cbn [Guard.pending Guard.transcript] in *. subst p.
  split.
  - assert (H1 : Guard.append t1 {| Guard.transcript := T; Guard.pending := [] |} am
                 = {| Guard.transcript := T ++ [am];
                      Guard.pending :=
                        fold_left (fun p c => Guard.pendingSet (fst c) (snd c) p)
                                  (Guard.extractToolUsesFromAssistant am) [] |}).
    { unfold Guard.append. replace (Guard.extractToolResultIds am) with (@nil string)
        by reflexivity. reflexivity. }
    assert (Hr : Guard.extractToolResultIds rm
                 = filter Guard.truthy (map tc_id (toolUses bs)))
      by (unfold rm; rewrite extract_results, Hids; reflexivity).
    rewrite H1. unfold Guard.append. cbv zeta. rewrite !Hr.
    pose proof (extract_assistant bs ts1) as He. fold am in He.
    destruct (filter Guard.truthy (map tc_id (toolUses bs))) as [|k ks] eqn:Hf;
      cbn [Guard.isEmpty negb].
    + destruct (Guard.extractToolUsesFromAssistant am); [|discriminate].
      cbn. rewrite <- app_assoc. reflexivity.
    + unfold Guard.originalAppend. cbn [Guard.transcript Guard.pending].
      rewrite <- app_assoc. f_equal. apply deleteAll. intros k' Hin.
      apply fold_set_keys in Hin as [[]|Hin]. rewrite He in Hin. exact Hin.
  - cbn [Guard.paired]. rewrite andb_true_r.
    unfold am. rewrite toolUseIds_assistant. apply forallb_forall. intros id Hin.
    unfold Guard.answered. cbn [existsb]. rewrite orb_false_r.
    apply existsb_eqb_in. unfold Guard.toolResultIds, rm. cbn [role content].
    fold (resultIds results). rewrite Hids. exact Hin.
Qed.

(** An assistant message without tool calls leaves nothing pending. *)
Lemma append_without_calls t s bs ts :
  Guard.pending s = [] -> toolUses bs = [] ->
  let am := {| role := assistant; content := Blocks bs; timestamp := ts |} in
  Guard.append t s am
  = {| Guard.transcript := Guard.transcript s ++ [am]; Guard.pending := [] |} /\
  Guard.paired [am] = true.
Proof.
  intros Hp Hnone am. destruct s as [T p]. cbn [Guard.pending Guard.transcript] in *. subst p.
  pose proof (extract_assistant bs ts) as He. fold am in He. rewrite Hnone in He.
  split.
  - unfold Guard.append. replace (Guard.extractToolResultIds am) with (@nil string)
      by reflexivity.
    destruct (Guard.extractToolUsesFromAssistant am); [reflexivity|discriminate].
  - cbn [Guard.paired]. unfold am. rewrite toolUseIds_assistant, Hnone. reflexivity.
Qed.

End PairingProperties.

Section LoopTermination.

Variable estimateMessageChars : Message -> Z.
Variable P : AgentLoopParams.

(** A [maxTurns] that bounds the loop: [-Infinity], or a finite number
    up to 2^53, the integers a counter reaches by [turns++].  With
    [NaN] or [Infinity] the test [turns >= maxTurns] is never true. *)
Definition bounded (m : JsNumber) : bool :=
  match m with
  | Finite q => Qle_bool q (inject_Z (2 ^ 53))
  | NegInfinity => true
  | NaN => false
  | Infinity => false
  end.

(** The turns that may still begin when [t] have begun. *)
Definition turnsLeft (m : JsNumber) (t : Z) : nat :=
  match m with
  | Finite q => Z.to_nat (Qceiling q - t)
  | _ => 0
  end.

(** The passes through the loop body still possible: the turns left,
    and one more while the overflow retry is unused. *)
Definition budget (st : LoopState) : nat :=
  (turnsLeft (maxTurns P) (turns st) + if overflowCompactionAttempted st then 0 else 1)%nat.

Lemma below_ceiling q t : Qle_bool q (inject_Z t) = false -> (t < Qceiling q)%Z.
Proof.
  intros H. rewrite Zlt_Qlt. apply Qlt_le_trans with q; [|apply Qle_ceiling].
  apply Qnot_le_lt. intros Hle. apply Qle_bool_iff in Hle. congruence.
Qed.

Lemma turnsLeft_step m t :
  bounded m = true -> reached t m = false ->
  turnsLeft m t = S (turnsLeft m (t + 1)).
Proof.
  destruct m as [q| | |]; cbn [bounded reached turnsLeft]; try discriminate.
  intros _ H. apply below_ceiling in H. lia.
Qed.

Lemma turn_budget h st h' st' :
  bounded (maxTurns P) = true ->
  reached (turns st) (maxTurns P) = false ->
  turn estimateMessageChars P h st = Continue h' st' ->
  (budget st' < budget st)%nat.
Proof.
  intros Hb Hlt Hturn. pose proof (turnsLeft_step _ _ Hb Hlt) as Hstep.
  pose proof (llmCall_vars estimateMessageChars P st) as Hv.
  destruct (llmCall estimateMessageChars P st) as [[r a] st1] eqn:Hcall.
  cbv zeta in Hv. cbn [snd] in Hv. destruct Hv as (Ht & Ho & _).
  destruct r as [|errorText].
  - destruct (toolCalls a) as [|c0 cs] eqn:Hcalls.
    + destruct (turn_without_tools estimateMessageChars P h st a st1 Hcall Hcalls)
        as (st2 & Hturn2 & _ & _ & _ & _ & _ & Ht2 & Ho2 & _).
      rewrite Hturn2 in Hturn. injection Hturn as _ <-.
      unfold budget. rewrite Ht2, Ho2, Ht, Ho, Hstep. lia.
    + assert (Hne : toolCalls a <> []) by (rewrite Hcalls; discriminate).
      destruct (turn_with_tools estimateMessageChars P h st a st1 Hcall Hne)
        as [(n & steer & st2 & Hturn2 & _ & _ & _ & _ & _ & _ & _ & Ht2 & Ho2 & _)
           |(k & call & tool & value & st2 & Hturn2 & _)];
        rewrite Hturn2 in Hturn; [|discriminate].
      injection Hturn as _ <-.
      unfold budget. rewrite Ht2, Ho2, Ht, Ho, Hstep. lia.
  - rewrite turn_unfold, Hcall in Hturn.
    destruct (Errors.isContextOverflowError errorText) ; cbn [andb] in Hturn; [|discriminate].
    destruct (overflowCompactionAttempted st1) eqn:Hflag; cbn [negb] in Hturn; [discriminate|].
    destruct (prepareCompaction P (instant st1) (currentMessages st1)) as [s [m|]|e];
      try discriminate.
    destruct (summaryTruthy s); [|discriminate].
    injection Hturn as _ <-. unfold budget, flagged.
    cbn [turns overflowCompactionAttempted setTurns setCompactionSummary tick push
         setOverflowCompactionAttempted].
    rewrite <- Ho, Ht.
    replace (turns st + 1 - 1)%Z with (turns st) by lia. lia.
Qed.

(** More fuel does not change what a loop returns. *)
Lemma innerLoop_mono fuel : forall fuel' h st r,
  (fuel <= fuel')%nat ->
  innerLoop estimateMessageChars P fuel h st = Some r ->
  innerLoop estimateMessageChars P fuel' h st = Some r.
Proof.
  induction fuel as [|fuel IH]; intros fuel' h st r Hle; destruct fuel' as [|fuel'];
    try lia; cbn [innerLoop];
    destruct (h || negb (Guard.isEmpty (pendingMessages st))); try (intros H; exact H);
    destruct (reached (turns st) (maxTurns P)); try (intros H; exact H);
    unfold isAborted; destruct (aborted P (instant st)); try (intros H; exact H);
    try discriminate.
  destruct (turn estimateMessageChars P h (tick st)) as [h' st'|e st']; [|intros H; exact H].
  apply IH. lia.
Qed.

Lemma outerLoop_mono fuel : forall fuel' st r,
  (fuel <= fuel')%nat ->
  outerLoop estimateMessageChars P fuel st = Some r ->
  outerLoop estimateMessageChars P fuel' st = Some r.
Proof.
  induction fuel as [|fuel IH]; intros fuel' st r Hle; destruct fuel' as [|fuel'];
    try lia; cbn [outerLoop];
    match goal with |- context [innerLoop _ _ ?f true st] =>
      destruct (innerLoop estimateMessageChars P f true st) as [ri|] eqn:Hi end;
    try discriminate;
    try (rewrite (innerLoop_mono _ _ _ _ _ Hle Hi));
    destruct ri as [st1|st1|e st1]; try (intros H; exact H);
    destruct (getFollowUpMessages P) as [f|]; try (intros H; exact H);
    destruct (negb (Guard.isEmpty (f (instant st1)))); try (intros H; exact H);
    try discriminate.
  apply IH. lia.
Qed.

Lemma runAgentLoop_mono fuel fuel' log0 start st :
  (fuel <= fuel')%nat ->
  runAgentLoop estimateMessageChars P fuel log0 start = Some st ->
  runAgentLoop estimateMessageChars P fuel' log0 start = Some st.
Proof.
  intros Hle. unfold runAgentLoop, steeringNow.
  match goal with |- context [outerLoop _ _ fuel ?s] =>
    destruct (outerLoop estimateMessageChars P fuel s) as [r|] eqn:Ho end; [|discriminate].
  rewrite (outerLoop_mono _ _ _ _ Hle Ho). intros H. exact H.
Qed.

(** What the loop returns does not depend on the passes followed. *)
Lemma runAgentLoop_deterministic fuel fuel' log0 start st st' :
  runAgentLoop estimateMessageChars P fuel log0 start = Some st ->
  runAgentLoop estimateMessageChars P fuel' log0 start = Some st' ->
  st = st'.
Proof.
  intros H H'. destruct (Nat.le_ge_cases fuel fuel') as [Hle|Hle].
  - rewrite (runAgentLoop_mono _ _ _ _ _ Hle H) in H'. congruence.
  - rewrite (runAgentLoop_mono _ _ _ _ _ Hle H') in H. congruence.
Qed.

Hypothesis maxTurns_bounded : bounded (maxTurns P) = true.

(** The inner loop ends within its budget. *)
Lemma innerLoop_total fuel : forall h st,
  (budget st <= fuel)%nat ->
  exists r,
    innerLoop estimateMessageChars P fuel h st = Some r /\
    match r with
    | InnerDone st' =>
        (budget st' <= budget st)%nat /\ (h = true -> (budget st' < budget st)%nat)
    | _ => True
    end.
Proof.
  induction fuel as [|fuel IH]; intros h st Hb.
  - cbn [innerLoop].
    destruct (h || negb (Guard.isEmpty (pendingMessages st))) eqn:Hcond.
    + destruct (reached (turns st) (maxTurns P)) eqn:Hlt;
        [exists (BreakOuter st); split; [reflexivity|exact I]|].
      exfalso. pose proof (turnsLeft_step _ _ maxTurns_bounded Hlt). unfold budget in Hb. lia.
    + eexists. split; [reflexivity|]. split; [lia|].
      intros ->. discriminate.
  - cbn [innerLoop].
    destruct (h || negb (Guard.isEmpty (pendingMessages st))) eqn:Hcond.
    + destruct (reached (turns st) (maxTurns P)) eqn:Hlt;
        [exists (BreakOuter st); split; [reflexivity|exact I]|].
      unfold isAborted. destruct (aborted P (instant st));
        [exists (BreakOuter (tick st)); split; [reflexivity|exact I]|].
      destruct (turn estimateMessageChars P h (tick st)) as [h' st'|e st'] eqn:Hturn;
        [|exists (InnerThrew e st'); split; [reflexivity|exact I]].
      pose proof (turn_budget h (tick st) h' st' maxTurns_bounded Hlt Hturn) as Hdec.
      change (budget (tick st)) with (budget st) in Hdec.
      destruct (IH h' st' ltac:(lia)) as (r & Hr & Hres).
      exists r. split; [exact Hr|].
      destruct r; auto. destruct Hres as [Hle _]. split; [lia|intros _; lia].
    + eexists. split; [reflexivity|]. split; [lia|].
      intros ->. discriminate.
Qed.

Lemma outerLoop_total fuel : forall st,
  (budget st <= fuel)%nat ->
  exists r, outerLoop estimateMessageChars P fuel st = Some r.
Proof.
  induction fuel as [|fuel IH]; intros st Hb;
    destruct (innerLoop_total _ true st Hb) as (r & Hr & Hres);
    cbn [outerLoop]; rewrite Hr; destruct r as [st1|st1|e st1]; try (eexists; reflexivity);
    destruct Hres as [_ Hlt]; specialize (Hlt eq_refl); [lia|].
  destruct (getFollowUpMessages P) as [f|]; [|eexists; reflexivity].
  destruct (negb (Guard.isEmpty (f (instant st1)))); [|eexists; reflexivity].
  apply IH. change (budget (setPendingMessages (f (instant st1)) (tick st1)))
    with (budget st1). lia.
Qed.

(** With a bounding [maxTurns] the loop returns: one pass more than
    the turns allowed is fuel enough. *)
Lemma runAgentLoop_returns log0 start :
  exists st,
    runAgentLoop estimateMessageChars P (S (turnsLeft (maxTurns P) 0)) log0 start = Some st.
Proof.
  unfold runAgentLoop, steeringNow.
  match goal with |- context [outerLoop _ _ ?f ?s] =>
    destruct (outerLoop_total f s) as ([st' e] & Hout) end.
  { unfold budget. cbn. lia. }
  rewrite Hout. destruct e; eexists; reflexivity.
Qed.

End LoopTermination.

Section LoopInduction.

Variable estimateMessageChars : Message -> Z.
Variable P : AgentLoopParams.

(** The state a pass through the loop body leaves. *)
Definition resultState (r : TurnResult) : LoopState :=
  match r with Continue _ st => st | Threw _ st => st end.

Definition innerState (r : InnerResult) : LoopState :=
  match r with InnerDone st => st | BreakOuter st => st | InnerThrew _ st => st end.

(** An invariant of the loop, and what holds when an error leaves it:
    [Inv] is kept by the passage of an instant, by the refill of
    [pendingMessages] from the steering queue or the follow-ups, and
    by a pass through the loop body that ends at the loop condition;
    [Post] holds of the error and the state after a pass that
    throws. *)
Variable Inv : LoopState -> Prop.
Variable Post : string -> LoopState -> Prop.

Hypothesis Inv_tick : forall st, Inv st -> Inv (tick st).
Hypothesis Inv_steer :
  forall st i, Inv st -> Inv (setPendingMessages (getSteeringMessages P i) st).
Hypothesis Inv_followUp :
  forall st f i, getFollowUpMessages P = Some f -> Inv st -> Inv (setPendingMessages (f i) st).
Hypothesis Inv_turn :
  forall h st, Inv st -> reached (turns st) (maxTurns P) = false ->
               match turn estimateMessageChars P h st with
               | Continue _ st' => Inv st'
               | Threw e st' => Post e st'
               end.

Lemma innerLoop_invariant fuel : forall h st r,
  Inv st -> innerLoop estimateMessageChars P fuel h st = Some r ->
  match r with
  | InnerThrew e st' => Post e st'
  | InnerDone st' => Inv st'
  | BreakOuter st' => Inv st'
  end.
Proof.
  induction fuel as [|fuel IH]; intros h st r HI; cbn [innerLoop];
    destruct (h || negb (Guard.isEmpty (pendingMessages st)));
    try (intros [= <-]; exact HI);
    destruct (reached (turns st) (maxTurns P)) eqn:Hlt;
    try (intros [= <-]; exact HI);
    unfold isAborted; destruct (aborted P (instant st));
    try (intros [= <-]; apply Inv_tick; exact HI);
    try discriminate.
  pose proof (Inv_turn h (tick st) (Inv_tick st HI) Hlt) as Hturn.
  destruct (turn estimateMessageChars P h (tick st)) as [h' st'|e st'].
  - intros Hr. apply (IH h' st' r Hturn Hr).
  - intros [= <-]. exact Hturn.
Qed.

Lemma outerLoop_invariant fuel : forall st st' e,
  Inv st -> outerLoop estimateMessageChars P fuel st = Some (st', e) ->
  match e with None => Inv st' | Some err => Post err st' end.
Proof.
  induction fuel as [|fuel IH]; intros st st' e HI; cbn [outerLoop];
    match goal with |- context [innerLoop _ _ ?f true st] =>
      destruct (innerLoop estimateMessageChars P f true st) as [r|] eqn:Hr end;
    try discriminate;
    pose proof (innerLoop_invariant _ _ _ _ HI Hr) as HI1;
    destruct r as [st1|st1|e1 st1];
    try (intros [= <- <-]; exact HI1);
    destruct (getFollowUpMessages P) as [f|] eqn:Hf;
    try (intros [= <- <-]; exact HI1);
    (destruct (negb (Guard.isEmpty (f (instant st1))));
     [|intros [= <- <-]; apply Inv_tick; exact HI1]);
    try discriminate.
  intros Hout. apply (IH _ _ _ (Inv_followUp _ f _ eq_refl (Inv_tick _ HI1)) Hout).
Qed.

(** What the loop returns is the last state of its loops with one
    terminal event pushed: [agent_end] on a state of the invariant, or
    [agent_error] on the state a throwing pass left. *)
Lemma runAgentLoop_invariant fuel log0 start st :
  Inv (initialState P log0 start) ->
  runAgentLoop estimateMessageChars P fuel log0 start = Some st ->
  exists st',
    (Inv st' /\ st = push (agent_end (currentMessages st')) st') \/
    (exists err, Post err st' /\ st = push (agent_error err) st').
Proof.
  intros HI. unfold runAgentLoop, steeringNow.
  set (st0 := setPendingMessages (getSteeringMessages P (instant (initialState P log0 start)))
                                 (tick (initialState P log0 start))).
  assert (HI0 : Inv st0) by (apply Inv_steer, Inv_tick; exact HI).
  destruct (outerLoop estimateMessageChars P fuel st0) as [[st' e]|] eqn:Hout; [|discriminate].
  pose proof (outerLoop_invariant _ _ _ _ HI0 Hout) as HI'.
  destruct e as [err|]; intros [= <-]; exists st'; [right|left]; eauto.
Qed.

End LoopInduction.

Section LoopInvariant.

Variable estimateMessageChars : Message -> Z.
Variable P : AgentLoopParams.

Hypothesis steering_plain : forall i, forallb plain (getSteeringMessages P i) = true.

(** Nothing is pending and the messages waiting for injection are
    plain. *)
Definition clean (st : LoopState) : Prop :=
  Guard.pending (log st) = [] /\ forallb plain (pendingMessages st) = true.

(** What the guard holds after a pass, or a loop, that added [added]
    and threw.  Either nothing is pending and every call among [added]
    has its result; or a tool rejected with [undefined] or [null], the
    pass was left after it had recorded the assistant message, and the
    calls of that message are pending. *)
Definition unanswered (added : list Message) (p : Guard.Pending) : Prop :=
  (p = [] /\ Guard.paired added = true) \/
  exists pre am,
    added = pre ++ [am] /\ role am = assistant /\ Guard.paired pre = true /\
    p = fold_left (fun p c => Guard.pendingSet (fst c) (snd c) p)
                  (Guard.extractToolUsesFromAssistant am) [] /\
    exists tool i input value,
      In tool (toolsForRun P) /\ execute tool i input = ThrowsNullish value.

Lemma fold_record_plain msgs : forall st,
  Guard.pending (log st) = [] -> forallb plain msgs = true ->
  log (fold_left (fun s m => record P m s) msgs st)
  = {| Guard.transcript := Guard.transcript (log st) ++ msgs; Guard.pending := [] |}.
Proof.
  induction msgs as [|m msgs IH]; intros st Hp Hpl; cbn [fold_left].
  - rewrite app_nil_r. destruct (log st) as [T p]. cbn in Hp. subst p. reflexivity.
  - cbn [forallb] in Hpl. apply andb_true_iff in Hpl as [Hm Hpl].
    assert (Hl : log (record P m st)
                 = {| Guard.transcript := Guard.transcript (log st) ++ [m];
                      Guard.pending := [] |})
      by (cbn; apply append_plain; assumption).
    rewrite IH; [|rewrite Hl; reflexivity|exact Hpl].
    rewrite Hl. cbn [Guard.transcript]. rewrite <- app_assoc. reflexivity.
Qed.

Lemma entered_log st :
  clean st ->
  log (entered P st)
  = {| Guard.transcript := Guard.transcript (log st) ++ pendingMessages st;
       Guard.pending := [] |}.
Proof.
  intros [Hp Hpl]. unfold entered, injectPending. cbn [setPendingMessages log].
  rewrite fold_record_plain; [reflexivity|exact Hp|exact Hpl].
Qed.

Lemma firstn_skipn_calls n (l : list ToolCallRequest) i :
  map tc_id (map fst (stamp i (firstn n l)) ++ skipn n l) = map tc_id l.
Proof. rewrite stamp_fst, firstn_skipn. reflexivity. Qed.

(** An assistant message appended to a log with nothing pending. *)
Lemma append_assistant t s bs ts :
  Guard.pending s = [] ->
  let am := {| role := assistant; content := Blocks bs; timestamp := ts |} in
  Guard.append t s am
  = {| Guard.transcript := Guard.transcript s ++ [am];
       Guard.pending := fold_left (fun p c => Guard.pendingSet (fst c) (snd c) p)
                                  (Guard.extractToolUsesFromAssistant am) [] |}.
Proof.
  intros Hp am. destruct s as [T p]. cbn [Guard.pending] in Hp. subst p.
  unfold Guard.append. replace (Guard.extractToolResultIds am) with (@nil string)
    by reflexivity.
  reflexivity.
Qed.

(** One pass through the loop body, begun on a clean state: it adds
    the same messages, in the same order, to the log and to
    [currentMessages].  A pass that ends at the loop condition leaves
    the state clean, and every call among the messages added has its
    result; after a pass that throws, nothing is pending or the calls
    of the assistant message it recorded last. *)
Lemma turn_clean h st :
  clean st ->
  let r := turn estimateMessageChars P h st in
  exists added,
    Guard.transcript (log (resultState r)) = Guard.transcript (log st) ++ added /\
    currentMessages (resultState r) = currentMessages st ++ added /\
    match r with
    | Continue _ st' => clean st' /\ Guard.paired added = true
    | Threw _ st' => unanswered added (Guard.pending (log st'))
    end.
Proof.
  intros Hclean. cbv zeta. pose proof (entered_log st Hclean) as Hent.
  destruct Hclean as [Hp Hpl].
  pose proof (paired_plain _ Hpl) as Hpp.
  pose proof (llmCall_vars estimateMessageChars P st) as Hv.
  pose proof (retryAsync_coherent P (LLM_ATTEMPTS - 1) 1
                (messagesForModel estimateMessageChars P (entered P st)) (entered P st)) as Hco.
  fold (llmCall estimateMessageChars P st) in Hco.
  destruct (llmCall estimateMessageChars P st) as [[r a] st1] eqn:Hcall.
  cbv zeta in Hv. cbn [fst snd] in Hv, Hco.
  destruct Hv as (Ht & Ho & Hsum & Htc & Hf & Hpm & Hc & Hl).
  rewrite Hent in Hl.
  assert (Hp1 : Guard.pending (log st1) = []) by (rewrite Hl; reflexivity).
  destruct r as [|errorText].
  - destruct (toolCalls a) as [|c0 cs] eqn:Hcalls.
    + destruct (turn_without_tools estimateMessageChars P h st a st1 Hcall Hcalls)
        as (st' & Hturn & _ & Hcur & Hlog & Hpend & _).
      rewrite Hturn. cbn [resultState].
      unfold coherent in Hco. rewrite Hcalls in Hco.
      destruct (append_without_calls (now P (instant st1)) (log st1) (assistantContent a)
                                     (now P (instant st1)) Hp1 Hco) as [Ha Hpair].
      fold (assistantMessage P a st1) in Ha, Hpair.
      exists (pendingMessages st ++ [assistantMessage P a st1]). unfold clean.
      rewrite Hlog, Ha, Hcur, Hc, Hl. cbn [Guard.transcript Guard.pending].
      rewrite <- !app_assoc.
      split; [reflexivity|]. split; [reflexivity|]. split.
      * split; [reflexivity|rewrite Hpend; apply steering_plain].
      * apply paired_app; assumption.
    + assert (Hne : toolCalls a <> []) by (rewrite Hcalls; discriminate).
      destruct (turn_with_tools estimateMessageChars P h st a st1 Hcall Hne)
        as [(n & steer & st' & Hturn & _ & _ & Hsteer & _ & Hcur & Hlog & _)
           |(k & call & tool & value & st' & Hturn & _ & Hfind & Hexec & _ & _ & _ & Hcur
             & Hlog & _)];
        rewrite Hturn; cbn [resultState].
      * cbv zeta in Hlog, Hcur, Hsteer. unfold resultMessage in Hlog, Hcur.
        match type of Hlog with
        | _ = Guard.append ?t2 (Guard.append ?t1 _ _) {| role := _; content := Blocks ?res;
                                                        timestamp := ?ts2 |} =>
            destruct (append_call_and_results t1 t2 (log st1) (assistantContent a) res
                        (now P (instant st1)) ts2 Hp1) as [Ha Hpair]
        end.
        { rewrite resultIds_blocks, firstn_skipn_calls. unfold coherent in Hco.
          rewrite Hco. reflexivity. }
        cbv zeta in Ha, Hpair. fold (assistantMessage P a st1) in Ha, Hpair.
        eexists. unfold clean. rewrite Hlog, Ha, Hcur, Hc, Hl.
        cbn [Guard.transcript Guard.pending].
        rewrite <- !app_assoc. split; [reflexivity|]. split; [reflexivity|]. split.
        -- split; [reflexivity|].
           destruct steer as [s|].
           ++ destruct Hsteer as (_ & Hs & ->). rewrite Hs. apply steering_plain.
           ++ destruct Hsteer as (_ & _ & ->). apply steering_plain.
        -- apply paired_app; assumption.
      * pose proof (append_assistant (now P (instant st1)) (log st1) (assistantContent a)
                                     (now P (instant st1)) Hp1) as Ha.
        cbv zeta in Ha, Hexec. fold (assistantMessage P a st1) in Ha.
        exists (pendingMessages st ++ [assistantMessage P a st1]).
        rewrite Hlog, Ha, Hcur, Hc, Hl. cbn [Guard.transcript Guard.pending].
        rewrite <- !app_assoc. split; [reflexivity|]. split; [reflexivity|].
        right. exists (pendingMessages st), (assistantMessage P a st1).
        split; [reflexivity|]. split; [reflexivity|]. split; [exact Hpp|].
        split; [reflexivity|].
        exists tool, (S (instant st1) + 2 * k)%nat, (tc_input call), value.
        split; [|exact Hexec].
        unfold findTool in Hfind. apply find_some in Hfind. apply Hfind.
  - rewrite turn_unfold, Hcall.
    assert (Hsame : forall st2, log st2 = log st1 -> currentMessages st2 = currentMessages st1 ->
              exists added,
                Guard.transcript (log st2) = Guard.transcript (log st) ++ added /\
                currentMessages st2 = currentMessages st ++ added /\
                Guard.pending (log st2) = [] /\ Guard.paired added = true).
    { intros st2 Hl2 Hc2. exists (pendingMessages st). rewrite Hl2, Hc2, Hl, Hc. auto. }
    assert (Hth : forall e st2, log st2 = log st1 -> currentMessages st2 = currentMessages st1 ->
              exists added,
                Guard.transcript (log (resultState (Threw e st2)))
                = Guard.transcript (log st) ++ added /\
                currentMessages (resultState (Threw e st2)) = currentMessages st ++ added /\
                unanswered added (Guard.pending (log st2))).
    { intros e st2 Hl2 Hc2. destruct (Hsame st2 Hl2 Hc2) as (added & H1 & H2 & H3 & H4).
      exists added. split; [exact H1|]. split; [exact H2|]. left. auto. }
    destruct (Errors.isContextOverflowError errorText && negb (overflowCompactionAttempted st1));
      [|apply Hth; reflexivity].
    destruct (prepareCompaction P (instant st1) (currentMessages st1)) as [s [m|]|e];
      try (apply Hth; reflexivity).
    destruct (summaryTruthy s); [|apply Hth; reflexivity].
    cbn [resultState].
    destruct (Hsame (setTurns (turns st1 - 1)
                       (setCompactionSummary (Some m) (flagged errorText st1)))
                    eq_refl eq_refl) as (added & H1 & H2 & H3 & H4).
    exists added. split; [exact H1|]. split; [exact H2|].
    split; [|exact H4]. split; [exact H3|]. cbn. rewrite Hpm. reflexivity.
Qed.

End LoopInvariant.

Section LoopSamples.

(** A tool that returns, a tool that throws an [Error], and a tool
    whose promise rejects with [undefined]. *)
Definition sampleTools : list Tool :=
  [{| name := "read"; execute := fun _ _ => Returns "file contents" |};
   {| name := "exec"; execute := fun _ _ => Throws "boom" |};
   {| name := "crash"; execute := fun _ _ => ThrowsNullish js_undefined |}].

Definition call1 : ToolCallRequest :=
  {| tc_id := "t1"; tc_name := "read"; tc_input := [("path", "a.txt")] |}.
Definition call2 : ToolCallRequest :=
  {| tc_id := "t2"; tc_name := "exec"; tc_input := [("command", "ls")] |}.
Definition call3 : ToolCallRequest :=
  {| tc_id := "t3"; tc_name := "deploy"; tc_input := [] |}.
Definition call4 : ToolCallRequest :=
  {| tc_id := "t4"; tc_name := "crash"; tc_input := [] |}.

Definition toolStream : EventStream :=
  {| events := [text_end "working"; toolcall_end call1; toolcall_end call2;
                toolcall_end call3];
     result := Resolved |}.

(** The model calls [read] and then [crash]. *)
Definition crashStream : EventStream :=
  {| events := [toolcall_end call1; toolcall_end call4]; result := Resolved |}.

Definition doneStream : EventStream :=
  {| events := [text_delta "do"; text_delta "ne"; text_end "done"]; result := Resolved |}.

Definition overflowStream : EventStream :=
  {| events := []; result := Rejected "Prompt is too long for this model" |}.

Definition stopMessage : Message :=
  {| role := user; content := Str "stop"; timestamp := 0 |}.

Definition summaryMessage : Message :=
  {| role := user; content := Str "[summary] earlier work"; timestamp := 0 |}.

(** Parameters with three turns allowed, a window of 1000 tokens, no
    abort, and the given provider, steering queue and compaction. *)
Definition sampleParams (stream : nat -> EventStream) (steer : nat -> list Message)
  (prep : CompactionPrep) : AgentLoopParams :=
  {| initialMessages := [{| role := user; content := Str "hello"; timestamp := 0 |}];
     initialSummary := None;
     toolsForRun := sampleTools;
     maxTurns := Finite 3;
     contextTokens := 1000;
     getSteeringMessages := steer;
     getFollowUpMessages := None;
     prepareCompaction := fun _ _ => prep;
     streamFn := fun i _ => stream i;
     aborted := fun _ => false;
     now := fun _ => 0%Z |}.

Definition emptyLog : Guard.GuardedLog :=
  {| Guard.transcript := []; Guard.pending := [] |}.

(** Tool calls first, then a final text; a steering message is queued
    after the first tool has run. *)
Definition steeredParams : AgentLoopParams :=
  sampleParams (fun i => if (i <=? 2)%nat then toolStream else doneStream)
               (fun i => if (i =? 10)%nat then [stopMessage] else [])
               (Prepared None None).

Definition unsteeredParams : AgentLoopParams :=
  sampleParams (fun i => if (i <=? 2)%nat then toolStream else doneStream)
               (fun _ => [])
               (Prepared None None).

(** The first provider call overflows. *)
Definition overflowParams (prep : CompactionPrep) : AgentLoopParams :=
  sampleParams (fun i => if (i <=? 2)%nat then overflowStream else doneStream)
               (fun _ => []) prep.

(** A tool-less first turn, a steering message queued at its end, and
    an overflow on the second provider call. *)
Definition lateOverflowParams : AgentLoopParams :=
  sampleParams (fun i => if (i <=? 2)%nat then doneStream else overflowStream)
               (fun i => if (i =? 8)%nat then [stopMessage] else [])
               (Prepared (Some "earlier work") (Some summaryMessage)).

(** The first turn calls [read] and [crash]. *)
Definition crashParams : AgentLoopParams :=
  sampleParams (fun i => if (i <=? 2)%nat then crashStream else doneStream)
               (fun _ => [])
               (Prepared None None).

(** The state in which the inner loop is first entered, and the state
    in which its first pass begins. *)
Definition loopStart (P : AgentLoopParams) : LoopState :=
  setPendingMessages [] (tick (initialState P emptyLog 0)).

Definition firstPass (P : AgentLoopParams) : LoopState := tick (loopStart P).

Definition sampleEstimator : Message -> Z := TokensModel.estimateMessageChars.

(** The passes followed in the examples: more than the three turns
    allowed. *)
Definition sampleFuel : nat := 5.

Lemma overflow_compacts_then_retries_once_witness :
  exists st',
    turn sampleEstimator (overflowParams (Prepared (Some "earlier work") (Some summaryMessage)))
         true (firstPass (overflowParams (Prepared (Some "earlier work")
                                                   (Some summaryMessage))))
    = Continue true st' /\
    compactionSummary st' = Some summaryMessage /\ turns st' = 0%Z.
Proof.
  pose (P := overflowParams (Prepared (Some "earlier work") (Some summaryMessage))).
  destruct (overflow_compacts_then_retries_once sampleEstimator P 3 (loopStart P)
              "Prompt is too long for this model"
              (snd (fst (llmCall sampleEstimator P (firstPass P))))
              (snd (llmCall sampleEstimator P (firstPass P))))
    as (_ & _ & Hfirst & _).
  - vm_compute. reflexivity.
  - vm_compute. reflexivity.
  - vm_compute. reflexivity.
  - vm_compute. reflexivity.
  - destruct (Hfirst eq_refl) as (_ & _ & _ & _ & _ & Hretry & _).
    destruct (Hretry "earlier work" summaryMessage)
      as (st' & Hturn & _ & _ & _ & Hsum & Ht & _).
    + vm_compute. reflexivity.
    + discriminate.
    + exists st'. split; [exact Hturn|]. split; [exact Hsum|exact Ht].
Defined.

(** C3, as stated, fails: the first context-overflow error of a run,
    with [overflowCompactionAttempted] false, is rethrown when
    [prepareCompaction] resolves without a summary.  No summary is
    installed, the provider is not called again, and the failed turn
    stays counted. *)
Lemma overflow_without_summary_is_rethrown :
  Errors.isContextOverflowError "Prompt is too long for this model" = true /\
  overflowCompactionAttempted (firstPass (overflowParams (Prepared None None))) = false /\
  fst (fst (llmCall sampleEstimator (overflowParams (Prepared None None))
                    (firstPass (overflowParams (Prepared None None)))))
  = Rejected "Prompt is too long for this model" /\
  option_map (fun st => (pushed st, compactionSummary st, turns st))
             (runAgentLoop sampleEstimator (overflowParams (Prepared None None))
                           sampleFuel emptyLog 0)
  = Some ([turn_start 1;
           context_overflow_compact "Prompt is too long for this model";
           agent_error "Prompt is too long for this model"],
          None, 1%Z).
Proof. repeat split; vm_compute; reflexivity. Qed.

(** The same with an empty summary, and with a summary but no summary
    message; and when [prepareCompaction] fails, its own error ends the
    run. *)
Example overflow_rethrown_samples :
  let events := fun prep =>
    option_map pushed (runAgentLoop sampleEstimator (overflowParams prep)
                                    sampleFuel emptyLog 0) in
  events (Prepared (Some EmptyString) (Some summaryMessage))
  = Some [turn_start 1;
          context_overflow_compact "Prompt is too long for this model";
          agent_error "Prompt is too long for this model"] /\
  events (Prepared (Some "earlier work") None)
  = Some [turn_start 1;
          context_overflow_compact "Prompt is too long for this model";
          agent_error "Prompt is too long for this model"] /\
  events (PrepareFailed "summarizer unavailable")
  = Some [turn_start 1;
          context_overflow_compact "Prompt is too long for this model";
          agent_error "summarizer unavailable"].
Proof. repeat split; vm_compute; reflexivity. Qed.

(** With a summary, the same run compacts, calls the provider again
    and ends after one counted turn. *)
Example overflow_retry_sample :
  option_map (fun st => (map (fun e => match e with
                                       | agent_end _ => agent_end []
                                       | message_end _ t => message_delta t
                                       | _ => e
                                       end) (pushed st),
                         compactionSummary st, turns st))
             (runAgentLoop sampleEstimator
                           (overflowParams (Prepared (Some "earlier work")
                                                     (Some summaryMessage)))
                           sampleFuel emptyLog 0)
  = Some ([turn_start 1;
           context_overflow_compact "Prompt is too long for this model";
           turn_start 1; message_delta "do"; message_delta "ne"; message_delta "done";
           turn_end 1; agent_end []],
          Some summaryMessage, 1%Z).
Proof. vm_compute. reflexivity. Qed.

(** When the provider overflows again after the compaction, the error
    ends the run. *)
Example second_overflow_sample :
  option_map pushed
             (runAgentLoop sampleEstimator
                           (sampleParams (fun _ => overflowStream) (fun _ => [])
                                         (Prepared (Some "earlier work")
                                                   (Some summaryMessage)))
                           sampleFuel emptyLog 0)
  = Some [turn_start 1;
          context_overflow_compact "Prompt is too long for this model";
          turn_start 1;
          agent_error "Prompt is too long for this model"].
Proof. vm_compute. reflexivity. Qed.

(** After a turn without tool calls, the [continue] of the overflow
    branch meets a false loop condition: [hasMoreToolCalls] is false
    and the pending messages were injected.  The run ends with
    [agent_end]; the provider is not called again and the steering
    message stays unanswered. *)
Example overflow_retry_lost_after_text_turn :
  option_map (fun st => (map (fun e => match e with
                                       | agent_end _ => agent_end []
                                       | message_end _ t => message_delta t
                                       | _ => e
                                       end) (pushed st),
                         map role (currentMessages st), turns st))
             (runAgentLoop sampleEstimator lateOverflowParams sampleFuel emptyLog 0)
  = Some ([turn_start 1; message_delta "do"; message_delta "ne"; message_delta "done";
           turn_end 1; turn_start 2;
           context_overflow_compact "Prompt is too long for this model";
           agent_end []],
          [user; assistant; user], 1%Z).
Proof. vm_compute. reflexivity. Qed.

(** The steering scenario in full: the first tool runs, the other two
    are skipped, and the steering message opens the next turn. *)
Example steering_interrupt_sample :
  option_map (fun st => Guard.transcript (log st))
             (runAgentLoop sampleEstimator steeredParams sampleFuel emptyLog 0)
  = Some [{| role := assistant;
             content := Blocks [text "working";
                                tool_use "t1" "read" [("path", "a.txt")];
                                tool_use "t2" "exec" [("command", "ls")];
                                tool_use "t3" "deploy" []];
             timestamp := 0 |};
          {| role := user;
             content := Blocks [tool_result "t1" (Some "read") "file contents";
                                tool_result "t2" (Some "exec")
                                            "Skipped due to queued user message.";
                                tool_result "t3" (Some "deploy")
                                            "Skipped due to queued user message."];
             timestamp := 0 |};
          stopMessage;
          {| role := assistant; content := Blocks [text "done"]; timestamp := 0 |}].
Proof. vm_compute. reflexivity. Qed.

(** Without steering all three calls run: the throwing tool and the
    unknown tool both leave a result, and only the unknown one is
    flagged. *)
Example tool_errors_sample :
  option_map (fun st => filter isToolEnd (pushed st))
             (runAgentLoop sampleEstimator unsteeredParams sampleFuel emptyLog 0)
  = Some [tool_execution_end "t1" "read" "file contents" false;
          tool_execution_end "t2" "exec" "Execution error: boom" false;
          tool_execution_end "t3" "deploy" "Unknown tool: deploy" true].
Proof. vm_compute. reflexivity. Qed.

(** C2.  A pass that assembles no user message.  In one turn the
    model calls [read], which returns, and then [crash], whose promise
    rejects with [undefined].  The first call is executed and its
    result announced by [tool_execution_end]; the second is announced
    by its start event, and the [TypeError] of the [catch] block leaves
    the tool loop.  The loop records the assistant message and nothing
    after it: the result of the executed call is in no message. *)
Theorem tool_results_dropped_on_nullish_rejection :
  findTool crashParams "crash"
  = Some {| name := "crash"; execute := fun _ _ => ThrowsNullish js_undefined |} /\
  option_map (fun st => (pushed st, Guard.transcript (log st), currentMessages st))
             (runAgentLoop sampleEstimator crashParams sampleFuel emptyLog 0)
  = Some ([turn_start 1;
           tool_execution_start "t1" "read" [("path", "a.txt")];
           tool_execution_end "t1" "read" "file contents" false;
           tool_execution_start "t4" "crash" [];
           agent_error "Cannot read properties of undefined (reading 'message')"],
          [{| role := assistant;
              content := Blocks [tool_use "t1" "read" [("path", "a.txt")];
                                 tool_use "t4" "crash" []];
              timestamp := 0 |}],
          [{| role := user; content := Str "hello"; timestamp := 0 |};
           {| role := assistant;
              content := Blocks [tool_use "t1" "read" [("path", "a.txt")];
                                 tool_use "t4" "crash" []];
              timestamp := 0 |}]).
Proof. split; vm_compute; reflexivity. Qed.

(** C10.  An error of a tool that is propagated out of the loop.  The
    tool of the call is found, and its promise rejects with
    [undefined].  The call gets no [tool_execution_end] event and no
    result, it is not counted in [totalToolCalls], and the [TypeError]
    of the [catch] block leaves the loops for the outer [catch], which
    ends the run with [agent_error]. *)
Theorem nullish_rejection_leaves_the_loop :
  let P := sampleParams (fun _ => {| events := [toolcall_end call4]; result := Resolved |})
                        (fun _ => []) (Prepared None None) in
  isNone (findTool P (tc_name call4)) = false /\
  invokeTool P call4 3 = Escaped "Cannot read properties of undefined (reading 'message')" /\
  option_map (fun st => (pushed st, totalToolCalls st, turns st))
             (runAgentLoop sampleEstimator P sampleFuel emptyLog 0)
  = Some ([turn_start 1;
           tool_execution_start "t4" "crash" [];
           agent_error "Cannot read properties of undefined (reading 'message')"],
          0%Z, 1%Z).
Proof. cbv zeta. repeat split; vm_compute; reflexivity. Qed.

End LoopSamples.

End LoopProperties.

(* ------------------------------------------------------------------ *)
(** ** More on the string primitives *)

Section StringFacts.
Import JsString.

Lemma lower_char_idem c : lower_char (lower_char c) = lower_char c.
Proof. destruct c as [[] [] [] [] [] [] [] []]; vm_compute; reflexivity. Qed.

Lemma lower_char_space c : is_space (lower_char c) = is_space c.
Proof. destruct c as [[] [] [] [] [] [] [] []]; vm_compute; reflexivity. Qed.

Lemma toLowerCase_idem s : toLowerCase (toLowerCase s) = toLowerCase s.
Proof. induction s as [|c s IH]; cbn; [reflexivity|]. rewrite IH, lower_char_idem. reflexivity. Qed.

Lemma toLowerCase_empty s : (toLowerCase s =? EmptyString)%string = (s =? EmptyString)%string.
Proof. destruct s; reflexivity. Qed.

Lemma toLowerCase_app a b : toLowerCase (a +++ b) = toLowerCase a +++ toLowerCase b.
Proof. induction a as [|c a IH]; cbn; [reflexivity|]. rewrite IH. reflexivity. Qed.

Lemma trimStart_lower s : trimStart (toLowerCase s) = toLowerCase (trimStart s).
Proof.
  induction s as [|c s IH]; cbn [toLowerCase trimStart]; [reflexivity|].
  rewrite lower_char_space. destruct (is_space c); [exact IH|reflexivity].
Qed.

Lemma trimEnd_lower s : trimEnd (toLowerCase s) = toLowerCase (trimEnd s).
Proof.
  induction s as [|c s IH]; cbn [toLowerCase trimEnd]; [reflexivity|].
  rewrite lower_char_space, IH, toLowerCase_empty.
  destruct (is_space c && (trimEnd s =? EmptyString)%string); reflexivity.
Qed.

Lemma trim_lower s : trim (toLowerCase s) = toLowerCase (trim s).
Proof. unfold trim. rewrite trimStart_lower, trimEnd_lower. reflexivity. Qed.

(** A string that does not begin with white space. *)
Definition noLead (s : string) : Prop :=
  match s with
  | EmptyString => True
  | String c _ => is_space c = false
  end.

Lemma trimStart_noLead s : noLead (trimStart s).
Proof.
  induction s as [|c s IH]; cbn [trimStart]; [exact I|].
  destruct (is_space c) eqn:E; [exact IH|exact E].
Qed.

Lemma trimStart_id s : noLead s -> trimStart s = s.
Proof. destruct s as [|c s]; cbn; [reflexivity|]. intros ->. reflexivity. Qed.

Lemma trimEnd_noLead s : noLead s -> noLead (trimEnd s).
Proof.
  destruct s as [|c s]; cbn [trimEnd noLead]; [auto|]. intros E. rewrite E. exact E.
Qed.

Lemma trimEnd_idem s : trimEnd (trimEnd s) = trimEnd s.
Proof.
  induction s as [|c s IH]; cbn [trimEnd]; [reflexivity|].
  destruct (is_space c && (trimEnd s =? EmptyString)%string) eqn:E; [reflexivity|].
  cbn [trimEnd]. rewrite IH, E. reflexivity.
Qed.

Lemma trim_noLead s : noLead (trim s).
Proof. apply trimEnd_noLead, trimStart_noLead. Qed.

Lemma trim_idem s : trim (trim s) = trim s.
Proof.
  unfold trim at 1. rewrite (trimStart_id (trim s) (trim_noLead s)).
  unfold trim. apply trimEnd_idem.
Qed.

Lemma trimEnd_app a b :
  trimEnd b <> EmptyString -> trimEnd (a +++ b) = a +++ trimEnd b.
Proof.
  intros Hb. induction a as [|c a IH]; cbn [String.append trimEnd]; [reflexivity|].
  rewrite IH. destruct (a +++ trimEnd b) eqn:E.
  - destruct a; cbn in E; [congruence|discriminate].
  - cbn. rewrite andb_false_r. reflexivity.
Qed.

(** A trimmed string stays as it is behind a prefix that starts with
    no white space. *)
Lemma trim_app a b :
  a <> EmptyString -> noLead a -> b <> EmptyString -> trim b = b -> trim (a +++ b) = a +++ b.
Proof.
  intros Ha Hlead Hb Htrim. unfold trim.
  assert (Hl : noLead (a +++ b)) by (destruct a; [congruence|exact Hlead]).
  rewrite (trimStart_id _ Hl).
  assert (He : trimEnd b = b).
  { unfold trim in Htrim. rewrite <- Htrim at 2. rewrite <- Htrim at 1. apply trimEnd_idem. }
  rewrite trimEnd_app; rewrite He; [reflexivity|exact Hb].
Qed.

Lemma startsWith_app p s : startsWith (p +++ s) p = true.
Proof.
  induction p as [|c p IH]; cbn; [destruct s; reflexivity|]. rewrite Ascii.eqb_refl. exact IH.
Qed.

End StringFacts.

(* ------------------------------------------------------------------ *)
(** ** The loop as a whole, the run's outcome, and the guard on any
       sequence of appends *)

Section MoreLoopProperties.
Import Session AgentLoop.
Section LoopEvents.

Variable estimateMessageChars : Message -> Z.
Variable P : AgentLoopParams.

Definition isRetry (e : AgentEvent) : bool :=
  match e with retry _ _ => true | _ => false end.

Definition isToolStart (e : AgentEvent) : bool :=
  match e with tool_execution_start _ _ _ => true | _ => false end.

Definition isTerminal (e : AgentEvent) : bool :=
  match e with agent_end _ => true | agent_error _ => true | _ => false end.

(** An event that neither ends the run nor brackets a tool execution. *)
Definition quietEvent (e : AgentEvent) : bool :=
  negb (isTerminal e || isToolEnd e || isToolStart e).

(** What the provider call pushes: text deltas, and [retry] events for
    rate-limit errors, numbered from [lo] and below [hi]. *)
Definition callEvent (lo hi : Z) (e : AgentEvent) : Prop :=
  match e with
  | message_delta _ => True
  | retry n err => Errors.isRateLimitError err = true /\ (lo <= n < hi)%Z
  | _ => False
  end.

Lemma callEvent_quiet lo hi l : Forall (callEvent lo hi) l -> forallb quietEvent l = true.
Proof.
  induction 1 as [|e l He _ IH]; [reflexivity|]. cbn [forallb]. rewrite IH, andb_true_r.
  destruct e; try contradiction; reflexivity.
Qed.

Lemma callEvent_widen lo hi lo' hi' l :
  (lo' <= lo)%Z -> (hi <= hi')%Z -> Forall (callEvent lo hi) l -> Forall (callEvent lo' hi') l.
Proof.
  intros Hlo Hhi H. eapply Forall_impl; [|exact H]. intros e He.
  destruct e; try exact He. cbn in *. destruct He. split; [assumption|lia].
Qed.

Lemma consume_events evs : forall a st,
  exists new,
    pushed (snd (consume P evs a st)) = pushed st ++ new /\
    filter isRetry new = [] /\ forall lo hi, Forall (callEvent lo hi) new.
Proof.
  induction evs as [|ev rest IH]; intros a st; cbn [consume].
  - exists []. rewrite app_nil_r. auto.
  - unfold isAborted. destruct (aborted P (instant st)).
    + exists []. cbn. rewrite app_nil_r. auto.
    + destruct ev;
        try (match goal with |- context [consume P rest ?a' (tick st)] =>
               destruct (IH a' (tick st)) as (new & Hp & Hr & Hc) end;
             exists new; rewrite Hp; auto).
      destruct (IH a (push (message_delta delta) (tick st))) as (new & Hp & Hr & Hc).
      exists (message_delta delta :: new). rewrite Hp. cbn [push pushed tick].
      rewrite <- app_assoc. split; [reflexivity|]. split; [exact Hr|].
      intros lo hi. constructor; [exact I|apply Hc].
Qed.

Lemma llmAttempt_events msgs st :
  exists new,
    pushed (snd (llmAttempt P msgs st)) = pushed st ++ new /\
    filter isRetry new = [] /\ forall lo hi, Forall (callEvent lo hi) new.
Proof.
  unfold llmAttempt.
  destruct (consume_events (events (streamFn P (instant st) msgs)) emptyAttempt (tick st))
    as (new & Hp & Hr & Hc).
  destruct (consume P _ emptyAttempt (tick st)) as [a st1]. cbn [snd] in *.
  unfold isAborted. cbn [snd tick pushed]. exists new. auto.
Qed.

(** The provider call with its retries.  At most [remaining] retries
    are announced, each for a rate-limit error, each with the number of
    the attempt that failed. *)
Lemma retryAsync_events remaining : forall attempt msgs st,
  exists new,
    pushed (snd (retryAsync P remaining attempt msgs st)) = pushed st ++ new /\
    Forall (callEvent attempt (attempt + Z.of_nat remaining)) new /\
    (List.length (filter isRetry new) <= remaining)%nat.
Proof.
  induction remaining as [|k IH]; intros attempt msgs st; cbn [retryAsync];
    destruct (llmAttempt_events msgs st) as (new & Hp & Hr & Hc);
    destruct (llmAttempt P msgs st) as [[r a] st1]; cbn [snd] in Hp;
    destruct r as [|err]; cbn [snd];
    try (exists new; rewrite Hr; split; [exact Hp|]; split; [apply Hc|cbn; lia]).
  unfold isAborted. destruct (aborted P (instant st1)); cbn [snd];
    [exists new; rewrite Hr; split; [exact Hp|]; split; [apply Hc|cbn; lia]|].
  destruct (Errors.isRateLimitError err) eqn:Hrate; cbn [negb snd];
    [|exists new; rewrite Hr; split; [exact Hp|]; split; [apply Hc|cbn; lia]].
  destruct (IH (attempt + 1)%Z msgs (push (retry attempt err) (tick st1)))
    as (new2 & Hp2 & Hc2 & Hn2).
  exists (new ++ retry attempt err :: new2). rewrite Hp2. cbn [push pushed tick].
  rewrite Hp, <- !app_assoc. split; [reflexivity|]. split.
  - apply Forall_app. split; [apply Hc|]. constructor.
    + cbn. split; [exact Hrate|lia].
    + eapply callEvent_widen; [| |exact Hc2]; lia.
  - rewrite filter_app, Hr. cbn [app filter isRetry List.length]. lia.
Qed.

Lemma entered_pushed st :
  pushed (entered P st) = pushed st ++ [turn_start (turns st + 1)].
Proof.
  unfold entered.
  destruct (injectPending_vars P (push (turn_start (turns st + 1)) (setTurns (turns st + 1) st)))
    as (_ & _ & _ & _ & _ & _ & H & _).
  rewrite H. reflexivity.
Qed.

Lemma llmCall_pushed st :
  exists new,
    pushed (snd (llmCall estimateMessageChars P st))
    = pushed st ++ turn_start (turns st + 1) :: new /\
    forallb quietEvent new = true.
Proof.
  unfold llmCall.
  destruct (retryAsync_events (LLM_ATTEMPTS - 1) 1
              (messagesForModel estimateMessageChars P (entered P st)) (entered P st))
    as (new & Hp & Hc & _).
  exists new. rewrite Hp, entered_pushed, <- app_assoc. split; [reflexivity|].
  eapply callEvent_quiet; exact Hc.
Qed.

Lemma quiet_filters l :
  forallb quietEvent l = true ->
  filter isToolEnd l = [] /\ filter isToolStart l = [] /\ filter isTerminal l = [].
Proof.
  induction l as [|e l IH]; [auto|]. cbn [forallb]. intros H.
  apply andb_true_iff in H as [He Hl]. destruct (IH Hl) as (H1 & H2 & H3).
  cbn [filter]. rewrite H1, H2, H3. destruct e; try discriminate; auto.
Qed.

(** The events of a list, counted: tool executions started and ended,
    and terminal events. *)
Definition ends (l : list AgentEvent) : nat := List.length (filter isToolEnd l).
Definition starts (l : list AgentEvent) : nat := List.length (filter isToolStart l).
Definition terminals (l : list AgentEvent) : nat := List.length (filter isTerminal l).

Lemma counts_app l1 l2 :
  ends (l1 ++ l2) = (ends l1 + ends l2)%nat /\
  starts (l1 ++ l2) = (starts l1 + starts l2)%nat /\
  terminals (l1 ++ l2) = (terminals l1 + terminals l2)%nat.
Proof. unfold ends, starts, terminals. rewrite !filter_app, !length_app. auto. Qed.

Lemma counts_quiet l :
  forallb quietEvent l = true -> ends l = 0%nat /\ starts l = 0%nat /\ terminals l = 0%nat.
Proof.
  intros H. destruct (quiet_filters l H) as (H1 & H2 & H3).
  unfold ends, starts, terminals. rewrite H1, H2, H3. auto.
Qed.

Lemma counts_executionEvents ran :
  ends (flat_map (executionEvents P) ran) = List.length ran /\
  starts (flat_map (executionEvents P) ran) = List.length ran /\
  terminals (flat_map (executionEvents P) ran) = 0%nat.
Proof.
  unfold ends, starts, terminals.
  induction ran as [|ci ran (H1 & H2 & H3)]; [auto|].
  cbn [flat_map]. unfold executionEvents at 1 3 5. unfold startEvent.
  cbn [app filter isToolEnd isToolStart
    isTerminal List.length]. rewrite H1, H2, H3. auto.
Qed.

Lemma stamp_length l : forall i, List.length (stamp i l) = List.length l.
Proof. induction l as [|c l IH]; intros i; cbn; [reflexivity|]. rewrite IH. reflexivity. Qed.

Lemma quiet_messageEnd a st1 : forallb quietEvent (messageEndEvent P a st1) = true.
Proof. unfold messageEndEvent. destruct (Guard.truthy (turnText a)); reflexivity. Qed.

Lemma quiet_skipEvents l : forallb quietEvent (map skipEvent l) = true.
Proof. induction l as [|c l IH]; [reflexivity|]. cbn. exact IH. Qed.

Lemma quiet_steering steer : forallb quietEvent (steeringEvent steer) = true.
Proof. destruct steer; reflexivity. Qed.

Lemma terminals_none l :
  terminals l = 0%nat -> forall e, In e l -> isTerminal e = false.
Proof.
  unfold terminals. intros H e Hin. destruct (isTerminal e) eqn:He; [|reflexivity].
  assert (Hf : In e (filter isTerminal l)) by (apply filter_In; auto).
  destruct (filter isTerminal l); [destruct Hf|discriminate].
Qed.

Lemma starts_startEvent call : starts [startEvent call] = 1%nat /\ ends [startEvent call] = 0%nat
                               /\ terminals [startEvent call] = 0%nat.
Proof. repeat split. Qed.

(** The events of a pass, or of a run so far, that a tool left by
    rejecting with [undefined] or [null]: the last one is the start
    event of its call, and [error] is the [TypeError] thrown. *)
Definition unmatchedStart (error : string) (l : list AgentEvent) : Prop :=
  exists evs call value,
    l = evs ++ [startEvent call] /\ error = messageOfNullish value /\
    starts evs = ends evs.

Lemma unmatchedStart_counts error l : unmatchedStart error l -> starts l = S (ends l).
Proof.
  intros (evs & call & value & -> & _ & H).
  destruct (counts_app evs [startEvent call]) as (-> & -> & _).
  destruct (starts_startEvent call) as (-> & -> & _). lia.
Qed.

(** One pass through the loop body: the events it pushes, counted
    against the counters it moves.  Every tool execution started is
    ended, but for the one call whose tool rejected with [undefined]
    or [null]. *)
Lemma turn_counts h st :
  let r := turn estimateMessageChars P h st in
  exists new,
    pushed (resultState r) = pushed st ++ new /\
    terminals new = 0%nat /\
    totalToolCalls (resultState r) = (totalToolCalls st + Z.of_nat (ends new))%Z /\
    (turns st <= turns (resultState r) <= turns st + 1)%Z /\
    match r with
    | Continue _ _ => starts new = ends new
    | Threw error _ => starts new = ends new \/ unmatchedStart error new
    end.
Proof.
  cbv zeta.
  pose proof (llmCall_vars estimateMessageChars P st) as Hv.
  destruct (llmCall_pushed st) as (cnew & Hcp & Hcq).
  destruct (llmCall estimateMessageChars P st) as [[r a] st1] eqn:Hcall.
  cbv zeta in Hv. cbn [snd] in Hv, Hcp. destruct Hv as (Ht & _ & _ & Htc & _).
  destruct (counts_quiet _ Hcq) as (Ce & Cs & Ct).
  assert (Hquiet : forall extra st2,
            pushed st2 = pushed st1 ++ extra -> forallb quietEvent extra = true ->
            totalToolCalls st2 = totalToolCalls st1 ->
            (turns st <= turns st2 <= turns st + 1)%Z ->
            exists new,
              pushed st2 = pushed st ++ new /\ terminals new = 0%nat /\
              totalToolCalls st2 = (totalToolCalls st + Z.of_nat (ends new))%Z /\
              (turns st <= turns st2 <= turns st + 1)%Z /\
              starts new = ends new).
  { intros extra st2 Hp Hq Htot Htu.
    exists (turn_start (turns st + 1) :: cnew ++ extra).
    destruct (counts_quiet _ Hq) as (Ee & Es & Et).
    rewrite Hp, Hcp, <- app_assoc. split; [reflexivity|].
    change (turn_start (turns st + 1) :: cnew ++ extra)
      with ([turn_start (turns st + 1)] ++ cnew ++ extra).
    destruct (counts_app [turn_start (turns st + 1)] (cnew ++ extra)) as (-> & -> & ->).
    destruct (counts_app cnew extra) as (-> & -> & ->).
    rewrite Ce, Cs, Ct, Ee, Es, Et, Htot, Htc. cbn. repeat split; lia. }
  assert (Hthrew : forall e extra st2,
            pushed st2 = pushed st1 ++ extra -> forallb quietEvent extra = true ->
            totalToolCalls st2 = totalToolCalls st1 ->
            (turns st <= turns st2 <= turns st + 1)%Z ->
            exists new,
              pushed (resultState (Threw e st2)) = pushed st ++ new /\ terminals new = 0%nat /\
              totalToolCalls (resultState (Threw e st2))
              = (totalToolCalls st + Z.of_nat (ends new))%Z /\
              (turns st <= turns (resultState (Threw e st2)) <= turns st + 1)%Z /\
              (starts new = ends new \/ unmatchedStart e new)).
  { intros e extra st2 Hp Hq Htot Htu.
    destruct (Hquiet extra st2 Hp Hq Htot Htu) as (new & H1 & H2 & H3 & H4 & H5).
    exists new. cbn [resultState]. auto 6. }
  destruct r as [|errorText].
  - destruct (toolCalls a) as [|c0 cs] eqn:Hcalls.
    + destruct (turn_without_tools estimateMessageChars P h st a st1 Hcall Hcalls)
        as (st2 & Hturn & Hp & _ & _ & _ & Htot & Htu & _).
      rewrite Hturn. cbn [resultState].
      apply (Hquiet (messageEndEvent P a st1 ++ [turn_end (turns st1)])).
      * exact Hp.
      * rewrite forallb_app, quiet_messageEnd. reflexivity.
      * exact Htot.
      * lia.
    + assert (Hne : toolCalls a <> []) by (rewrite Hcalls; discriminate).
      destruct (counts_quiet _ (quiet_messageEnd a st1)) as (Me & Ms & Mt).
      destruct (turn_with_tools estimateMessageChars P h st a st1 Hcall Hne)
        as [(n & steer & st2 & Hturn & Hn & _ & _ & Hp & _ & _ & Htot & Htu & _)
           |(k & call & tool & value & st2 & Hturn & Hnth & _ & _ & _ & _ & Hp & _ & _
             & Htot & Htu & _)];
        rewrite Hturn; cbn [resultState]; cbv zeta in Hp.
      * set (ran := stamp (S (instant st1)) (firstn n (toolCalls a))) in *.
        exists (turn_start (turns st + 1) :: cnew ++ messageEndEvent P a st1
                ++ flat_map (executionEvents P) ran ++ map skipEvent (skipn n (toolCalls a))
                ++ steeringEvent steer ++ [turn_end (turns st1)]).
        rewrite Hp, Hcp, <- app_assoc. split; [reflexivity|].
        assert (Hlen : List.length ran = n).
        { unfold ran. rewrite stamp_length, length_firstn. lia. }
        destruct (counts_executionEvents ran) as (Xe & Xs & Xt).
        destruct (counts_quiet _ (quiet_skipEvents (skipn n (toolCalls a)))) as (Ke & Ks & Kt).
        destruct (counts_quiet _ (quiet_steering steer)) as (Se & Ss & St).
        change (turn_start (turns st + 1) :: cnew ++ ?x)
          with ([turn_start (turns st + 1)] ++ cnew ++ x).
        repeat match goal with
               | |- context [ends (?x ++ ?y)] =>
                   destruct (counts_app x y) as (-> & -> & ->)
               end.
        rewrite Ce, Cs, Ct, Xe, Xs, Xt, Me, Ms, Mt, Ke, Ks, Kt, Se, Ss, St, Hlen, Htot, Htc.
        cbn. repeat split; lia.
      * set (ran := stamp (S (instant st1)) (firstn k (toolCalls a))) in *.
        assert (Hk : (k < List.length (toolCalls a))%nat)
          by (apply nth_error_Some; rewrite Hnth; discriminate).
        assert (Hlen : List.length ran = k).
        { unfold ran. rewrite stamp_length, length_firstn. lia. }
        destruct (counts_executionEvents ran) as (Xe & Xs & Xt).
        destruct (starts_startEvent call) as (Qs & Qe & Qt).
        set (evs := [turn_start (turns st + 1)] ++ cnew ++ messageEndEvent P a st1
                    ++ flat_map (executionEvents P) ran).
        assert (Hevs : ends evs = k /\ starts evs = k /\ terminals evs = 0%nat).
        { unfold evs.
          repeat match goal with
                 | |- context [ends (?x ++ ?y)] =>
                     destruct (counts_app x y) as (-> & -> & ->)
                 end.
          rewrite Ce, Cs, Ct, Xe, Xs, Xt, Me, Ms, Mt, Hlen. cbn. repeat split; lia. }
        destruct Hevs as (He1 & He2 & He3).
        exists (evs ++ [startEvent call]).
        destruct (counts_app evs [startEvent call]) as (-> & _ & ->).
        rewrite He1, He3, Qe, Qt, Htot, Htc, Hp, Hcp. unfold evs.
        rewrite <- !app_assoc. cbn [app].
        split; [reflexivity|]. split; [reflexivity|]. split; [lia|]. split; [lia|].
        right. exists evs, call, value.
        split; [unfold evs; rewrite <- ?app_assoc; reflexivity|]. split; [reflexivity|].
        rewrite He1, He2. reflexivity.
  - rewrite turn_unfold, Hcall.
    destruct (Errors.isContextOverflowError errorText
              && negb (overflowCompactionAttempted st1)).
    + destruct (prepareCompaction P (instant st1) (currentMessages st1)) as [s [m|]|e];
        [destruct (summaryTruthy s)| |];
        try (apply (Hthrew _ [context_overflow_compact errorText]);
             [reflexivity|reflexivity|reflexivity|cbn; lia]).
      cbn [resultState]. apply (Hquiet [context_overflow_compact errorText]);
        [reflexivity|reflexivity|reflexivity|cbn; lia].
    + apply (Hthrew _ []); [rewrite app_nil_r| | |]; try reflexivity. lia.
Qed.

(** The turn counter against [maxTurns]: a turn begins while the
    counter is below it, so the counter ends at most at [maxTurns]
    rounded up. *)
Definition withinTurns (m : JsNumber) (t : Z) : Prop :=
  match m with
  | Finite q => (t <= Z.max 0 (Qceiling q))%Z
  | NegInfinity => t = 0%Z
  | NaN => True
  | Infinity => True
  end.

Lemma withinTurns_step m t t' :
  (0 <= t)%Z -> withinTurns m t -> reached t m = false -> (t <= t' <= t + 1)%Z ->
  withinTurns m t'.
Proof.
  destruct m as [q| | |]; cbn [withinTurns reached]; try discriminate; auto.
  intros H0 _ H Ht. apply below_ceiling in H. lia.
Qed.

(** What the loop keeps from its first state on: no terminal event is
    pushed, every tool execution started is ended and counted, and the
    turn counter stays between zero and [maxTurns]. *)
Definition counted (st : LoopState) : Prop :=
  terminals (pushed st) = 0%nat /\
  totalToolCalls st = Z.of_nat (ends (pushed st)) /\
  (0 <= turns st)%Z /\ withinTurns (maxTurns P) (turns st).

Definition tidy (st : LoopState) : Prop :=
  counted st /\ starts (pushed st) = ends (pushed st).

(** The state a throwing pass leaves. *)
Definition thrown (error : string) (st : LoopState) : Prop :=
  counted st /\
  (starts (pushed st) = ends (pushed st) \/ unmatchedStart error (pushed st)).

Lemma tidy_turn h st :
  tidy st -> reached (turns st) (maxTurns P) = false ->
  match turn estimateMessageChars P h st with
  | Continue _ st' => tidy st'
  | Threw error st' => thrown error st'
  end.
Proof.
  intros ((T1 & T3 & T4 & T5) & T2) Hlt.
  destruct (turn_counts h st) as (new & Hp & Hn1 & Hn3 & Hn4 & Hn2).
  assert (Hc : counted (resultState (turn estimateMessageChars P h st))).
  { unfold counted. rewrite Hp.
    destruct (counts_app (pushed st) new) as (-> & _ & ->).
    rewrite Hn3. repeat split; try lia.
    apply (withinTurns_step _ (turns st)); auto. }
  destruct (turn estimateMessageChars P h st) as [h' st'|error st']; cbn [resultState] in *.
  - split; [exact Hc|]. rewrite Hp.
    destruct (counts_app (pushed st) new) as (-> & -> & _). lia.
  - split; [exact Hc|]. rewrite Hp. destruct Hn2 as [Hn2|(evs & call & value & -> & He & Hn2)].
    + left. destruct (counts_app (pushed st) new) as (-> & -> & _). lia.
    + right. exists (pushed st ++ evs), call, value. rewrite <- app_assoc.
      split; [reflexivity|]. split; [exact He|].
      destruct (counts_app (pushed st) evs) as (-> & -> & _). lia.
Qed.

Lemma runAgentLoop_tidy fuel log0 start st :
  runAgentLoop estimateMessageChars P fuel log0 start = Some st ->
  exists st',
    (tidy st' /\ st = push (agent_end (currentMessages st')) st') \/
    (exists err, thrown err st' /\ st = push (agent_error err) st').
Proof.
  apply (runAgentLoop_invariant estimateMessageChars P tidy thrown).
  - intros s H. exact H.
  - intros s i H. exact H.
  - intros s f i _ H. exact H.
  - apply tidy_turn.
  - unfold tidy, counted. cbn. repeat split; try lia.
    destruct (maxTurns P) as [q| | |]; cbn; auto. lia.
Qed.

End LoopEvents.

Section LoopOutcome.

Variable estimateMessageChars : Message -> Z.
Variable P : AgentLoopParams.

(** X1.  With a [maxTurns] that is a finite number up to 2^53 or
    [-Infinity] the loop returns.  Whenever it returns, whatever [maxTurns] is, the
    events it pushed end with exactly one terminal event: [agent_end]
    with the final messages, or [agent_error]. *)
Theorem runAgentLoop_one_terminal_event (log0 : Guard.GuardedLog) (start : nat) :
  (bounded (maxTurns P) = true ->
   exists fuel st, runAgentLoop estimateMessageChars P fuel log0 start = Some st) /\
  forall fuel st,
    runAgentLoop estimateMessageChars P fuel log0 start = Some st ->
    exists evs last,
      pushed st = evs ++ [last] /\
      (forall e, In e evs -> isTerminal e = false) /\
      (last = agent_end (currentMessages st) \/ exists err, last = agent_error err).
Proof.
  split.
  - intros Hb. eexists. apply (runAgentLoop_returns estimateMessageChars P Hb).
  - intros fuel st Hrun.
    destruct (runAgentLoop_tidy estimateMessageChars P fuel log0 start st Hrun)
      as (st' & [[[(T1 & _) _] ->]|(err & [(T1 & _) _] & ->)]);
      exists (pushed st'); eexists; (split; [reflexivity|]);
      (split; [apply terminals_none; exact T1|eauto]).
Qed.

(** X2.  [totalToolCalls] counts the tool executions that ended: it is
    the number of [tool_execution_end] events pushed; skipped calls are
    not counted.  Every execution started is ended, and the two kinds
    of event are as many, unless the loop was left by a tool that
    rejected with [undefined] or [null]: the start event of that call
    is then the last event before [agent_error] and has no end event,
    and the call is not counted.  A run that ends with [agent_end] has
    as many of the one as of the other.  The loop returns when
    [maxTurns] is a finite number up to 2^53 or [-Infinity]. *)
Theorem totalToolCalls_counts_executions (log0 : Guard.GuardedLog) (start : nat) :
  (bounded (maxTurns P) = true ->
   exists fuel st, runAgentLoop estimateMessageChars P fuel log0 start = Some st) /\
  forall fuel st,
    runAgentLoop estimateMessageChars P fuel log0 start = Some st ->
    let started := List.length (filter isToolStart (pushed st)) in
    let ended := List.length (filter isToolEnd (pushed st)) in
    totalToolCalls st = Z.of_nat ended /\
    (started = ended \/
     started = S ended /\
     exists evs id name args value,
       pushed st = evs ++ [tool_execution_start id name args;
                           agent_error (messageOfNullish value)]) /\
    (forall evs msgs, pushed st = evs ++ [agent_end msgs] -> started = ended).
Proof.
  split.
  - intros Hb. eexists. apply (runAgentLoop_returns estimateMessageChars P Hb).
  - intros fuel st Hrun. cbv zeta.
    assert (Hlast : forall (l : list AgentEvent) e,
              filter isToolEnd (l ++ [e]) = filter isToolEnd l ++ filter isToolEnd [e] /\
              filter isToolStart (l ++ [e]) = filter isToolStart l ++ filter isToolStart [e])
      by (intros l e; rewrite !filter_app; auto).
    destruct (runAgentLoop_tidy estimateMessageChars P fuel log0 start st Hrun)
      as (st' & [[[(_ & T3 & _) T2] ->]|(err & [(_ & T3 & _) T2] & ->)]);
      cbn [push pushed totalToolCalls];
      match goal with |- context [pushed st' ++ [?e]] =>
        destruct (Hlast (pushed st') e) as [Ee Es] end;
      rewrite ?Ee, ?Es; cbn [filter isToolEnd isToolStart]; rewrite !app_nil_r;
      fold (ends (pushed st')); fold (starts (pushed st')).
    + split; [exact T3|]. split; [left; exact T2|]. intros _ _ _. exact T2.
    + split; [exact T3|]. split.
      * destruct T2 as [T2|T2]; [left; exact T2|right].
        split; [apply (unmatchedStart_counts err); exact T2|].
        destruct T2 as (evs & call & value & -> & -> & _).
        exists evs, (tc_id call), (tc_name call), (tc_input call), value.
        rewrite <- app_assoc. reflexivity.
      * intros evs msgs Heq. apply app_inj_tail in Heq as [_ Heq]. discriminate.
Qed.

(** X3.  The turn counter of the result is never negative.  For a finite
    [maxTurns] it is at most [maxTurns] rounded up to an integer, and
    zero when that is negative: a turn begins while the counter is
    below [maxTurns], so [maxTurns = 2.5] allows a third turn, and a
    turn retried after a context overflow is counted once.  [NaN] and
    [Infinity] bound nothing; the loop returns when [maxTurns] is a
    finite number up to 2^53 or [-Infinity]. *)
Theorem turns_within_maxTurns (log0 : Guard.GuardedLog) (start : nat) :
  (bounded (maxTurns P) = true ->
   exists fuel st, runAgentLoop estimateMessageChars P fuel log0 start = Some st) /\
  forall fuel st,
    runAgentLoop estimateMessageChars P fuel log0 start = Some st ->
    (0 <= turns st)%Z /\
    match maxTurns P with
    | Finite q => (turns st <= Z.max 0 (Qceiling q))%Z
    | NegInfinity => turns st = 0%Z
    | NaN => True
    | Infinity => True
    end.
Proof.
  split.
  - intros Hb. eexists. apply (runAgentLoop_returns estimateMessageChars P Hb).
  - intros fuel st Hrun.
    destruct (runAgentLoop_tidy estimateMessageChars P fuel log0 start st Hrun)
      as (st' & [[[(_ & _ & T4 & T5) _] ->]|(err & [(_ & _ & T4 & T5) _] & ->)]);
      cbn [push turns]; (split; [exact T4|exact T5]).
Qed.

(** X4.  The provider call of one pass: besides text deltas it pushes at
    most two [retry] events, each for a rate-limit error and numbered
    by the failed attempt, 1 or 2. *)
Theorem provider_call_retries_rate_limits (msgs : list Message) (st : LoopState) :
  exists new,
    pushed (snd (retryAsync P (LLM_ATTEMPTS - 1) 1 msgs st)) = pushed st ++ new /\
    (List.length (filter isRetry new) <= 2)%nat /\
    forall e, In e new ->
      (exists delta, e = message_delta delta) \/
      (exists attempt err,
          e = retry attempt err /\ Errors.isRateLimitError err = true /\
          (attempt = 1 \/ attempt = 2)%Z).
Proof.
  destruct (retryAsync_events P (LLM_ATTEMPTS - 1) 1 msgs st) as (new & Hp & Hc & Hn).
  exists new. split; [exact Hp|]. split; [exact Hn|].
  intros e Hin. rewrite Forall_forall in Hc. specialize (Hc e Hin).
  destruct e; try contradiction.
  - left. eexists. reflexivity.
  - right. destruct Hc as [Hr Hb]. exists attempt, error. cbn in Hb.
    split; [reflexivity|]. split; [exact Hr|lia].
Qed.

(** X5.  With no turn allowed, or aborted before the first pass, the loop
    calls neither the provider nor a tool and appends nothing; the
    steering messages it drained on entry are not delivered. *)
Theorem no_pass_without_turns_or_after_abort
  (fuel : nat) (log0 : Guard.GuardedLog) (start : nat) :
  reached 0 (maxTurns P) = true \/ aborted P (S start) = true ->
  exists st,
    runAgentLoop estimateMessageChars P fuel log0 start = Some st /\
    pushed st = [agent_end (initialMessages P)] /\
    log st = log0 /\
    currentMessages st = initialMessages P /\
    turns st = 0%Z /\ totalToolCalls st = 0%Z /\
    pendingMessages st = getSteeringMessages P start.
Proof.
  intros Hstop. unfold runAgentLoop, steeringNow.
  set (st0 := setPendingMessages _ _).
  assert (Hinner : exists st1,
             innerLoop estimateMessageChars P fuel true st0 = Some (BreakOuter st1) /\
             (st1 = st0 \/ st1 = tick st0)).
  { destruct fuel; cbn [innerLoop orb];
      (destruct (reached (turns st0) (maxTurns P)) eqn:Hr; [exists st0; auto|]);
      change (turns st0) with 0%Z in Hr;
      (destruct Hstop as [Hmax|Hab]; [congruence|]);
      unfold isAborted; cbn [instant st0 setPendingMessages tick initialState];
      rewrite Hab; exists (tick st0); auto. }
  destruct Hinner as (st1 & Hinner & Hst1).
  assert (Hout : outerLoop estimateMessageChars P fuel st0 = Some (st1, None)).
  { destruct fuel; cbn [outerLoop]; rewrite Hinner; reflexivity. }
  rewrite Hout. eexists. split; [reflexivity|].
  destruct Hst1 as [-> | ->]; cbn; repeat split.
Qed.

End LoopOutcome.

Section LoopSync.

Variable estimateMessageChars : Message -> Z.
Variable P : AgentLoopParams.

Hypothesis steering_plain : forall i, forallb plain (getSteeringMessages P i) = true.
Hypothesis followUp_plain :
  forall f i, getFollowUpMessages P = Some f -> forallb plain (f i) = true.

(** The log and [currentMessages] have grown by the same messages
    since the loop began on [log0]. *)
Definition synced (log0 : Guard.GuardedLog) (st : LoopState) : Prop :=
  exists added,
    Guard.transcript (log st) = Guard.transcript log0 ++ added /\
    currentMessages st = initialMessages P ++ added.

Lemma synced_turn log0 h st :
  clean st -> synced log0 st ->
  synced log0 (resultState (turn estimateMessageChars P h st)).
Proof.
  intros Hclean (added & Ht & Hc).
  destruct (turn_clean estimateMessageChars P steering_plain h st Hclean)
    as (new & Ht' & Hc' & _).
  exists (added ++ new). rewrite Ht', Hc', Ht, Hc, <- !app_assoc. auto.
Qed.

(** The loop keeps the log clean, and in step with [currentMessages],
    until a pass throws. *)
Lemma runAgentLoop_synced fuel log0 start st :
  Guard.pending log0 = [] ->
  runAgentLoop estimateMessageChars P fuel log0 start = Some st ->
  exists st',
    synced log0 st' /\ log st = log st' /\ currentMessages st = currentMessages st'.
Proof.
  intros Hp Hrun.
  destruct (runAgentLoop_invariant estimateMessageChars P
              (fun s => clean s /\ synced log0 s) (fun _ s => synced log0 s))
    with (fuel := fuel) (log0 := log0) (start := start) (st := st)
    as (st' & [[[_ Hs] ->]|(err & Hs & ->)]).
  - intros s H. exact H.
  - intros s i [[Hc1 _] Hs]. split; [split; [exact Hc1|apply steering_plain]|exact Hs].
  - intros s f i Hf [[Hc1 _] Hs].
    split; [split; [exact Hc1|apply (followUp_plain f i Hf)]|exact Hs].
  - intros h s [Hclean Hs] _.
    pose proof (synced_turn log0 h s Hclean Hs) as Hs'.
    destruct (turn_clean estimateMessageChars P steering_plain h s Hclean)
      as (new & _ & _ & Hcl).
    destruct (turn estimateMessageChars P h s); cbn [resultState] in Hs';
      [split; [apply Hcl|exact Hs']|exact Hs'].
  - split; [split; [exact Hp|reflexivity]|]. exists []. rewrite !app_nil_r. auto.
  - exact Hrun.
  - exists st'. auto.
  - exists st'. auto.
Qed.

(** X6.  The messages the loop persists are the messages it adds to its
    working history: started on a log with nothing pending, with
    steering and follow-up messages that are plain user messages, the
    loop ends with the same sequence added to the transcript and to
    [currentMessages].  It returns when [maxTurns] is a finite number
    up to 2^53 or [-Infinity]. *)
Theorem transcript_follows_currentMessages (log0 : Guard.GuardedLog) (start : nat) :
  Guard.pending log0 = [] ->
  (bounded (maxTurns P) = true ->
   exists fuel st, runAgentLoop estimateMessageChars P fuel log0 start = Some st) /\
  forall fuel st,
    runAgentLoop estimateMessageChars P fuel log0 start = Some st ->
    exists added,
      Guard.transcript (log st) = Guard.transcript log0 ++ added /\
      currentMessages st = initialMessages P ++ added.
Proof.
  intros Hp. split.
  - intros Hb. eexists. apply (runAgentLoop_returns estimateMessageChars P Hb).
  - intros fuel st Hrun.
    destruct (runAgentLoop_synced fuel log0 start st Hp Hrun)
      as (st' & (added & Ht & Hc) & -> & ->).
    exists added. auto.
Qed.

End LoopSync.

Section RunOutcome.

Variable estimateMessageChars : Message -> Z.
Variable E : Agent.RunEnv.

Lemma loopError_none evs :
  (forall e, In e evs -> isTerminal e = false) -> Agent.loopError evs = None.
Proof.
  unfold Agent.loopError. intros H.
  induction evs as [|e evs IH] using rev_ind; [reflexivity|].
  rewrite fold_left_app. cbn [fold_left]. rewrite IH.
  - specialize (H e ltac:(apply in_or_app; right; left; reflexivity)).
    destruct e; try reflexivity; discriminate.
  - intros e' Hin. apply H. apply in_or_app. left. exact Hin.
Qed.

Lemma loopError_last evs last :
  (forall e, In e evs -> isTerminal e = false) ->
  Agent.loopError (evs ++ [last])
  = match last with agent_error err => Some err | _ => None end.
Proof.
  intros H. pose proof (loopError_none evs H) as Hn. unfold Agent.loopError in *.
  rewrite fold_left_app, Hn. destruct last; reflexivity.
Qed.

(** A run returns when [maxTurns] is a finite number up to 2^53 or
    [-Infinity]. *)
Lemma run_returns log0 userMessage :
  bounded (Agent.agentMaxTurns E) = true ->
  exists fuel r, Agent.run estimateMessageChars E fuel log0 userMessage = Some r.
Proof.
  intros Hb. exists (S (turnsLeft (Agent.agentMaxTurns E) 0)).
  unfold Agent.run, Agent.runBody.
  destruct (Agent.setupError E) as [e|]; [eexists; reflexivity|].
  match goal with |- context [Agent.prepareMessagesForRun E 1 ?m] =>
    destruct (Agent.prepareMessagesForRun E 1 m) as [summary summaryMessage|e] end;
    [|eexists; reflexivity].
  match goal with |- context [runAgentLoop _ ?p _ ?l ?i] =>
    destruct (runAgentLoop_returns estimateMessageChars p Hb l i) as (st & Hrun) end.
  cbn [Agent.loopParams maxTurns] in Hrun. rewrite Hrun. eexists. reflexivity.
Qed.

(** X7.  How [run] settles, read off the events it emits.  A rejected run
    ends with [agent_error]; when the loop itself failed, that event is
    emitted twice, by the loop and by [run]'s [catch].  A fulfilled run
    ends with [agent_end], or with an [agent_error] whose message is
    empty: [if (loopError)] takes the empty message for no error.  The
    run returns when [maxTurns] is a finite number up to 2^53 or
    [-Infinity]. *)
Theorem run_outcome_in_events (log0 : Guard.GuardedLog) (userMessage : string) :
  (bounded (Agent.agentMaxTurns E) = true ->
   exists fuel r, Agent.run estimateMessageChars E fuel log0 userMessage = Some r) /\
  forall fuel outcome log1 events,
    Agent.run estimateMessageChars E fuel log0 userMessage = Some (outcome, log1, events) ->
    exists body,
      events = agent_start :: body /\
      match outcome with
      | Agent.RunRejected e =>
          body = [agent_error e] \/
          exists evs, body = evs ++ [agent_error e; agent_error e] /\ e <> EmptyString /\
                      forall x, In x evs -> isTerminal x = false
      | Agent.Fulfilled r =>
          exists evs last,
            body = evs ++ [last] /\
            (forall x, In x evs -> isTerminal x = false) /\
            ((exists msgs, last = agent_end msgs) \/ last = agent_error EmptyString)
      end.
Proof.
  split; [apply run_returns|].
  intros fuel outcome log1 events. unfold Agent.run, Agent.runBody.
  destruct (Agent.setupError E) as [e|].
  { intros [= <- <- <-]. eexists. split; [reflexivity|]. left. reflexivity. }
  match goal with |- context [Agent.prepareMessagesForRun E 1 ?m] =>
    destruct (Agent.prepareMessagesForRun E 1 m) as [summary summaryMessage|e] end.
  2: { intros [= <- <- <-]. eexists. split; [reflexivity|]. left. reflexivity. }
  match goal with |- context [runAgentLoop _ ?p ?f ?l ?i] =>
    destruct (runAgentLoop estimateMessageChars p f l i) as [st|] eqn:Hrun end;
    [|discriminate].
  destruct (runAgentLoop_tidy estimateMessageChars _ _ _ _ _ Hrun) as (st' & Hst).
  assert (Hlast : exists last,
             st = push last st' /\ (forall x, In x (pushed st') -> isTerminal x = false) /\
             ((exists msgs, last = agent_end msgs) \/ exists err, last = agent_error err)).
  { destruct Hst as [[[(T1 & _) _] ->]|(err & [(T1 & _) _] & ->)]; eexists;
      (split; [reflexivity|]); (split; [apply terminals_none; exact T1|]); eauto. }
  destruct Hlast as (last & -> & Hquiet & Hlast). cbn [push pushed].
  set (evs := pushed st') in *. rewrite (loopError_last evs last Hquiet).
  destruct Hlast as [[msgs ->] | [err ->]].
  - intros [= <- <- <-]. eexists. split; [reflexivity|]. exists evs. eexists.
    split; [reflexivity|]. split; [exact Hquiet|]. left. eexists. reflexivity.
  - destruct err as [|c err]; cbn [Guard.truthy].
    + intros [= <- <- <-]. eexists. split; [reflexivity|]. exists evs. eexists.
      split; [reflexivity|]. split; [exact Hquiet|]. right. reflexivity.
    + intros [= <- <- <-]. eexists. split; [reflexivity|].
      right. exists evs. split; [symmetry; apply (app_assoc evs [_] [_])|].
      split; [discriminate|exact Hquiet].
Qed.

End RunOutcome.

Section GuardSequences.

(** A sequence of guarded appends, each with the clock value it
    reads. *)
Definition appendAll (s : Guard.GuardedLog) (calls : list (Z * Message)) : Guard.GuardedLog :=
  fold_left (fun s c => Guard.append (fst c) s (snd c)) calls s.

(** The ids the guard tracks for a message: those of its [tool_use]
    blocks that are not empty. *)
Definition trackedIds (m : Message) : list string :=
  map fst (Guard.extractToolUsesFromAssistant m).

(** Every tracked id of a message is answered later in the sequence. *)
Fixpoint pairedTracked (l : list Message) : bool :=
  match l with
  | [] => true
  | a :: later => forallb (fun id => Guard.answered id later) (trackedIds a)
                  && pairedTracked later
  end.

(** The message a flush appends: a user message made of synthetic
    results only. *)
Definition isSynthetic (m : Message) : Prop :=
  role m = user /\
  exists kvs, kvs <> [] /\
    content m = Blocks (map (fun kv => tool_result (fst kv) (snd kv) Guard.MISSING_TOOL_RESULT)
                            kvs).

(** [added] is [msgs] with synthetic messages inserted. *)
Inductive repaired : list Message -> list Message -> Prop :=
| repaired_nil : repaired [] []
| repaired_keep m msgs added : repaired msgs added -> repaired (m :: msgs) (m :: added)
| repaired_insert x msgs added :
    isSynthetic x -> repaired msgs added -> repaired msgs (x :: added).

Definition keys (p : Guard.Pending) : list string := map fst p.

Lemma pendingSet_contains id nm p : In id (keys (Guard.pendingSet id nm p)).
Proof.
  unfold keys. induction p as [|[k v] p IH]; cbn [Guard.pendingSet map fst In]; [auto|].
  destruct (String.eqb_spec k id) as [->|Hne]; cbn [map fst In]; auto.
Qed.

Lemma pendingSet_keeps id nm p k : In k (keys p) -> In k (keys (Guard.pendingSet id nm p)).
Proof.
  unfold keys. induction p as [|[k0 v0] p IH]; cbn [Guard.pendingSet map fst In]; [intros []|].
  destruct (String.eqb_spec k0 id) as [->|Hne]; cbn [map fst In]; intros [H|H]; auto.
Qed.

Lemma fold_set_keeps calls : forall p k,
  In k (keys p) ->
  In k (keys (fold_left (fun p c => Guard.pendingSet (fst c) (snd c) p) calls p)).
Proof.
  induction calls as [|c calls IH]; intros p k H; cbn [fold_left]; [exact H|].
  apply IH, pendingSet_keeps, H.
Qed.

Lemma fold_set_contains calls : forall p k,
  In k (map fst calls) ->
  In k (keys (fold_left (fun p c => Guard.pendingSet (fst c) (snd c) p) calls p)).
Proof.
  induction calls as [|c calls IH]; intros p k; cbn [fold_left map In]; [intros []|].
  intros [<-|H]; [apply fold_set_keeps, pendingSet_contains|apply IH, H].
Qed.

Lemma fold_delete_keeps ids : forall p k,
  In k (keys p) -> ~ In k ids ->
  In k (keys (fold_left (fun p id => Guard.pendingDelete id p) ids p)).
Proof.
  induction ids as [|id ids IH]; intros p k Hin Hnot; cbn [fold_left]; [exact Hin|].
  apply IH; [|intros H; apply Hnot; right; exact H].
  unfold keys, Guard.pendingDelete in *. rewrite in_map_iff in *.
  destruct Hin as ([k' v'] & <- & Hin). exists (k', v'). split; [reflexivity|].
  apply filter_In. split; [exact Hin|]. cbn [fst].
  destruct (String.eqb_spec k' id) as [->|_]; [|reflexivity].
  exfalso. apply Hnot. left. reflexivity.
Qed.

Lemma extract_results_user m :
  Guard.extractToolResultIds m <> [] -> trackedIds m = [].
Proof.
  unfold Guard.extractToolResultIds, trackedIds, Guard.extractToolUsesFromAssistant.
  destruct (role m), (content m); intros H; try reflexivity; congruence.
Qed.

Lemma extract_results_answer m id :
  In id (Guard.extractToolResultIds m) -> Guard.answered id [m] = true.
Proof.
  intros Hin. unfold Guard.answered. cbn [existsb]. rewrite orb_false_r.
  apply existsb_eqb_in. revert Hin.
  unfold Guard.extractToolResultIds, Guard.toolResultIds.
  destruct (role m); [|intros []]. destruct (content m) as [s|bs]; [intros []|].
  induction bs as [|b bs IH]; [intros []|]. cbn [flat_map]. intros H.
  apply in_app_or in H. apply in_or_app. destruct H as [H|H]; [left|right; apply IH, H].
  destruct b; try destruct H. destruct (Guard.truthy tool_use_id); [exact H|destruct H].
Qed.

(** The two ways of the patched [append]. *)
Lemma append_cases t s m :
  (Guard.extractToolResultIds m <> [] /\
   Guard.append t s m
   = {| Guard.transcript := Guard.transcript s ++ [m];
        Guard.pending := fold_left (fun p id => Guard.pendingDelete id p)
                                   (Guard.extractToolResultIds m) (Guard.pending s) |}) \/
  (Guard.extractToolResultIds m = [] /\
   Guard.append t s m
   = {| Guard.transcript := Guard.transcript (Guard.flushPendingToolResults t s) ++ [m];
        Guard.pending := fold_left (fun p c => Guard.pendingSet (fst c) (snd c) p)
                                   (Guard.extractToolUsesFromAssistant m) [] |}).
Proof.
  unfold Guard.append.
  destruct (Guard.extractToolResultIds m) as [|r rs] eqn:Hr; cbn [Guard.isEmpty negb].
  - right. split; [reflexivity|]. rewrite !flush_spec.
    destruct s as [T p]. cbn [Guard.pending Guard.transcript].
    destruct p as [|kv p]; cbn [Guard.isEmpty negb andb]; [reflexivity|].
    destruct (Guard.extractToolUsesFromAssistant m); reflexivity.
  - left. split; [discriminate|reflexivity].
Qed.

Lemma synthetic_flush t kv p :
  isSynthetic {| role := user;
                 content := Blocks (map (fun kv => tool_result (fst kv) (snd kv)
                                                               Guard.MISSING_TOOL_RESULT)
                                        (kv :: p));
                 timestamp := t |}.
Proof. split; [reflexivity|]. exists (kv :: p). split; [discriminate|reflexivity]. Qed.

Lemma synthetic_tracked x : isSynthetic x -> trackedIds x = [].
Proof.
  intros [Hr _]. unfold trackedIds, Guard.extractToolUsesFromAssistant. rewrite Hr. reflexivity.
Qed.

(** What a flush adds. *)
Lemma flush_added t s :
  exists added,
    Guard.transcript (Guard.flushPendingToolResults t s) = Guard.transcript s ++ added /\
    Guard.pending (Guard.flushPendingToolResults t s) = [] /\
    pairedTracked added = true /\ repaired [] added /\
    forall id, In id (keys (Guard.pending s)) -> Guard.answered id added = true.
Proof.
  destruct (flush_answers t s) as (added & Ht & Hp & _ & Hans).
  rewrite flush_spec in *. destruct (Guard.pending s) as [|kv p] eqn:Hpend.
  - exists []. rewrite app_nil_r.
    refine (conj eq_refl (conj Hpend (conj eq_refl (conj repaired_nil _)))). intros id [].
  - cbn [Guard.transcript] in Ht. apply app_inv_head in Ht. subst added.
    eexists. split; [reflexivity|]. split; [reflexivity|]. split; [reflexivity|].
    split; [apply repaired_insert; [apply synthetic_flush|constructor]|].
    intros id Hin. apply Hans. unfold Guard.getPendingIds. rewrite Hpend. exact Hin.
Qed.

Lemma repaired_app a b c d : repaired a b -> repaired c d -> repaired (a ++ c) (b ++ d).
Proof. induction 1; intros H2; cbn [app]; [exact H2| |]; constructor; auto. Qed.

Lemma pairedTracked_app l1 l2 :
  pairedTracked l1 = true -> pairedTracked l2 = true -> pairedTracked (l1 ++ l2) = true.
Proof.
  intros H1 H2. induction l1 as [|a l1 IH]; [exact H2|].
  cbn [app pairedTracked] in *. apply andb_true_iff in H1 as [Ha Hl].
  apply andb_true_iff. split; [|apply IH; exact Hl].
  rewrite forallb_forall in *. intros id Hin. apply answered_app. apply Ha. exact Hin.
Qed.

(** Any sequence of guarded appends followed by a flush. *)
Lemma appendAll_flush calls : forall s t,
  let s1 := Guard.flushPendingToolResults t (appendAll s calls) in
  exists added,
    Guard.transcript s1 = Guard.transcript s ++ added /\
    Guard.pending s1 = [] /\
    pairedTracked added = true /\
    repaired (map snd calls) added /\
    forall id, In id (keys (Guard.pending s)) -> Guard.answered id added = true.
Proof.
  induction calls as [|[t0 m] calls IH]; intros s t; cbv zeta.
  - cbn [appendAll fold_left map]. apply flush_added.
  - cbn [appendAll fold_left fst snd map]. fold (appendAll (Guard.append t0 s m) calls).
    destruct (IH (Guard.append t0 s m) t) as (added & Ht & Hp & Hpair & Hrep & Hans).
    cbv zeta in Ht, Hp. rewrite Ht, Hp.
    destruct (append_cases t0 s m) as [[Hres Happ]|[Hres Happ]]; rewrite Happ in *;
      cbn [Guard.transcript Guard.pending] in *.
    + exists (m :: added). rewrite <- app_assoc. split; [reflexivity|].
      split; [reflexivity|]. split; [|split; [constructor; exact Hrep|]].
      * cbn [pairedTracked]. rewrite (extract_results_user m Hres). exact Hpair.
      * intros id Hin.
        destruct (in_dec string_dec id (Guard.extractToolResultIds m)) as [Hr|Hr].
        -- apply (answered_app id [m] added). apply extract_results_answer, Hr.
        -- apply (answered_app_r id [m] added). apply Hans.
           apply fold_delete_keeps; assumption.
    + destruct (flush_added t0 s) as (fl & Hft & _ & Hfp & Hfr & Hfa).
      rewrite Hft. exists (fl ++ m :: added). rewrite <- !app_assoc.
      split; [reflexivity|]. split; [reflexivity|]. split; [|split].
      * apply pairedTracked_app; [exact Hfp|]. cbn [pairedTracked]. rewrite Hpair, andb_true_r.
        apply forallb_forall. intros id Hin. apply Hans.
        apply fold_set_contains. exact Hin.
      * apply (repaired_app [] fl (m :: map snd calls) (m :: added)); [exact Hfr|].
        constructor. exact Hrep.
      * intros id Hin. apply answered_app. apply Hfa. exact Hin.
Qed.

Lemma pairedTracked_spec l :
  pairedTracked l = true ->
  forall pre a post id name input bs,
    l = pre ++ a :: post -> role a = assistant -> content a = Blocks bs ->
    In (tool_use id name input) bs -> id <> EmptyString ->
    exists u bs' nm c,
      In u post /\ role u = user /\ content u = Blocks bs' /\ In (tool_result id nm c) bs'.
Proof.
  intros Hp pre. revert l Hp. induction pre as [|x pre IH]; intros l Hp a post id name input bs
    -> Hr Hc Hin Hid.
  - cbn [app pairedTracked] in Hp. apply andb_true_iff in Hp as [Ha _].
    rewrite forallb_forall in Ha.
    assert (Ht : In id (trackedIds a)).
    { unfold trackedIds, Guard.extractToolUsesFromAssistant. rewrite Hr, Hc.
      apply in_map_iff. exists (id, Some name). split; [reflexivity|].
      apply in_flat_map. exists (tool_use id name input). split; [exact Hin|].
      destruct id; [congruence|]. left. reflexivity. }
    specialize (Ha id Ht). unfold Guard.answered in Ha.
    apply existsb_exists in Ha as (u & Hu & Hex). apply existsb_eqb_in in Hex.
    unfold Guard.toolResultIds in Hex.
    destruct (role u) eqn:Hru; [|destruct Hex].
    destruct (content u) as [s|bs'] eqn:Hcu; [destruct Hex|].
    apply in_flat_map in Hex as (b & Hb & Hidb).
    destruct b as [?|? ? ?|rid rname rcontent]; [destruct Hidb|destruct Hidb|].
    destruct Hidb as [<-|[]].
    exists u, bs', rname, rcontent. auto.
  - cbn [app pairedTracked] in Hp. apply andb_true_iff in Hp as [_ Hl].
    apply (IH _ Hl a post id name input bs eq_refl Hr Hc Hin Hid).
Qed.

(** X8.  Whatever is appended through the guard, once the pending results
    are flushed every [tool_use] block with a non-empty id, in an
    assistant message added since, has a [tool_result] block with its
    id in a later user message, and so has every id that was pending
    at the start. *)
Theorem guard_repairs_every_tracked_call
  (s : Guard.GuardedLog) (calls : list (Z * Message)) (t : Z) :
  let s1 := Guard.flushPendingToolResults t (appendAll s calls) in
  Guard.pending s1 = [] /\
  exists added,
    Guard.transcript s1 = Guard.transcript s ++ added /\
    (forall pre a post id name input bs,
        added = pre ++ a :: post -> role a = assistant -> content a = Blocks bs ->
        In (tool_use id name input) bs -> id <> EmptyString ->
        exists u bs' nm c,
          In u post /\ role u = user /\ content u = Blocks bs' /\
          In (tool_result id nm c) bs') /\
    (forall id, In id (Guard.getPendingIds s) -> Guard.answered id added = true).
Proof.
  cbv zeta. destruct (appendAll_flush calls s t) as (added & Ht & Hp & Hpair & _ & Hans).
  split; [exact Hp|]. exists added. split; [exact Ht|]. split; [|exact Hans].
  apply pairedTracked_spec. exact Hpair.
Qed.

(** X9.  The guard neither drops, reorders nor alters what is appended: the
    transcript grows by the appended messages, in order, with nothing
    in between but the user messages of synthetic results. *)
Theorem guard_keeps_appended_messages
  (s : Guard.GuardedLog) (calls : list (Z * Message)) (t : Z) :
  exists added,
    Guard.transcript (Guard.flushPendingToolResults t (appendAll s calls))
    = Guard.transcript s ++ added /\
    repaired (map snd calls) added.
Proof.
  destruct (appendAll_flush calls s t) as (added & Ht & _ & _ & Hrep & _).
  exists added. split; [exact Ht|exact Hrep].
Qed.

End GuardSequences.

Section GuardPending.

Lemma pendingSet_keys_eq id nm p :
  keys (Guard.pendingSet id nm p)
  = if existsb (String.eqb id) (keys p) then keys p else keys p ++ [id].
Proof.
  unfold keys. induction p as [|[k v] p IH]; cbn [Guard.pendingSet map fst existsb]; [reflexivity|].
  rewrite (String.eqb_sym id k).
  destruct (String.eqb_spec k id) as [->|Hne]; cbn [map fst orb]; [reflexivity|].
  rewrite IH. destruct (existsb (String.eqb id) (map fst p)); reflexivity.
Qed.

Lemma pendingSet_distinct id nm p :
  id <> EmptyString ->
  NoDup (keys p) /\ ~ In EmptyString (keys p) ->
  NoDup (keys (Guard.pendingSet id nm p)) /\ ~ In EmptyString (keys (Guard.pendingSet id nm p)).
Proof.
  intros Hid [Hnd Hne]. rewrite pendingSet_keys_eq.
  destruct (existsb (String.eqb id) (keys p)) eqn:Hex; [auto|].
  split.
  - apply NoDup_app; [exact Hnd|constructor; [intros []|constructor]|].
    intros x Hx [<-|[]]. apply existsb_eqb_in in Hx. congruence.
  - intros Hin. apply in_app_or in Hin as [Hin|[Heq|[]]]; [auto|congruence].
Qed.

Lemma extract_ids_nonempty m id : In id (trackedIds m) -> id <> EmptyString.
Proof.
  unfold trackedIds, Guard.extractToolUsesFromAssistant.
  destruct (role m); [intros []|]. destruct (content m) as [s|bs]; [intros []|].
  rewrite in_map_iff. intros ([k v] & <- & Hin). apply in_flat_map in Hin as (b & _ & Hb).
  destruct b as [?|bid ? ?|? ? ?]; try destruct Hb.
  destruct bid; cbn in Hb; [destruct Hb|]. destruct Hb as [[= <- _]|[]]. discriminate.
Qed.

Lemma fold_set_distinct calls : forall p,
  (forall id, In id (map fst calls) -> id <> EmptyString) ->
  NoDup (keys p) /\ ~ In EmptyString (keys p) ->
  let p' := fold_left (fun p c => Guard.pendingSet (fst c) (snd c) p) calls p in
  NoDup (keys p') /\ ~ In EmptyString (keys p').
Proof.
  induction calls as [|c calls IH]; intros p Hids Hp; cbn [fold_left]; [exact Hp|].
  apply IH; [intros id Hin; apply Hids; right; exact Hin|].
  apply pendingSet_distinct; [apply Hids; left; reflexivity|exact Hp].
Qed.

Lemma pendingDelete_distinct id p :
  NoDup (keys p) /\ ~ In EmptyString (keys p) ->
  NoDup (keys (Guard.pendingDelete id p)) /\ ~ In EmptyString (keys (Guard.pendingDelete id p)).
Proof.
  unfold keys, Guard.pendingDelete. intros [Hnd Hne]. split.
  - induction p as [|kv p IH]; cbn [filter map]; [constructor|].
    inversion Hnd as [|? ? Hnot Hnd']; subst.
    assert (Hsub : forall x, In x (map fst (filter (fun kv0 => negb (fst kv0 =? id)%string) p))
                             -> In x (map fst p)).
    { intros x Hx. rewrite in_map_iff in *. destruct Hx as (y & Hy & Hin).
      apply filter_In in Hin as [Hin _]. eauto. }
    destruct (negb (fst kv =? id)%string); cbn [map].
    + constructor; [intros Hx; apply Hnot, Hsub, Hx|].
      apply IH; [exact Hnd'|]. intros H. apply Hne. right. exact H.
    + apply IH; [exact Hnd'|]. intros H. apply Hne. right. exact H.
  - intros Hin. apply Hne. rewrite in_map_iff in *. destruct Hin as (y & Hy & Hin).
    apply filter_In in Hin as [Hin _]. eauto.
Qed.

(** X10.  The pending ids are pairwise distinct and none is empty: a
    [tool_use] block with an empty id is never tracked, and an id
    used twice is tracked once. *)
Theorem pending_ids_distinct_and_nonempty (s : Guard.GuardedLog) (calls : list (Z * Message)) :
  NoDup (Guard.getPendingIds s) ->
  ~ In EmptyString (Guard.getPendingIds s) ->
  NoDup (Guard.getPendingIds (appendAll s calls)) /\
  ~ In EmptyString (Guard.getPendingIds (appendAll s calls)).
Proof.
  unfold Guard.getPendingIds. fold (keys (Guard.pending s)).
  revert s. induction calls as [|[t m] calls IH]; intros s Hnd Hne; [split; assumption|].
  cbn [appendAll fold_left fst snd]. fold (appendAll (Guard.append t s m) calls).
  assert (Hstep : NoDup (keys (Guard.pending (Guard.append t s m))) /\
                  ~ In EmptyString (keys (Guard.pending (Guard.append t s m)))).
  { destruct (append_cases t s m) as [[_ ->]|[_ ->]]; cbn [Guard.pending].
    - generalize (Guard.extractToolResultIds m) as ids. intros ids.
      assert (Hp : NoDup (keys (Guard.pending s)) /\ ~ In EmptyString (keys (Guard.pending s)))
        by (split; assumption).
      revert Hp. generalize (Guard.pending s) as p. induction ids as [|id ids IHi];
        intros p Hp; cbn [fold_left]; [exact Hp|].
      apply IHi, pendingDelete_distinct, Hp.
    - apply fold_set_distinct.
      + intros id Hin. apply (extract_ids_nonempty m id Hin).
      + split; [constructor|intros []]. }
  destruct Hstep as [H1 H2]. apply (IH _ H1 H2).
Qed.

End GuardPending.

Section LoopLog.

Variable estimateMessageChars : Message -> Z.
Variable P : AgentLoopParams.

Hypothesis steering_plain : forall i, forallb plain (getSteeringMessages P i) = true.
Hypothesis followUp_plain :
  forall f i, getFollowUpMessages P = Some f -> forallb plain (f i) = true.

Lemma appendAll_app s c1 c2 : appendAll s (c1 ++ c2) = appendAll (appendAll s c1) c2.
Proof. unfold appendAll. apply fold_left_app. Qed.

Lemma fold_record_appends msgs : forall st,
  exists calls,
    log (fold_left (fun s m => record P m s) msgs st) = appendAll (log st) calls.
Proof.
  induction msgs as [|m msgs IH]; intros st; cbn [fold_left]; [exists []; reflexivity|].
  destruct (IH (record P m st)) as (calls & H).
  exists ((now P (instant st), m) :: calls). rewrite H. reflexivity.
Qed.

(** The loop writes to the log through the guarded append only. *)
Lemma turn_appends h st :
  exists calls,
    log (resultState (turn estimateMessageChars P h st)) = appendAll (log st) calls.
Proof.
  pose proof (llmCall_vars estimateMessageChars P st) as Hv.
  destruct (llmCall estimateMessageChars P st) as [[r a] st1] eqn:Hcall.
  cbv zeta in Hv. cbn [snd] in Hv. destruct Hv as (_ & _ & _ & _ & _ & _ & _ & Hl).
  assert (H1 : exists calls, log st1 = appendAll (log st) calls).
  { destruct (fold_record_appends (pendingMessages st)
                (push (turn_start (turns st + 1)) (setTurns (turns st + 1) st)))
      as (calls & H).
    exists calls. rewrite Hl. exact H. }
  destruct H1 as (calls & H1).
  assert (Hsame : forall st2, log st2 = log st1 ->
            exists calls, log st2 = appendAll (log st) calls)
    by (intros st2 ->; eauto).
  destruct r as [|errorText].
  - destruct (toolCalls a) as [|c0 cs] eqn:Hcalls.
    + destruct (turn_without_tools estimateMessageChars P h st a st1 Hcall Hcalls)
        as (st' & Hturn & _ & _ & Hlog & _).
      rewrite Hturn. cbn [resultState].
      exists (calls ++ [(now P (instant st1), assistantMessage P a st1)]).
      rewrite appendAll_app, <- H1, Hlog. reflexivity.
    + assert (Hne : toolCalls a <> []) by (rewrite Hcalls; discriminate).
      destruct (turn_with_tools estimateMessageChars P h st a st1 Hcall Hne)
        as [(n & steer & st' & Hturn & _ & _ & _ & _ & _ & Hlog & _)
           |(k & call & tool & value & st' & Hturn & _ & _ & _ & _ & _ & _ & _ & Hlog & _)];
        rewrite Hturn; cbn [resultState]; cbv zeta in Hlog.
      * eexists (calls ++ [(_, assistantMessage P a st1); (_, _)]).
        rewrite appendAll_app, <- H1, Hlog. reflexivity.
      * exists (calls ++ [(now P (instant st1), assistantMessage P a st1)]).
        rewrite appendAll_app, <- H1, Hlog. reflexivity.
  - rewrite turn_unfold, Hcall.
    destruct (Errors.isContextOverflowError errorText && negb (overflowCompactionAttempted st1));
      [|apply Hsame; reflexivity].
    destruct (prepareCompaction P (instant st1) (currentMessages st1)) as [s [m|]|e];
      [destruct (summaryTruthy s)| |]; apply Hsame; reflexivity.
Qed.

Lemma unanswered_app added new p :
  Guard.paired added = true -> unanswered P new p -> unanswered P (added ++ new) p.
Proof.
  intros Hpa [[-> Hpn]|(pre & am & -> & Hr & Hpp & -> & Htool)].
  - left. split; [reflexivity|apply paired_app; assumption].
  - right. exists (added ++ pre), am. rewrite <- app_assoc.
    split; [reflexivity|]. split; [exact Hr|]. split; [apply paired_app; assumption|].
    split; [reflexivity|exact Htool].
Qed.

(** The log the loop returns, started on a log with nothing pending:
    it is the starting log with a sequence of guarded appends made, and
    the guard holds nothing, or the calls of the assistant message
    recorded last. *)
Lemma runAgentLoop_log fuel log0 start st :
  Guard.pending log0 = [] ->
  runAgentLoop estimateMessageChars P fuel log0 start = Some st ->
  (exists calls, log st = appendAll log0 calls) /\
  exists added,
    Guard.transcript (log st) = Guard.transcript log0 ++ added /\
    unanswered P added (Guard.pending (log st)).
Proof.
  intros Hp Hrun.
  pose (appended := fun s : LoopState => exists calls, log s = appendAll log0 calls).
  pose (grown := fun s : LoopState =>
                   exists added,
                     Guard.transcript (log s) = Guard.transcript log0 ++ added /\
                     Guard.paired added = true).
  pose (leftOver := fun s : LoopState =>
                    exists added,
                      Guard.transcript (log s) = Guard.transcript log0 ++ added /\
                      unanswered P added (Guard.pending (log s))).
  destruct (runAgentLoop_invariant estimateMessageChars P
              (fun s => clean s /\ appended s /\ grown s) (fun _ s => appended s /\ leftOver s))
    with (fuel := fuel) (log0 := log0) (start := start) (st := st)
    as (st' & [[([Hcp _] & Ha & (added & Hadd & Hpa)) ->]|(err & [Ha Hg] & ->)]).
  - intros s H. exact H.
  - intros s i [[Hc1 _] H]. split; [split; [exact Hc1|apply steering_plain]|exact H].
  - intros s f i Hf [[Hc1 _] H].
    split; [split; [exact Hc1|apply (followUp_plain f i Hf)]|exact H].
  - intros h s (Hclean & (calls & Hcalls) & (added & Hadd & Hpa)) _.
    destruct (turn_appends h s) as (calls' & Hcalls').
    destruct (turn_clean estimateMessageChars P steering_plain h s Hclean)
      as (new & Ht & _ & Hcl).
    assert (Happ : appended (resultState (turn estimateMessageChars P h s))).
    { exists (calls ++ calls'). rewrite appendAll_app, <- Hcalls. exact Hcalls'. }
    destruct (turn estimateMessageChars P h s) as [h' s'|e s']; cbn [resultState] in *.
    + destruct Hcl as [Hcl Hpn]. split; [exact Hcl|]. split; [exact Happ|].
      exists (added ++ new). rewrite Ht, Hadd, <- app_assoc. split; [reflexivity|].
      apply paired_app; assumption.
    + split; [exact Happ|].
      exists (added ++ new). rewrite Ht, Hadd, <- app_assoc. split; [reflexivity|].
      apply unanswered_app; assumption.
  - split; [split; [exact Hp|reflexivity]|]. split.
    + exists []. reflexivity.
    + exists []. rewrite app_nil_r. split; reflexivity.
  - exact Hrun.
  - split; [exact Ha|]. exists added. split; [exact Hadd|]. left. split; [exact Hcp|exact Hpa].
  - split; [exact Ha|exact Hg].
Qed.

End LoopLog.

Section RunProperties.

Variable estimateMessageChars : Message -> Z.
Variable E : Agent.RunEnv.

Lemma agent_steering_plain cm summary i :
  forallb plain (getSteeringMessages (Agent.loopParams E cm summary) i) = true.
Proof.
  cbn [Agent.loopParams getSteeringMessages]. unfold Agent.getSteeringMessages.
  induction (Agent.steeringQueue E i) as [|t l IH]; [reflexivity|]. cbn. exact IH.
Qed.

(** The user message of synthetic results for the entries [kvs]. *)
Definition repairMessage (kvs : Guard.Pending) (t : Z) : Message :=
  {| role := user;
     content := Blocks (map (fun kv => tool_result (fst kv) (snd kv) Guard.MISSING_TOOL_RESULT)
                            kvs);
     timestamp := t |}.

(** What the final flush of a run finds: [body] is what the run added
    to the transcript before it.  Either nothing is pending, and every
    call among [body] has its result; or the run failed before it
    appended anything, and the ids pending from before are; or a tool
    rejected with [undefined] or [null], the run was left while the
    calls of the assistant message recorded last had no results, and
    the distinct non-empty ids of those calls are pending. *)
Definition stillPending (log0 : Guard.GuardedLog) (body : list Message) (kvs : Guard.Pending)
  : Prop :=
  (kvs = [] /\ Guard.paired body = true) \/
  (body = [] /\ kvs = Guard.pending log0) \/
  exists pre am,
    body = pre ++ [am] /\ role am = assistant /\
    NoDup (map fst kvs) /\
    (forall id, In id (map fst kvs) <-> In id (trackedIds am)) /\
    exists tool i input value,
      In tool (Agent.rawTools E) /\ execute tool i input = ThrowsNullish value.

Lemma wrapped_nullish cm summary tool i input value :
  In tool (toolsForRun (Agent.loopParams E cm summary)) ->
  execute tool i input = ThrowsNullish value ->
  exists raw, In raw (Agent.rawTools E) /\ execute raw i input = ThrowsNullish value.
Proof.
  cbn [Agent.loopParams toolsForRun]. intros Hin He.
  apply in_map_iff in Hin as (raw & <- & Hin). exists raw. split; [exact Hin|].
  cbn [Agent.wrapToolWithAbortSignal execute] in He.
  destruct (Agent.abortSignal E i); [discriminate He|exact He].
Qed.

Lemma unanswered_stillPending cm summary log0 added1 added p :
  Guard.paired added1 = true ->
  unanswered (Agent.loopParams E cm summary) added p ->
  stillPending log0 (added1 ++ added) p.
Proof.
  intros Hp1 [[-> Hpa]|(pre & am & -> & Hr & Hpp & -> & tool & i & input & value & Hin & He)].
  - left. split; [reflexivity|apply paired_app; assumption].
  - right; right. exists (added1 ++ pre), am. rewrite <- app_assoc.
    split; [reflexivity|]. split; [exact Hr|]. split; [|split].
    + apply (fold_set_distinct (Guard.extractToolUsesFromAssistant am) []).
      * intros id Hid. apply (extract_ids_nonempty am id Hid).
      * split; [constructor|intros []].
    + intros id. split.
      * intros Hid. apply fold_set_keys in Hid as [[]|Hid]. exact Hid.
      * intros Hid. apply fold_set_contains. exact Hid.
    + destruct (wrapped_nullish cm summary tool i input value Hin He) as (raw & Hraw & Her).
      exists raw, i, input, value. auto.
Qed.

Lemma flush_clean t s :
  Guard.pending s = [] -> Guard.flushPendingToolResults t s = s.
Proof. intros H. rewrite flush_spec, H. reflexivity. Qed.

(** The flush, by what is pending. *)
Lemma flush_repair t s :
  Guard.transcript (Guard.flushPendingToolResults t s)
  = Guard.transcript s
    ++ match Guard.pending s with [] => [] | _ :: _ => [repairMessage (Guard.pending s) t] end.
Proof.
  rewrite flush_spec. destruct (Guard.pending s); [rewrite app_nil_r|]; reflexivity.
Qed.

(** Where the [try] block of a run leaves the log: at the log it
    found, or at that log with guarded appends made, the user message
    first. *)
Lemma runBody_log fuel log0 userMessage outcome logB events i :
  Agent.runBody estimateMessageChars E fuel log0 userMessage = Some (outcome, logB, events, i) ->
  (exists calls, logB = appendAll log0 calls) /\
  exists body,
    Guard.transcript logB = Guard.transcript log0 ++ body /\
    stillPending log0 body (Guard.pending logB).
Proof.
  unfold Agent.runBody.
  destruct (Agent.setupError E) as [e|].
  { intros [= <- <- <- <-]. split; [exists []; reflexivity|]. exists [].
    rewrite app_nil_r. split; [reflexivity|]. right. left. auto. }
  set (userMsg := {| role := user;
                     content := Str (Agent.processedMessage E userMessage);
                     timestamp := Agent.clock E 0 |}).
  destruct (append_plain_any (Agent.clock E 0) log0 userMsg eq_refl)
    as (added1 & Ht1 & Hp1 & Hpair1 & _).
  destruct (Agent.prepareMessagesForRun E 1 (Agent.history E ++ [userMsg]))
    as [summary summaryMessage|e].
  2: { intros [= <- <- <- <-]. split; [exists [(Agent.clock E 0, userMsg)]; reflexivity|].
       exists added1. split; [exact Ht1|]. left. auto. }
  match goal with |- context [runAgentLoop _ ?p ?f ?l ?j] =>
    destruct (runAgentLoop estimateMessageChars p f l j) as [st|] eqn:Hrun end;
    [|discriminate].
  intros [= <- <- <- <-].
  destruct (runAgentLoop_log estimateMessageChars _ (agent_steering_plain _ _)
              ltac:(intros f j Hf; discriminate Hf) _ _ _ _ Hp1 Hrun)
    as ((calls & Hcalls) & added & Ht & Hun).
  split.
  - exists ((Agent.clock E 0, userMsg) :: calls). rewrite Hcalls. reflexivity.
  - exists (added1 ++ added). rewrite Ht, Ht1, <- app_assoc. split; [reflexivity|].
    apply (unanswered_stillPending _ _ log0 added1 added _ Hpair1 Hun).
Qed.

(** C1 (amended).  A run returns when [maxTurns] is a finite number up
    to 2^53 or [-Infinity].  When a run has returned, however it ended,
    nothing is pending.  The messages it added to the transcript are [body], added
    by the [try] block, and [repair], added by the final flush.  Among
    them every [tool_use] block with a non-empty id, in an assistant
    message, has a [tool_result] block with its id in a later user
    message, and every id that was pending when the run began has its
    result.  The final flush appends nothing when no id is pending, and
    otherwise one user message with one synthetic result for each
    pending id: the ids left from before when the run failed before
    its first append, and else, a tool having rejected with
    [undefined] or [null], the distinct non-empty ids of the calls of
    the assistant message recorded last. *)
Theorem run_pairs_every_tool_use (log0 : Guard.GuardedLog) (userMessage : string) :
  (bounded (Agent.agentMaxTurns E) = true ->
   exists fuel r, Agent.run estimateMessageChars E fuel log0 userMessage = Some r) /\
  forall fuel outcome log1 events,
    Agent.run estimateMessageChars E fuel log0 userMessage = Some (outcome, log1, events) ->
    Guard.pending log1 = [] /\
    exists body repair,
      Guard.transcript log1 = Guard.transcript log0 ++ body ++ repair /\
      (forall pre a post id name input bs,
          body ++ repair = pre ++ a :: post ->
          role a = assistant -> content a = Blocks bs ->
          In (tool_use id name input) bs -> id <> EmptyString ->
          exists u bs' nm c,
            In u post /\ role u = user /\ content u = Blocks bs' /\
            In (tool_result id nm c) bs') /\
      (forall id, In id (Guard.getPendingIds log0) ->
                  Guard.answered id (body ++ repair) = true) /\
      exists kvs t,
        stillPending log0 body kvs /\
        repair = match kvs with [] => [] | _ :: _ => [repairMessage kvs t] end.
Proof.
  split; [apply run_returns|].
  intros fuel outcome log1 events. unfold Agent.run.
  destruct (Agent.runBody estimateMessageChars E fuel log0 userMessage)
    as [[[[o logB] evs] i]|] eqn:Hbody; [|discriminate].
  intros [= <- <- <-].
  destruct (runBody_log _ _ _ _ _ _ _ Hbody) as ((calls & ->) & body & Hb & Hstill).
  destruct (appendAll_flush calls log0 (Agent.clock E i))
    as (added & Ht & Hp & Hpair & _ & Hans).
  cbv zeta in Ht, Hp. split; [exact Hp|].
  pose proof (flush_repair (Agent.clock E i) (appendAll log0 calls)) as Hfl.
  rewrite Hb in Hfl.
  exists body. eexists. split; [rewrite Hfl, <- app_assoc; reflexivity|].
  assert (Hadded : added = body ++ match Guard.pending (appendAll log0 calls) with
                                   | [] => []
                                   | _ :: _ => [repairMessage (Guard.pending (appendAll log0 calls))
                                                              (Agent.clock E i)]
                                   end).
  { rewrite Ht, <- app_assoc in Hfl. apply app_inv_head in Hfl. exact Hfl. }
  rewrite <- Hadded.
  split; [apply pairedTracked_spec; exact Hpair|].
  split; [exact Hans|].
  exists (Guard.pending (appendAll log0 calls)), (Agent.clock E i).
  split; [exact Hstill|reflexivity].
Qed.

(** In a run none of whose tools rejects with [undefined] or [null],
    the loop answers every call itself, the calls without id among
    them: what the run added to the transcript is paired as it
    stands. *)
Lemma run_pairs_every_id_when_tools_settle
  (fuel : nat) (log0 : Guard.GuardedLog) (userMessage : string)
  (outcome : Agent.RunOutcome) (log1 : Guard.GuardedLog) (events : list AgentEvent) :
  (forall tool i input value,
      In tool (Agent.rawTools E) -> execute tool i input <> ThrowsNullish value) ->
  Agent.run estimateMessageChars E fuel log0 userMessage = Some (outcome, log1, events) ->
  exists added,
    Guard.transcript log1 = Guard.transcript log0 ++ added /\
    Guard.pending log1 = [] /\
    Guard.paired added = true.
Proof.
  intros Hsettle. unfold Agent.run.
  destruct (Agent.runBody estimateMessageChars E fuel log0 userMessage)
    as [[[[o logB] evs] i]|] eqn:Hbody; [|discriminate].
  intros [= <- <- <-].
  destruct (runBody_log _ _ _ _ _ _ _ Hbody) as (_ & body & Hb & Hstill).
  destruct (flush_answers (Agent.clock E i) logB) as (repair & Ht & Hp & Hpr & _).
  destruct Hstill as [[Hnone Hpb]|[[-> _]|(pre & am & _ & _ & _ & _ & tool & j & input & value
                                          & Hin & He)]].
  - rewrite (flush_clean _ _ Hnone). exists body. auto.
  - exists repair. rewrite app_nil_r in Hb. rewrite Ht, Hb. auto.
  - exfalso. apply (Hsettle tool j input value Hin He).
Qed.

End RunProperties.

Section LoopMoreSamples.

(** The steering scenario with no turn allowed. *)
Definition haltedParams : AgentLoopParams :=
  {| initialMessages := initialMessages steeredParams;
     initialSummary := None;
     toolsForRun := sampleTools;
     maxTurns := Finite 0;
     contextTokens := 1000;
     getSteeringMessages := fun i => if (i =? 0)%nat then [stopMessage] else [];
     getFollowUpMessages := None;
     prepareCompaction := fun _ _ => Prepared None None;
     streamFn := fun _ _ => toolStream;
     aborted := fun _ => false;
     now := fun _ => 0%Z |}.

Lemma no_pass_without_turns_or_after_abort_witness :
  exists st,
    runAgentLoop sampleEstimator haltedParams sampleFuel emptyLog 0 = Some st /\
    pushed st = [agent_end (initialMessages haltedParams)] /\
    log st = emptyLog /\
    currentMessages st = initialMessages haltedParams /\
    turns st = 0%Z /\ totalToolCalls st = 0%Z /\
    pendingMessages st = [stopMessage].
Proof.
  apply (no_pass_without_turns_or_after_abort sampleEstimator haltedParams sampleFuel
                                              emptyLog 0).
  left. reflexivity.
Defined.

Lemma steeredParams_plain i : forallb plain (getSteeringMessages steeredParams i) = true.
Proof. cbn. destruct (i =? 10)%nat; reflexivity. Qed.

Lemma transcript_follows_currentMessages_witness :
  exists st added,
    runAgentLoop sampleEstimator steeredParams sampleFuel emptyLog 0 = Some st /\
    Guard.transcript (log st) = Guard.transcript emptyLog ++ added /\
    currentMessages st = initialMessages steeredParams ++ added.
Proof.
  destruct (transcript_follows_currentMessages sampleEstimator steeredParams
              steeredParams_plain ltac:(intros f i Hf; discriminate Hf) emptyLog 0 eq_refl)
    as [_ H].
  destruct (runAgentLoop sampleEstimator steeredParams sampleFuel emptyLog 0) as [st|] eqn:Hrun.
  - destruct (H sampleFuel st Hrun) as (added & Ht & Hc). exists st, added. auto.
  - vm_compute in Hrun. discriminate Hrun.
Defined.

(** A provider that asks for the three tools in every turn, under the
    given [maxTurns]. *)
Definition endlessParams (m : JsNumber) : AgentLoopParams :=
  {| initialMessages := [{| role := user; content := Str "hello"; timestamp := 0 |}];
     initialSummary := None;
     toolsForRun := sampleTools;
     maxTurns := m;
     contextTokens := 1000;
     getSteeringMessages := fun _ => [];
     getFollowUpMessages := None;
     prepareCompaction := fun _ _ => Prepared None None;
     streamFn := fun _ _ => toolStream;
     aborted := fun _ => false;
     now := fun _ => 0%Z |}.

Lemma endless_turn m st :
  exists st', turn sampleEstimator (endlessParams m) true st = Continue true st'.
Proof.
  assert (Hcall : exists a st1,
             llmCall sampleEstimator (endlessParams m) st = (Resolved, a, st1) /\
             toolCalls a = [call1; call2; call3]).
  { unfold llmCall. cbn [LLM_ATTEMPTS Nat.sub retryAsync]. unfold llmAttempt.
    cbn [endlessParams streamFn toolStream events result consume isAborted aborted tick
         instant fst snd]. eexists. eexists. split; reflexivity. }
  destruct Hcall as (a & st1 & Hcall & Hcalls).
  destruct (turn_with_tools sampleEstimator (endlessParams m) true st a st1 Hcall)
    as [(n & steer & st' & Hturn & _)
       |(k & call & tool & value & st' & _ & Hnth & Hf & He & _)].
  - rewrite Hcalls. discriminate.
  - exists st'. exact Hturn.
  - exfalso. rewrite Hcalls in Hnth.
    destruct k as [|[|[|k]]]; cbn in Hnth; try (destruct k; discriminate Hnth);
      injection Hnth as <-; vm_compute in Hf; try discriminate Hf;
      injection Hf as <-; discriminate He.
Qed.

Lemma endless_innerLoop fuel : forall st,
  innerLoop sampleEstimator (endlessParams NaN) fuel true st = None.
Proof.
  induction fuel as [|fuel IH]; intros st; cbn [innerLoop orb endlessParams maxTurns reached
    isAborted aborted]; [reflexivity|].
  destruct (endless_turn NaN (tick st)) as (st' & Hturn).
  unfold isAborted. cbn [aborted endlessParams]. rewrite Hturn. apply IH.
Qed.

(** With [maxTurns = NaN], as [parseInt] makes of a setting that is no
    number, and a provider that keeps asking for tools, the loop does
    not return, however many passes are followed. *)
Example loop_without_bound_never_returns :
  forall fuel, runAgentLoop sampleEstimator (endlessParams NaN) fuel emptyLog 0 = None.
Proof.
  intros fuel. unfold runAgentLoop, steeringNow.
  assert (H : forall st, outerLoop sampleEstimator (endlessParams NaN) fuel st = None).
  { intros st. destruct fuel; cbn [outerLoop]; rewrite endless_innerLoop; reflexivity. }
  rewrite H. reflexivity.
Qed.

(** With [maxTurns = 2.5] the same provider gets three turns, and with
    [maxTurns = 3] as well. *)
Example fractional_maxTurns_allows_third_turn :
  option_map turns (runAgentLoop sampleEstimator (endlessParams (Finite 2.5)) sampleFuel
                                 emptyLog 0) = Some 3%Z /\
  option_map turns (runAgentLoop sampleEstimator (endlessParams (Finite 3)) sampleFuel
                                 emptyLog 0) = Some 3%Z.
Proof. split; vm_compute; reflexivity. Qed.

(** An assistant message with one named call, the same call again, and
    a call without id. *)
Definition looseCalls : Message :=
  {| role := assistant;
     content := Blocks [tool_use "t1" "read" []; tool_use "t1" "read" [];
                        tool_use EmptyString "exec" []];
     timestamp := 1 |}.

Lemma pending_ids_distinct_and_nonempty_witness :
  NoDup (Guard.getPendingIds (appendAll emptyLog [(1%Z, looseCalls)])) /\
  ~ In EmptyString (Guard.getPendingIds (appendAll emptyLog [(1%Z, looseCalls)])).
Proof.
  apply (pending_ids_distinct_and_nonempty emptyLog [(1%Z, looseCalls)]).
  - constructor.
  - intros [].
Defined.

(** The call without id is not tracked: the flush answers [t1] once and
    leaves the third block without a result. *)
Example flush_skips_call_without_id :
  Guard.transcript (Guard.flushPendingToolResults 2 (appendAll emptyLog [(1%Z, looseCalls)]))
  = [looseCalls;
     {| role := user;
        content := Blocks [tool_result "t1" (Some "read") Guard.MISSING_TOOL_RESULT];
        timestamp := 2 |}].
Proof. reflexivity. Qed.

(** One run of the agent with the sample tools: three turns allowed,
    no history, no steering, no abort, and the given provider. *)
Definition sampleEnv (stream : nat -> EventStream) : Agent.RunEnv :=
  {| Agent.setupError := None;
     Agent.history := [];
     Agent.processedMessage := fun s => s;
     Agent.prepareMessagesForRun := fun _ _ => Prepared None None;
     Agent.steeringQueue := fun _ => [];
     Agent.rawTools := sampleTools;
     Agent.agentMaxTurns := Finite 3;
     Agent.agentContextTokens := 1000;
     Agent.agentStreamFn := fun i _ => stream i;
     Agent.abortSignal := fun _ => false;
     Agent.clock := fun _ => 0%Z |}.

(** The model calls [crash] with an empty id. *)
Definition anonymousCall : ToolCallRequest :=
  {| tc_id := EmptyString; tc_name := "crash"; tc_input := [] |}.

(** C1, as stated, fails: the model calls a tool with an empty id, and
    the tool's promise rejects with [undefined].  The run returns,
    rejected; the assistant message with the [tool_use] block is in the
    transcript and no message after it carries a result for it: the
    loop was left before it recorded one, and the guard tracks no call
    without id. *)
Lemma run_leaves_call_without_id_unanswered :
  option_map (fun r => (fst (fst r), Guard.transcript (snd (fst r)),
                        Guard.paired (Guard.transcript (snd (fst r)))))
             (Agent.run sampleEstimator
                        (sampleEnv (fun _ => {| events := [toolcall_end anonymousCall];
                                                result := Resolved |}))
                        sampleFuel emptyLog "hello")
  = Some (Agent.RunRejected "Cannot read properties of undefined (reading 'message')",
          [{| role := user; content := Str "hello"; timestamp := 0 |};
           {| role := assistant; content := Blocks [tool_use EmptyString "crash" []];
              timestamp := 0 |}],
          false).
Proof. vm_compute. reflexivity. Qed.

(** With ids, the same failure is repaired by the final flush: the run
    of [read] and [crash] ends with one user message of synthetic
    results, one for each call of the assistant message. *)
Example run_repairs_calls_left_by_nullish_rejection :
  option_map (fun r => (fst (fst r), Guard.transcript (snd (fst r)),
                        Guard.pending (snd (fst r)), snd r))
             (Agent.run sampleEstimator (sampleEnv (fun _ => crashStream))
                        sampleFuel emptyLog "hello")
  = Some (Agent.RunRejected "Cannot read properties of undefined (reading 'message')",
          [{| role := user; content := Str "hello"; timestamp := 0 |};
           {| role := assistant;
              content := Blocks [tool_use "t1" "read" [("path", "a.txt")];
                                 tool_use "t4" "crash" []];
              timestamp := 0 |};
           {| role := user;
              content := Blocks [tool_result "t1" (Some "read") Guard.MISSING_TOOL_RESULT;
                                 tool_result "t4" (Some "crash") Guard.MISSING_TOOL_RESULT];
              timestamp := 0 |}],
          [],
          [agent_start; turn_start 1;
           tool_execution_start "t1" "read" [("path", "a.txt")];
           tool_execution_end "t1" "read" "file contents" false;
           tool_execution_start "t4" "crash" [];
           agent_error "Cannot read properties of undefined (reading 'message')";
           agent_error "Cannot read properties of undefined (reading 'message')"]).
Proof. vm_compute. reflexivity. Qed.

End LoopMoreSamples.

End MoreLoopProperties.

(* ------------------------------------------------------------------ *)
(** ** The tool set of a run (agent.ts, tool-policy.ts) *)

Section ToolSetProperties.
Import ToolPolicy AgentLoop AgentTools.

Lemma normalizeToolName_idem n : normalizeToolName (normalizeToolName n) = normalizeToolName n.
Proof.
  unfold normalizeToolName. cbv zeta.
  set (t := JsString.toLowerCase (JsString.trim n)).
  assert (Ht : JsString.toLowerCase (JsString.trim t) = t).
  { unfold t. rewrite <- trim_lower, toLowerCase_idem, trim_lower, trim_idem. reflexivity. }
  destruct (t =? "apply-patch")%string eqn:E1; [reflexivity|].
  destruct (t =? "bash")%string eqn:E2; [reflexivity|].
  rewrite Ht, E1, E2. reflexivity.
Qed.

Lemma compilePattern_normal p : compilePattern (normalizeToolName p) = compilePattern p.
Proof. unfold compilePattern. rewrite normalizeToolName_idem. reflexivity. Qed.

(** X11.  The policy reads names and patterns in normal form only: trimming,
    lower-casing or replacing an alias, in the name or in any pattern,
    changes no decision. *)
Theorem isToolAllowed_reads_normal_forms (t : string) (al dn : option (list string)) :
  isToolAllowed (normalizeToolName t)
                (Some {| allow := option_map (map normalizeToolName) al;
                         deny := option_map (map normalizeToolName) dn |})
  = isToolAllowed t (Some {| allow := al; deny := dn |}).
Proof.
  assert (Hc : forall l, compilePatterns (orEmpty (option_map (map normalizeToolName) l))
                         = compilePatterns (orEmpty l)).
  { intros [l|]; [|reflexivity]. cbn [option_map orEmpty]. unfold compilePatterns.
    rewrite map_map. apply map_ext. intros p. apply compilePattern_normal. }
  unfold isToolAllowed. cbn [allow deny]. rewrite normalizeToolName_idem, !Hc. reflexivity.
Qed.

Lemma filter_all {A : Type} (l : list A) : filter (fun _ => true) l = l.
Proof. induction l as [|x l IH]; cbn; [reflexivity|]. rewrite IH. reflexivity. Qed.

Lemma filterToolsByPolicy_filter tools policy :
  filterToolsByPolicy tools policy = filter (fun t => isToolAllowed (name t) policy) tools.
Proof. destruct policy as [p|]; [reflexivity|]. cbn. symmetry. apply filter_all. Qed.

Lemma filter_filter {A : Type} (f g : A -> bool) (l : list A) :
  filter g (filter f l) = filter (fun x => f x && g x) l.
Proof.
  induction l as [|x l IH]; cbn [filter]; [reflexivity|].
  destruct (f x); cbn [filter andb]; [|exact IH]. destruct (g x); rewrite IH; reflexivity.
Qed.

(** X12.  The filter with precompiled patterns keeps the tools that
    [isToolAllowed] allows, in order; the tool set of a run is the
    agent's tools that pass the memory switch, the tool policy and the
    sandbox policy, in order. *)
Theorem resolveToolsForRun_keeps_allowed_tools
  (tools : list Tool) (enableMemory : bool) (toolPolicy : option ToolPolicy)
  (sandbox : option Sandbox) :
  (forall policy,
      filterToolsByPolicy tools policy
      = filter (fun t => isToolAllowed (name t) policy) tools) /\
  resolveToolsForRun tools enableMemory toolPolicy sandbox
  = filter (fun t => (enableMemory || negb (isMemoryTool t))
                     && isToolAllowed (name t) toolPolicy
                     && isToolAllowed (name t) (buildSandboxToolPolicy sandbox)) tools.
Proof.
  split; [intros policy; apply filterToolsByPolicy_filter|].
  unfold resolveToolsForRun. cbv zeta. rewrite !filterToolsByPolicy_filter.
  destruct enableMemory; cbn [negb orb]; rewrite !filter_filter; apply filter_ext;
    intros t; rewrite ?andb_assoc; reflexivity.
Qed.

Lemma compilePattern_plain p :
  normalizeToolName p = p -> p <> EmptyString -> JsString.includes p "*" = false ->
  compilePattern p = KindExact p.
Proof.
  intros Hn Hne Hs. unfold compilePattern. rewrite Hn. cbv zeta.
  destruct (String.eqb_spec p EmptyString); [contradiction|].
  destruct (String.eqb_spec p "*") as [->|_]; [discriminate Hs|].
  rewrite Hs. reflexivity.
Qed.

(** X13.  The sandbox policy rejects a tool exactly when the sandbox is
    enabled and the normal form of the name is [exec] with execution
    forbidden, or [write] or [edit] with writing forbidden.  Nothing
    else is rejected: [apply_patch] passes. *)
Theorem sandbox_policy_denies_exactly (sb : Sandbox) (n : string) :
  isToolAllowed n (buildSandboxToolPolicy (Some sb)) = false <->
  sandboxEnabled sb = true /\
  ((allowExec sb = false /\ normalizeToolName n = "exec") \/
   (allowWrite sb = false /\
    (normalizeToolName n = "write" \/ normalizeToolName n = "edit"))).
Proof.
  unfold buildSandboxToolPolicy.
  destruct sb as [en ex wr]. cbn [sandboxEnabled allowExec allowWrite].
  destruct en; cbn [negb]; [|split; [discriminate|intros [H _]; discriminate]].
  assert (E1 : compilePattern "exec" = KindExact "exec") by reflexivity.
  assert (E2 : compilePattern "write" = KindExact "write") by reflexivity.
  assert (E3 : compilePattern "edit" = KindExact "edit") by reflexivity.
  destruct ex, wr; cbn [negb app List.length Nat.ltb Nat.leb isToolAllowed allow deny orEmpty
                        compilePatterns map matchesAny existsb];
    rewrite ?E1, ?E2, ?E3; cbn [patternMatches orb Nat.eqb].
  - split; [discriminate|]. intros [_ [[H _]|[H _]]]; discriminate.
  - destruct (String.eqb_spec (normalizeToolName n) "write") as [->|H1]; cbn [orb].
    + split; auto.
    + destruct (String.eqb_spec (normalizeToolName n) "edit") as [->|H2]; cbn [orb].
      * split; auto.
      * split; [discriminate|]. intros [_ [[H _]|[_ [H|H]]]]; congruence.
  - destruct (String.eqb_spec (normalizeToolName n) "exec") as [->|H1]; cbn [orb].
    + split; auto.
    + split; [discriminate|]. intros [_ [[_ H]|[H _]]]; congruence.
  - destruct (String.eqb_spec (normalizeToolName n) "exec") as [->|H1]; cbn [orb].
    + split; auto.
    + destruct (String.eqb_spec (normalizeToolName n) "write") as [->|H2]; cbn [orb].
      * split; auto.
      * destruct (String.eqb_spec (normalizeToolName n) "edit") as [->|H3]; cbn [orb].
        -- split; auto.
        -- split; [discriminate|]. intros [_ [[_ H]|[_ [H|H]]]]; congruence.
Qed.

Example sandbox_lets_apply_patch_through :
  map name (resolveToolsForRun
              [{| name := "exec"; execute := fun _ _ => Returns EmptyString |};
               {| name := "Bash"; execute := fun _ _ => Returns EmptyString |};
               {| name := "write"; execute := fun _ _ => Returns EmptyString |};
               {| name := "apply_patch"; execute := fun _ _ => Returns EmptyString |};
               {| name := "read"; execute := fun _ _ => Returns EmptyString |};
               {| name := "memory_get"; execute := fun _ _ => Returns EmptyString |}]
              false None
              (Some {| sandboxEnabled := true; allowExec := false; allowWrite := false |}))
  = ["apply_patch"; "read"].
Proof. vm_compute. reflexivity. Qed.

Lemma globBody_policy p :
  Pruning.globBody p = replaceEscapedStar (escapeSyntax p).
Proof.
  induction p as [|c p IH]; [reflexivity|].
  cbn [Pruning.globBody escapeSyntax].
  destruct (Ascii.eqb_spec c "*"%char) as [->|Hc].
  - cbn. cbn in IH. rewrite IH. reflexivity.
  - destruct (Regex.is_syntax_char c) eqn:Es.
    + rewrite replaceEscapedStar_cons; [|right; exact Hc].
      rewrite replaceEscapedStar_cons; [|right; apply escapeSyntax_head_not_star].
      rewrite IH. reflexivity.
    + rewrite replaceEscapedStar_cons; [|left; intros ->; discriminate Es].
      rewrite IH. reflexivity.
Qed.

(** X14.  The pruner's glob and the policy's glob are one relation: on a
    pattern in normal form, [matchGlob] of pruning.ts and the compiled
    pattern of tool-policy.ts accept the same values. *)
Theorem matchGlob_agrees_with_policy (value pattern : string) :
  normalizeToolName pattern = pattern ->
  Pruning.matchGlob value pattern = patternMatches value (compilePattern pattern).
Proof.
  intros Hn. unfold Pruning.matchGlob, compilePattern. rewrite Hn. cbv zeta.
  destruct (String.eqb_spec pattern EmptyString) as [->|Hne]; [reflexivity|].
  destruct (String.eqb_spec pattern "*") as [->|Hs]; [reflexivity|].
  destruct (JsString.includes pattern "*"); cbn [negb patternMatches]; [|reflexivity].
  unfold regexSource. rewrite globBody_policy. reflexivity.
Qed.

Lemma matchGlob_agrees_with_policy_witness :
  Pruning.matchGlob "file_read" "file_*" = patternMatches "file_read" (compilePattern "file_*").
Proof. apply (matchGlob_agrees_with_policy "file_read" "file_*"). reflexivity. Defined.

(** Outside normal form the two differ: the policy reads [bash] as
    [exec], the pruner does not. *)
Example matchGlob_knows_no_alias :
  Pruning.matchGlob "exec" "bash" = false /\
  patternMatches "exec" (compilePattern "bash") = true.
Proof. split; reflexivity. Qed.

End ToolSetProperties.

(* ------------------------------------------------------------------ *)
(** ** Lanes under reconfiguration (command-queue.ts) *)

Section QueueReconfiguration.
Import CommandQueue.

(** The steps of a scheduler in use: besides enqueueing and settling,
    a lane's concurrency may be set and an idle lane deleted at any
    time. *)
Inductive anyStep : Sched -> Sched -> Prop :=
| any_enqueue s name t opts now : anyStep s (enqueueInLane s name t opts now)
| any_settle s name t now : In (name, t) (inflight s) -> anyStep s (settle s name t now)
| any_configure s name maxc now : anyStep s (setLaneConcurrency s name maxc now)
| any_delete s name : anyStep s (fst (deleteLane s name)).

Inductive anyReachable : Sched -> Prop :=
| any_init : anyReachable emptySched
| any_next s s' : anyReachable s -> anyStep s s' -> anyReachable s'.

(** What every lane keeps under all four steps. *)
Definition lane_order (s : Sched) (n : string) : Prop :=
  let l := getLaneState (lanes s) n in
  (1 <= maxConcurrent l)%Z /\
  active l = Z.of_nat (List.length (running s n)) /\
  (queue l <> [] -> (maxConcurrent l <= active l)%Z) /\
  started s n ++ queued s n = enqueued s n.

Definition order_ready (s : Sched) (st : LaneState) : Prop :=
  (1 <= maxConcurrent st)%Z /\
  active st = Z.of_nat (List.length (running s (lane st))) /\
  started s (lane st) ++ map task (queue st) = enqueued s (lane st).

Lemma drainState_order s st now :
  order_ready s st ->
  (forall n, n <> lane st -> lane_order s n) ->
  forall n, lane_order (drainState s st now) n.
Proof.
  intros (Hmax & Hrun & Hfifo) Hother n.
  unfold drainState.
  destruct (drainQueue (active st) (maxConcurrent st) now (queue st)) as [[[a' q'] stl] w] eqn:E.
  apply drainQueue_spec in E as (Hq & Ha & Hle & Hfull).
  unfold running, started, enqueued in Hrun, Hfifo.
  unfold lane_order, running, started, enqueued, queued. cbn [lanes inflight startLog enqueueLog].
  rewrite getLaneState_setLane. cbn [lane]. rewrite !onLane_app, !onLane_tagged.
  destruct (String.eqb_spec (lane st) n) as [<-|Hne].
  - cbn [maxConcurrent active queue]. repeat split; try lia.
    + rewrite length_app, length_map. lia.
    + intros Hne. specialize (Hfull Hne). lia.
    + rewrite <- Hfifo, Hq, map_app, app_assoc. reflexivity.
  - rewrite !app_nil_r. apply Hother. congruence.
Qed.

Lemma enqueueInLane_order s name t opts now :
  (forall n, lane_order s n) -> forall n, lane_order (enqueueInLane s name t opts now) n.
Proof.
  intros Hinv. unfold enqueueInLane. apply drainState_order.
  - destruct (Hinv name) as (H1 & H3 & _ & H5).
    unfold order_ready, running, started, enqueued, queued in *.
    cbn [lane maxConcurrent active queue inflight startLog enqueueLog].
    rewrite getLaneState_lane. repeat split; try lia.
    rewrite onLane_app, map_app, app_assoc, H5. unfold onLane. cbn [filter fst map snd].
    rewrite String.eqb_refl. reflexivity.
  - cbn [lane]. rewrite getLaneState_lane. intros n Hne. specialize (Hinv n).
    unfold lane_order, running, started, enqueued, queued in *.
    cbn [lanes inflight startLog enqueueLog]. rewrite onLane_app.
    unfold onLane at 4. cbn [filter fst].
    destruct (String.eqb_spec name n); [congruence|]. cbn [map]. rewrite app_nil_r. exact Hinv.
Qed.

Lemma settle_order s name t now :
  In (name, t) (inflight s) ->
  (forall n, lane_order s n) -> forall n, lane_order (settle s name t now) n.
Proof.
  intros Hin Hinv. unfold settle. apply drainState_order.
  - destruct (Hinv name) as (H1 & H3 & _ & H5).
    pose proof (onLane_removeFirst_same name t _ Hin) as Hlen.
    unfold order_ready, running, started, enqueued, queued in *.
    cbn [lane maxConcurrent active queue inflight startLog enqueueLog].
    rewrite getLaneState_lane. repeat split; try lia. exact H5.
  - cbn [lane]. rewrite getLaneState_lane. intros n Hne. specialize (Hinv n).
    unfold lane_order, running, started, enqueued, queued in *.
    cbn [lanes inflight startLog enqueueLog].
    rewrite onLane_removeFirst_other by congruence. exact Hinv.
Qed.

Lemma setLaneConcurrency_order s name maxc now :
  (forall n, lane_order s n) -> forall n, lane_order (setLaneConcurrency s name maxc now) n.
Proof.
  intros Hinv. unfold setLaneConcurrency. apply drainState_order.
  - destruct (Hinv name) as (H1 & H3 & _ & H5).
    unfold order_ready, running, started, enqueued, queued in *.
    cbn [lane maxConcurrent active queue]. rewrite getLaneState_lane.
    repeat split; try lia; assumption.
  - cbn [lane]. rewrite getLaneState_lane. intros n Hne. apply Hinv.
Qed.

Lemma getLaneState_filter ls name n :
  getLaneState (filter (fun l => negb (lane l =? name)%string) ls) n
  = if (n =? name)%string then created n else getLaneState ls n.
Proof.
  unfold getLaneState. induction ls as [|l ls IH]; cbn [filter find].
  - destruct (n =? name)%string; reflexivity.
  - destruct (String.eqb_spec (lane l) name) as [El|El]; cbn [negb find].
    + destruct (String.eqb_spec (lane l) n) as [En|En].
      * destruct (String.eqb_spec n name) as [_|Hne]; [|congruence].
        rewrite IH. destruct (String.eqb_spec n name); [reflexivity|congruence].
      * exact IH.
    + destruct (String.eqb_spec (lane l) n) as [En|En].
      * destruct (String.eqb_spec n name); [congruence|reflexivity].
      * exact IH.
Qed.

Lemma created_not_found ls n :
  find (fun l => (lane l =? n)%string) ls = None -> getLaneState ls n = created n.
Proof. unfold getLaneState. intros ->. reflexivity. Qed.

Lemma deleteLane_order s name :
  (forall n, lane_order s n) -> forall n, lane_order (fst (deleteLane s name)) n.
Proof.
  intros Hinv n. unfold deleteLane.
  destruct (find (fun l => (lane l =? name)%string) (lanes s)) as [st|] eqn:Hfind;
    [|apply Hinv].
  destruct (Z.gtb_spec (active st) 0) as [Hact|Hact]; cbn [orb fst]; [apply Hinv|].
  destruct (queue st) as [|e q] eqn:Hq; cbn [List.length Nat.eqb negb fst]; [|apply Hinv].
  pose proof (Hinv n) as Hn.
  unfold lane_order, running, started, enqueued, queued in *.
  cbn [lanes inflight startLog enqueueLog]. rewrite getLaneState_filter.
  destruct (String.eqb_spec n name) as [->|Hne]; [|exact Hn].
  assert (Hst : getLaneState (lanes s) name = st) by (unfold getLaneState; rewrite Hfind; reflexivity).
  rewrite Hst, Hq in Hn. destruct Hn as (H1 & H2 & _ & H4).
  cbn [created maxConcurrent active queue map]. cbn [map] in H4.
  refine (conj _ (conj _ (conj _ _))); [lia| |congruence|exact H4].
  destruct (onLane name (inflight s)); [reflexivity|]. cbn [List.length] in H2. lia.
Qed.

Lemma emptySched_order n : lane_order emptySched n.
Proof. unfold lane_order. cbn. repeat split; try lia. congruence. Qed.

(** X15.  Whatever is done to the lanes, and in whatever order, no task is
    lost, duplicated or overtaken: on every lane the counter is the
    number of running tasks, the tasks started followed by those queued
    are the tasks enqueued in enqueue order, and a task waits only
    while the lane runs at least [maxConcurrent] tasks. *)
Theorem lanes_keep_order_under_reconfiguration (s : Sched) (n : string) :
  anyReachable s ->
  let l := getLaneState (lanes s) n in
  active l = Z.of_nat (List.length (running s n)) /\
  started s n ++ queued s n = enqueued s n /\
  (queued s n <> [] -> (maxConcurrent l <= active l)%Z) /\
  (1 <= maxConcurrent l)%Z.
Proof.
  intros Hr. cbv zeta.
  assert (Hall : forall m, lane_order s m).
  { induction Hr as [|s s' Hr IH Hstep]; [apply emptySched_order|].
    destruct Hstep as [s name t opts now|s name t now Hin|s name maxc now|s name].
    - apply enqueueInLane_order, IH.
    - apply settle_order; [exact Hin|apply IH].
    - apply setLaneConcurrency_order, IH.
    - apply deleteLane_order, IH. }
  destruct (Hall n) as (H1 & H2 & H3 & H4). repeat split; try assumption.
  intros Hq. apply H3. intros E. apply Hq. unfold queued. rewrite E. reflexivity.
Qed.

(** Two tasks running on a lane of two, then the lane set to one. *)
Definition loweredLane : Sched :=
  setLaneConcurrency
    (enqueueInLane
       (enqueueInLane (setLaneConcurrency emptySched "main" (inject_Z 2) 0) "main" 1 None 1)
       "main" 2 None 2)
    "main" (inject_Z 1) 3.

Lemma loweredLane_reachable : anyReachable loweredLane.
Proof. unfold loweredLane. repeat (eapply any_next; [|constructor]). constructor. Qed.

Lemma lanes_keep_order_under_reconfiguration_witness :
  let l := getLaneState (lanes loweredLane) "main" in
  active l = Z.of_nat (List.length (running loweredLane "main")) /\
  started loweredLane "main" ++ queued loweredLane "main" = enqueued loweredLane "main" /\
  (queued loweredLane "main" <> [] -> (maxConcurrent l <= active l)%Z) /\
  (1 <= maxConcurrent l)%Z.
Proof.
  apply (lanes_keep_order_under_reconfiguration loweredLane "main" loweredLane_reachable).
Defined.

(** Lowering the concurrency does not stop what runs: the counter can
    exceed the new [maxConcurrent]. *)
Example lowered_lane_runs_above_its_cap :
  active (getLaneState (lanes loweredLane) "main") = 2%Z /\
  maxConcurrent (getLaneState (lanes loweredLane) "main") = 1%Z.
Proof. split; reflexivity. Qed.

(** X16.  [deleteLane] succeeds exactly on a registered lane with nothing
    running and nothing queued.  A refused call changes nothing; a
    successful one leaves the other lanes and the tasks in flight as
    they are, and the deleted lane reads as a fresh one: its
    [maxConcurrent] is 1 again, whatever it was set to. *)
Theorem deleteLane_forgets_idle_lane_only (s : Sched) (name : string) :
  let '(s', ok) := deleteLane s name in
  (ok = true <->
   exists st, find (fun l => (lane l =? name)%string) (lanes s) = Some st /\
              (active st <= 0)%Z /\ queue st = []) /\
  (ok = false -> s' = s) /\
  (ok = true ->
   getLaneState (lanes s') name = created name /\
   (forall m, m <> name -> getLaneState (lanes s') m = getLaneState (lanes s) m) /\
   inflight s' = inflight s /\ enqueueLog s' = enqueueLog s /\ startLog s' = startLog s).
Proof.
  unfold deleteLane.
  destruct (find (fun l => (lane l =? name)%string) (lanes s)) as [st|] eqn:Hfind.
  - destruct (Z.gtb_spec (active st) 0) as [Hact|Hact]; cbn [orb].
    + split; [|split; [reflexivity|discriminate]].
      split; [discriminate|]. intros (st' & [= <-] & H & _). lia.
    + destruct (queue st) as [|e q] eqn:Hq; cbn [List.length Nat.eqb negb].
      * split; [split; [intros _; exists st; auto|reflexivity]|].
        split; [discriminate|]. intros _. cbn [lanes inflight enqueueLog startLog].
        split; [rewrite getLaneState_filter, String.eqb_refl; reflexivity|].
        split; [|auto]. intros m Hm. rewrite getLaneState_filter.
        destruct (String.eqb_spec m name); [contradiction|reflexivity].
      * split; [|split; [reflexivity|discriminate]].
        split; [discriminate|]. intros (st' & [= <-] & _ & H). congruence.
  - split; [|split; [reflexivity|discriminate]].
    split; [discriminate|]. intros (st' & H & _). discriminate.
Qed.

Example deleteLane_resets_concurrency :
  let s := setLaneConcurrency emptySched "main" (inject_Z 4) 0 in
  maxConcurrent (getLaneState (lanes s) "main") = 4%Z /\
  snd (deleteLane s "main") = true /\
  maxConcurrent (getLaneState (lanes (fst (deleteLane s "main"))) "main") = 1%Z.
Proof. cbv zeta. repeat split; reflexivity. Qed.

(** X17.  A session lane carries the prefix [session:], resolving it again
    changes nothing, and it is never the default global lane, on which
    the run is enqueued from inside the session lane. *)
Theorem resolveSessionLane_is_stable (sessionKey : string) :
  JsString.startsWith (resolveSessionLane sessionKey) "session:" = true /\
  resolveSessionLane (resolveSessionLane sessionKey) = resolveSessionLane sessionKey /\
  resolveSessionLane sessionKey <> resolveGlobalLane None.
Proof.
  unfold resolveSessionLane. cbv zeta.
  set (cleaned := if (JsString.trim sessionKey =? EmptyString)%string
                  then "main" else JsString.trim sessionKey).
  assert (Hne : cleaned <> EmptyString).
  { unfold cleaned. destruct (String.eqb_spec (JsString.trim sessionKey) EmptyString);
      [discriminate|assumption]. }
  assert (Htrim : JsString.trim cleaned = cleaned).
  { unfold cleaned. destruct (JsString.trim sessionKey =? EmptyString)%string;
      [reflexivity|apply trim_idem]. }
  assert (Hstable : forall r, r <> EmptyString -> JsString.trim r = r ->
                              JsString.startsWith r "session:" = true ->
                              (if JsString.startsWith
                                    (if (JsString.trim r =? EmptyString)%string
                                     then "main" else JsString.trim r) "session:"
                               then if (JsString.trim r =? EmptyString)%string
                                    then "main" else JsString.trim r
                               else "session:" +++
                                    (if (JsString.trim r =? EmptyString)%string
                                     then "main" else JsString.trim r)) = r).
  { intros r Hr Ht Hs. rewrite Ht. destruct (String.eqb_spec r EmptyString); [contradiction|].
    rewrite Hs. reflexivity. }
  destruct (JsString.startsWith cleaned "session:") eqn:Hs.
  - split; [exact Hs|]. split; [apply Hstable; assumption|].
    intros E. rewrite E in Hs. discriminate Hs.
  - split; [apply (startsWith_app "session:" cleaned)|]. split; [|discriminate].
    apply Hstable; [discriminate| |apply (startsWith_app "session:" cleaned)].
    apply trim_app; [discriminate|reflexivity|exact Hne|exact Htrim].
Qed.

End QueueReconfiguration.

(* ------------------------------------------------------------------ *)
(** ** The pruner as a whole and its hard clear (pruning.ts) *)

Section PruningStructure.
Import Session Pruning.

(** A message with the content of its tool results erased: what is left
    is the role, the timestamp, the text and tool-call blocks, and the
    id and tool name of every tool result. *)
Definition skeletonBlock (b : ContentBlock) : ContentBlock :=
  match b with
  | tool_result id name _ => tool_result id name EmptyString
  | _ => b
  end.

Definition skeleton (m : Message) : Message :=
  match content m with
  | Str _ => m
  | Blocks bs => cloneMessage m (Blocks (map skeletonBlock bs))
  end.

Lemma softTrimBlocks_skeleton st pred bs :
  map skeletonBlock (fst (softTrimBlocks bs st pred)) = map skeletonBlock bs.
Proof.
  induction bs as [|b bs IH]; cbn [softTrimBlocks fst map]; [reflexivity|].
  rewrite IH. f_equal.
  destruct b as [t|id name input|id name c]; try reflexivity.
  unfold softTrimToolResultBlock.
  repeat match goal with |- context [if ?c then _ else _] => destruct c end; reflexivity.
Qed.

Lemma skeleton_clone m bs bs' :
  content m = Blocks bs ->
  map skeletonBlock bs' = map skeletonBlock bs ->
  skeleton (cloneMessage m (Blocks bs')) = skeleton m.
Proof.
  intros Hc E. unfold skeleton. cbn [cloneMessage content]. rewrite Hc, E. reflexivity.
Qed.

Lemma softTrimMessage_skeleton st pred m :
  skeleton (fst (softTrimMessage m st pred)) = skeleton m.
Proof.
  unfold softTrimMessage. destruct (content m) as [s|bs] eqn:Ec; [reflexivity|]. cbn [fst].
  destruct (0 <? snd (softTrimBlocks bs st pred))%Z; [|reflexivity].
  apply (skeleton_clone m bs); [exact Ec|apply softTrimBlocks_skeleton].
Qed.

Lemma applySoftTrim_skeleton settings pred msgs :
  map skeleton (fst (applySoftTrim msgs settings pred)) = map skeleton msgs.
Proof.
  induction msgs as [|m msgs IH]; cbn [applySoftTrim fst map]; [reflexivity|].
  rewrite IH, softTrimMessage_skeleton. reflexivity.
Qed.

Lemma hardClearBlocks_skeleton st pred cw bs T :
  map skeletonBlock (fst (fst (hardClearBlocks st pred cw bs T))) = map skeletonBlock bs.
Proof.
  revert T. induction bs as [|b bs IH]; intros T; cbn [hardClearBlocks]; [reflexivity|].
  destruct (hardClearBlock st pred cw b T) as [[b' T1] cl] eqn:Eb.
  specialize (IH T1). destruct (hardClearBlocks st pred cw bs T1) as [[bs' T2] n].
  cbn [fst map] in *. rewrite IH. f_equal.
  destruct b as [t|id name input|id name c]; cbn [hardClearBlock] in Eb;
    try (injection Eb as <- _ _; reflexivity).
  repeat match type of Eb with context [if ?c then _ else _] => destruct c end;
    injection Eb as <- _ _; reflexivity.
Qed.

Lemma hardClearMessages_skeleton st pred cw msgs T :
  map skeleton (fst (fst (hardClearMessages st pred cw msgs T))) = map skeleton msgs.
Proof.
  revert T. induction msgs as [|m msgs IH]; intros T; cbn [hardClearMessages]; [reflexivity|].
  destruct (hardClearMessage st pred cw m T) as [[m' T1] n1] eqn:Em.
  specialize (IH T1). destruct (hardClearMessages st pred cw msgs T1) as [[out T2] n2].
  cbn [fst map] in *. rewrite IH. f_equal.
  unfold hardClearMessage in Em. destruct (content m) as [s|bs] eqn:Ec.
  - injection Em as <- _ _. reflexivity.
  - pose proof (hardClearBlocks_skeleton st pred cw bs T) as Hs.
    destruct (hardClearBlocks st pred cw bs T) as [[bs' T'] n]. cbn [fst] in Hs.
    injection Em as <- _ _. destruct (0 <? n)%Z; [|reflexivity].
    apply (skeleton_clone m bs); assumption.
Qed.

Lemma applyHardClear_skeleton est msgs st pred cw :
  map skeleton (fst (applyHardClear est msgs st pred cw)) = map skeleton msgs.
Proof.
  unfold applyHardClear.
  repeat match goal with |- context [if ?c then _ else _] => destruct c end; try reflexivity.
  pose proof (hardClearMessages_skeleton st pred cw msgs (estimateMessagesChars est msgs)) as Hs.
  destruct (hardClearMessages st pred cw msgs (estimateMessagesChars est msgs)) as [[out T] n].
  exact Hs.
Qed.

Lemma afterLayers12_skeleton est msgs ct raw :
  map skeleton (afterLayers12 est msgs ct raw) = map skeleton msgs.
Proof.
  unfold afterLayers12. cbv zeta.
  match goal with |- context [applyHardClear est (fst ?s)] => set (soft := s) end.
  assert (Hsoft : map skeleton (fst soft) = map skeleton msgs).
  { unfold soft. destruct (Qgtb _ _); [apply applySoftTrim_skeleton|reflexivity]. }
  destruct (Qgtb (ratio (estimateMessagesChars est (fst soft)) _) _); [|exact Hsoft].
  rewrite applyHardClear_skeleton. exact Hsoft.
Qed.

Lemma prune_partition est msgs ct raw :
  let r := pruneContextMessages est msgs ct raw in
  droppedMessages r ++ messages r = afterLayers12 est msgs ct raw.
Proof.
  cbv zeta. destruct (pruneContextMessages_lists est msgs ct raw) as [Em Ed].
  cbv zeta in Em, Ed. rewrite Em, Ed.
  destruct (estimateMessagesChars est (afterLayers12 est msgs ct raw) <=? budgetOf ct raw)%Z;
    [reflexivity|].
  set (current := afterLayers12 est msgs ct raw).
  assert (Hnd : NoDup (map fst (tagged current))).
  { rewrite tagged_fst. apply seq_NoDup. }
  destruct (dropMessages_spec est (tagged current) (resolvePruningSettings raw)
              (budgetOf ct raw) Hnd) as (Eo & _).
  cbv zeta in Eo. rewrite <- map_app.
  transitivity (map snd (tagged current)); [f_equal; symmetry; exact Eo|apply tagged_snd].
Qed.

Lemma toolUseIds_skeleton m : Guard.toolUseIds (skeleton m) = Guard.toolUseIds m.
Proof.
  unfold skeleton. destruct (content m) as [s|bs] eqn:Ec; [reflexivity|].
  unfold Guard.toolUseIds. cbn [cloneMessage role content]. rewrite Ec.
  destruct (role m); [reflexivity|]. clear Ec.
  induction bs as [|b bs IH]; [reflexivity|]. cbn [map flat_map]. rewrite IH.
  destruct b; reflexivity.
Qed.

Lemma toolResultIds_skeleton m : Guard.toolResultIds (skeleton m) = Guard.toolResultIds m.
Proof.
  unfold skeleton. destruct (content m) as [s|bs] eqn:Ec; [reflexivity|].
  unfold Guard.toolResultIds. cbn [cloneMessage role content]. rewrite Ec.
  destruct (role m); [|reflexivity].
  clear Ec. induction bs as [|b bs IH]; [reflexivity|]. cbn [map flat_map]. rewrite IH.
  destruct b; reflexivity.
Qed.

Lemma answered_skeleton id l : Guard.answered id (map skeleton l) = Guard.answered id l.
Proof.
  unfold Guard.answered. induction l as [|m l IH]; [reflexivity|].
  cbn [map existsb]. rewrite IH, toolResultIds_skeleton. reflexivity.
Qed.

Lemma paired_skeleton l : Guard.paired (map skeleton l) = Guard.paired l.
Proof.
  induction l as [|m l IH]; [reflexivity|]. cbn [map Guard.paired].
  rewrite IH, toolUseIds_skeleton. f_equal.
  induction (Guard.toolUseIds m) as [|id ids IHi]; [reflexivity|].
  cbn [forallb]. rewrite IHi, answered_skeleton. reflexivity.
Qed.

(** X18.  The pruner loses, reorders and invents nothing: for every
    estimator, window and settings, the dropped messages followed by
    the kept ones are the input messages up to the content of tool
    results.  Roles, timestamps, texts, tool calls and the ids of the
    tool results are as they were, so the two lists together are paired
    exactly when the input is. *)
Theorem prune_only_rewrites_tool_result_content (est : Message -> Z) (msgs : list Message)
    (contextWindowTokens : Z) (raw : option PartialSettings) :
  let r := pruneContextMessages est msgs contextWindowTokens raw in
  map skeleton (droppedMessages r ++ messages r) = map skeleton msgs /\
  (List.length (droppedMessages r) + List.length (messages r) = List.length msgs)%nat /\
  Guard.paired (droppedMessages r ++ messages r) = Guard.paired msgs.
Proof.
  cbv zeta.
  assert (Hs : map skeleton (droppedMessages (pruneContextMessages est msgs contextWindowTokens raw)
                             ++ messages (pruneContextMessages est msgs contextWindowTokens raw))
               = map skeleton msgs).
  { rewrite (prune_partition est msgs contextWindowTokens raw). apply afterLayers12_skeleton. }
  split; [exact Hs|]. split.
  - rewrite <- length_app. apply (f_equal (@List.length _)) in Hs.
    rewrite !length_map in Hs. exact Hs.
  - rewrite <- paired_skeleton, Hs. apply paired_skeleton.
Qed.

(** Dropping can separate a tool result from its call: the kept
    messages can hold a result whose call is among the dropped ones. *)
Example prune_can_orphan_a_tool_result :
  let callM := {| role := assistant; content := Blocks [tool_use "t1" "read" []];
                  timestamp := 1 |} in
  let resultM := {| role := user; content := Blocks [tool_result "t1" (Some "read") "0123456789"];
                    timestamp := 2 |} in
  let r := pruneContextMessages TokensModel.estimateMessageChars [callM; resultM] 5
             (Some {| raw_maxHistoryShare := None; raw_keepLastAssistants := Some (inject_Z 0);
                      raw_softTrimRatio := None; raw_hardClearRatio := None;
                      raw_minPrunableToolChars := None; raw_softTrim_maxChars := None;
                      raw_softTrim_headChars := None; raw_softTrim_tailChars := None;
                      raw_hardClear_enabled := None; raw_hardClear_placeholder := None;
                      raw_tools := None |}) in
  (TokensModel.estimateMessageChars callM, TokensModel.estimateMessageChars resultM,
   droppedMessages r, messages r,
   flat_map Guard.toolResultIds (messages r), flat_map Guard.toolUseIds (messages r))
  = (4%Z, 10%Z, [callM], [resultM], ["t1"], []).
Proof. vm_compute. reflexivity. Qed.

(** X19.  Whatever the caller passes as settings, the resolved shares lie in
    [0, 1], the resolved counts are not negative, and the history
    budget is at least one char and at most the char window. *)
Theorem resolved_settings_and_budget_in_range (raw : option PartialSettings)
    (contextWindowTokens : Z) :
  let s := resolvePruningSettings raw in
  (0 <= maxHistoryShare s <= 1)%Q /\ (0 <= softTrimRatio s <= 1)%Q /\
  (0 <= hardClearRatio s <= 1)%Q /\
  (0 <= keepLastAssistants s)%Z /\ (0 <= minPrunableToolChars s)%Z /\
  (0 <= maxChars (softTrim s))%Z /\ (0 <= headChars (softTrim s))%Z /\
  (0 <= tailChars (softTrim s))%Z /\
  (1 <= budgetOf contextWindowTokens raw <= 4 * Z.max 1 contextWindowTokens)%Z.
Proof.
  cbv zeta.
  assert (Hshare : forall v, (0 <= clampShare v <= 1)%Q).
  { intros v. unfold clampShare, Qmin, Qmax.
    destruct (Qle_bool 0 v) eqn:E0.
    - destruct (Qle_bool 1 v) eqn:E1.
      + split; [discriminate|apply Qle_refl].
      + split; [apply Qle_bool_iff; exact E0|].
        apply Qlt_le_weak, Qnot_le_lt. intros H. apply Qle_bool_iff in H. congruence.
    - destruct (Qle_bool 1 0) eqn:E1; [discriminate E1|]. split; [apply Qle_refl|discriminate]. }
  assert (Hint : forall v d, (0 <= d)%Z -> (0 <= clampPositiveInt v d)%Z).
  { intros [v|] d Hd; cbn [clampPositiveInt]; lia. }
  assert (Hs : (0 <= maxHistoryShare (resolvePruningSettings raw) <= 1)%Q).
  { destruct raw as [raw|]; cbn [resolvePruningSettings maxHistoryShare]; [apply Hshare|].
    split; discriminate. }
  refine (conj Hs _).
  repeat match goal with |- _ /\ _ => split end;
    try (destruct raw as [raw|];
         cbn [resolvePruningSettings softTrimRatio hardClearRatio keepLastAssistants
              minPrunableToolChars softTrim maxChars headChars tailChars];
         first [apply Hshare | apply Hint; cbn; lia | cbn; lia | discriminate]).
  - unfold budgetOf. lia.
  - unfold budgetOf. set (cw := (Z.max 1 contextWindowTokens * 4)%Z).
    assert (Hcw : (1 <= cw)%Z) by (unfold cw; lia).
    apply Z.max_lub; [lia|].
    assert (Hq : (inject_Z cw * maxHistoryShare (resolvePruningSettings raw) <= inject_Z cw)%Q).
    { rewrite <- (Qmult_1_r (inject_Z cw)) at 2. apply Qmult_le_l; [|apply Hs].
      change 0%Q with (inject_Z 0). rewrite <- Zlt_Qlt. lia. }
    apply Qfloor_resp_le in Hq. rewrite Qfloor_Z in Hq. unfold cw in *. lia.
Qed.

End PruningStructure.

Section HardClearLayer.
Import Session Pruning.

Variable est : Message -> Z.
Variable st : ContextPruningSettings.
Variable pred : string -> bool.
Variable cw : Z.
Hypothesis est_lin : est_linear est.

Let ph := placeholder (hardClear st).
Let below (T : Z) : bool := Qltb (ratio T cw) (hardClearRatio st).

(** The tool results the hard clear may clear: those with content whose
    [tool_use_id] is empty or accepted by the tool match predicate. *)
Definition clearable (b : ContentBlock) : bool :=
  match b with
  | tool_result id _ c => (0 <? JsString.len c)%Z && ((id =? EmptyString)%string || pred id)
  | _ => false
  end.

Definition withPlaceholder (b : ContentBlock) : ContentBlock :=
  match b with
  | tool_result id name _ => tool_result id name ph
  | _ => b
  end.

(** A block after the hard clear: untouched, or a clearable result with
    the placeholder as its content. *)
Definition hardClearedBlock (b b' : ContentBlock) : Prop :=
  b' = b \/ (clearable b = true /\ b' = withPlaceholder b).

Definition hardClearedMessage (m m' : Message) : Prop :=
  role m' = role m /\ timestamp m' = timestamp m /\
  match content m with
  | Str _ => m' = m
  | Blocks bs => exists bs', content m' = Blocks bs' /\ Forall2 hardClearedBlock bs bs'
  end.

(** No clearable result is left with a content other than the
    placeholder. *)
Definition allCleared (m : Message) : Prop :=
  match content m with
  | Str _ => True
  | Blocks bs => Forall (fun b => clearable b = true -> b = withPlaceholder b) bs
  end.

Lemma hardClearedBlock_shape b b' : hardClearedBlock b b' -> sameShape b b'.
Proof.
  intros [->|[Hc ->]]; [left; reflexivity|].
  destruct b as [t|id name input|id name c]; try discriminate Hc.
  right. exists id, name, c, ph. split; reflexivity.
Qed.

Lemma hardClearBlock_step b T :
  let '(b', T', cl) := hardClearBlock st pred cw b T in
  (cl = false /\ b' = b /\ T' = T /\ (clearable b = true -> below T = true)) \/
  (cl = true /\ clearable b = true /\ below T = false /\ b' = withPlaceholder b /\
   T' = (T - toolLen b + toolLen b')%Z).
Proof.
  destruct b as [t|id name input|id name c]; cbn [hardClearBlock];
    try (left; repeat split; discriminate).
  unfold isToolResultProtected. cbn [negb andb clearable].
  destruct (0 <? JsString.len c)%Z; cbn [andb]; [|left; repeat split; discriminate].
  destruct ((id =? EmptyString)%string || pred id); [|left; repeat split; discriminate].
  fold (below T). destruct (below T) eqn:Hb.
  - left. repeat split.
  - right. cbn [withPlaceholder toolLen]. fold ph. repeat split. lia.
Qed.

Lemma hardClearBlocks_step bs T :
  let '(bs', T', n) := hardClearBlocks st pred cw bs T in
  Forall2 hardClearedBlock bs bs' /\
  T' = (T + toolLens bs' - toolLens bs)%Z /\
  (0 <= n)%Z /\ (n = 0%Z -> bs' = bs) /\
  (below T = true -> bs' = bs /\ T' = T) /\
  (below T' = false ->
   Forall (fun b => clearable b = true -> b = withPlaceholder b) bs').
Proof.
  revert T. induction bs as [|b bs IH]; intros T; cbn [hardClearBlocks].
  - refine (conj _ (conj _ (conj _ (conj _ (conj _ _))))); auto; try constructor; cbn; lia.
  - pose proof (hardClearBlock_step b T) as Hb.
    destruct (hardClearBlock st pred cw b T) as [[b' T1] cl].
    specialize (IH T1).
    destruct (hardClearBlocks st pred cw bs T1) as [[bs' T2] n].
    destruct IH as (Hf & HT & Hn & Hn0 & Hbl & Hall).
    assert (Hkeep : below T1 = true -> below T2 = true).
    { intros H. destruct (Hbl H) as [_ ->]. exact H. }
    refine (conj _ (conj _ (conj _ (conj _ (conj _ _))))).
    + constructor; [|exact Hf].
      destruct Hb as [(_ & -> & _)|(_ & Hc & _ & -> & _)]; [left|right]; auto.
    + cbn [toolLens fold_right]. fold (toolLens bs). fold (toolLens bs').
      destruct Hb as [(_ & -> & -> & _)|(_ & _ & _ & _ & ->)]; lia.
    + destruct cl; cbn [boolCount]; lia.
    + intros H0. destruct Hb as [(-> & -> & _)|(-> & _)]; cbn [boolCount] in H0; [|lia].
      rewrite Hn0 by lia. reflexivity.
    + intros Hbt. destruct Hb as [(_ & -> & -> & _)|(_ & _ & Hbf & _)]; [|congruence].
      destruct (Hbl Hbt) as [-> ->]. split; reflexivity.
    + intros Hb2. assert (Hb1 : below T1 = false).
      { destruct (below T1) eqn:E; [|reflexivity]. rewrite (Hkeep eq_refl) in Hb2. discriminate. }
      constructor; [|apply Hall; exact Hb2].
      destruct Hb as [(_ & -> & -> & Hc)|(_ & _ & _ & -> & _)].
      * intros Hcl. specialize (Hc Hcl). congruence.
      * intros _. destruct b as [t|id name input|id name c]; reflexivity.
Qed.

Lemma hardClearMessage_step m T :
  let '(m', T', n) := hardClearMessage st pred cw m T in
  hardClearedMessage m m' /\
  est m' = (est m + (T' - T))%Z /\
  (below T = true -> m' = m /\ T' = T) /\
  (below T' = false -> allCleared m').
Proof.
  unfold hardClearMessage, hardClearedMessage, allCleared.
  destruct (content m) as [s|bs] eqn:Ec.
  - rewrite Ec. repeat split; try lia; auto.
  - pose proof (hardClearBlocks_step bs T) as Hs.
    destruct (hardClearBlocks st pred cw bs T) as [[bs' T'] n].
    destruct Hs as (Hf & HT & Hn & Hn0 & Hbl & Hall).
    assert (Em : (if (0 <? n)%Z then cloneMessage m (Blocks bs') else m)
                 = cloneMessage m (Blocks bs')).
    { destruct (Z.ltb_spec 0 n) as [_|Hle]; [reflexivity|].
      rewrite Hn0 by lia. rewrite <- Ec. symmetry. apply cloneMessage_same. }
    rewrite Em.
    refine (conj _ (conj _ (conj _ _))).
    + cbn [cloneMessage role timestamp content].
      repeat split. exists bs'. split; [reflexivity|exact Hf].
    + pose proof (est_linear_blocks est m [] bs bs' est_lin Ec) as Hl. cbn [app] in Hl.
      rewrite Hl; [lia|].
      clear -Hf. induction Hf; constructor; [apply hardClearedBlock_shape|]; assumption.
    + intros Hb. destruct (Hbl Hb) as [-> ->]. split; [|reflexivity].
      rewrite <- Ec. fold (cloneMessage m (content m)). apply cloneMessage_same.
    + exact Hall.
Qed.

Lemma hardClearMessages_step l T :
  let '(out, T', n) := hardClearMessages st pred cw l T in
  Forall2 hardClearedMessage l out /\
  estimateMessagesChars est out = (estimateMessagesChars est l + (T' - T))%Z /\
  (below T = true -> out = l /\ T' = T) /\
  (below T' = false -> Forall allCleared out).
Proof.
  revert T. induction l as [|m l IH]; intros T; cbn [hardClearMessages].
  - repeat split; auto; try constructor. cbn. lia.
  - pose proof (hardClearMessage_step m T) as Hm.
    destruct (hardClearMessage st pred cw m T) as [[m' T1] n1].
    specialize (IH T1).
    destruct (hardClearMessages st pred cw l T1) as [[out T2] n2].
    destruct Hm as (Hm & He & Hbl & Hall). destruct IH as (Hf & He' & Hbl' & Hall').
    refine (conj _ (conj _ (conj _ _))).
    + constructor; assumption.
    + unfold estimateMessagesChars in *. cbn [fold_right]. lia.
    + intros Hb. destruct (Hbl Hb) as [-> ->]. destruct (Hbl' Hb) as [-> ->]. auto.
    + intros Hb2. assert (Hb1 : below T1 = false).
      { destruct (below T1) eqn:E; [|reflexivity]. destruct (Hbl' eq_refl) as [_ ->]. congruence. }
      constructor; [apply Hall; exact Hb1|apply Hall'; exact Hb2].
Qed.

Lemma hardClearedMessage_refl m : hardClearedMessage m m.
Proof.
  unfold hardClearedMessage. repeat split. destruct (content m) as [s|bs]; [reflexivity|].
  exists bs. split; [reflexivity|]. induction bs; constructor; [left; reflexivity|assumption].
Qed.

Lemma hardClearedMessages_refl l : Forall2 hardClearedMessage l l.
Proof. induction l; constructor; [apply hardClearedMessage_refl|assumption]. Qed.

(** X20.  Layer 2 of the pruner.  Every message keeps its role, timestamp and
    blocks; a block is either untouched or a clearable tool result whose
    content became the placeholder.  Nothing is touched when the hard
    clear is disabled, when the estimate over the char window is below
    [hardClearRatio], or when the prunable chars are fewer than
    [minPrunableToolChars].  Otherwise results are cleared until the
    estimate falls below the ratio: afterwards the estimate is below
    it, or no clearable result is left uncleared. *)
Theorem hardClear_layer_spec (msgs : list Message) :
  let out := fst (applyHardClear est msgs st pred cw) in
  Forall2 hardClearedMessage msgs out /\
  ((enabled (hardClear st) = false \/ below (estimateMessagesChars est msgs) = true \/
    (countPrunableToolChars msgs pred < minPrunableToolChars st)%Z) ->
   applyHardClear est msgs st pred cw = (msgs, 0%Z)) /\
  (enabled (hardClear st) = true -> below (estimateMessagesChars est msgs) = false ->
   (minPrunableToolChars st <= countPrunableToolChars msgs pred)%Z ->
   below (estimateMessagesChars est out) = true \/ Forall allCleared out).
Proof.
  cbv zeta. unfold applyHardClear.
  destruct (enabled (hardClear st)) eqn:Een; cbn [negb].
  2:{ cbn [fst]. split; [apply hardClearedMessages_refl|]. split; [reflexivity|discriminate]. }
  fold (below (estimateMessagesChars est msgs)).
  destruct (below (estimateMessagesChars est msgs)) eqn:Hb.
  { cbn [fst]. split; [apply hardClearedMessages_refl|]. split; [reflexivity|discriminate]. }
  destruct (Z.ltb_spec (countPrunableToolChars msgs pred) (minPrunableToolChars st)) as [Hlt|Hge].
  { cbn [fst]. split; [apply hardClearedMessages_refl|]. split; [reflexivity|lia]. }
  pose proof (hardClearMessages_step msgs (estimateMessagesChars est msgs)) as Hs.
  destruct (hardClearMessages st pred cw msgs (estimateMessagesChars est msgs)) as [[out T'] n].
  destruct Hs as (Hf & He & _ & Hall). cbn [fst].
  split; [exact Hf|]. split.
  - intros [H|[H|H]]; [discriminate|discriminate|lia].
  - intros _ _ _. replace (estimateMessagesChars est out) with T' by lia.
    destruct (below T') eqn:Hb'; [left; reflexivity|right; apply Hall; reflexivity].
Qed.

End HardClearLayer.

Section HardClearSamples.
Import Session Pruning.

Definition clearAlways : ContextPruningSettings :=
  {| maxHistoryShare := 1 # 2; keepLastAssistants := 3; softTrimRatio := 3 # 10;
     hardClearRatio := 1 # 2; minPrunableToolChars := 0;
     softTrim := {| maxChars := 4000; headChars := 1500; tailChars := 1500 |};
     hardClear := {| enabled := true; placeholder := "[x]" |};
     tools := {| allow := None; deny := None |} |}.

Definition twoResults : list Message :=
  [ {| role := user; content := Blocks [tool_result "t1" (Some "read") "0123456789"];
       timestamp := 1 |};
    {| role := user; content := Blocks [tool_result "t2" (Some "read") "abcdefghij"];
       timestamp := 2 |} ].

Lemma hardClear_layer_spec_witness :
  let out := fst (applyHardClear TokensModel.estimateMessageChars twoResults clearAlways
                    (fun _ => true) 30) in
  out = [ {| role := user; content := Blocks [tool_result "t1" (Some "read") "[x]"];
             timestamp := 1 |};
          {| role := user; content := Blocks [tool_result "t2" (Some "read") "abcdefghij"];
             timestamp := 2 |} ] /\
  (Qltb (ratio (estimateMessagesChars TokensModel.estimateMessageChars out) 30)
        (hardClearRatio clearAlways) = true \/
   Forall (allCleared clearAlways (fun _ => true)) out).
Proof.
  split; [vm_compute; reflexivity|].
  apply (hardClear_layer_spec TokensModel.estimateMessageChars clearAlways (fun _ => true) 30
           tokensModel_linear twoResults).
  - reflexivity.
  - vm_compute. reflexivity.
  - vm_compute. discriminate.
Defined.

End HardClearSamples.

(* ------------------------------------------------------------------ *)
(** ** Chunks, shares and file lists (compaction.ts) *)

Section ChunkProperties.
Import Session Compaction.

Variable est : Message -> Z.
Variable maxTok : Z.

Definition tokens (c : list Message) : Z := fold_right (fun m t => (est m + t)%Z) 0%Z c.

(** A chunk is closed before [next] when [next]'s first message would
    not fit, or when the chunk's last message alone exceeds the limit. *)
Definition closedBefore (c next : list Message) : Prop :=
  (exists l x, c = l ++ [x] /\ (maxTok < est x)%Z) \/
  (exists m rest, next = m :: rest /\ (maxTok < tokens c + est m)%Z).

Definition fits (c : list Message) : Prop :=
  c <> [] /\ ((tokens c <= maxTok)%Z \/ List.length c = 1%nat).

Fixpoint wellCut (chunks : list (list Message)) : Prop :=
  match chunks with
  | c :: (next :: _) as rest => closedBefore c next /\ wellCut rest
  | _ => True
  end.

Lemma tokens_app a b : tokens (a ++ b) = (tokens a + tokens b)%Z.
Proof. induction a as [|m a IH]; cbn [app tokens fold_right]; [reflexivity|]. fold (tokens (a ++ b)). fold (tokens a). lia. Qed.

Lemma chunkLoop_acc msgs : forall chunks current ct,
  chunkLoop est maxTok msgs chunks current ct
  = chunks ++ chunkLoop est maxTok msgs [] current ct.
Proof.
  induction msgs as [|m rest IH]; intros chunks current ct; cbn [chunkLoop].
  - destruct current; [rewrite app_nil_r|]; reflexivity.
  - cbv zeta.
    destruct (negb (List.length current =? 0)%nat && (ct + est m >? maxTok)%Z);
      destruct (est m >? maxTok)%Z;
      rewrite IH; symmetry; rewrite IH; cbn [app]; rewrite <- ?app_assoc; reflexivity.
Qed.

Lemma wellCut_adjacent chunks :
  wellCut chunks ->
  forall pre c next post, chunks = pre ++ c :: next :: post -> closedBefore c next.
Proof.
  intros H pre. revert chunks H. induction pre as [|p pre IH]; intros chunks H c next post E.
  - subst chunks. apply H.
  - subst chunks. cbn [app] in H. destruct (pre ++ c :: next :: post) as [|x l] eqn:El.
    + destruct pre; discriminate.
    + apply (IH (x :: l) (proj2 H) c next post). symmetry. exact El.
Qed.

Lemma chunkLoop_spec msgs : forall current,
  (current = [] \/ (tokens current <= maxTok)%Z) ->
  let new := chunkLoop est maxTok msgs [] current (tokens current) in
  List.concat new = current ++ msgs /\ Forall fits new /\ wellCut new /\
  (current <> [] -> exists tail post, new = (current ++ tail) :: post).
Proof.
  induction msgs as [|m rest IH]; intros current Hcur; cbv zeta.
  - cbn [chunkLoop]. destruct current as [|x l].
    + repeat split; [constructor|]. intros H; contradiction.
    + cbn [List.concat app]. rewrite !app_nil_r. repeat split.
      * constructor; [|constructor]. split; [discriminate|].
        destruct Hcur as [Hc|Hc]; [discriminate|left; exact Hc].
      * intros _. exists [], []. rewrite app_nil_r. reflexivity.
  - cbn [chunkLoop]. cbv zeta.
    assert (Hlen : (List.length current =? 0)%nat = true <-> current = []).
    { destruct current; cbn; split; congruence. }
    destruct (List.length current =? 0)%nat eqn:El; cbn [negb andb].
    + (* nothing collected yet *)
      assert (current = []) by (apply Hlen; reflexivity). subst current.
      cbn [app tokens fold_right]. rewrite Z.add_0_l.
      destruct (Z.gtb_spec (est m) maxTok) as [Hover|Hfit].
      * rewrite chunkLoop_acc. specialize (IH [] (or_introl eq_refl)). cbv zeta in IH.
        cbn [tokens fold_right app] in IH. destruct IH as (Hc & Hf & Hw & _).
        cbn [app List.concat]. rewrite Hc. repeat split.
        -- constructor; [|exact Hf]. split; [discriminate|right; reflexivity].
        -- destruct (chunkLoop est maxTok rest [] [] 0) as [|next l]; [exact I|].
           split; [|exact Hw]. left. exists [], m. split; [reflexivity|lia].
        -- intros H; contradiction.
      * specialize (IH [m]). cbv zeta in IH. cbn [tokens fold_right] in IH.
        rewrite Z.add_0_r in IH.
        destruct IH as (Hc & Hf & Hw & Hhd); [right; lia|].
        repeat split; try assumption. intros H; contradiction.
    + assert (Hne : current <> []) by (intros E; apply Hlen in E; discriminate).
      destruct Hcur as [Hc|Hc]; [contradiction|].
      destruct (Z.gtb_spec (tokens current + est m) maxTok) as [Hflush|Hroom].
      * (* the message does not fit: the chunk is closed *)
        cbn [app]. rewrite Z.add_0_l.
        destruct (Z.gtb_spec (est m) maxTok) as [Hover|Hfit].
        -- rewrite chunkLoop_acc. specialize (IH [] (or_introl eq_refl)). cbv zeta in IH.
           cbn [tokens fold_right app] in IH. destruct IH as (Hcc & Hf & Hw & _).
           cbn [app List.concat]. rewrite Hcc. repeat split.
           ++ constructor; [split; [exact Hne|left; exact Hc]|].
              constructor; [|exact Hf]. split; [discriminate|right; reflexivity].
           ++ right. exists m, []. split; [reflexivity|lia].
           ++ destruct (chunkLoop est maxTok rest [] [] 0) as [|next l]; [exact I|].
              split; [|exact Hw]. left. exists [], m. split; [reflexivity|lia].
           ++ intros _. exists [], ([m] :: chunkLoop est maxTok rest [] [] 0).
              rewrite app_nil_r. reflexivity.
        -- rewrite chunkLoop_acc. specialize (IH [m]). cbv zeta in IH.
           cbn [tokens fold_right] in IH. rewrite Z.add_0_r in IH.
           destruct IH as (Hcc & Hf & Hw & Hhd); [right; lia|].
           destruct (Hhd ltac:(discriminate)) as (tail & post & Enew).
           cbn [app List.concat]. rewrite Hcc. repeat split.
           ++ constructor; [split; [exact Hne|left; exact Hc]|exact Hf].
           ++ rewrite Enew in Hw |- *. split; [|exact Hw].
              right. exists m, tail. split; [reflexivity|lia].
           ++ intros _. exists [], (chunkLoop est maxTok rest [] [m] (est m)).
              rewrite app_nil_r. reflexivity.
      * destruct (Z.gtb_spec (est m) maxTok) as [Hover|Hfit].
        -- rewrite chunkLoop_acc. specialize (IH [] (or_introl eq_refl)). cbv zeta in IH.
           cbn [tokens fold_right app] in IH. destruct IH as (Hcc & Hf & Hw & _).
           cbn [app List.concat]. rewrite Hcc, <- app_assoc. repeat split.
           ++ constructor; [|exact Hf]. split; [destruct current; discriminate|].
              left. rewrite tokens_app. cbn [tokens fold_right]. lia.
           ++ destruct (chunkLoop est maxTok rest [] [] 0) as [|next l]; [exact I|].
              split; [|exact Hw]. left. exists current, m. split; [reflexivity|lia].
           ++ intros _. exists [m], (chunkLoop est maxTok rest [] [] 0). reflexivity.
        -- specialize (IH (current ++ [m])). cbv zeta in IH.
           rewrite tokens_app in IH. cbn [tokens fold_right] in IH.
           rewrite Z.add_0_r in IH. fold (tokens current) in IH.
           destruct IH as (Hcc & Hf & Hw & Hhd); [right; lia|].
           rewrite <- app_assoc in Hcc. repeat split; try assumption.
           intros _. destruct Hhd as (tail & post & Enew); [destruct current; discriminate|].
           exists (m :: tail), post. rewrite Enew, <- app_assoc. reflexivity.
Qed.

(** X21.  [chunkMessagesByMaxTokens] cuts the messages into consecutive
    chunks: their concatenation is the input, none is empty, each stays
    within [maxTokens] or is a single message, and a chunk is closed
    only when the next message would not fit or its last message alone
    exceeds [maxTokens]. *)
Theorem chunkMessagesByMaxTokens_partitions (msgs : list Message) :
  let chunks := chunkMessagesByMaxTokens est msgs maxTok in
  List.concat chunks = msgs /\
  (forall c, In c chunks -> c <> [] /\ ((tokens c <= maxTok)%Z \/ List.length c = 1%nat)) /\
  (forall pre c next post, chunks = pre ++ c :: next :: post -> closedBefore c next).
Proof.
  cbv zeta. unfold chunkMessagesByMaxTokens.
  destruct msgs as [|m rest].
  - repeat split; try contradiction. intros pre c next post E. destruct pre; discriminate.
  - destruct (chunkLoop_spec (m :: rest) [] (or_introl eq_refl)) as (Hc & Hf & Hw & _).
    cbn [tokens fold_right app] in Hc, Hf, Hw.
    split; [exact Hc|]. split.
    + intros c Hin. rewrite Forall_forall in Hf. apply (Hf c Hin).
    + apply wellCut_adjacent. exact Hw.
Qed.

End ChunkProperties.

Section SplitProperties.
Import Session CompactionParts.

Variable est : Message -> Z.
Variable estAll : list Message -> Z.

Definition shareTokens (c : list Message) : Z := fold_right (fun m t => (est m + t)%Z) 0%Z c.

Lemma shareTokens_app a b : shareTokens (a ++ b) = (shareTokens a + shareTokens b)%Z.
Proof.
  induction a as [|m a IH]; cbn [app shareTokens fold_right]; [reflexivity|].
  fold (shareTokens (a ++ b)). fold (shareTokens a). lia.
Qed.

Lemma normalizeParts_range parts count :
  (1 <= normalizeParts parts count <= Z.max 1 (Z.of_nat count))%Z.
Proof.
  unfold normalizeParts. destruct parts as [q|]; [|lia].
  destruct (Qle_bool q 1); lia.
Qed.

Section Loop.
Variable n : Z.
Variable target : Q.

Definition withinShare (c : list Message) : Prop :=
  (inject_Z (shareTokens c) <= target)%Q \/ List.length c = 1%nat.

Lemma Forall_removelast {A : Type} (P : A -> Prop) (l : list A) :
  Forall P l -> Forall P (removelast l).
Proof.
  induction l as [|x l IH]; intros H; [constructor|]. inversion H; subst.
  cbn [removelast]. destruct l; [constructor|]. constructor; auto.
Qed.

Lemma splitLoop_spec msgs : forall chunks current,
  (Z.of_nat (List.length chunks) <= n - 1)%Z ->
  Forall (fun c => c <> [] /\ withinShare c) chunks ->
  ((Z.of_nat (List.length chunks) < n - 1)%Z -> current = [] \/ withinShare current) ->
  let out := splitLoop est n target msgs chunks current (shareTokens current) in
  List.concat out = List.concat chunks ++ current ++ msgs /\
  (Z.of_nat (List.length out) <= n)%Z /\
  Forall (fun c => c <> []) out /\
  Forall withinShare (removelast out).
Proof.
  induction msgs as [|m rest IH]; intros chunks current Hlen Hch Hcur; cbv zeta.
  - cbn [splitLoop]. assert (Hne : Forall (fun c : list Message => c <> []) chunks).
    { eapply Forall_impl; [|exact Hch]. intros c H. apply H. }
    assert (Hws : Forall withinShare chunks).
    { eapply Forall_impl; [|exact Hch]. intros c H. apply H. }
    destruct current as [|x l].
    + cbn [app]. rewrite app_nil_r. repeat split; [lia|exact Hne|].
      apply Forall_removelast. exact Hws.
    + rewrite concat_app. cbn [List.concat]. rewrite !app_nil_r.
      repeat split.
      * rewrite length_app. cbn [List.length]. lia.
      * apply Forall_app. split; [exact Hne|]. constructor; [discriminate|constructor].
      * rewrite removelast_last. exact Hws.
  - cbn [splitLoop]. cbv zeta.
    assert (Hnil : (List.length current =? 0)%nat = true <-> current = []).
    { destruct current; cbn; split; congruence. }
    destruct (Z.ltb_spec (Z.of_nat (List.length chunks)) (n - 1)) as [Hroom|Hfull];
      cbn [andb].
    + destruct (List.length current =? 0)%nat eqn:El; cbn [negb andb].
      * assert (current = []) by (apply Hnil; reflexivity). subst current.
        cbn [app shareTokens fold_right]. rewrite Z.add_0_l.
        specialize (IH chunks [m] Hlen Hch). cbv zeta in IH.
        cbn [shareTokens fold_right] in IH. rewrite Z.add_0_r in IH.
        apply IH. intros _. right. right. reflexivity.
      * assert (Hne : current <> []) by (intros E; apply Hnil in E; congruence).
        destruct (Qle_bool (inject_Z (shareTokens current + est m)) target) eqn:Eq;
          cbn [negb].
        -- specialize (IH chunks (current ++ [m]) Hlen Hch). cbv zeta in IH.
           rewrite shareTokens_app in IH. cbn [shareTokens fold_right] in IH.
           rewrite Z.add_0_r in IH. fold (shareTokens current) in IH.
           rewrite <- !app_assoc in IH. apply IH.
           intros _. right. left. rewrite shareTokens_app.
           cbn [shareTokens fold_right]. rewrite Z.add_0_r. apply Qle_bool_iff. exact Eq.
        -- specialize (IH (chunks ++ [current]) [m]). cbv zeta in IH.
           cbn [shareTokens fold_right] in IH. rewrite Z.add_0_r in IH.
           rewrite concat_app in IH. cbn [List.concat] in IH.
           rewrite app_nil_r, <- !app_assoc in IH. apply IH.
           ++ rewrite length_app. cbn [List.length]. lia.
           ++ apply Forall_app. split; [exact Hch|].
              constructor; [|constructor]. split; [exact Hne|].
              destruct (Hcur Hroom) as [E|H]; [contradiction|exact H].
           ++ intros _. right. right. reflexivity.
    + specialize (IH chunks (current ++ [m]) Hlen Hch). cbv zeta in IH.
      rewrite shareTokens_app in IH. cbn [shareTokens fold_right] in IH.
      rewrite Z.add_0_r in IH. fold (shareTokens current) in IH.
      rewrite <- !app_assoc in IH. apply IH. intros H. lia.
Qed.

End Loop.

(** X22.  [splitMessagesByTokenShare] cuts the messages into consecutive
    chunks: their concatenation is the input and none is empty.  There
    are at most [normalizeParts] of them, a number between 1 and the
    message count, and every chunk but the last holds at most the
    target share of the tokens or is a single message. *)
Theorem splitMessagesByTokenShare_partitions (msgs : list Message) (parts : option JsNumber) :
  let chunks := splitMessagesByTokenShare est estAll msgs parts in
  let n := normalizeParts (match parts with Some p => p | None => DEFAULT_PARTS end)
                          (List.length msgs) in
  let target := (inject_Z (estAll msgs) / inject_Z n)%Q in
  List.concat chunks = msgs /\
  (forall c, In c chunks -> c <> []) /\
  (Z.of_nat (List.length chunks) <= n)%Z /\
  (1 <= n <= Z.max 1 (Z.of_nat (List.length msgs)))%Z /\
  (forall c, In c (removelast chunks) ->
             (inject_Z (shareTokens c) <= target)%Q \/ List.length c = 1%nat).
Proof.
  cbv zeta. unfold splitMessagesByTokenShare.
  pose proof (normalizeParts_range (match parts with Some p => p | None => DEFAULT_PARTS end)
                (List.length msgs)) as Hn.
  destruct msgs as [|m rest].
  - cbn [List.concat removelast List.length In] in *.
    refine (conj eq_refl (conj _ (conj _ (conj Hn _)))); [intros c []|lia|intros c []].
  - set (n := normalizeParts _ _) in *. destruct (Z.leb_spec n 1) as [Hle|Hgt].
    + cbn [List.concat removelast]. rewrite app_nil_r.
      refine (conj eq_refl (conj _ (conj _ (conj Hn _)))).
      * intros c [<-|[]]. discriminate.
      * cbn [List.length]. lia.
      * intros c [].
    + destruct (splitLoop_spec n (inject_Z (estAll (m :: rest)) / inject_Z n)%Q (m :: rest) [] [])
        as (Hc & Hl & Hne & Hw).
      * cbn [List.length]. lia.
      * constructor.
      * intros _. left. reflexivity.
      * cbn [shareTokens fold_right List.concat app] in Hc, Hl, Hne, Hw.
        split; [exact Hc|]. split; [rewrite Forall_forall in Hne; exact Hne|].
        split; [exact Hl|]. split; [exact Hn|].
        rewrite Forall_forall in Hw. exact Hw.
Qed.

End SplitProperties.

Section FileListProperties.
Import Session CompactionParts.

Variable pathOf : Input -> option string.

(** The tool calls of a message that name a file: the tool's name with
    the path. *)
Definition fileCalls (message : Message) : list (string * string) :=
  match role message, content message with
  | assistant, Blocks bs =>
      flat_map (fun block =>
                  match block with
                  | tool_use _ name args =>
                      match pathOf args with
                      | Some path => if (path =? EmptyString)%string then [] else [(name, path)]
                      | None => []
                      end
                  | _ => []
                  end) bs
  | _, _ => []
  end.

(** Strictly ascending by code units. *)
Fixpoint ascending (l : list string) : Prop :=
  match l with
  | a :: (b :: _) as rest => String.ltb a b = true /\ ascending rest
  | _ => True
  end.

Lemma setHas_In s x : setHas s x = true <-> In x s.
Proof.
  unfold setHas. rewrite existsb_exists. split.
  - intros (y & Hy & E). apply String.eqb_eq in E. subst. exact Hy.
  - intros H. exists x. split; [exact H|apply String.eqb_refl].
Qed.

Lemma setAdd_In s y x : In x (setAdd s y) <-> In x s \/ x = y.
Proof.
  unfold setAdd. destruct (setHas s y) eqn:E.
  - apply setHas_In in E. split; [auto|]. intros [H| ->]; assumption.
  - rewrite in_app_iff. cbn [In]. split; intros [H|H]; auto.
    + destruct H as [<-|[]]. auto.
Qed.

Lemma setAdd_NoDup s y : NoDup s -> NoDup (setAdd s y).
Proof.
  intros H. unfold setAdd. destruct (setHas s y) eqn:E; [exact H|].
  apply NoDup_app; [exact H|constructor; [intros []|constructor]|].
  intros a Ha [<-|[]]. apply setHas_In in Ha. congruence.
Qed.

Lemma fold_setAdd_In items : forall s x,
  In x (fold_left setAdd items s) <-> In x s \/ In x items.
Proof.
  induction items as [|y items IH]; intros s x; cbn [fold_left In]; [tauto|].
  rewrite IH, setAdd_In. intuition congruence.
Qed.

Lemma fold_setAdd_NoDup items : forall s, NoDup s -> NoDup (fold_left setAdd items s).
Proof.
  induction items as [|y items IH]; intros s H; cbn [fold_left]; [exact H|].
  apply IH, setAdd_NoDup, H.
Qed.

Lemma insertSorted_In x l y : In y (insertSorted x l) <-> y = x \/ In y l.
Proof.
  induction l as [|z l IH]; cbn [insertSorted In]; [intuition congruence|].
  destruct (String.leb x z); cbn [In]; [intuition congruence|]. rewrite IH. tauto.
Qed.

Lemma sort_In l y : In y (sort l) <-> In y l.
Proof.
  induction l as [|x l IH]; cbn [sort fold_right In]; [tauto|].
  fold (sort l). rewrite insertSorted_In, IH. intuition congruence.
Qed.

Lemma leb_false_ltb x z : String.leb x z = false -> String.ltb z x = true.
Proof.
  unfold String.leb, String.ltb. rewrite (String.compare_antisym z x).
  destruct (String.compare x z); cbn [CompOpp]; congruence.
Qed.

Lemma leb_ne_ltb x z : String.leb x z = true -> x <> z -> String.ltb x z = true.
Proof.
  unfold String.leb, String.ltb. destruct (String.compare x z) eqn:E; try congruence.
  intros _ Hne. apply String.compare_eq_iff in E. contradiction.
Qed.

Lemma insertSorted_ascending x l :
  ascending l -> ~ In x l -> ascending (insertSorted x l).
Proof.
  induction l as [|z l IH]; intros Ha Hx; [exact I|].
  cbn [insertSorted]. destruct (String.leb x z) eqn:E.
  - split; [|exact Ha]. apply leb_ne_ltb; [exact E|]. intros ->. apply Hx. left. reflexivity.
  - assert (Hl : ascending l) by (destruct l; [exact I|apply Ha]).
    specialize (IH Hl (fun H => Hx (or_intror H))).
    destruct l as [|w l]; cbn [insertSorted] in *.
    + split; [apply leb_false_ltb; exact E|exact I].
    + destruct (String.leb x w); (split; [|exact IH]).
      * apply leb_false_ltb. exact E.
      * apply Ha.
Qed.

Lemma sort_ascending l : NoDup l -> ascending (sort l).
Proof.
  induction 1 as [|x l Hx Hnd IH]; [exact I|]. cbn [sort fold_right]. fold (sort l).
  apply insertSorted_ascending; [exact IH|]. rewrite sort_In. exact Hx.
Qed.

Lemma recordFileOp_spec ops name path :
  let ops' := recordFileOp ops name path in
  (forall f, In f (read ops') <-> In f (read ops) \/ (name = "read" /\ f = path)) /\
  (forall f, In f (written ops') <-> In f (written ops) \/ (name = "write" /\ f = path)) /\
  (forall f, In f (edited ops') <-> In f (edited ops) \/ (name = "edit" /\ f = path)) /\
  (NoDup (read ops) -> NoDup (read ops')).
Proof.
  cbv zeta. unfold recordFileOp.
  destruct (String.eqb_spec name "read") as [->|Hr].
  { cbn [read written edited].
    refine (conj _ (conj _ (conj _ _))); try (intros f; rewrite ?setAdd_In; intuition congruence).
    try apply setAdd_NoDup. }
  destruct (String.eqb_spec name "write") as [->|Hw].
  { cbn [read written edited].
    refine (conj _ (conj _ (conj _ _))); try (intros f; rewrite ?setAdd_In; intuition congruence).
  }
  destruct (String.eqb_spec name "edit") as [->|He].
  { cbn [read written edited].
    refine (conj _ (conj _ (conj _ _))); try (intros f; rewrite ?setAdd_In; intuition congruence).
  }
  refine (conj _ (conj _ (conj _ _))); intros f; intuition congruence.
Qed.

Definition recordedIn (calls : list (string * string)) (ops0 ops : FileOps) : Prop :=
  (forall f, In f (read ops) <-> In f (read ops0) \/ In ("read", f) calls) /\
  (forall f, In f (written ops) <-> In f (written ops0) \/ In ("write", f) calls) /\
  (forall f, In f (edited ops) <-> In f (edited ops0) \/ In ("edit", f) calls) /\
  (NoDup (read ops0) -> NoDup (read ops)).

Lemma recordedIn_nil ops : recordedIn [] ops ops.
Proof. unfold recordedIn. cbn [In]. repeat split; tauto. Qed.

Lemma recordedIn_trans c1 c2 a b c :
  recordedIn c1 a b -> recordedIn c2 b c -> recordedIn (c1 ++ c2) a c.
Proof.
  intros (R1 & W1 & E1 & N1) (R2 & W2 & E2 & N2). unfold recordedIn.
  refine (conj _ (conj _ (conj _ (fun H => N2 (N1 H))))); intros f; rewrite in_app_iff.
  - rewrite R2, R1. tauto.
  - rewrite W2, W1. tauto.
  - rewrite E2, E1. tauto.
Qed.

Lemma extractFileOpsFromMessage_spec ops message :
  recordedIn (fileCalls message) ops (extractFileOpsFromMessage pathOf ops message).
Proof.
  unfold extractFileOpsFromMessage, fileCalls.
  destruct (role message); [apply recordedIn_nil|].
  destruct (content message) as [s|bs]; [apply recordedIn_nil|].
  revert ops. induction bs as [|b bs IH]; intros ops; [apply recordedIn_nil|].
  cbn [fold_left flat_map].
  match goal with |- recordedIn (?c ++ _) _ _ => set (calls := c) end.
  apply (recordedIn_trans calls _ ops
           (match b with
            | tool_use _ name args =>
                match pathOf args with
                | Some path =>
                    if (path =? EmptyString)%string then ops else recordFileOp ops name path
                | None => ops
                end
            | _ => ops
            end)); [|apply IH].
  unfold calls. destruct b as [t|id name args|id name c]; try apply recordedIn_nil.
  destruct (pathOf args) as [path|]; [|apply recordedIn_nil].
  destruct (path =? EmptyString)%string; [apply recordedIn_nil|].
  destruct (recordFileOp_spec ops name path) as (R & W & E & N). cbv zeta in R, W, E, N.
  unfold recordedIn. cbn [In].
  refine (conj _ (conj _ (conj _ N))); intros f; rewrite ?R, ?W, ?E;
    (split; intros [H|H]; auto;
     [destruct H as [-> ->]; auto
     |destruct H as [H|[]]; injection H as <- <-; auto]).
Qed.

Lemma collectFileOps_spec msgs : forall ops,
  recordedIn (flat_map fileCalls msgs) ops (fold_left (extractFileOpsFromMessage pathOf) msgs ops).
Proof.
  induction msgs as [|m msgs IH]; intros ops; cbn [fold_left flat_map]; [apply recordedIn_nil|].
  eapply recordedIn_trans; [apply extractFileOpsFromMessage_spec|apply IH].
Qed.

(** X23.  The file lists appended to a compaction summary.  Both lists are
    strictly ascending by code units (so without duplicates) and they
    share no file: [modifiedFiles] holds the paths given to a [write]
    or [edit] call of an assistant message, [readFiles] those given to
    a [read] call and to no [write] or [edit] call.  Calls without a
    string [path], or with an empty one, and other tools leave no
    trace. *)
Theorem file_lists_sorted_and_disjoint (msgs : list Message) :
  let calls := flat_map fileCalls msgs in
  let '(readFiles, modifiedFiles) := computeFileLists (collectFileOps pathOf msgs) in
  ascending readFiles /\ ascending modifiedFiles /\
  (forall f, In f modifiedFiles <-> In ("write", f) calls \/ In ("edit", f) calls) /\
  (forall f, In f readFiles <-> In ("read", f) calls /\ ~ In f modifiedFiles) /\
  (forall f, In f readFiles -> In f modifiedFiles -> False).
Proof.
  cbv zeta. unfold computeFileLists, collectFileOps.
  destruct (collectFileOps_spec msgs createFileOps) as (R & W & E & N).
  set (ops := fold_left (extractFileOpsFromMessage pathOf) msgs createFileOps) in *.
  cbn [createFileOps read written edited In] in R, W, E, N.
  set (modified := setOf (edited ops ++ written ops)).
  assert (Hmod : forall f, In f modified <->
                           In ("write", f) (flat_map fileCalls msgs) \/
                           In ("edit", f) (flat_map fileCalls msgs)).
  { intros f. unfold modified, setOf. rewrite fold_setAdd_In, in_app_iff, W, E.
    cbn [In]. tauto. }
  assert (Hro : forall f, In f (filter (fun file => negb (setHas modified file)) (read ops)) <->
                          In ("read", f) (flat_map fileCalls msgs) /\ ~ In f modified).
  { intros f. rewrite filter_In, R, negb_true_iff.
    split; intros [H1 H2]; (split; [tauto|]).
    - intros H. apply setHas_In in H. congruence.
    - destruct (setHas modified f) eqn:Eh; [|reflexivity]. apply setHas_In in Eh. contradiction. }
  refine (conj _ (conj _ (conj _ (conj _ _)))).
  - apply sort_ascending, NoDup_filter, N. constructor.
  - apply sort_ascending. unfold modified, setOf. apply fold_setAdd_NoDup. constructor.
  - intros f. rewrite sort_In. apply Hmod.
  - intros f. rewrite !sort_In. apply Hro.
  - intros f. rewrite !sort_In. intros H1 H2. apply Hro in H1. apply (proj2 H1 H2).
Qed.

End FileListProperties.

(* ------------------------------------------------------------------ *)
(** ** Failover classification and retry (errors.ts) *)

Section FailoverProperties.
Import Errors Failover.

Lemma matchesAny_lower m ps : matchesAny (JsString.toLowerCase m) ps = matchesAny m ps.
Proof. unfold matchesAny. rewrite toLowerCase_idem. reflexivity. Qed.

Lemma falsy_lower m : falsy (JsString.toLowerCase m) = falsy m.
Proof. destruct m; reflexivity. Qed.

Lemma falsy_spec m : falsy m = false <-> m <> EmptyString.
Proof. destruct m; cbn; split; congruence. Qed.

(** X24.  The classification reads the message in lower case only, so it
    ignores letter case.  By the order of the tests, every rate-limit
    or auth error is a failover error, and a message fails over exactly
    when it is not empty and matches a billing, auth or rate-limit
    pattern, or a format pattern and no timeout pattern. *)
Theorem failover_classification (message : string) :
  let lower := JsString.toLowerCase message in
  classifyFailoverReason lower = classifyFailoverReason message /\
  isFailoverErrorMessage lower = isFailoverErrorMessage message /\
  isRateLimitError lower = isRateLimitError message /\
  isContextOverflowError lower = isContextOverflowError message /\
  (isRateLimitError message = true -> isFailoverErrorMessage message = true) /\
  (isAuthError message = true -> isFailoverErrorMessage message = true) /\
  (isFailoverErrorMessage message = true <->
   message <> EmptyString /\
   (matchesAny message BILLING_PATTERNS = true \/ matchesAny message AUTH_PATTERNS = true \/
    matchesAny message RATE_LIMIT_PATTERNS = true \/
    (matchesAny message FORMAT_PATTERNS = true /\ matchesAny message TIMEOUT_PATTERNS = false))).
Proof.
  cbv zeta.
  assert (Hc : classifyFailoverReason (JsString.toLowerCase message)
               = classifyFailoverReason message).
  { unfold classifyFailoverReason. rewrite !matchesAny_lower. reflexivity. }
  refine (conj Hc (conj _ (conj _ (conj _ (conj _ (conj _ _)))))).
  - unfold isFailoverErrorMessage. rewrite Hc, falsy_lower. reflexivity.
  - unfold isRateLimitError. rewrite matchesAny_lower, falsy_lower. reflexivity.
  - unfold isContextOverflowError. rewrite matchesAny_lower, falsy_lower, toLowerCase_idem.
    reflexivity.
  - unfold isRateLimitError, isFailoverErrorMessage, classifyFailoverReason.
    destruct (falsy message); [discriminate|]. cbn [negb andb]. intros ->.
    destruct (matchesAny message BILLING_PATTERNS); [reflexivity|].
    destruct (matchesAny message AUTH_PATTERNS); reflexivity.
  - unfold isAuthError, isFailoverErrorMessage, classifyFailoverReason.
    destruct (falsy message); [discriminate|]. cbn [negb andb]. intros ->.
    destruct (matchesAny message BILLING_PATTERNS); reflexivity.
  - unfold isFailoverErrorMessage, classifyFailoverReason.
    pose proof (falsy_spec message) as Hf.
    destruct (falsy message).
    { split; [discriminate|]. intros [Hne _]. apply Hf in Hne. discriminate. }
    assert (Hne : message <> EmptyString) by (apply Hf; reflexivity).
    destruct (matchesAny message BILLING_PATTERNS); [tauto|].
    destruct (matchesAny message AUTH_PATTERNS); [tauto|].
    destruct (matchesAny message RATE_LIMIT_PATTERNS); [tauto|].
    destruct (matchesAny message TIMEOUT_PATTERNS).
    { split; [discriminate|]. intros (_ & [H|[H|[H|[_ H]]]]); discriminate. }
    destruct (matchesAny message FORMAT_PATTERNS); [tauto|].
    split; [discriminate|]. intros (_ & [H|[H|[H|[H _]]]]); discriminate.
Qed.

(** A timeout hides a format error, and a rate limit is retried by the
    loop before it is looked at as a context overflow. *)
Example failover_overlaps :
  isFailoverErrorMessage "Invalid request format: upstream timed out" = false /\
  classifyFailoverReason "429: prompt is too long" = Some rate_limit /\
  isRateLimitError "429: prompt is too long" = true /\
  isContextOverflowError "429: prompt is too long" = true.
Proof. vm_compute. repeat split. Qed.

End FailoverProperties.

Section RetryProperties.
Import Retry.

Variables T E : Type.
Variable fn : nat -> Outcome T E.
Variable random : nat -> Q.
Variable options : RetryOptions E.

Let limit : Q := orDefault (attempts options) 3.
Let minDelay : Q := orDefault (minDelayMs options) 300.
Let maxDelay : Q := orDefault (maxDelayMs options) 30000.

Lemma Qmax_ge_r a b : (b <= Qmax a b)%Q.
Proof.
  unfold Qmax. destruct (Qle_bool a b) eqn:Eab; [apply Qle_refl|].
  apply Qlt_le_weak, Qnot_le_lt. intros H. apply Qle_bool_iff in H. congruence.
Qed.

Lemma Qmax_mono_l a a' b : (a <= a')%Q -> (Qmax a b <= Qmax b a')%Q.
Proof.
  intros H. unfold Qmax.
  destruct (Qle_bool a b) eqn:E1; destruct (Qle_bool b a') eqn:E2.
  - apply Qle_bool_iff. exact E2.
  - apply Qle_refl.
  - exact H.
  - apply Qle_trans with a'; [exact H|].
    apply Qlt_le_weak, Qnot_le_lt. intros H'. apply Qle_bool_iff in H'. congruence.
Qed.

Lemma Qmin_le_r a b : (Qmin a b <= b)%Q.
Proof.
  unfold Qmin. destruct (Qle_bool a b) eqn:Eab; [apply Qle_bool_iff; exact Eab|apply Qle_refl].
Qed.

Lemma backoff_clamped attemptNo randoms :
  (minDelay <= backoff random options attemptNo randoms)%Q /\
  (backoff random options attemptNo randoms <= Qmax minDelay maxDelay)%Q.
Proof.
  unfold backoff. cbv zeta. fold minDelay. fold maxDelay. split.
  - apply Qmax_ge_r.
  - apply Qmax_mono_l, Qmin_le_r.
Qed.

(** What a finished run shows. *)
Definition wellRun (r : RetryRun T E) : Prop :=
  (Z.of_nat (calls r) <= Z.max 0 (Qfloor limit))%Z /\
  (List.length (pauses r) <= calls r <= S (List.length (pauses r)))%nat /\
  (forall k info, nth_error (pauses r) k = Some info ->
     attempt info = Z.of_nat (S k) /\ fn k = Rejects (error info) /\
     (minDelay <= delay info <= Qmax minDelay maxDelay)%Q /\
     match shouldRetry options with
     | Some f => f (error info) (attempt info) = true
     | None => True
     end) /\
  match settled r with
  | Returned v => (1 <= calls r)%nat /\ fn (calls r - 1) = Resolves v
  | Thrown (Some e) => (1 <= calls r)%nat /\ fn (calls r - 1) = Rejects e
  | Thrown None => calls r = O /\ (limit < 1)%Q
  end.

Lemma le_floor (a : Z) (q : Q) : (inject_Z a <= q)%Q -> (a <= Qfloor q)%Z.
Proof. intros H. apply Qfloor_resp_le in H. rewrite Qfloor_Z in H. exact H. Qed.

Lemma retryLoop_spec fuel : forall attemptNo lastError done log,
  (1 <= Z.of_nat fuel)%Z ->
  (Qfloor limit - attemptNo + 2 <= Z.of_nat fuel)%Z ->
  attemptNo = Z.of_nat (S done) ->
  (Z.of_nat done <= Z.max 0 (Qfloor limit))%Z ->
  List.length log = done ->
  (forall k info, nth_error log k = Some info ->
     attempt info = Z.of_nat (S k) /\ fn k = Rejects (error info) /\
     (minDelay <= delay info <= Qmax minDelay maxDelay)%Q /\
     match shouldRetry options with
     | Some f => f (error info) (attempt info) = true
     | None => True
     end) ->
  match lastError with
  | Some e => (1 <= done)%nat /\ fn (done - 1) = Rejects e
  | None => done = O
  end ->
  exists r, retryLoop fn random options fuel attemptNo lastError done log = Some r /\ wellRun r.
Proof.
  induction fuel as [|fuel IH]; intros attemptNo lastError done log Hf1 Hf2 Ha Hdone Hlen Hlog Hlast;
    [lia|].
  cbn [retryLoop]. cbv zeta. fold limit.
  destruct (Qle_bool (inject_Z attemptNo) limit) eqn:Eguard; cbn [negb].
  - apply Qle_bool_iff in Eguard. pose proof (le_floor _ _ Eguard) as Hfl.
    destruct (fn done) as [v|err] eqn:Efn.
    + eexists. split; [reflexivity|]. unfold wellRun. cbn [calls pauses settled].
      refine (conj _ (conj _ (conj Hlog _))); [lia|lia|].
      split; [lia|]. replace (S done - 1)%nat with done by lia. exact Efn.
    + match goal with |- context [if ?c then _ else _] => destruct c eqn:Estop end.
      * eexists. split; [reflexivity|]. unfold wellRun. cbn [calls pauses settled].
        refine (conj _ (conj _ (conj Hlog _))); [lia|lia|].
        split; [lia|]. replace (S done - 1)%nat with done by lia. exact Efn.
      * apply orb_false_iff in Estop. destruct Estop as [_ Eshould].
        apply IH.
        -- lia.
        -- lia.
        -- lia.
        -- lia.
        -- rewrite length_app. cbn [List.length]. lia.
        -- intros k info Hk.
           destruct (Nat.lt_ge_cases k (List.length log)) as [Hlt|Hge].
           ++ rewrite nth_error_app1 in Hk by exact Hlt. apply (Hlog k info Hk).
           ++ rewrite nth_error_app2 in Hk by exact Hge.
              destruct (k - List.length log)%nat as [|j] eqn:Ej;
                [|destruct j; discriminate Hk].
              cbn [nth_error] in Hk. injection Hk as <-. cbn [attempt error delay].
              assert (k = done) by lia. subst k.
              refine (conj Ha (conj Efn (conj _ _))).
              ** apply backoff_clamped.
              ** destruct (shouldRetry options) as [f|]; [|exact I].
                 apply negb_false_iff in Eshould. exact Eshould.
        -- split; [lia|]. replace (S done - 1)%nat with done by lia. exact Efn.
  - assert (Hgt : (limit < inject_Z attemptNo)%Q).
    { apply Qnot_le_lt. intros H. apply Qle_bool_iff in H. congruence. }
    eexists. split; [reflexivity|]. unfold wellRun. cbn [calls pauses settled].
    assert (Hfl : (Qfloor limit < attemptNo)%Z).
    { apply Z.lt_nge. intros H. apply (Qlt_not_le _ _ Hgt).
      apply Qle_trans with (inject_Z (Qfloor limit)); [|apply Qfloor_le].
      rewrite <- Zle_Qle. exact H. }
    refine (conj _ (conj _ (conj Hlog _))); [lia|lia|].
    destruct lastError as [e|]; [exact Hlast|].
    split; [exact Hlast|]. rewrite Hlast in Ha. cbn in Ha. rewrite Ha in Hgt. exact Hgt.
Qed.

(** X25.  [retryAsync] always settles.  [fn] is called at most
    floor([attempts]) times, and never when [attempts] is below 1, in
    which case [undefined] is thrown.  The run returns the value of the
    first call that resolves, or throws the error of the last call
    made.  Every pause follows a failed call that [shouldRetry]
    accepted, carries the number of that attempt, and lasts between
    [minDelayMs] and the larger of [minDelayMs] and [maxDelayMs]. *)
Theorem retryAsync_bounded_and_clamped :
  exists r, retryAsync fn random options = Some r /\
  (Z.of_nat (calls r) <= Z.max 0 (Qfloor limit))%Z /\
  (List.length (pauses r) <= calls r <= S (List.length (pauses r)))%nat /\
  (forall k info, nth_error (pauses r) k = Some info ->
     attempt info = Z.of_nat (S k) /\ fn k = Rejects (error info) /\
     (minDelay <= delay info <= Qmax minDelay maxDelay)%Q /\
     match shouldRetry options with
     | Some f => f (error info) (attempt info) = true
     | None => True
     end) /\
  match settled r with
  | Returned v => (1 <= calls r)%nat /\ fn (calls r - 1) = Resolves v
  | Thrown (Some e) => (1 <= calls r)%nat /\ fn (calls r - 1) = Rejects e
  | Thrown None => calls r = O /\ (limit < 1)%Q
  end.
Proof.
  unfold retryAsync. fold limit.
  apply (retryLoop_spec (S (Z.to_nat (Qfloor limit))) 1%Z None O []).
  - lia.
  - lia.
  - reflexivity.
  - cbn. lia.
  - reflexivity.
  - intros k info Hk. destruct k; discriminate Hk.
  - reflexivity.
Qed.

End RetryProperties.

(* ------------------------------------------------------------------ *)
(** ** Session keys (session-key.ts) *)

Section SessionKeyProperties.
Import JsString SessionKey.

Ltac by_cases_on c := destruct c as [[] [] [] [] [] [] [] []]; vm_compute; intros; congruence.

Lemma idChar_lower c : isIdChar c = true -> lower_char c = c.
Proof. by_cases_on c. Qed.

Lemma idChar_nospace c : isIdChar c = true -> is_space c = false.
Proof. by_cases_on c. Qed.

Lemma idChar_nocolon c : isIdChar c = true -> (code c =? 58) = false.
Proof. by_cases_on c. Qed.

Lemma idCharI_lower c : isIdCharI c = true -> isIdChar (lower_char c) = true.
Proof. by_cases_on c. Qed.

Lemma alnumI_lower c : isAlnumI c = true -> isIdChar (lower_char c) = true.
Proof. by_cases_on c. Qed.

Lemma alnumI_lower_nodash c : isAlnumI c = true -> isDash (lower_char c) = false.
Proof. by_cases_on c. Qed.

Lemma idChar_I c : isIdChar c = true -> isIdCharI c = true.
Proof. by_cases_on c. Qed.

Lemma idChar_alnum c :
  isIdChar c = true -> isDash c = false -> ("_" =? c)%char = false -> isAlnumI c = true.
Proof. by_cases_on c. Qed.

Lemma dash_eqb c : ("-" =? c)%char = isDash c.
Proof. by_cases_on c. Qed.

Lemma dash_idChar c : isDash c = true -> isIdChar c = true.
Proof. by_cases_on c. Qed.

Lemma colon_eqb c : (":" =? c)%char = (code c =? 58).
Proof. by_cases_on c. Qed.

Definition noColon (c : ascii) : bool := negb (code c =? 58).

Lemma allChars_impl (p q : ascii -> bool) s :
  (forall c, p c = true -> q c = true) -> allChars p s = true -> allChars q s = true.
Proof.
  intros H. induction s as [|c s IH]; cbn [allChars]; [reflexivity|].
  intros E. apply andb_true_iff in E as [E1 E2]. rewrite (H c E1), (IH E2). reflexivity.
Qed.

Lemma allChars_app p a b : allChars p (a +++ b) = allChars p a && allChars p b.
Proof.
  induction a as [|c a IH]; cbn [String.append allChars]; [reflexivity|].
  rewrite IH, andb_assoc. reflexivity.
Qed.

Lemma allChars_lower s : allChars isIdChar s = true -> toLowerCase s = s.
Proof.
  induction s as [|c s IH]; cbn [allChars toLowerCase]; [reflexivity|].
  intros E. apply andb_true_iff in E as [E1 E2]. rewrite (idChar_lower c E1), (IH E2). reflexivity.
Qed.

Lemma allChars_trimEnd s : allChars isIdChar s = true -> trimEnd s = s.
Proof.
  induction s as [|c s IH]; cbn [allChars trimEnd]; [reflexivity|].
  intros E. apply andb_true_iff in E as [E1 E2].
  rewrite (idChar_nospace c E1), (IH E2). reflexivity.
Qed.

Lemma allChars_noLead s : allChars isIdChar s = true -> noLead s.
Proof.
  destruct s as [|c s]; cbn [allChars noLead]; [auto|].
  intros E. apply andb_true_iff in E as [E1 _]. apply idChar_nospace, E1.
Qed.

Lemma allChars_trim s : allChars isIdChar s = true -> trim s = s.
Proof.
  intros H. unfold trim. rewrite (trimStart_id s (allChars_noLead s H)).
  apply allChars_trimEnd, H.
Qed.

Lemma replaceInvalid_chars b s : allChars isIdChar (replaceInvalid b s) = true.
Proof.
  revert b. induction s as [|c s IH]; intros b; cbn [replaceInvalid allChars]; [reflexivity|].
  destruct (isIdChar c) eqn:E; cbn [allChars].
  - rewrite E, IH. reflexivity.
  - destruct b; [apply IH|]. cbn [allChars]. rewrite IH. reflexivity.
Qed.

Lemma stripLeadingDashes_chars p s :
  allChars p s = true -> allChars p (stripLeadingDashes s) = true.
Proof.
  induction s as [|c s IH]; cbn [stripLeadingDashes allChars]; [reflexivity|].
  intros E. destruct (isDash c); [|exact E]. apply andb_true_iff in E as [_ E2]. apply IH, E2.
Qed.

Lemma stripTrailingDashes_chars p s :
  allChars p s = true -> allChars p (stripTrailingDashes s) = true.
Proof.
  induction s as [|c s IH]; cbn [stripTrailingDashes allChars]; [reflexivity|].
  intros E. apply andb_true_iff in E as [E1 E2].
  destruct (isDash c && (stripTrailingDashes s =? EmptyString)%string); [reflexivity|].
  cbn [allChars]. rewrite E1, (IH E2). reflexivity.
Qed.

Lemma take_chars p n s : allChars p s = true -> allChars p (take n s) = true.
Proof.
  revert s. induction n as [|n IH]; intros [|c s]; cbn [take allChars]; try reflexivity.
  intros E. apply andb_true_iff in E as [E1 E2]. rewrite E1, (IH s E2). reflexivity.
Qed.

(** A string that does not begin with a dash. *)
Definition noDashLead (s : string) : Prop :=
  match s with
  | EmptyString => True
  | String c _ => isDash c = false
  end.

Lemma stripLeadingDashes_lead s : noDashLead (stripLeadingDashes s).
Proof.
  induction s as [|c s IH]; cbn [stripLeadingDashes]; [exact I|].
  destruct (isDash c) eqn:E; [exact IH|exact E].
Qed.

Lemma stripTrailingDashes_lead s : noDashLead s -> noDashLead (stripTrailingDashes s).
Proof.
  destruct s as [|c s]; cbn [stripTrailingDashes noDashLead]; [auto|].
  intros E. rewrite E. exact E.
Qed.

Lemma take_lead n s : noDashLead s -> noDashLead (take n s).
Proof. destruct n, s; cbn [take noDashLead]; auto. Qed.

Lemma startsWith_nil s : startsWith s EmptyString = true.
Proof. destruct s; reflexivity. Qed.

Lemma startsWith_char s c d :
  startsWith (String d s) (String c EmptyString) = (c =? d)%char.
Proof. cbn [startsWith]. rewrite startsWith_nil. apply andb_true_r. Qed.

Lemma noDashLead_startsWith s : noDashLead s -> startsWith s "-" = false.
Proof.
  destruct s as [|c s]; cbn [noDashLead]; [reflexivity|].
  intros E. rewrite startsWith_char, dash_eqb. exact E.
Qed.

Lemma length_toLowerCase s : String.length (toLowerCase s) = String.length s.
Proof. induction s as [|c s IH]; cbn [toLowerCase String.length]; congruence. Qed.

Lemma truthy_spec s : truthy s = true <-> s <> EmptyString.
Proof. destruct s; cbn; split; congruence. Qed.

(** What makes a string an agent id in normal form. *)
Definition safeId (id : string) : Prop :=
  id <> EmptyString /\ (String.length id <= 64)%nat /\ allChars isIdChar id = true /\
  noDashLead id.

Lemma normalizeAgentId_safe value : safeId (normalizeAgentId value).
Proof.
  unfold normalizeAgentId. cbv zeta. set (trimmed := trim (orEmpty value)).
  destruct (truthy trimmed) eqn:Et; cbn [negb].
  2:{ unfold safeId. cbn. repeat split; try lia. discriminate. }
  destruct (VALID_ID_RE trimmed) eqn:Ev.
  - destruct trimmed as [|c r]; [discriminate Ev|]. cbn [VALID_ID_RE] in Ev.
    apply andb_true_iff in Ev as [Ev Hr]. apply andb_true_iff in Ev as [Hc Hlen].
    apply Nat.leb_le in Hlen. unfold safeId. cbn [toLowerCase String.length allChars noDashLead].
    refine (conj _ (conj _ (conj _ _))).
    + discriminate.
    + rewrite length_toLowerCase. lia.
    + rewrite (alnumI_lower c Hc). cbn [andb].
      clear -Hr. induction r as [|d r IH]; cbn [toLowerCase allChars] in *; [reflexivity|].
      apply andb_true_iff in Hr as [H1 H2]. rewrite (idCharI_lower d H1), (IH H2). reflexivity.
    + apply alnumI_lower_nodash, Hc.
  - set (cleaned := take 64 _).
    assert (Hs : (String.length cleaned <= 64)%nat /\ allChars isIdChar cleaned = true /\
                 noDashLead cleaned).
    { unfold cleaned. refine (conj (length_take _ _) (conj _ _)).
      - apply take_chars, stripTrailingDashes_chars, stripLeadingDashes_chars,
          replaceInvalid_chars.
      - apply take_lead, stripTrailingDashes_lead, stripLeadingDashes_lead. }
    destruct (truthy cleaned) eqn:Ec.
    + split; [apply truthy_spec; exact Ec|exact Hs].
    + unfold safeId. cbn. repeat split; try lia. discriminate.
Qed.

Lemma normalizeAgentId_fixed id :
  safeId id -> startsWith id "_" = false -> normalizeAgentId (Some id) = id.
Proof.
  intros (Hne & Hlen & Hch & Hlead) Hu. unfold normalizeAgentId. cbv zeta. cbn [orEmpty].
  rewrite (allChars_trim id Hch).
  destruct id as [|c r]; [contradiction|]. cbn [truthy negb VALID_ID_RE].
  cbn [allChars] in Hch. apply andb_true_iff in Hch as [Hc Hr].
  rewrite startsWith_char in Hu. cbn [noDashLead] in Hlead.
  rewrite (idChar_alnum c Hc Hlead Hu). cbn [String.length] in Hlen.
  assert (Hl : (String.length r <=? 63) = true) by (apply Nat.leb_le; lia).
  rewrite Hl, (allChars_impl isIdChar isIdCharI r idChar_I Hr). cbn [andb].
  apply allChars_lower. cbn [allChars]. rewrite Hc, Hr. reflexivity.
Qed.

(** X26.  Whatever it is given, [normalizeAgentId] returns a non-empty id of
    at most 64 characters among a-z, 0-9, underscore and dash that does
    not begin with a dash; and an id it returned is returned unchanged
    when normalised again, unless it begins with an underscore. *)
Theorem normalizeAgentId_is_safe (value : option string) :
  let id := normalizeAgentId value in
  id <> EmptyString /\ (String.length id <= 64)%nat /\ allChars isIdChar id = true /\
  startsWith id "-" = false /\
  (startsWith id "_" = false -> normalizeAgentId (Some id) = id).
Proof.
  cbv zeta. pose proof (normalizeAgentId_safe value) as Hs.
  destruct Hs as (H1 & H2 & H3 & H4).
  refine (conj H1 (conj H2 (conj H3 (conj (noDashLead_startsWith _ H4) _)))).
  apply normalizeAgentId_fixed. repeat split; assumption.
Qed.

(** An id cut at 64 characters can end with a dash; when it also
    begins with an underscore, normalising it again removes the dash. *)
Example normalizeAgentId_not_idempotent :
  let id := normalizeAgentId (Some ("_" +++ JsString.repeat "a" 62 +++ "!b")) in
  id = "_" +++ JsString.repeat "a" 62 +++ "-" /\
  normalizeAgentId (Some id) = "_" +++ JsString.repeat "a" 62.
Proof. vm_compute. split; reflexivity. Qed.

(** *** Resolved keys *)

Definition canonicalKey (key : string) : Prop :=
  startsWith key "agent:" = true /\ toLowerCase key = key /\ trim key = key.

Lemma safeId_noLead id : safeId id -> noLead id.
Proof. intros (_ & _ & H & _). apply allChars_noLead, H. Qed.

Lemma canonical_prefixed id rest :
  safeId id -> rest <> EmptyString -> toLowerCase rest = rest -> trim rest = rest ->
  canonicalKey ("agent:" +++ id +++ ":" +++ rest).
Proof.
  intros Hid Hne Hlow Htrim. unfold canonicalKey.
  refine (conj (startsWith_app "agent:" _) (conj _ _)).
  - rewrite !toLowerCase_app, Hlow.
    destruct Hid as (_ & _ & Hch & _). rewrite (allChars_lower id Hch). reflexivity.
  - apply (trim_app "agent:"); [discriminate|reflexivity| |].
    + destruct id; [destruct Hid as [H _]; contradiction|discriminate].
    + apply trim_app; [apply Hid|apply safeId_noLead, Hid| |].
      * discriminate.
      * apply (trim_app ":"); [discriminate|reflexivity|exact Hne|exact Htrim].
Qed.

Lemma lower_trim_stable x :
  trim x <> EmptyString ->
  toLowerCase (trim x) <> EmptyString /\
  toLowerCase (toLowerCase (trim x)) = toLowerCase (trim x) /\
  trim (toLowerCase (trim x)) = toLowerCase (trim x).
Proof.
  intros Hne. refine (conj _ (conj (toLowerCase_idem _) _)).
  - intros E. apply Hne. destruct (trim x); [reflexivity|discriminate E].
  - rewrite trim_lower, trim_idem. reflexivity.
Qed.

Lemma buildAgentMainSessionKey_canonical agentId mainKey :
  canonicalKey (buildAgentMainSessionKey agentId mainKey).
Proof.
  unfold buildAgentMainSessionKey. apply canonical_prefixed.
  - apply normalizeAgentId_safe.
  - unfold normalizeMainKey. cbv zeta. destruct (truthy (trim (orEmpty mainKey))) eqn:E.
    + apply lower_trim_stable, truthy_spec, E.
    + discriminate.
  - unfold normalizeMainKey. cbv zeta. destruct (truthy (trim (orEmpty mainKey))) eqn:E.
    + apply toLowerCase_idem.
    + reflexivity.
  - unfold normalizeMainKey. cbv zeta. destruct (truthy (trim (orEmpty mainKey))) eqn:E.
    + apply lower_trim_stable, truthy_spec, E.
    + reflexivity.
Qed.

Lemma toAgentStoreSessionKey_canonical agentId requestKey mainKey :
  canonicalKey (toAgentStoreSessionKey agentId requestKey mainKey).
Proof.
  unfold toAgentStoreSessionKey. cbv zeta. set (x := orEmpty requestKey).
  destruct (truthy (trim x)) eqn:Et; cbn [negb orb];
    [|apply buildAgentMainSessionKey_canonical].
  destruct (normalizeToken (Some (trim x)) =? DEFAULT_MAIN_KEY)%string;
    [apply buildAgentMainSessionKey_canonical|].
  apply truthy_spec in Et. destruct (lower_trim_stable x Et) as (Hne & Hlow & Htrim).
  destruct (startsWith (toLowerCase (trim x)) "agent:") eqn:Es.
  - unfold canonicalKey. auto.
  - apply canonical_prefixed; [apply normalizeAgentId_safe|assumption..].
Qed.

Lemma resolveSessionKey_canonical agentId sessionId sessionKey :
  canonicalKey (resolveSessionKey agentId sessionId sessionKey).
Proof.
  unfold resolveSessionKey. cbv zeta.
  destruct (truthy _); [apply toAgentStoreSessionKey_canonical|].
  destruct (truthy _); [apply toAgentStoreSessionKey_canonical|].
  apply buildAgentMainSessionKey_canonical.
Qed.

(** X27.  Every resolved session key begins with [agent:], is in lower case
    and carries no outer white space; and it is a fixed point: passed
    back as [sessionKey], with any agent id and session id beside it,
    it is returned unchanged. *)
Theorem resolveSessionKey_is_canonical (agentId sessionId sessionKey : option string) :
  let key := resolveSessionKey agentId sessionId sessionKey in
  startsWith key "agent:" = true /\ toLowerCase key = key /\ trim key = key /\
  forall otherAgent otherSession, resolveSessionKey otherAgent otherSession (Some key) = key.
Proof.
  cbv zeta.
  destruct (resolveSessionKey_canonical agentId sessionId sessionKey) as (Hs & Hl & Ht).
  set (key := resolveSessionKey agentId sessionId sessionKey) in *.
  refine (conj Hs (conj Hl (conj Ht _))). intros otherAgent otherSession.
  unfold resolveSessionKey. cbv zeta. rewrite Ht.
  assert (Hne : truthy key = true) by (destruct key; [discriminate Hs|reflexivity]).
  rewrite Hne. unfold toAgentStoreSessionKey. cbv zeta. cbn [orEmpty]. rewrite Ht, Hne.
  unfold normalizeToken. cbn [orEmpty negb orb]. rewrite Ht, Hl.
  destruct (String.eqb_spec key DEFAULT_MAIN_KEY) as [E|_].
  { rewrite E in Hs. discriminate Hs. }
  rewrite Hs. reflexivity.
Qed.

(** *** Sub-agent keys *)

Lemma append_snoc cur c r : (cur +++ String c EmptyString) +++ r = cur +++ String c r.
Proof. induction cur as [|d cur IH]; cbn [String.append]; [reflexivity|]. rewrite IH. reflexivity. Qed.

Lemma append_empty_r s : s +++ EmptyString = s.
Proof. induction s as [|c s IH]; cbn [String.append]; congruence. Qed.

Lemma splitColonFrom_piece cur a : allChars noColon a = true -> splitColonFrom cur a = [cur +++ a].
Proof.
  revert cur. induction a as [|c a IH]; intros cur; cbn [allChars splitColonFrom].
  - rewrite append_empty_r. reflexivity.
  - intros E. apply andb_true_iff in E as [E1 E2]. unfold noColon in E1.
    apply negb_true_iff in E1. rewrite E1, (IH _ E2), append_snoc. reflexivity.
Qed.

Lemma splitColonFrom_app cur a b :
  allChars noColon a = true ->
  splitColonFrom cur (a +++ ":" +++ b) = (cur +++ a) :: splitColon b.
Proof.
  revert cur. induction a as [|c a IH]; intros cur; cbn [allChars String.append splitColonFrom].
  - intros _. rewrite append_empty_r. reflexivity.
  - intros E. apply andb_true_iff in E as [E1 E2]. unfold noColon in E1.
    apply negb_true_iff in E1. rewrite E1. cbn [String.append] in IH.
    rewrite (IH _ E2), append_snoc. reflexivity.
Qed.

Lemma includes_noColon s : includes s ":" = false -> allChars noColon s = true.
Proof.
  induction s as [|c s IH]; cbn [includes allChars]; [reflexivity|].
  intros E. apply orb_false_iff in E as [E1 E2]. rewrite startsWith_char, colon_eqb in E1.
  unfold noColon at 1. rewrite E1, (IH E2). reflexivity.
Qed.

Lemma subagent_parse agentId id :
  id <> EmptyString -> trim id = id -> includes id ":" = false ->
  parseAgentSessionKey (Some (buildSubagentSessionKey agentId id))
  = Some (normalizeAgentId (Some (normalizeAgentId (Some agentId))), "subagent:" +++ id).
Proof.
  intros Hne Htrim Hcolon.
  pose proof (normalizeAgentId_safe (Some agentId)) as Hsafe.
  set (nid := normalizeAgentId (Some agentId)) in *.
  destruct Hsafe as (Hn & Hlen & Hch & Hlead).
  assert (Hsafe : safeId nid) by (repeat split; assumption).
  assert (Hid : allChars noColon id = true) by (apply includes_noColon, Hcolon).
  assert (Hnc : allChars noColon nid = true).
  { apply (allChars_impl isIdChar); [|exact Hch]. intros c Hc. unfold noColon.
    rewrite (idChar_nocolon c Hc). reflexivity. }
  assert (Hrest : trim ("subagent:" +++ id) = "subagent:" +++ id).
  { apply trim_app; [discriminate|reflexivity|exact Hne|exact Htrim]. }
  assert (Hkey : trim (buildSubagentSessionKey agentId id) = buildSubagentSessionKey agentId id).
  { unfold buildSubagentSessionKey. fold nid.
    apply (trim_app "agent:"); [discriminate|reflexivity| |].
    - destruct nid; [contradiction|discriminate].
    - apply trim_app; [exact Hn|apply safeId_noLead, Hsafe|discriminate|].
      apply (trim_app ":subagent:"); [discriminate|reflexivity|exact Hne|exact Htrim]. }
  assert (Hsplit : splitColon (buildSubagentSessionKey agentId id)
                   = ["agent"; nid; "subagent"; id]).
  { unfold buildSubagentSessionKey, splitColon. fold nid.
    change ("agent:" +++ nid +++ ":subagent:" +++ id)
      with ("agent" +++ ":" +++ (nid +++ ":" +++ ("subagent" +++ ":" +++ id))).
    rewrite splitColonFrom_app by reflexivity. unfold splitColon.
    rewrite splitColonFrom_app by exact Hnc.
    unfold splitColon. rewrite splitColonFrom_app by reflexivity.
    unfold splitColon. rewrite splitColonFrom_piece by exact Hid. reflexivity. }
  unfold parseAgentSessionKey. cbv zeta. cbn [orEmpty]. rewrite Hkey.
  assert (Ht : truthy (buildSubagentSessionKey agentId id) = true) by reflexivity.
  rewrite Ht, Hsplit. cbn [negb filter truthy].
  assert (Hnt : truthy nid = true) by (apply truthy_spec, Hn).
  assert (Hit : truthy id = true) by (apply truthy_spec, Hne).
  rewrite Hnt, Hit.
  change (toLowerCase "agent" =? "agent")%string with true. cbn [negb].
  change (join ":" ["subagent"; id]) with ("subagent:" +++ id).
  rewrite Hrest. reflexivity.
Qed.

(** X28.  The key the agent builds for a sub-agent is read back as one: for
    a non-empty id without colon or outer white space (a UUID is one), the key
    parses into the agent id and [subagent:] followed by the id, and
    [isSubagentSessionKey] accepts it, so a sub-agent cannot spawn
    another.  The agent id read back is the one written, unless it
    begins with an underscore. *)
Theorem subagent_key_round_trip (agentId id : string) :
  id <> EmptyString -> trim id = id -> includes id ":" = false ->
  let key := buildSubagentSessionKey agentId id in
  let written := normalizeAgentId (Some agentId) in
  parseAgentSessionKey (Some key) = Some (normalizeAgentId (Some written), "subagent:" +++ id) /\
  isSubagentSessionKey (Some key) = true /\
  (startsWith written "_" = false -> resolveAgentIdFromSessionKey (Some key) = written).
Proof.
  intros Hne Htrim Hcolon. cbv zeta.
  pose proof (subagent_parse agentId id Hne Htrim Hcolon) as Hp.
  refine (conj Hp (conj _ _)).
  - unfold isSubagentSessionKey. rewrite Hp.
    assert (Ht : truthy ("subagent:" +++ id) = true) by reflexivity.
    rewrite Ht. cbn [negb].
    rewrite (trim_app "subagent:" id); [|discriminate|reflexivity|exact Hne|exact Htrim].
    rewrite toLowerCase_app. apply (startsWith_app "subagent:").
  - intros Hu. unfold resolveAgentIdFromSessionKey. rewrite Hp.
    rewrite (normalizeAgentId_fixed _ (normalizeAgentId_safe (Some agentId)) Hu).
    apply (normalizeAgentId_fixed _ (normalizeAgentId_safe (Some agentId)) Hu).
Qed.

Lemma subagent_key_round_trip_witness :
  let key := buildSubagentSessionKey "Research Desk" "3f2a-77" in
  key = "agent:research-desk:subagent:3f2a-77" /\
  parseAgentSessionKey (Some key) = Some ("research-desk", "subagent:3f2a-77") /\
  isSubagentSessionKey (Some key) = true.
Proof.
  destruct (subagent_key_round_trip "Research Desk" "3f2a-77") as (Hp & Hs & _).
  - discriminate.
  - reflexivity.
  - reflexivity.
  - split; [reflexivity|]. split; [exact Hp|exact Hs].
Defined.

End SessionKeyProperties.

(* ------------------------------------------------------------------ *)
(** ** XML escaping (skill-primitives.ts) *)

Section EscapeProperties.
Import JsString SkillPrimitives.

(** The characters with a meaning in XML markup. *)
Definition isMarkup (c : ascii) : bool :=
  let n := code c in (n =? 38) || (n =? 60) || (n =? 62) || (n =? 34) || (n =? 39).

Fixpoint noneOf (p : ascii -> bool) (s : string) : bool :=
  match s with
  | EmptyString => true
  | String c r => negb (p c) && noneOf p r
  end.

Definition isBracketOrQuote (c : ascii) : bool :=
  let n := code c in (n =? 60) || (n =? 62) || (n =? 34) || (n =? 39).

Lemma noneOf_app p a b : noneOf p (a +++ b) = noneOf p a && noneOf p b.
Proof.
  induction a as [|c a IH]; cbn [String.append noneOf]; [reflexivity|].
  rewrite IH, andb_assoc. reflexivity.
Qed.

Lemma code_inj c n : code c = n -> c = ascii_of_nat n.
Proof. intros <-. symmetry. apply ascii_nat_embedding. Qed.

Lemma XML_ESCAPE_cases c :
  (isMarkup c = false /\ XML_ESCAPE c = String c EmptyString) \/
  (c = ascii_of_nat 38 /\ XML_ESCAPE c = "&amp;") \/
  (c = ascii_of_nat 60 /\ XML_ESCAPE c = "&lt;") \/
  (c = ascii_of_nat 62 /\ XML_ESCAPE c = "&gt;") \/
  (c = ascii_of_nat 34 /\ XML_ESCAPE c = "&quot;") \/
  (c = ascii_of_nat 39 /\ XML_ESCAPE c = "&apos;").
Proof.
  unfold XML_ESCAPE, isMarkup. cbv zeta.
  destruct (Nat.eqb_spec (code c) 38) as [E|_]; [right; left; split; [apply code_inj, E|reflexivity]|].
  destruct (Nat.eqb_spec (code c) 60) as [E|_];
    [right; right; left; split; [apply code_inj, E|reflexivity]|].
  destruct (Nat.eqb_spec (code c) 62) as [E|_];
    [right; right; right; left; split; [apply code_inj, E|reflexivity]|].
  destruct (Nat.eqb_spec (code c) 34) as [E|_];
    [right; right; right; right; left; split; [apply code_inj, E|reflexivity]|].
  destruct (Nat.eqb_spec (code c) 39) as [E|_];
    [right; right; right; right; right; split; [apply code_inj, E|reflexivity]|].
  left. split; reflexivity.
Qed.

Lemma escapeXml_injective a : forall b, escapeXml a = escapeXml b -> a = b.
Proof.
  induction a as [|c a IH]; intros [|d b]; cbn [escapeXml].
  - reflexivity.
  - intros E. exfalso.
    destruct (XML_ESCAPE_cases d) as [[_ H]|[[_ H]|[[_ H]|[[_ H]|[[_ H]|[_ H]]]]]];
      rewrite H in E; discriminate E.
  - intros E. exfalso.
    destruct (XML_ESCAPE_cases c) as [[_ H]|[[_ H]|[[_ H]|[[_ H]|[[_ H]|[_ H]]]]]];
      rewrite H in E; discriminate E.
  - intros E.
    destruct (XML_ESCAPE_cases c) as [[Hc H]|[[Hc H]|[[Hc H]|[[Hc H]|[[Hc H]|[Hc H]]]]]];
      destruct (XML_ESCAPE_cases d) as [[Hd H']|[[Hd H']|[[Hd H']|[[Hd H']|[[Hd H']|[Hd H']]]]]];
      rewrite H, H' in E; cbn [String.append] in E;
      try discriminate E;
      (injection E; clear E; intros; subst;
       first [ solve [f_equal; apply IH; assumption]
             | exfalso; first [ vm_compute in Hc; discriminate Hc
                              | vm_compute in Hd; discriminate Hd ] ]).
Qed.

(** X29.  The escaped text holds no angle bracket and no quote, it is the
    text itself when the text holds no markup character, and two
    different texts never escape to the same one. *)
Theorem escapeXml_is_safe_and_injective (str : string) :
  noneOf isBracketOrQuote (escapeXml str) = true /\
  (noneOf isMarkup str = true -> escapeXml str = str) /\
  (forall other, escapeXml str = escapeXml other -> str = other).
Proof.
  refine (conj _ (conj _ (escapeXml_injective str))).
  - induction str as [|c s IH]; cbn [escapeXml]; [reflexivity|].
    rewrite noneOf_app, IH, andb_true_r.
    destruct (XML_ESCAPE_cases c) as [[Hc H]|[[_ H]|[[_ H]|[[_ H]|[[_ H]|[_ H]]]]]];
      rewrite H; try reflexivity.
    cbn [noneOf]. rewrite andb_true_r. unfold isMarkup in Hc. unfold isBracketOrQuote.
    cbv zeta in *. destruct (code c =? 38); [discriminate Hc|]. cbn [orb] in Hc.
    rewrite Hc. reflexivity.
  - induction str as [|c s IH]; cbn [escapeXml noneOf]; [reflexivity|].
    intros E. apply andb_true_iff in E as [E1 E2]. apply negb_true_iff in E1.
    rewrite (IH E2).
    destruct (XML_ESCAPE_cases c) as [[_ H]|[[Hc _]|[[Hc _]|[[Hc _]|[[Hc _]|[Hc _]]]]]];
      [rewrite H; reflexivity|subst c; discriminate E1..].
Qed.

End EscapeProperties.
